(** * starcode: the scheduling plan, the k-mer filter, nuke-sort and padding

    A shallow embedding of [src/starcode.c], the properties of its parts
    that the specification states, and further properties read off the
    code: the scheduler [run_plan], the sizing of the tries in
    [count_trie_nodes], [unpad_useq], the records that [seqsort] keeps, and
    how the steps of [starcode] fit together.

    Conventions of the embedding.
    - A C [int] is a [Z].  [/] and [%] are C's truncating operators,
      [Z.quot] and [Z.rem].  Where an [int] is computed from data that no
      array size bounds (the k-mer identifier of [seq2id], the merged
      [count] of [nukesort], [3 * thrmax] in [starcode]) the two's complement
      wrap-around [wrap] is written out; index arithmetic that is bounded by
      an array length stays in [Z].
    - A C string is the [list ascii] of the bytes before its terminating
      NUL; reading the index [length s] gives NUL, reading further or before
      the buffer is an out-of-bounds access, [None] in the embedding.
    - [alert(); krash();] aborts the process.  Functions that can abort or
      read out of bounds return an [option] or a [dq_status]. *)

From Stdlib Require Import ZArith List Ascii Lia Bool Sorted.
From stdpp Require Import base list.

Local Open Scope Z_scope.

(* ================================================================= *)
(** ** C integers and loops *)

Definition INT_MAX : Z := 2147483647.

(** Two's complement wrap-around of a 32-bit [int]. *)
Definition wrap (z : Z) : Z := (z + 2 ^ 31) mod 2 ^ 32 - 2 ^ 31.

(** The indices of [for (int i = 0; i < n; i++)]. *)
Definition zrange (n : Z) : list Z := seqZ 0 n.

(** [a[i]] for an [int] array held in a list. *)
Definition znth (l : list Z) (i : Z) : Z := default 0 (l !! Z.to_nat i).

(* ================================================================= *)
(** ** Data model *)

Abbreviation cstr := (list ascii).

(** [useq_t]: a sequence, its number of occurrences, an optional info
    string. *)
Record useq := mk_useq {
  useq_seq : cstr;
  useq_count : Z;
  useq_info : option cstr
}.

(** [lookup_t]: [lut_bits] holds one byte array per k-mer. *)
Record lookup := mk_lookup {
  lut_slen : Z;
  lut_kmers : Z;
  lut_klen : list Z;
  lut_bits : list (list Z)
}.

Inductive trie_flag := TRIE_FREE | TRIE_BUSY | TRIE_DONE.

(** [mtjob_t].  The pointers to the shared stack, trie, node arena, filter,
    mutex and counters are the same for all jobs of a trie; the filter is
    kept once per trie in [mttrie]. *)
Record mtjob := mk_mtjob {
  job_start : Z;
  job_end : Z;
  job_tau : Z;
  job_build : bool;
  job_queryid : Z;
  job_trieid : Z
}.

Record mttrie := mk_mttrie {
  trie_flag_of : trie_flag;
  trie_currentjob : Z;
  trie_njobs : Z;
  trie_jobs : list mtjob;
  trie_lut : lookup
}.

Record mtplan := mk_mtplan {
  plan_active : Z;
  plan_ntries : Z;
  plan_jobsdone : Z;
  plan_tries : list mttrie
}.

(* ================================================================= *)
(** ** C strings *)

(** The terminator. *)
Definition NUL : ascii := Ascii.zero.

(** A C string holds no NUL before its terminator. *)
Definition is_cstr (s : cstr) : Prop := Forall (fun c => c <> NUL) s.

(** [s[k]]: a byte of the string, the terminator at [k = strlen(s)], and an
    out-of-bounds read elsewhere. *)
Definition char_at (s : cstr) (k : Z) : option ascii :=
  if k <? 0 then None
  else match s !! Z.to_nat k with
       | Some c => Some c
       | None => if k =? Z.of_nat (length s) then Some NUL else None
       end.

(** [strlen]. *)
Definition strlen (s : cstr) : Z := Z.of_nat (length s).

(* ================================================================= *)
(** ** The k-mer filter: [seq2id], [lut_insert], [lut_search] *)

(** The two-bit code of a base: [A], [a] and the padding space are 0, [C] is
    1, [G] is 2, [T] is 3; no code for any other byte. *)
Definition base_code (c : ascii) : option Z :=
  if ((c =? "A") || (c =? "a") || (c =? " "))%char then Some 0
  else if ((c =? "C") || (c =? "c"))%char then Some 1
  else if ((c =? "G") || (c =? "g"))%char then Some 2
  else if ((c =? "T") || (c =? "t"))%char then Some 3
  else None.

(** The loop of [seq2id] with [n] iterations to go, reading at [p]; the
    shift [seqid <<= 2] is skipped in the last iteration. *)
Fixpoint seq2id_from (s : cstr) (p : Z) (n : nat) (seqid : Z) : option Z :=
  match n with
  | O => Some seqid
  | S n' =>
    match char_at s p with
    | None => None
    | Some c =>
      match base_code c with
      | Some d =>
        let seqid := wrap (seqid + d) in
        let seqid :=
          match n' with O => seqid | S _ => wrap (Z.shiftl seqid 2) end in
        seq2id_from s (p + 1) n' seqid
      | None => Some (if (c =? NUL)%char then -2 else -1)
      end
    end
  end.

(** [seq2id(seq + off, slen)]: the identifier of the k-mer, [-1] for a
    byte that is no base, [-2] for the terminator; [None] for a read out of
    bounds. *)
Definition seq2id (s : cstr) (off slen : Z) : option Z :=
  seq2id_from s off (Z.to_nat slen) 0.

(** [(row[seqid/8] >> (seqid%8)) & 1].  A byte is kept as its bit pattern
    in [0, 255]; whether [char] is signed does not change the bit read. *)
Definition get_bit (row : list Z) (seqid : Z) : option bool :=
  if seqid <? 0 then None
  else match row !! Z.to_nat (Z.quot seqid 8) with
       | Some byte =>
           Some (negb (Z.land (Z.shiftr byte (Z.rem seqid 8)) 1 =? 0))
       | None => None
       end.

(** [row[seqid/8] |= (1 << (seqid%8))], for [seqid >= 0]. *)
Definition set_bit (row : list Z) (seqid : Z) : option (list Z) :=
  let q := Z.to_nat (Z.quot seqid 8) in
  match row !! q with
  | Some byte =>
      Some (<[q := Z.lor byte (Z.shiftl 1 (Z.rem seqid 8))]> row)
  | None => None
  end.

(** The loop of [lut_insert], lines 1129-1136, with the indices below [n]
    to go; returns the bitmaps and the value returned. *)
Fixpoint lut_insert_loop (n : nat) (klen : list Z) (bits : list (list Z))
    (s : cstr) (offset : Z) : option (list (list Z) * Z) :=
  match n with
  | O => Some (bits, 0)
  | S i =>
    match klen !! i with
    | None => None
    | Some kl =>
      let offset := offset - kl in
      match seq2id s offset kl with
      | None => None
      | Some seqid =>
        if 0 <=? seqid then
          match bits !! i with
          | None => None
          | Some row =>
            match set_bit row seqid with
            | None => None
            | Some row' =>
                lut_insert_loop i klen (<[i := row']> bits) s offset
            end
          end
        else if seqid =? -2 then Some (bits, 1)
        else lut_insert_loop i klen bits s offset
      end
    end
  end.

(** [lut_insert]: the filter after the call and the value returned, 0 for
    success and 1 for failure. *)
Definition lut_insert (L : lookup) (s : cstr) : option (lookup * Z) :=
  match lut_insert_loop (Z.to_nat (lut_kmers L)) (lut_klen L) (lut_bits L)
          s (lut_slen L) with
  | Some (bits, r) =>
      Some ({| lut_slen := lut_slen L; lut_kmers := lut_kmers L;
               lut_klen := lut_klen L; lut_bits := bits |}, r)
  | None => None
  end.

(** The inner loop of [lut_search], line 1104, with [m] probes to go, the
    next one at [pos]: [Some (Some r)] when the function returns [r],
    [Some None] when the loop ends. *)
Fixpoint lut_search_window (m : nat) (row : option (list Z)) (s : cstr)
    (pos kl : Z) : option (option Z) :=
  match m with
  | O => Some None
  | S m' =>
    match seq2id s pos kl with
    | None => None
    | Some seqid =>
      if seqid =? -2 then Some (Some (-1))
      else if seqid =? -1 then lut_search_window m' row s (pos + 1) kl
      else match row with
           | None => None
           | Some r =>
             match get_bit r seqid with
             | None => None
             | Some true => Some (Some 1)
             | Some false => lut_search_window m' row s (pos + 1) kl
             end
           end
    end
  end.

(** The outer loop of [lut_search], line 1102, with the indices below [n]
    to go. *)
Fixpoint lut_search_loop (n : nat) (kmers : Z) (klen : list Z)
    (bits : list (list Z)) (s : cstr) (offset : Z) : option Z :=
  match n with
  | O => Some 0
  | S i =>
    match klen !! i with
    | None => None
    | Some kl =>
      let offset := offset - kl in
      let w := kmers - 1 - Z.of_nat i in
      match lut_search_window (Z.to_nat (2 * w + 1)) (bits !! i)
              s (offset - w) kl with
      | None => None
      | Some (Some r) => Some r
      | Some None => lut_search_loop i kmers klen bits s offset
      end
    end
  end.

(** [lut_search]: 1 when a probed bit is set, 0 when none is, -1 when a
    probe meets the terminator. *)
Definition lut_search (L : lookup) (s : cstr) : option Z :=
  lut_search_loop (Z.to_nat (lut_kmers L)) (lut_kmers L) (lut_klen L)
    (lut_bits L) s (lut_slen L).

(** A worker aborts when [lut_insert] fails: inserting a list of sequences
    one after the other, as the build job of a trie does. *)
Fixpoint lut_insert_all (L : lookup) (l : list cstr) : option lookup :=
  match l with
  | [] => Some L
  | s :: l' =>
    match lut_insert L s with
    | Some (L', 0) => lut_insert_all L' l'
    | _ => None
    end
  end.

(* ================================================================= *)
(** ** Notions of the specification *)

(** An edit script of cost [n] turns [a] into [b]: matches are free;
    substitutions, deletions and insertions cost one. *)
Inductive edits : cstr -> cstr -> nat -> Prop :=
  | edits_nil : edits [] [] 0
  | edits_match x a b n : edits a b n -> edits (x :: a) (x :: b) n
  | edits_subst x y a b n : edits a b n -> edits (x :: a) (y :: b) (S n)
  | edits_delete x a b n : edits a b n -> edits (x :: a) b (S n)
  | edits_insert y a b n : edits a b n -> edits a (y :: b) (S n).

(** The Levenshtein distance, by the usual recursion. *)
Fixpoint edit_distance (a : cstr) : cstr -> nat :=
  match a with
  | [] => fun b => length b
  | x :: a' =>
    fix inner (b : cstr) : nat :=
      match b with
      | [] => length a
      | y :: b' =>
        Nat.min (edit_distance a' b' + (if (x =? y)%char then 0 else 1))%nat
          (Nat.min (S (edit_distance a' b)) (S (inner b')))
      end
  end.

(** The bytes [s[off .. off+kl)]. *)
Definition substr (s : cstr) (off kl : Z) : cstr :=
  take (Z.to_nat kl) (drop (Z.to_nat off) s).

(** Every byte is a base (or the padding space). *)
Definition all_bases (s : cstr) : Prop :=
  Forall (fun c => base_code c <> None) s.

(** The sum of a list of [int]. *)
Definition zsum (l : list Z) : Z := fold_right Z.add 0 l.

(** The offset of the k-mer of index [i]: the value of [offset] in
    [lut_insert] once it is decremented by [klen[i]]. *)
Definition kmer_offset (L : lookup) (i : nat) : Z :=
  lut_slen L - zsum (drop i (lut_klen L)).

(** A bitmap has the size that [new_lookup] allocates for a k-mer of
    length [kl]. *)
Definition row_ok (kl : Z) (row : list Z) : Prop :=
  length row = Z.to_nat (Z.shiftl 1 (Z.max 0 (2 * kl - 3))).

(** A well-formed filter: one length and one bitmap of the allocated size
    per k-mer, and k-mers short enough for their identifier to be an
    [int]. *)
Definition lut_wf (L : lookup) : Prop :=
  lut_kmers L = Z.of_nat (length (lut_klen L)) /\
  Forall2 row_ok (lut_klen L) (lut_bits L) /\
  Forall (fun kl => kl <= 15) (lut_klen L).

(** The k-mers of the filter start inside a string of length [len]
    (k-mers of no byte are not read). *)
Definition lut_starts_in (L : lookup) (len : Z) : Prop :=
  forall i kl, lut_klen L !! i = Some kl -> 1 <= kl ->
    0 <= kmer_offset L i <= len.

(** What [lut_insert] may do to the bitmap of the k-mer read at [off]:
    nothing, or set the bit of the identifier of the k-mer. *)
Definition kmer_effect (s : cstr) (off kl : Z)
    (row row' : option (list Z)) : Prop :=
  row' = row \/
  exists v r, seq2id s off kl = Some v /\ 0 <= v /\
    row = Some r /\ row' = set_bit r v /\ is_Some (set_bit r v).

(** The probes of [lut_search] for the k-mers of the filter stay inside a
    string of length [len]: the k-mer of index [i] may be shifted by
    [kmers - 1 - i] bytes to either side. *)
Definition lut_fits (L : lookup) (len : Z) : Prop :=
  forall i kl, lut_klen L !! i = Some kl -> 1 <= kl ->
    lut_kmers L - 1 - Z.of_nat i <= kmer_offset L i /\
    kmer_offset L i + kl + (lut_kmers L - 1 - Z.of_nat i) <= len.

(** The k-mers of [a] are recorded in the filter: for every index the bit
    of the identifier of the k-mer of [a] is set. *)
Definition recorded (L : lookup) (a : cstr) : Prop :=
  forall i kl, lut_klen L !! i = Some kl ->
    exists v row, seq2id a (kmer_offset L i) kl = Some v /\ 0 <= v /\
      lut_bits L !! i = Some row /\ get_bit row v = Some true.

(* ================================================================= *)
(** ** [do_query] *)

(** The unguarded loop [while (q[k] == n[k]) k++] of lines 204 and 212,
    started at [k]: the index where it stops, or [None] when it compares
    the two terminators equal and so runs past the end of the arrays. *)
Fixpoint prefix_loop (q n : cstr) (k : Z) : option Z :=
  match q, n with
  | [], [] => None
  | [], y :: _ => if (NUL =? y)%char then None else Some k
  | x :: _, [] => if (x =? NUL)%char then None else Some k
  | x :: q', y :: n' =>
      if (x =? y)%char then prefix_loop q' n' (k + 1) else Some k
  end.

(** [seq + P] with [P] the number of leading spaces, lines 250-257. *)
Fixpoint unpad (s : cstr) : cstr :=
  match s with
  | c :: s' => if (c =? " ")%char then unpad s' else s
  | [] => []
  end.

(** How a worker ends: it completes, aborts in [krash], or reads out of
    bounds. *)
Inductive dq_status := DQ_OK | DQ_KRASH | DQ_UNDEF.

Section DoQuery.

(** The trie is an external collaborator.  [insert_string_wo_malloc]
    gives [None] when the slot returned is [NULL] or taken, [set_data] is
    the later [*data = query], [search] gives [None] on error and the hits
    per distance otherwise. *)
Variable trie : Type.
Variable insert_string_wo_malloc : trie -> cstr -> option trie.
Variable set_data : trie -> useq -> trie.
Variable search : trie -> cstr -> Z -> Z -> Z -> option (Z -> list useq).

(** The global [FORMAT] is [PE_FASTQ]. *)
Variable pe_fastq : bool.

(** The state of a worker: the filter and the trie of its job, the last
    query searched, the lines written, and the arguments [(i, start,
    trail)] of the searches made so far. *)
Record dq_state := mk_dq_state {
  dq_lut : lookup;
  dq_trie : trie;
  dq_last : option useq;
  dq_out : list (option cstr * option cstr * Z);
  dq_calls : list (Z * Z * Z)
}.

(** Lines 185-195: on a build job the query goes into the filter and the
    trie. *)
Definition do_query_build (job : mtjob) (query : useq) (st : dq_state)
  : dq_state * dq_status :=
  if job_build job then
    match lut_insert (dq_lut st) (useq_seq query) with
    | None => (st, DQ_UNDEF)
    | Some (lut', ret) =>
      let st1 := {| dq_lut := lut'; dq_trie := dq_trie st;
                    dq_last := dq_last st; dq_out := dq_out st;
                    dq_calls := dq_calls st |} in
      if ret =? 0 then
        match insert_string_wo_malloc (dq_trie st) (useq_seq query) with
        | None => (st1, DQ_KRASH)
        | Some t' =>
            ({| dq_lut := lut'; dq_trie := t'; dq_last := dq_last st;
                dq_out := dq_out st; dq_calls := dq_calls st |}, DQ_OK)
        end
      else (st1, DQ_KRASH)
    end
  else (st, DQ_OK).

(** Lines 237-261: the pairs of a query with its hits at distance 1 to
    [tau]. *)
Definition do_query_lines (tau : Z) (query : useq) (hits : Z -> list useq)
  : list (option cstr * option cstr * Z) :=
  dist ← seqZ 1 tau;
  (fun m =>
     if pe_fastq then (useq_info query, useq_info m, dist)
     else (Some (unpad (useq_seq query)), Some (unpad (useq_seq m)), dist))
  <$> hits dist.

(** Lines 197-265: the search of a query that passed the filter. *)
Definition do_query_search (job : mtjob) (items : list useq) (i : Z)
    (query : useq) (st : dq_state) : dq_state * dq_status :=
  let trail :=
    if i <? job_end job then
      match items !! Z.to_nat (i + 1) with
      | Some next_query =>
          prefix_loop (useq_seq query) (useq_seq next_query) 0
      | None => None
      end
    else Some 0 in
  let start :=
    match dq_last st with
    | Some last_query => prefix_loop (useq_seq query) (useq_seq last_query) 0
    | None => Some 0
    end in
  match trail, start with
  | Some trail, Some start =>
    let calls := dq_calls st ++ [(i, start, trail)] in
    match search (dq_trie st) (useq_seq query) (job_tau job) start trail with
    | None =>
        ({| dq_lut := dq_lut st; dq_trie := dq_trie st;
            dq_last := dq_last st; dq_out := dq_out st;
            dq_calls := calls |}, DQ_KRASH)
    | Some hits =>
        ({| dq_lut := dq_lut st; dq_trie := dq_trie st;
            dq_last := Some query;
            dq_out := dq_out st ++ do_query_lines (job_tau job) query hits;
            dq_calls := calls |}, DQ_OK)
    end
  | _, _ => (st, DQ_UNDEF)
  end.

(** The body of the loop of [do_query], lines 178-270. *)
Definition do_query_step (job : mtjob) (items : list useq) (i : Z)
    (st : dq_state) : dq_state * dq_status :=
  if i <? 0 then (st, DQ_UNDEF) else
  match items !! Z.to_nat i with
  | None => (st, DQ_UNDEF)
  | Some query =>
    match lut_search (dq_lut st) (useq_seq query) with
    | None => (st, DQ_UNDEF)
    | Some r =>
      match do_query_build job query st with
      | (st1, DQ_OK) =>
        match (if r =? 1 then do_query_search job items i query st1
               else (st1, DQ_OK)) with
        | (st2, DQ_OK) =>
            (if job_build job
             then {| dq_lut := dq_lut st2;
                     dq_trie := set_data (dq_trie st2) query;
                     dq_last := dq_last st2; dq_out := dq_out st2;
                     dq_calls := dq_calls st2 |}
             else st2, DQ_OK)
        | other => other
        end
      | other => other
      end
    end
  end.

Fixpoint do_query_loop (job : mtjob) (items : list useq) (idx : list Z)
    (st : dq_state) : dq_state * dq_status :=
  match idx with
  | [] => (st, DQ_OK)
  | i :: idx' =>
    match do_query_step job items i st with
    | (st', DQ_OK) => do_query_loop job items idx' st'
    | other => other
    end
  end.

(** [do_query] on the records [job->start .. job->end] of the stack.  The
    update of the counters of the plan under the mutex, lines 277-282, is
    not part of the embedding. *)
Definition do_query (job : mtjob) (items : list useq) (lut : lookup)
    (t : trie) : dq_state * dq_status :=
  do_query_loop job items
    (seqZ (job_start job) (job_end job - job_start job + 1))
    {| dq_lut := lut; dq_trie := t; dq_last := None; dq_out := [];
       dq_calls := [] |}.

End DoQuery.

Arguments dq_lut {trie} _.
Arguments dq_trie {trie} _.
Arguments dq_last {trie} _.
Arguments dq_out {trie} _.
Arguments dq_calls {trie} _.

(** The invariant of the loop of a worker before it handles record [i] of
    a stack of sequences of length [h]: the filter is well formed, the last
    query searched is an earlier record, and the [start] and [trail] of the
    searches made are below [h]. *)
Definition dq_inv {trie} (h : Z) (items : list useq) (i : Z)
    (st : dq_state trie) : Prop :=
  lut_wf (dq_lut st) /\ lut_fits (dq_lut st) h /\
  (forall last, dq_last st = Some last ->
     exists k, 0 <= k < i /\ items !! Z.to_nat k = Some last) /\
  (forall c, c ∈ dq_calls st ->
     0 <= snd (fst c) /\ 0 <= snd c /\
     (0 < h -> snd (fst c) < h /\ snd c < h)).

(** The part of the invariant that does not depend on the filter. *)
Definition dq_prefix_inv {trie} (h : Z) (items : list useq) (i : Z)
    (st : dq_state trie) : Prop :=
  (forall last, dq_last st = Some last ->
     exists k, 0 <= k < i /\ items !! Z.to_nat k = Some last) /\
  (forall c, c ∈ dq_calls st ->
     0 <= snd (fst c) /\ 0 <= snd c /\
     (0 < h -> snd (fst c) < h /\ snd c < h)).

(** A read out of bounds of the filter: [lut_search] or [lut_insert] on
    the sequence of [query]. *)
Definition filter_reads_out (L : lookup) (query : useq) : Prop :=
  lut_search L (useq_seq query) = None \/
  lut_insert L (useq_seq query) = None.

(* ================================================================= *)
(** ** [pad_useq] *)

(** Lines 935-940: the maximum length. *)
Definition pad_maxlen (items : list useq) : Z :=
  fold_left (fun maxlen u =>
               let len := strlen (useq_seq u) in
               if len >? maxlen then len else maxlen) items 0.

(** Lines 958-967: the sequence right-aligned in [maxlen] bytes. *)
Definition pad_seq (maxlen : Z) (u : useq) : useq :=
  let len := strlen (useq_seq u) in
  if len =? maxlen then u
  else {| useq_seq := replicate (Z.to_nat (maxlen - len)) " "%char
                        ++ useq_seq u;
          useq_count := useq_count u;
          useq_info := useq_info u |}.

(** Lines 943 and 956: the bins [count[len]++] over the stack, starting
    from the zeroed array of [maxlen + 1] bins. *)
Definition pad_count (maxlen : Z) (items : list useq) : list Z :=
  fold_left (fun count u =>
               alter Z.succ (Z.to_nat (strlen (useq_seq u))) count)
    items (replicate (Z.to_nat (maxlen + 1)) 0).

(** Lines 971-975: [do { ccount += count[++median]; } while (ccount <
    nitems / 2)], with [rest] the bins after index [median].  [None] when
    the loop reads past the last bin. *)
Fixpoint median_loop (rest : list Z) (median ccount half : Z) : option Z :=
  match rest with
  | [] => None
  | c :: rest' =>
      let median := median + 1 in
      let ccount := ccount + c in
      if ccount <? half then median_loop rest' median ccount half
      else Some median
  end.

(** [pad_useq]: the value returned, the median, and the padded stack. *)
Definition pad_useq (items : list useq) : option (Z * Z * list useq) :=
  let maxlen := pad_maxlen items in
  let count := pad_count maxlen items in
  let nitems := Z.of_nat (length items) in
  match median_loop (drop 1 count) 0 0 (Z.quot nitems 2) with
  | Some median => Some (maxlen, median, pad_seq maxlen <$> items)
  | None => None
  end.

(** The number of records of the stack with a sequence of length [l], and
    of length at most [l]. *)
Definition count_eq (items : list useq) (l : Z) : Z :=
  Z.of_nat (length (filter (fun u => strlen (useq_seq u) = l) items)).

Definition count_le (items : list useq) (l : Z) : Z :=
  Z.of_nat (length (filter (fun u => strlen (useq_seq u) <= l) items)).

(** The median of the specification: the smallest length [L] such that at
    least [nitems / 2] records have a sequence of length at most [L]. *)
Definition is_median_length (items : list useq) (L : Z) : Prop :=
  0 <= L /\ Z.of_nat (length items) / 2 <= count_le items L /\
  forall L', 0 <= L' < L -> count_le items L' < Z.of_nat (length items) / 2.

(* ================================================================= *)
(** ** [seqsort] and [nukesort] *)

(** [strcmp]: the sign of the difference of the first bytes that differ,
    compared as [unsigned char], the terminator included. *)
Fixpoint strcmp (a b : cstr) : comparison :=
  match a, b with
  | [], [] => Eq
  | [], y :: _ => if (NUL =? y)%char then Eq else Lt
  | x :: _, [] => if (x =? NUL)%char then Eq else Gt
  | x :: a', y :: b' =>
      match Nat.compare (nat_of_ascii x) (nat_of_ascii y) with
      | Eq => strcmp a' b'
      | c => c
      end
  end.

(** Lines 573-576: shorter sequences first, [strcmp] among sequences of
    one length. *)
Definition useq_cmp (ul ur : useq) : comparison :=
  let sl := strlen (useq_seq ul) in
  let sr := strlen (useq_seq ur) in
  if sl =? sr then strcmp (useq_seq ul) (useq_seq ur)
  else if sl <? sr then Lt else Gt.

(** The records live in a heap; a pointer is the index of its record and a
    freed record is [None].  The two buffers of [sortargs_t] hold pointers,
    [None] being [NULL]. *)
Record sort_state := mk_sort_state {
  ss_buf0 : list (option nat);
  ss_buf1 : list (option nat);
  ss_heap : list (option useq)
}.

(** The cells [buf[off .. off+size)]. *)
Definition region (buf : list (option nat)) (off size : nat)
  : list (option nat) :=
  take size (drop off buf).

(** Writing [cells] from [buf + off] on ([memcpy], [memset], and the
    stores [buf[idx++] = ...]); [None] when the write leaves the buffer. *)
Definition write_cells (buf : list (option nat)) (off : nat)
    (cells : list (option nat)) : option (list (option nat)) :=
  if (off + length cells <=? length buf)%nat
  then Some (take off buf ++ cells ++ drop (off + length cells) buf)
  else None.

(** The merge loop of lines 556-589 on the cells [l[i ..]] and [r[j ..]]
    that are left: the cells stored from [buf + idx] on, the heap, and the
    number of repeats.  When one side is exhausted or at its first [NULL]
    the rest of the other side is copied with its [NULL]s.  [None] when a
    freed record is read. *)
Fixpoint merge_loop (l : list (option nat))
  : list (option nat) -> list (option useq) ->
    option (list (option nat) * list (option useq) * nat) :=
  fix merge_right (r : list (option nat)) (heap : list (option useq)) :=
    match r with
    | [] | None :: _ => Some (l, heap, 0%nat)
    | Some pr :: r' =>
      match l with
      | [] | None :: _ => Some (r, heap, 0%nat)
      | Some pl :: l' =>
        match heap !! pl, heap !! pr with
        | Some (Some ul), Some (Some ur) =>
          match useq_cmp ul ur with
          | Eq =>
            (* ul->count += ur->count; destroy_useq(ur); *)
            let ul' := {| useq_seq := useq_seq ul;
                          useq_count := wrap (useq_count ul + useq_count ur);
                          useq_info := useq_info ul |} in
            let heap' := <[pr := None]> (<[pl := Some ul']> heap) in
            match merge_loop l' r' heap' with
            | Some (out, h, repeats) => Some (Some pl :: out, h, S repeats)
            | None => None
            end
          | Lt =>
            match merge_loop l' r heap with
            | Some (out, h, repeats) => Some (Some pl :: out, h, repeats)
            | None => None
            end
          | Gt =>
            match merge_right r' heap with
            | Some (out, h, repeats) => Some (Some pr :: out, h, repeats)
            | None => None
            end
          end
        | _, _ => None
        end
      end
    end.

(** [nukesort] on the cells [off .. off+size) of the two buffers, [b]
    telling which buffer receives the result; returns the state and
    [sortargs->repeats].  The two halves are sorted one after the other:
    with threads they run at the same time, on cells and records that they
    do not share. *)
Fixpoint nukesort (fuel : nat) (off size : nat) (b : bool)
    (st : sort_state) : option (sort_state * nat) :=
  if (size <? 2)%nat then Some (st, 0%nat) else
  match fuel with
  | O => None
  | S fuel' =>
    let size1 := (size / 2)%nat in
    let size2 := (size1 + size mod 2)%nat in
    let b' := negb b in
    match nukesort fuel' off size1 b' st with
    | None => None
    | Some (st1, rep1) =>
      match nukesort fuel' (off + size1) size2 b' st1 with
      | None => None
      | Some (st2, rep2) =>
        let src := if b then ss_buf0 st2 else ss_buf1 st2 in
        let dst := if b then ss_buf1 st2 else ss_buf0 st2 in
        let l := region src off size1 in
        let r := region src (off + size1) size2 in
        match merge_loop l r (ss_heap st2) with
        | None => None
        | Some (out, heap, repeats) =>
          let total := (repeats + rep1 + rep2)%nat in
          match write_cells dst off out with
          | None => None
          | Some dst1 =>
            match write_cells dst1 (off + (size - total))
                    (replicate total None) with
            | None => None
            | Some dst2 =>
              Some (if b
                    then {| ss_buf0 := ss_buf0 st2; ss_buf1 := dst2;
                            ss_heap := heap |}
                    else {| ss_buf0 := dst2; ss_buf1 := ss_buf1 st2;
                            ss_heap := heap |}, total)
            end
          end
        end
      end
    end
  end.

(** [seqsort]: the value returned, the array [data] and the heap after the
    call.  The record of the [i]-th cell of [data] has the pointer [i];
    the recursion depth of [nukesort] is below [numels]. *)
Definition seqsort (items : list useq)
  : option (Z * list (option nat) * list (option useq)) :=
  let numels := length items in
  let data := Some <$> seq 0 numels in
  match nukesort numels 0 numels false
          {| ss_buf0 := data; ss_buf1 := data; ss_heap := Some <$> items |}
  with
  | Some (st, repeats) =>
      Some (Z.of_nat numels - Z.of_nat repeats, ss_buf0 st, ss_heap st)
  | None => None
  end.

#[local] Instance ascii_eq_dec : EqDecision ascii := Ascii.ascii_dec.

(** The order of the specification: by length, then by bytes. *)
Inductive lex_lt : cstr -> cstr -> Prop :=
  | lex_lt_nil y b : lex_lt [] (y :: b)
  | lex_lt_head x y a b :
      (nat_of_ascii x < nat_of_ascii y)%nat -> lex_lt (x :: a) (y :: b)
  | lex_lt_tail x a b : lex_lt a b -> lex_lt (x :: a) (x :: b).

Definition seq_lt (a b : cstr) : Prop :=
  strlen a < strlen b \/ (strlen a = strlen b /\ lex_lt a b).

(** The sum of the [count] fields. *)
Definition count_sum (us : list useq) : Z := zsum (useq_count <$> us).

(** The records that the pointers of the first cells of an array point
    to. *)
Definition survivors (data : list (option nat)) (heap : list (option useq))
  : list useq :=
  omap (fun c => match c with
                 | Some p => default None (heap !! p)
                 | None => None
                 end) data.

(** Cells that hold the pointers [ps] followed by [k] [NULL]s. *)
Definition cells (ps : list nat) (k : nat) : list (option nat) :=
  (Some <$> ps) ++ replicate k None.

(** The pointers [ps] point to the live records [us]. *)
Definition recs (heap : list (option useq)) (ps : list nat)
    (us : list useq) : Prop :=
  Forall2 (fun p u => heap !! p = Some (Some u)) ps us.

(** Strictly sorted by length, then by bytes. *)
Definition sorted_seqs (us : list useq) : Prop :=
  StronglySorted seq_lt (useq_seq <$> us).

Definition counts_nonneg (us : list useq) : Prop :=
  Forall (fun u => 0 <= useq_count u) us.

(** What a merge achieves: from the records [L] and [R] behind the pointers
    [pl] and [pr], the records [O] behind [po], with [reps] records
    merged into another one. *)
Definition merge_post (heap : list (option useq)) (pl pr : list nat)
    (L R : list useq) (po : list nat) (O : list useq)
    (heap' : list (option useq)) (reps : nat) : Prop :=
  (length po + reps = length pl + length pr)%nat /\
  recs heap' po O /\ sorted_seqs O /\
  (forall p, p ∈ po -> p ∈ pl ++ pr) /\ NoDup po /\
  counts_nonneg O /\ count_sum O = count_sum L + count_sum R /\
  (forall s, s ∈ useq_seq <$> O <-> s ∈ useq_seq <$> (L ++ R)) /\
  length heap' = length heap /\
  (forall p, p ∉ pl ++ pr -> heap' !! p = heap !! p) /\
  (forall p, p ∈ pl ++ pr -> p ∉ po -> heap' !! p = Some None).

(** The cells [off .. off+size) of the two buffers and their records are
    as [seqsort] set them up: the [i]-th cell points to the [i]-th record. *)
Definition fresh (items : list useq) (off size : nat) (st : sort_state)
  : Prop :=
  region (ss_buf0 st) off size = Some <$> seq off size /\
  region (ss_buf1 st) off size = Some <$> seq off size /\
  recs (ss_heap st) (seq off size) (take size (drop off items)).

(** Nothing changes outside the cells and records [off .. off+size). *)
Definition same_outside (off size : nat) (st st' : sort_state) : Prop :=
  length (ss_buf0 st') = length (ss_buf0 st) /\
  length (ss_buf1 st') = length (ss_buf1 st) /\
  length (ss_heap st') = length (ss_heap st) /\
  forall i, ~ (off <= i < off + size)%nat ->
    ss_buf0 st' !! i = ss_buf0 st !! i /\
    ss_buf1 st' !! i = ss_buf1 st !! i /\
    ss_heap st' !! i = ss_heap st !! i.

(** What [nukesort] achieves on the cells [off .. off+size): the buffer
    chosen by [b] holds pointers to the distinct records in order, then
    [rep] [NULL]s; the other records of the range are freed. *)
Definition sorted_region (items : list useq) (off size : nat) (b : bool)
    (st' : sort_state) (rep : nat) : Prop :=
  exists po O,
    region (if b then ss_buf1 st' else ss_buf0 st') off size = cells po rep /\
    (forall p, p ∈ po -> (off <= p < off + size)%nat) /\ NoDup po /\
    recs (ss_heap st') po O /\ sorted_seqs O /\ counts_nonneg O /\
    count_sum O = count_sum (take size (drop off items)) /\
    (forall s, s ∈ useq_seq <$> O <->
               s ∈ useq_seq <$> take size (drop off items)) /\
    (forall p, (off <= p < off + size)%nat -> p ∉ po ->
       ss_heap st' !! p = Some None).

(* ================================================================= *)
(** ** [starcode]: number of tries and the auto-tau rule *)

(** Lines 60-65: [ntries = 3 * thrmax + (thrmax % 2 == 0)], then the
    fall-back to one trie and one thread when there are fewer sequences
    than tries.  Returns [(ntries, thrmax)]. *)
Definition starcode_ntries (nitems thrmax : Z) : Z * Z :=
  let ntries :=
    wrap (wrap (3 * thrmax) + (if Z.rem thrmax 2 =? 0 then 1 else 0)) in
  if nitems <? ntries then (1, 1) else (ntries, thrmax).

(** Lines 71-76: [if (tau < 0) tau = med > 160 ? 8 : 2 + med/30]. *)
Definition starcode_tau (tau med : Z) : Z :=
  if tau <? 0 then (if med >? 160 then 8 else 2 + Z.quot med 30) else tau.

(* ================================================================= *)
(** ** [new_lookup] *)

Section Lookup.

(** [MAX_K_FOR_LOOKUP] is defined in a header that is not part of the
    sources at hand; it is a parameter of the embedding. *)
Variable MAX_K_FOR_LOOKUP : Z.

(** [for (i = 0; i < tau + 1; i++) klen[i] = k - (rem-- > 0)], the loop
    counter being [n] iterations to go. *)
Fixpoint klen_loop (n : nat) (k rem : Z) : list Z :=
  match n with
  | O => []
  | S n' => (k - (if rem >? 0 then 1 else 0)) :: klen_loop n' k (rem - 1)
  end.

(** [calloc(1 << max(0, 2*klen - 3), sizeof(char))]. *)
Definition lut_alloc (kl : Z) : list Z :=
  replicate (Z.to_nat (Z.shiftl 1 (Z.max 0 (2 * kl - 3)))) 0.

Definition new_lookup (slen maxlen tau : Z) : lookup :=
  let k := Z.quot slen (tau + 1) in
  let rem := tau - Z.rem slen (tau + 1) in
  let klen :=
    if k >? MAX_K_FOR_LOOKUP
    then (fun _ => MAX_K_FOR_LOOKUP) <$> zrange (tau + 1)
    else klen_loop (Z.to_nat (tau + 1)) k rem in
  {| lut_slen := maxlen;
     lut_kmers := tau + 1;
     lut_klen := klen;
     lut_bits := lut_alloc <$> klen |}.

(* ================================================================= *)
(** ** [plan_mt] *)

(** Lines 343-347: [bounds[i] = Q*i + min(i, R)] for [0 <= i <= ntries]. *)
Definition plan_bounds (nitems ntries : Z) : list Z :=
  let Q := Z.quot nitems ntries in
  let R := Z.rem nitems ntries in
  (fun i => Q * i + Z.min i R) <$> zrange (ntries + 1).

(** The body of the inner loop, lines 380-402: the [j]-th job of trie [i]. *)
Definition plan_job (bounds : list Z) (tau ntries i j : Z) : mtjob :=
  let idx := Z.rem (i + j) ntries in
  {| job_start := znth bounds idx;
     job_end := znth bounds (idx + 1) - 1;
     job_tau := tau;
     job_build := (j =? 0);
     job_queryid := idx + 1;
     job_trieid := i + 1 |}.

(** The body of the outer loop, lines 356-403.  The node arena
    ([count_trie_nodes], [malloc]) only sizes memory and is left out; the
    calls of [count_trie_nodes] read inside the stack when there are at
    least as many records as tries, which [starcode] sees to. *)
Definition plan_trie (bounds : list Z) (tau height medianlen ntries i : Z)
  : mttrie :=
  let njobs := Z.quot (ntries + 1) 2 in
  {| trie_flag_of := TRIE_FREE;
     trie_currentjob := 0;
     trie_njobs := njobs;
     trie_jobs := plan_job bounds tau ntries i <$> zrange njobs;
     trie_lut := new_lookup medianlen height tau |}.

Definition plan_mt (tau height medianlen ntries nitems : Z) : mtplan :=
  let bounds := plan_bounds nitems ntries in
  {| plan_active := 0;
     plan_ntries := ntries;
     plan_jobsdone := 0;
     plan_tries :=
       plan_trie bounds tau height medianlen ntries <$> zrange ntries |}.

(** The [j]-th job of trie [i] of a plan. *)
Definition plan_job_at (p : mtplan) (i j : Z) : option mtjob :=
  if (i <? 0) || (j <? 0) then None
  else match plan_tries p !! Z.to_nat i with
       | Some t => trie_jobs t !! Z.to_nat j
       | None => None
       end.

End Lookup.

(** A job queries block [b] against the trie built from block [a];
    [queryid] and [trieid] are the block numbers plus one. *)
Definition queries_in (job : mtjob) (a b : Z) : Prop :=
  job_trieid job = a + 1 /\ job_queryid job = b + 1.

(** A job covers the pair of blocks [a], [b] in one direction or the
    other. *)
Definition covers (job : mtjob) (a b : Z) : Prop :=
  queries_in job a b \/ queries_in job b a.

(* ================================================================= *)
(** ** [count_trie_nodes] *)

(** The loop of [count_trie_nodes], lines 428-434, over the indices [idx]:
    [None] when a record is read outside the array or a prefix loop runs
    past the terminators. *)
Fixpoint count_loop (seqs : list useq) (seqlen : Z) (idx : list Z)
    (count : Z) : option Z :=
  match idx with
  | [] => Some count
  | i :: idx' =>
    match seqs !! Z.to_nat (i - 1), seqs !! Z.to_nat i with
    | Some a, Some b =>
      match prefix_loop (useq_seq a) (useq_seq b) 0 with
      | Some prefix => count_loop seqs seqlen idx' (count + (seqlen - prefix))
      | None => None
      end
    | _, _ => None
    end
  end.

(** [count_trie_nodes(seqs, start, end)]: [seqs[start]] is read whatever
    [end] is.  [count] is a [long] and the terms added are [int]s: the sum
    does not wrap. *)
Definition count_trie_nodes (seqs : list useq) (start stop : Z) : option Z :=
  if start <? 0 then None else
  match seqs !! Z.to_nat start with
  | None => None
  | Some u =>
    let seqlen := strlen (useq_seq u) - 1 in
    count_loop seqs seqlen (seqZ (start + 1) (stop - start - 1)) seqlen
  end.

(** The length of the longest common prefix of two strings. *)
Fixpoint lcp (a b : cstr) : nat :=
  match a, b with
  | x :: a', y :: b' => if (x =? y)%char then S (lcp a' b') else 0
  | _, _ => 0
  end.

(** The prefixes of a string that are neither empty nor the string: the
    nodes of its path in a trie, the root and the leaf apart. *)
Definition inner_prefixes (s : cstr) : list cstr :=
  (fun l => take l s) <$> seq 1 (length s - 1).

(** The records [start .. stop) of a stack. *)
Definition block (seqs : list useq) (start stop : Z) : list useq :=
  take (Z.to_nat (stop - start)) (drop (Z.to_nat start) seqs).

(** The nodes added by the strings of a sorted list. *)
Fixpoint node_sum (seqlen : Z) (ss : list cstr) : Z :=
  match ss with
  | a :: (b :: _) as rest => (seqlen - Z.of_nat (lcp a b)) + node_sum seqlen rest
  | _ => 0
  end.

(* ================================================================= *)
(** ** The identifiers of [seq2id] and the probes of [lut_search] *)

(** The number that the two-bit codes of a k-mer spell in base 4, the
    first base being the most significant digit. *)
Definition kmer_value (w : cstr) : Z :=
  fold_left (fun acc c => 4 * acc + default 0 (base_code c)) w 0.

(** A probe of [lut_search]: the k-mer of index [i] read [j] bytes from its
    place, [j] between [-(kmers - 1 - i)] and [kmers - 1 - i]. *)
Definition probe_of (L : lookup) (i : nat) (kl j : Z) : Prop :=
  lut_klen L !! i = Some kl /\
  - (lut_kmers L - 1 - Z.of_nat i) <= j <= lut_kmers L - 1 - Z.of_nat i.

(** Every bit that is set in the filter is the identifier of a k-mer of one
    of the sequences [l]. *)
Definition traced (L : lookup) (l : list cstr) : Prop :=
  forall i row v, lut_bits L !! i = Some row -> get_bit row v = Some true ->
    exists a kl, a ∈ l /\ lut_klen L !! i = Some kl /\
      seq2id a (kmer_offset L i) kl = Some v.


(* ================================================================= *)
(** ** [unpad_useq] *)

(** [unpad_useq], lines 985-1009.  [len] is the length of the first
    sequence of the stack.  The body of the loop for one record: [pad]
    leading spaces are skipped and the [len - pad + 1] bytes from
    [seq + pad] on, the terminator included, are copied.  With a sequence of
    another length the copy reads past the end of the string, or has no
    terminator or a size below zero: [None], the result is no C string. *)
Definition unpad_seq (len : Z) (u : useq) : option useq :=
  if strlen (useq_seq u) =? len
  then Some {| useq_seq := unpad (useq_seq u);
               useq_count := useq_count u;
               useq_info := useq_info u |}
  else None.

(** [items[0]] is read first: [None] on an empty stack. *)
Definition unpad_useq (items : list useq) : option (list useq) :=
  match items with
  | [] => None
  | u0 :: _ => mapM (unpad_seq (strlen (useq_seq u0))) items
  end.

(** The sequence does not start with a space. *)
Definition no_leading_space (s : cstr) : Prop := head s <> Some " "%char.

(** Every byte is above the space in the order of [unsigned char]. *)
Definition above_space (s : cstr) : Prop :=
  Forall (fun c => (nat_of_ascii " " < nat_of_ascii c)%nat) s.

(* ================================================================= *)
(** ** The bins of [pad_useq] *)

(** The number of records of the stack with a sequence of a length
    between 1 and [l]: the value of [ccount] once [count[l]] is added. *)
Definition count_upto (items : list useq) (l : Z) : Z :=
  count_le items l - count_eq items 0.

(* ================================================================= *)
(** ** The effects of [do_query] *)

Section TrieInsert.

Variable trie : Type.
Variable insert_string_wo_malloc : trie -> cstr -> option trie.
Variable set_data : trie -> useq -> trie.

(** The records [us] put into the trie one after the other, each with
    [insert_string_wo_malloc] and the later [*data = query]. *)
Fixpoint trie_insert_all (t : trie) (us : list useq) : option trie :=
  match us with
  | [] => Some t
  | u :: us' =>
    match insert_string_wo_malloc t (useq_seq u) with
    | Some t' => trie_insert_all (set_data t' u) us'
    | None => None
    end
  end.

End TrieInsert.

(** The sequence of record [i] of a stack. *)
Definition seq_at (items : list useq) (i : Z) : cstr :=
  default [] (useq_seq <$> items !! Z.to_nat i).

(** The arguments [(i, start, trail)] of the searches of a job, [prev]
    being the index of the query searched before: [start] is the length of
    the prefix shared with that query, [trail] the length of the prefix
    shared with the next record of the job. *)
Fixpoint calls_chain (items : list useq) (job : mtjob) (prev : option Z)
    (calls : list (Z * Z * Z)) : Prop :=
  match calls with
  | [] => True
  | (i, start, trail) :: rest =>
      job_start job <= i <= job_end job /\
      match prev with
      | None => start = 0
      | Some i' =>
          i' < i /\
          start = Z.of_nat (lcp (seq_at items i) (seq_at items i'))
      end /\
      trail = (if i <? job_end job
               then Z.of_nat (lcp (seq_at items i) (seq_at items (i + 1)))
               else 0) /\
      calls_chain items job (Some i) rest
  end.

(** The index of the last of the searches [calls], [prev] when there is
    none. *)
Definition last_call (prev : option Z) (calls : list (Z * Z * Z))
  : option Z :=
  match last calls with
  | Some (i, _, _) => Some i
  | None => prev
  end.

(* ================================================================= *)
(** ** [run_plan] and the end of a job *)

(** Where the scheduler stands: about to test the loop condition with the
    mutex free, at the wait loop of lines 141-143 with the mutex held (it
    is released while the scheduler waits on the condition), or returned. *)
Inductive rp_pc := RP_TOP | RP_WAIT | RP_RETURNED.

(** A job is handed to a new thread, line 128; a worker passes lines
    277-282. *)
Inductive rp_event :=
  | JobStart (trie job : Z)
  | JobEnd (trie job : Z).

(** The plan, the locals [idx] and [triedone] of [run_plan], the threads
    that run a job (trie and job index), and the events so far. *)
Record rp_state := mk_rp_state {
  rp_plan : mtplan;
  rp_idx : Z;
  rp_triedone : Z;
  rp_pc_of : rp_pc;
  rp_threads : list (Z * Z);
  rp_log : list rp_event
}.

#[local] Instance trie_flag_eq_dec : EqDecision trie_flag.
Proof. solve_decision. Defined.

(** A trie with its [flag] and [currentjob] set. *)
Definition mttrie_set (f : trie_flag) (c : Z) (t : mttrie) : mttrie :=
  {| trie_flag_of := f; trie_currentjob := c; trie_njobs := trie_njobs t;
     trie_jobs := trie_jobs t; trie_lut := trie_lut t |}.

(** A plan with [active], [jobsdone] and the trie of index [i] set. *)
Definition mtplan_set (active jobsdone : Z) (i : nat) (t : mttrie)
    (p : mtplan) : mtplan :=
  {| plan_active := active; plan_ntries := plan_ntries p;
     plan_jobsdone := jobsdone; plan_tries := <[i := t]> (plan_tries p) |}.

(** One pass of the body of the loop of [run_plan] up to the wait loop,
    lines 108-138, made with the mutex held.  [pthread_create] is taken to
    succeed.  [None] when a trie or a job is read outside its array. *)
Definition run_plan_body (thrmax : Z) (st : rp_state) : option rp_state :=
  let p := rp_plan st in
  let idx := Z.rem (rp_idx st + 1) (plan_ntries p) in
  let stay := {| rp_plan := p; rp_idx := idx; rp_triedone := rp_triedone st;
                 rp_pc_of := RP_WAIT; rp_threads := rp_threads st;
                 rp_log := rp_log st |} in
  if idx <? 0 then None else
  match plan_tries p !! Z.to_nat idx with
  | None => None
  | Some mttrie =>
    match trie_flag_of mttrie with
    | TRIE_FREE =>
      if plan_active p <? thrmax then
        let j := trie_currentjob mttrie in
        if j =? trie_njobs mttrie then
          Some {| rp_plan := mtplan_set (plan_active p) (plan_jobsdone p)
                               (Z.to_nat idx) (mttrie_set TRIE_DONE j mttrie) p;
                  rp_idx := idx; rp_triedone := rp_triedone st + 1;
                  rp_pc_of := RP_WAIT; rp_threads := rp_threads st;
                  rp_log := rp_log st |}
        else if j <? 0 then None else
          match trie_jobs mttrie !! Z.to_nat j with
          | None => None
          | Some _ =>
            Some {| rp_plan := mtplan_set (plan_active p + 1)
                                 (plan_jobsdone p) (Z.to_nat idx)
                                 (mttrie_set TRIE_BUSY (j + 1) mttrie) p;
                    rp_idx := idx; rp_triedone := rp_triedone st;
                    rp_pc_of := RP_WAIT;
                    rp_threads := rp_threads st ++ [(idx, j)];
                    rp_log := rp_log st ++ [JobStart idx j] |}
          end
      else Some stay
    | _ => Some stay
    end
  end.

(** Lines 277-282 of [do_query], made by the worker of job [j] of trie [i]
    with the mutex held: [active] and [jobsdone] are updated and the trie
    is flagged free. *)
Definition job_finish (i j : Z) (st : rp_state) : option rp_state :=
  let p := rp_plan st in
  if i <? 0 then None else
  match plan_tries p !! Z.to_nat i with
  | None => None
  | Some mttrie =>
    Some {| rp_plan := mtplan_set (plan_active p - 1) (plan_jobsdone p + 1)
                         (Z.to_nat i)
                         (mttrie_set TRIE_FREE (trie_currentjob mttrie) mttrie)
                         p;
            rp_idx := rp_idx st; rp_triedone := rp_triedone st;
            rp_pc_of := rp_pc_of st;
            rp_threads := filter (fun ij => ij <> (i, j)) (rp_threads st);
            rp_log := rp_log st ++ [JobEnd i j] |}
  end.

(** The state with the scheduler at [pc]. *)
Definition rp_goto (pc : rp_pc) (st : rp_state) : rp_state :=
  {| rp_plan := rp_plan st; rp_idx := rp_idx st;
     rp_triedone := rp_triedone st; rp_pc_of := pc;
     rp_threads := rp_threads st; rp_log := rp_log st |}.

(** The steps of the scheduler and of the workers.  A worker ends its job
    when it gets the mutex: not while the scheduler holds it, that is
    between line 110 and line 145 unless the scheduler waits on the
    condition. *)
Inductive rp_step (thrmax : Z) : rp_state -> rp_state -> Prop :=
  | rp_schedule st st' :
      rp_pc_of st = RP_TOP ->
      rp_triedone st < plan_ntries (rp_plan st) ->
      run_plan_body thrmax st = Some st' ->
      rp_step thrmax st st'
  | rp_return st :
      rp_pc_of st = RP_TOP ->
      plan_ntries (rp_plan st) <= rp_triedone st ->
      rp_step thrmax st (rp_goto RP_RETURNED st)
  | rp_wake st :
      rp_pc_of st = RP_WAIT ->
      plan_active (rp_plan st) <> thrmax ->
      rp_step thrmax st (rp_goto RP_TOP st)
  | rp_job_end st i j st' :
      rp_pc_of st <> RP_WAIT \/ plan_active (rp_plan st) = thrmax ->
      (i, j) ∈ rp_threads st ->
      job_finish i j st = Some st' ->
      rp_step thrmax st st'.

(** [run_plan] is entered: [idx = -1], [triedone = 0], no thread. *)
Definition rp_init (p : mtplan) : rp_state :=
  {| rp_plan := p; rp_idx := -1; rp_triedone := 0; rp_pc_of := RP_TOP;
     rp_threads := []; rp_log := [] |}.

(** The states that a run of [run_plan] on the plan [p] goes through. *)
Inductive rp_reach (thrmax : Z) (p : mtplan) : rp_state -> Prop :=
  | rp_reach_init : rp_reach thrmax p (rp_init p)
  | rp_reach_step st st' :
      rp_reach thrmax p st -> rp_step thrmax st st' ->
      rp_reach thrmax p st'.

(** A plan as [plan_mt] leaves it: every trie free with no job started,
    no active thread, no job done. *)
Definition plan_fresh (p : mtplan) : Prop :=
  plan_ntries p = Z.of_nat (length (plan_tries p)) /\
  plan_active p = 0 /\ plan_jobsdone p = 0 /\
  Forall (fun t => trie_flag_of t = TRIE_FREE /\ trie_currentjob t = 0 /\
                   trie_njobs t = Z.of_nat (length (trie_jobs t)))
         (plan_tries p).

Definition event_trie (e : rp_event) : Z :=
  match e with JobStart i _ | JobEnd i _ => i end.

(** The events of the jobs of trie [i]. *)
Definition job_events (i : Z) (log : list rp_event) : list rp_event :=
  filter (fun e => event_trie e = i) log.

(** The threads that run a job of trie [i]. *)
Definition trie_threads (i : Z) (threads : list (Z * Z)) : list (Z * Z) :=
  filter (fun ij => fst ij = i) threads.

(** The jobs [0 .. c) of trie [i] started and ended one after the other. *)
Definition history (i c : Z) : list rp_event :=
  j ← seqZ 0 c; [JobStart i j; JobEnd i j].

(** The events of a trie as its [flag] and [currentjob] tell them: the jobs
    before [currentjob] were run one after the other, the last of them
    still running when the trie is busy. *)
Definition job_history (i : Z) (t : mttrie) : list rp_event :=
  match trie_flag_of t with
  | TRIE_BUSY =>
      history i (trie_currentjob t - 1) ++ [JobStart i (trie_currentjob t - 1)]
  | _ => history i (trie_currentjob t)
  end.

Definition trie_ok (st : rp_state) (k : nat) (t : mttrie) : Prop :=
  let i := Z.of_nat k in
  trie_njobs t = Z.of_nat (length (trie_jobs t)) /\
  0 <= trie_currentjob t <= trie_njobs t /\
  job_events i (rp_log st) = job_history i t /\
  trie_threads i (rp_threads st)
  = match trie_flag_of t with
    | TRIE_BUSY => [(i, trie_currentjob t - 1)]
    | _ => []
    end /\
  (trie_flag_of t = TRIE_BUSY -> 1 <= trie_currentjob t) /\
  (trie_flag_of t = TRIE_DONE -> trie_currentjob t = trie_njobs t).

(** The invariant of [run_plan]. *)
Definition rp_inv (thrmax : Z) (st : rp_state) : Prop :=
  let p := rp_plan st in
  plan_ntries p = Z.of_nat (length (plan_tries p)) /\
  -1 <= rp_idx st /\ rp_idx st < Z.max 0 (plan_ntries p) /\
  0 <= plan_active p <= thrmax /\
  plan_active p = Z.of_nat (length (rp_threads st)) /\
  NoDup (rp_threads st) /\
  (forall i j, (i, j) ∈ rp_threads st -> 0 <= i < plan_ntries p) /\
  rp_triedone st
  = Z.of_nat (length (filter (fun t => trie_flag_of t = TRIE_DONE)
                        (plan_tries p))) /\
  plan_jobsdone p = zsum (trie_currentjob <$> plan_tries p) - plan_active p /\
  (forall k t, plan_tries p !! k = Some t -> trie_ok st k t) /\
  (rp_pc_of st = RP_RETURNED -> plan_ntries p <= rp_triedone st).

(** Line 100: [njobs = ntries * (ntries + 1) / 2]. *)
Definition run_plan_njobs (p : mtplan) : Z :=
  Z.quot (wrap (plan_ntries p * (plan_ntries p + 1))) 2.

(** The events name tries of the plan. *)
Definition rp_log_valid (st : rp_state) : Prop :=
  forall e, e ∈ rp_log st -> 0 <= event_trie e < plan_ntries (rp_plan st).

(* ================================================================= *)
(** ** The thread levels of [seqsort] *)

(** Line 483 of [seqsort]: [while ((thrmax >> (thread + 1)) > 0) thread++],
    with [fuel] iterations at most. *)
Fixpoint thread_loop (fuel : nat) (thrmax thread : Z) : Z :=
  match fuel with
  | O => thread
  | S fuel' =>
      if Z.shiftr thrmax (thread + 1) >? 0
      then thread_loop fuel' thrmax (thread + 1)
      else thread
  end.

(** [args.thread] when [nukesort] is called: an [int] is shifted to zero
    in 31 steps. *)
Definition seqsort_thread (thrmax : Z) : Z := thread_loop 31 thrmax 0.

(* ================================================================= *)
(** ** The records and the counts that [seqsort] leaves *)

(** What a cell of the heap adds to the count of the sequence [s], and to
    the count of all sequences: a freed record adds nothing. *)
Definition cell_count (s : cstr) (x : option useq) : Z :=
  match x with
  | Some u => if decide (useq_seq u = s) then useq_count u else 0
  | None => 0
  end.

Definition cell_total (x : option useq) : Z :=
  match x with
  | Some u => useq_count u
  | None => 0
  end.

(** The count of the sequence [s] over the records of the heap. *)
Definition heap_count (s : cstr) (heap : list (option useq)) : Z :=
  zsum (cell_count s <$> heap).

(** The count of the sequence [s] over the records of the input. *)
Definition seq_count (s : cstr) (items : list useq) : Z :=
  count_sum (filter (fun u => useq_seq u = s) items).

(** No count of the heap is negative and their sum is an [int]. *)
Definition heap_ok (heap : list (option useq)) : Prop :=
  Forall (fun x => 0 <= cell_total x) heap /\
  zsum (cell_total <$> heap) <= INT_MAX.

(** How the merges change a heap: a record that is left has the sequence
    and the info it had; a record is freed only when a record before it
    with the same sequence is left; the count of every sequence is kept. *)
Definition heap_trace (heap heap' : list (option useq)) : Prop :=
  length heap' = length heap /\
  (forall p u', heap' !! p = Some (Some u') ->
     exists u, heap !! p = Some (Some u) /\
       useq_seq u' = useq_seq u /\ useq_info u' = useq_info u) /\
  (forall q uq, heap !! q = Some (Some uq) ->
     (exists u', heap' !! q = Some (Some u')) \/
     (heap' !! q = Some None /\
      exists p u', (p < q)%nat /\ heap' !! p = Some (Some u') /\
        useq_seq u' = useq_seq uq)) /\
  (forall s, heap_count s heap' = heap_count s heap).

(* ================================================================= *)
(** * Properties *)

(** ** C integers and loops *)

Lemma wrap_small z : - 2 ^ 31 <= z < 2 ^ 31 -> wrap z = z.
Proof.
  intros H. unfold wrap. rewrite Z.mod_small; lia.
Qed.

Lemma zrange_length n : length (zrange n) = Z.to_nat n.
Proof. apply length_seqZ. Qed.

Lemma zrange_lookup n i : 0 <= i < n -> zrange n !! Z.to_nat i = Some i.
Proof.
  intros H. unfold zrange. rewrite lookup_seqZ_lt by lia. f_equal. lia.
Qed.

Lemma zrange_fmap_lookup {A} (f : Z -> A) n i :
  0 <= i < n -> (f <$> zrange n) !! Z.to_nat i = Some (f i).
Proof.
  intros H. now rewrite list_lookup_fmap, zrange_lookup.
Qed.

Lemma zrange_fmap_znth (f : Z -> Z) n i :
  0 <= i < n -> znth (f <$> zrange n) i = f i.
Proof.
  intros H. unfold znth. now rewrite zrange_fmap_lookup.
Qed.

(* ================================================================= *)
(** ** The number of tries (C9) and the auto-tau rule (C6) *)

Lemma ntries_formula T :
  1 <= T <= 715827882 ->
  wrap (wrap (3 * T) + (if Z.rem T 2 =? 0 then 1 else 0))
  = 3 * T + (if Z.even T then 1 else 0).
Proof.
  intros H.
  rewrite (wrap_small (3 * T)) by lia.
  assert (E : (Z.rem T 2 =? 0) = Z.even T).
  { rewrite Z.rem_mod_nonneg by lia.
    rewrite Zeven_mod. reflexivity. }
  rewrite E. destruct (Z.even T); apply wrap_small; lia.
Qed.

(** C9, as stated, fails: with a budget of 2 threads and 3 unique
    sequences the plan is built with one trie, not with 7. *)
Lemma starcode_ntries_not_3T :
  ~ (forall T nitems, 1 <= T -> 0 <= nitems ->
       fst (starcode_ntries nitems T)
       = 3 * T + (if Z.even T then 1 else 0)).
Proof.
  intros H.
  assert (E : fst (starcode_ntries 3 2) = 3 * 2 + (if Z.even 2 then 1 else 0))
    by (apply H; lia).
  vm_compute in E. discriminate E.
Qed.

(** Beyond 715827882 threads [3 * thrmax] is no [int]: the number of tries
    wraps around to a negative number. *)
Lemma starcode_ntries_overflow :
  fst (starcode_ntries 3 715827883) = -2147483647.
Proof. reflexivity. Qed.

(** C9, amended: for a thread budget [1 <= T <= 715827882], the largest for
    which [3*T + 1] is an [int], the number of tries is [3*T + 1] for even
    [T] and [3*T] for odd [T] when there are at least that many unique
    sequences, and 1 otherwise; it is odd in both cases. *)
Theorem starcode_ntries_spec T nitems :
  1 <= T <= 715827882 ->
  let N := 3 * T + (if Z.even T then 1 else 0) in
  let N' := fst (starcode_ntries nitems T) in
  (N <= nitems -> N' = N) /\
  (nitems < N -> N' = 1) /\
  (Z.even T = true -> N = 3 * T + 1) /\
  (Z.odd T = true -> N = 3 * T) /\
  Z.odd N = true /\ Z.odd N' = true.
Proof.
  intros H N N'.
  assert (HoddN : Z.odd N = true).
  { subst N. rewrite Z.odd_add, Z.odd_mul, <- (Z.negb_even T).
    destruct (Z.even T); reflexivity. }
  assert (HN' : N' = if nitems <? N then 1 else N).
  { subst N' N. unfold starcode_ntries. rewrite ntries_formula by exact H.
    destruct (nitems <? _); reflexivity. }
  repeat split.
  - intros Hle. rewrite HN'. destruct (Z.ltb_spec nitems N); [lia|reflexivity].
  - intros Hlt. rewrite HN'. destruct (Z.ltb_spec nitems N); [reflexivity|lia].
  - intros E. subst N. now rewrite E.
  - intros E. subst N. rewrite <- Z.negb_odd, E. simpl. lia.
  - exact HoddN.
  - rewrite HN'. destruct (nitems <? N); [reflexivity|exact HoddN].
Qed.

Lemma starcode_ntries_spec_witness :
  let N' := fst (starcode_ntries 100 4) in
  (13 <= 100 -> N' = 13) /\ Z.odd N' = true.
Proof.
  pose proof (starcode_ntries_spec 4 100 ltac:(lia)) as H.
  cbv zeta in H. split; [apply H | apply H].
Defined.

(** C6: with a negative [tau] the threshold becomes 8 when the median
    exceeds 160 and [2 + median/30] (integer division) otherwise; a median
    of 30 gives 3. *)
Theorem starcode_tau_auto tau med :
  tau < 0 ->
  (160 < med -> starcode_tau tau med = 8) /\
  (med <= 160 -> starcode_tau tau med = 2 + Z.quot med 30) /\
  (0 <= med <= 160 -> starcode_tau tau med = 2 + med / 30) /\
  (med = 30 -> starcode_tau tau med = 3).
Proof.
  intros Htau. unfold starcode_tau.
  destruct (Z.ltb_spec tau 0); [|lia].
  repeat split.
  - intros Hm. destruct (Z.gtb_spec med 160); [reflexivity|lia].
  - intros Hm. destruct (Z.gtb_spec med 160); [lia|reflexivity].
  - intros Hm. destruct (Z.gtb_spec med 160); [lia|].
    rewrite Z.quot_div_nonneg by lia. reflexivity.
  - intros ->. reflexivity.
Qed.

Lemma starcode_tau_auto_witness : starcode_tau (-1) 30 = 3.
Proof.
  apply (starcode_tau_auto (-1) 30); [lia | reflexivity].
Defined.

(** A non-negative [tau] is kept. *)
Lemma starcode_tau_given tau med : 0 <= tau -> starcode_tau tau med = tau.
Proof.
  intros H. unfold starcode_tau. destruct (Z.ltb_spec tau 0); [lia|reflexivity].
Qed.

(* ================================================================= *)
(** ** Block boundaries (C4) *)

Lemma plan_bounds_length M N :
  length (plan_bounds M N) = Z.to_nat (N + 1).
Proof. unfold plan_bounds. now rewrite length_fmap, zrange_length. Qed.

Lemma plan_bounds_nth M N i :
  0 <= i <= N ->
  znth (plan_bounds M N) i = Z.quot M N * i + Z.min i (Z.rem M N).
Proof.
  intros H. unfold plan_bounds.
  now rewrite zrange_fmap_znth by lia.
Qed.

(** C4, as stated, fails: with 5 sequences in 3 blocks the third boundary
    is 4, not [2*5/3 + min(2, 5 mod 3) = 5]. *)
Lemma plan_bounds_not_floor_of_product :
  ~ (forall M N i, 0 <= M -> 0 < N -> Z.odd N = true -> 0 <= i <= N ->
       znth (plan_bounds M N) i = (i * M) / N + Z.min i (M mod N)).
Proof.
  intros H.
  assert (E : znth (plan_bounds 5 3) 2 = (2 * 5) / 3 + Z.min 2 (5 mod 3))
    by (apply H; [lia | lia | reflexivity | lia]).
  vm_compute in E. discriminate E.
Qed.

(** C4, amended: [bounds[i] = i * (M / N) + min(i, M mod N)] for
    [0 <= i <= N]; the boundaries start at 0, end at [M], and cut the [M]
    sequences into [N] contiguous blocks whose sizes are [M / N] or
    [M / N + 1], so differ by at most one. *)
Theorem plan_bounds_partition M N :
  0 <= M -> 0 < N ->
  let b := plan_bounds M N in
  let size i := znth b (i + 1) - znth b i in
  length b = Z.to_nat (N + 1) /\
  (forall i, 0 <= i <= N -> znth b i = i * (M / N) + Z.min i (M mod N)) /\
  znth b 0 = 0 /\ znth b N = M /\
  (forall i, 0 <= i < N ->
     size i = M / N + (if i <? M mod N then 1 else 0)) /\
  (forall i j, 0 <= i < N -> 0 <= j < N -> -1 <= size i - size j <= 1).
Proof.
  intros HM HN b size.
  assert (Hq : Z.quot M N = M / N) by (apply Z.quot_div_nonneg; lia).
  assert (Hr : Z.rem M N = M mod N) by (apply Z.rem_mod_nonneg; lia).
  assert (Hnth : forall i, 0 <= i <= N ->
            znth b i = i * (M / N) + Z.min i (M mod N)).
  { intros i Hi. subst b. rewrite plan_bounds_nth, Hq, Hr by lia. lia. }
  pose proof (Z.mod_pos_bound M N HN) as Hmod.
  pose proof (Z.div_mod M N ltac:(lia)) as Hdm.
  assert (Hsize : forall i, 0 <= i < N ->
            size i = M / N + (if i <? M mod N then 1 else 0)).
  { intros i Hi. unfold size. rewrite !Hnth by lia.
    destruct (Z.ltb_spec i (M mod N)); lia. }
  split; [apply plan_bounds_length|].
  split; [exact Hnth|].
  split; [rewrite Hnth by lia; lia|].
  split; [rewrite Hnth by lia; nia|].
  split; [exact Hsize|].
  intros i j Hi Hj. rewrite !Hsize by lia.
  destruct (i <? M mod N), (j <? M mod N); lia.
Qed.

Lemma plan_bounds_partition_witness :
  znth (plan_bounds 5 3) 2 = 2 * (5 / 3) + Z.min 2 (5 mod 3) /\
  znth (plan_bounds 5 3) 3 = 5.
Proof.
  pose proof (plan_bounds_partition 5 3 ltac:(lia) ltac:(lia)) as H.
  cbv zeta in H. destruct H as (_ & Hn & _ & HM & _).
  split; [apply Hn; lia | exact HM].
Defined.

(* ================================================================= *)
(** ** K-mer lengths (C5) *)

Lemma klen_loop_length n k rem : length (klen_loop n k rem) = n.
Proof.
  revert rem. induction n as [|n IH]; intros rem; simpl; [reflexivity|].
  now rewrite IH.
Qed.

Lemma klen_loop_lookup n k rem i :
  (i < n)%nat ->
  klen_loop n k rem !! i
  = Some (k - (if rem - Z.of_nat i >? 0 then 1 else 0)).
Proof.
  revert rem i. induction n as [|n IH]; intros rem i Hi; [lia|].
  destruct i as [|i]; simpl.
  - now rewrite Z.sub_0_r.
  - rewrite IH by lia.
    replace (rem - 1 - Z.of_nat i) with (rem - Z.of_nat (S i)) by lia.
    reflexivity.
Qed.

Section LookupFacts.

Variable MAX_K : Z.

Lemma new_lookup_klen_length slen maxlen tau :
  0 <= tau ->
  length (lut_klen (new_lookup MAX_K slen maxlen tau)) = Z.to_nat (tau + 1).
Proof.
  intros H. unfold new_lookup. simpl.
  destruct (_ >? _).
  - now rewrite length_fmap, zrange_length.
  - apply klen_loop_length.
Qed.

Lemma new_lookup_klen_nth slen maxlen tau i :
  0 <= tau -> 0 <= slen -> 0 <= i <= tau ->
  znth (lut_klen (new_lookup MAX_K slen maxlen tau)) i
  = if slen / (tau + 1) >? MAX_K then MAX_K
    else if i <? tau - slen mod (tau + 1)
         then slen / (tau + 1) - 1 else slen / (tau + 1).
Proof.
  intros Ht Hs Hi. unfold new_lookup. simpl.
  rewrite Z.quot_div_nonneg, Z.rem_mod_nonneg by lia.
  destruct (_ >? _).
  - now rewrite zrange_fmap_znth by lia.
  - unfold znth. rewrite klen_loop_lookup by lia. simpl.
    rewrite Z2Nat.id by lia.
    destruct (Z.gtb_spec (tau - slen mod (tau + 1) - i) 0),
             (Z.ltb_spec i (tau - slen mod (tau + 1))); lia.
Qed.

End LookupFacts.

(** C5, as stated, fails: for a sequence length of 10 and [tau = 2] the
    first k-mer has length 2, not [min(MAX_K, 10/3) = 3], and it is shorter
    than the later ones. *)
Lemma new_lookup_klen_not_uniform :
  ~ (forall MAX_K slen maxlen tau i,
       0 <= slen -> 0 <= tau -> 0 <= i <= tau ->
       znth (lut_klen (new_lookup MAX_K slen maxlen tau)) i
       = Z.min MAX_K (slen / (tau + 1)))
  /\ lut_klen (new_lookup 14 10 10 2) = [2; 3; 3].
Proof.
  split; [|reflexivity].
  intros H.
  assert (E : znth (lut_klen (new_lookup 14 10 10 2)) 0
              = Z.min 14 (10 / (2 + 1))) by (apply H; lia).
  vm_compute in E. discriminate E.
Qed.

(** C5, amended: the filter made by [new_lookup] for a sequence length
    [slen] and a threshold [tau] has exactly [tau + 1] k-mers.  With
    [k = slen / (tau+1)], every k-mer has length [MAX_K] when [k > MAX_K];
    otherwise the first [tau - slen mod (tau+1)] k-mers have length [k - 1]
    and the remaining ones length [k], so earlier k-mers are at most as
    long as later ones. *)
Theorem new_lookup_klen MAX_K slen maxlen tau :
  0 <= slen -> 0 <= tau ->
  let L := new_lookup MAX_K slen maxlen tau in
  let k := slen / (tau + 1) in
  lut_kmers L = tau + 1 /\
  length (lut_klen L) = Z.to_nat (tau + 1) /\
  length (lut_bits L) = Z.to_nat (tau + 1) /\
  (forall i, 0 <= i <= tau ->
     znth (lut_klen L) i
     = if k >? MAX_K then MAX_K
       else if i <? tau - slen mod (tau + 1) then k - 1 else k) /\
  (forall i j, 0 <= i <= j -> j <= tau ->
     znth (lut_klen L) i <= znth (lut_klen L) j).
Proof.
  intros Hs Ht L k.
  assert (Hlen : length (lut_klen L) = Z.to_nat (tau + 1))
    by (apply new_lookup_klen_length; lia).
  split; [reflexivity|].
  split; [exact Hlen|].
  split; [subst L; unfold new_lookup; simpl; rewrite length_fmap; exact Hlen|].
  split.
  - intros i Hi. subst L k. now apply new_lookup_klen_nth.
  - intros i j Hij Hj. subst L.
    rewrite !new_lookup_klen_nth by lia.
    destruct (_ >? MAX_K); [lia|].
    destruct (Z.ltb_spec i (tau - slen mod (tau + 1))),
             (Z.ltb_spec j (tau - slen mod (tau + 1))); lia.
Qed.

Lemma new_lookup_klen_witness :
  lut_kmers (new_lookup 14 10 10 2) = 3 /\
  znth (lut_klen (new_lookup 14 10 10 2)) 0 = 10 / 3 - 1.
Proof.
  pose proof (new_lookup_klen 14 10 10 2 ltac:(lia) ltac:(lia)) as H.
  cbv zeta in H. destruct H as (Hk & _ & _ & Hn & _).
  split; [exact Hk|].
  rewrite (Hn 0) by lia. reflexivity.
Defined.

(* ================================================================= *)
(** ** The triangular schedule (C1) *)

Section Schedule.

Variables (MAX_K tau height med N M : Z).
Hypothesis N_pos : 0 < N.

Local Abbreviation p := (plan_mt MAX_K tau height med N M).
Local Abbreviation b := (plan_bounds M N).
Local Abbreviation h := (Z.quot (N + 1) 2).

Lemma plan_job_at_in i j :
  0 <= i < N -> 0 <= j < h ->
  plan_job_at p i j = Some (plan_job b tau N i j).
Proof.
  intros Hi Hj. unfold plan_job_at, plan_mt. simpl.
  destruct (Z.ltb_spec i 0); [lia|]. destruct (Z.ltb_spec j 0); [lia|].
  simpl. rewrite zrange_fmap_lookup by lia. simpl.
  now rewrite zrange_fmap_lookup by lia.
Qed.

Lemma plan_job_at_range i j job :
  plan_job_at p i j = Some job -> 0 <= i < N /\ 0 <= j < h.
Proof.
  unfold plan_job_at, plan_mt. simpl.
  destruct (Z.ltb_spec i 0); [discriminate|].
  destruct (Z.ltb_spec j 0); [discriminate|]. simpl.
  destruct (Z.lt_ge_cases i N) as [Hi|Hi].
  - rewrite zrange_fmap_lookup by lia. simpl.
    destruct (Z.lt_ge_cases j h) as [Hj|Hj]; [lia|].
    rewrite lookup_ge_None_2; [discriminate|].
    rewrite length_fmap, zrange_length. lia.
  - rewrite lookup_ge_None_2; [discriminate|].
    rewrite length_fmap, zrange_length. lia.
Qed.

Lemma plan_job_at_inv i j job :
  plan_job_at p i j = Some job ->
  0 <= i < N /\ 0 <= j < h /\ job = plan_job b tau N i j.
Proof.
  intros E. destruct (plan_job_at_range _ _ _ E) as [Hi Hj].
  rewrite plan_job_at_in in E by assumption.
  repeat split; try lia. congruence.
Qed.

(** [(i + j) % ntries] for indices of the job grid. *)
Lemma plan_idx_cases i j :
  0 <= i < N -> 0 <= j < N ->
  (i + j < N /\ Z.rem (i + j) N = i + j) \/
  (N <= i + j /\ Z.rem (i + j) N = i + j - N).
Proof.
  intros Hi Hj. rewrite Z.rem_mod_nonneg by lia.
  destruct (Z.lt_ge_cases (i + j) N) as [Hlt|Hge].
  - left. split; [lia|]. apply Z.mod_small. lia.
  - right. split; [lia|].
    replace (i + j) with ((i + j - N) + 1 * N) by lia.
    rewrite Z.mod_add by lia. rewrite Z.mod_small by lia. lia.
Qed.

Hypothesis N_odd : Z.odd N = true.

Lemma njobs_half : N = 2 * h - 1.
Proof.
  rewrite Z.quot_div_nonneg by lia.
  pose proof (Zodd_bool_iff N) as [Ho _]. specialize (Ho N_odd).
  destruct (Zodd_ex _ Ho) as [m Hm]. subst N.
  replace (2 * m + 1 + 1) with ((m + 1) * 2) by lia.
  rewrite Z.div_mul by lia. lia.
Qed.

Lemma covers_position a c i j :
  0 <= a < N -> 0 <= c < N -> a <> c ->
  0 <= i < N -> 0 <= j < h ->
  covers (plan_job b tau N i j) a c <->
  (i, j) = (if ((0 <? c - a) && (c - a <? h)) then (a, c - a)
            else if (0 <? c - a) then (c, a - c + N)
            else if (a - c <? h) then (c, a - c)
            else (a, c - a + N)).
Proof.
  intros Ha Hc Hac Hi Hj. pose proof njobs_half as Hh.
  unfold covers, queries_in, plan_job. simpl.
  destruct (plan_idx_cases i j Hi ltac:(lia)) as [[Hlt E]|[Hge E]];
    rewrite E;
    destruct (Z.ltb_spec 0 (c - a)), (Z.ltb_spec (c - a) h),
             (Z.ltb_spec (a - c) h); simpl;
    (split; [intros [[Q1 Q2]|[Q1 Q2]]; f_equal; lia
            | intros [= Q1 Q2]; lia]).
Qed.

Lemma covers_position_range a c :
  0 <= a < N -> 0 <= c < N -> a <> c ->
  let ij := (if ((0 <? c - a) && (c - a <? h)) then (a, c - a)
             else if (0 <? c - a) then (c, a - c + N)
             else if (a - c <? h) then (c, a - c)
             else (a, c - a + N)) in
  0 <= fst ij < N /\ 0 <= snd ij < h.
Proof.
  intros Ha Hc Hac. pose proof njobs_half as Hh.
  destruct (Z.ltb_spec 0 (c - a)), (Z.ltb_spec (c - a) h),
           (Z.ltb_spec (a - c) h); simpl; lia.
Qed.

Lemma covers_unique a c :
  0 <= a < N -> 0 <= c < N -> a <> c ->
  exists! ij : Z * Z,
    exists job, plan_job_at p (fst ij) (snd ij) = Some job /\ covers job a c.
Proof.
  intros Ha Hc Hac.
  pose proof (covers_position_range a c Ha Hc Hac) as Hr. cbv zeta in Hr.
  set (ij := if ((0 <? c - a) && (c - a <? h)) then (a, c - a)
             else if (0 <? c - a) then (c, a - c + N)
             else if (a - c <? h) then (c, a - c)
             else (a, c - a + N)) in *.
  exists ij. split.
  - exists (plan_job b tau N (fst ij) (snd ij)). split.
    + apply plan_job_at_in; lia.
    + apply covers_position; try lia. symmetry. apply surjective_pairing.
  - intros [i j] (job & Hjob & Hcov). simpl in *.
    apply plan_job_at_inv in Hjob. destruct Hjob as (Hi & Hj & ->).
    apply covers_position in Hcov; try lia. now symmetry.
Qed.

Lemma queries_in_not_both a c i j i' j' :
  0 <= a < N -> 0 <= c < N -> a <> c ->
  0 <= i < N -> 0 <= j < h -> 0 <= i' < N -> 0 <= j' < h ->
  queries_in (plan_job b tau N i j) a c ->
  queries_in (plan_job b tau N i' j') c a -> False.
Proof.
  intros Ha Hc Hac Hi Hj Hi' Hj' H1 H2.
  assert (C1 : covers (plan_job b tau N i j) a c) by (left; exact H1).
  assert (C2 : covers (plan_job b tau N i' j') a c) by (right; exact H2).
  apply covers_position in C1; try lia.
  apply covers_position in C2; try lia.
  assert (E : i = i') by congruence.
  destruct H1 as [H1 _], H2 as [H2 _]. simpl in H1, H2. lia.
Qed.

Lemma within_block_position a i j :
  0 <= a < N -> 0 <= i < N -> 0 <= j < h ->
  queries_in (plan_job b tau N i j) a a <-> (i, j) = (a, 0).
Proof.
  intros Ha Hi Hj. pose proof njobs_half as Hh.
  unfold queries_in, plan_job. simpl.
  destruct (plan_idx_cases i j Hi ltac:(lia)) as [[Hlt E]|[Hge E]];
    rewrite E;
    (split; [intros [Q1 Q2]; f_equal; lia | intros [= Q1 Q2]; lia]).
Qed.

End Schedule.

(** C1: in the plan built by [plan_mt] for an odd number [N] of tries,
    trie [i] has [(N+1)/2] jobs, its [j]-th job has the range of block
    [(i+j) mod N] and is a build job exactly when [j = 0]; for two distinct
    blocks exactly one job of the plan queries one of them against the trie
    built from the other, never one job in each direction; the pair of a
    block with itself is covered by the build job of its trie and by no
    other job. *)
Theorem plan_mt_schedule MAX_K tau height med N M :
  0 < N -> Z.odd N = true ->
  let p := plan_mt MAX_K tau height med N M in
  let b := plan_bounds M N in
  let njobs := (N + 1) / 2 in
  (forall i j, 0 <= i < N -> 0 <= j < njobs ->
     exists job, plan_job_at p i j = Some job /\
       job_start job = znth b ((i + j) mod N) /\
       job_end job = znth b ((i + j) mod N + 1) - 1 /\
       job_queryid job = (i + j) mod N + 1 /\
       job_trieid job = i + 1 /\
       (job_build job = true <-> j = 0)) /\
  (forall i j job, plan_job_at p i j = Some job ->
     0 <= i < N /\ 0 <= j < njobs) /\
  (forall a c, 0 <= a < N -> 0 <= c < N -> a <> c ->
     (exists! ij : Z * Z, exists job,
        plan_job_at p (fst ij) (snd ij) = Some job /\ covers job a c) /\
     ~ ((exists i j job, plan_job_at p i j = Some job /\ queries_in job a c)
        /\ (exists i j job,
              plan_job_at p i j = Some job /\ queries_in job c a))) /\
  (forall a, 0 <= a < N ->
     (exists job, plan_job_at p a 0 = Some job /\
        job_build job = true /\ queries_in job a a) /\
     (forall i j job, plan_job_at p i j = Some job -> queries_in job a a ->
        (i, j) = (a, 0))).
Proof.
  intros HN Hodd p b njobs.
  assert (Hq : Z.quot (N + 1) 2 = njobs)
    by (apply Z.quot_div_nonneg; lia).
  pose proof (njobs_half N HN Hodd) as Hh. rewrite Hq in Hh.
  split; [|split; [|split]].
  - intros i j Hi Hj.
    exists (plan_job b tau N i j). split.
    + apply plan_job_at_in; lia.
    + unfold plan_job. simpl. rewrite Z.rem_mod_nonneg by lia.
      repeat split; try reflexivity.
      * intros E. apply Z.eqb_eq in E. exact E.
      * intros ->. reflexivity.
  - intros i j job E. apply plan_job_at_range in E; [|assumption].
    rewrite Hq in E. exact E.
  - intros a c Ha Hc Hac. split.
    + now apply covers_unique.
    + intros [(i & j & job & E & Q) (i' & j' & job' & E' & Q')].
      apply plan_job_at_inv in E; [|assumption].
      apply plan_job_at_inv in E'; [|assumption].
      destruct E as (Hi & Hj & ->), E' as (Hi' & Hj' & ->).
      exact (queries_in_not_both tau N M HN Hodd a c i j i' j'
               Ha Hc Hac Hi Hj Hi' Hj' Q Q').
  - intros a Ha. split.
    + exists (plan_job b tau N a 0). split; [|split].
      * apply plan_job_at_in; lia.
      * reflexivity.
      * apply within_block_position; try assumption; try lia. reflexivity.
    + intros i j job E Q.
      apply plan_job_at_inv in E; [|assumption].
      destruct E as (Hi & Hj & ->).
      apply within_block_position in Q; try assumption; lia.
Qed.

Lemma plan_mt_schedule_witness :
  exists job, plan_job_at (plan_mt 14 1 4 4 5 10) 3 2 = Some job /\
    job_queryid job = (3 + 2) mod 5 + 1 /\ job_trieid job = 3 + 1.
Proof.
  pose proof (plan_mt_schedule 14 1 4 4 5 10 ltac:(lia) ltac:(reflexivity))
    as H.
  cbv zeta in H. destruct H as (H & _).
  destruct (H 3 2 ltac:(lia) ltac:(split; [lia | reflexivity]))
    as (job & E & _ & _ & Hq & Ht & _).
  exists job. repeat split; assumption.
Defined.

(* ================================================================= *)
(** ** C strings *)

Lemma char_at_in (s : cstr) k c :
  0 <= k -> s !! Z.to_nat k = Some c -> char_at s k = Some c.
Proof.
  intros Hk E. unfold char_at.
  destruct (Z.ltb_spec k 0); [lia|]. now rewrite E.
Qed.

Lemma char_at_end (s : cstr) : char_at s (strlen s) = Some NUL.
Proof.
  unfold char_at, strlen.
  destruct (Z.ltb_spec (Z.of_nat (length s)) 0); [lia|].
  rewrite Nat2Z.id, lookup_ge_None_2 by lia. now rewrite Z.eqb_refl.
Qed.

Lemma is_cstr_lookup (s : cstr) n c :
  is_cstr s -> s !! n = Some c -> c <> NUL.
Proof.
  intros Hs E. unfold is_cstr in Hs.
  rewrite Forall_lookup in Hs. eapply Hs, E.
Qed.

Lemma base_code_NUL : base_code NUL = None.
Proof. reflexivity. Qed.

Lemma base_code_range c d : base_code c = Some d -> 0 <= d <= 3.
Proof.
  unfold base_code.
  repeat match goal with
         | |- context [if ?b then _ else _] => destruct b
         end; intros [= <-]; lia.
Qed.

Lemma all_bases_is_cstr s : all_bases s -> is_cstr s.
Proof.
  unfold all_bases, is_cstr. intros H. eapply Forall_impl; [exact H|].
  intros c Hc ->. now apply Hc.
Qed.

Lemma substr_length (s : cstr) off kl :
  0 <= off -> 0 <= kl -> off + kl <= strlen s ->
  length (substr s off kl) = Z.to_nat kl.
Proof.
  intros Ho Hk Hs. unfold substr, strlen in *.
  rewrite length_take, length_drop. lia.
Qed.

Lemma char_at_substr (s : cstr) off kl k :
  0 <= off -> 0 <= k < kl -> off + kl <= strlen s ->
  char_at (substr s off kl) k = char_at s (off + k).
Proof.
  intros Ho Hk Hs. unfold strlen in Hs.
  destruct (lookup_lt_is_Some_2 s (Z.to_nat (off + k)) ltac:(lia)) as [c Hc].
  rewrite (char_at_in s (off + k) c) by (lia || exact Hc).
  apply char_at_in; [lia|].
  unfold substr. rewrite lookup_take_lt, lookup_drop by lia.
  rewrite <- Hc. f_equal. lia.
Qed.

(* ================================================================= *)
(** ** [seq2id] *)

(** The scan never reads out of bounds when it starts inside the string:
    it stops at the terminator. *)
Lemma seq2id_from_safe s n : forall p acc,
  0 <= p <= strlen s -> exists v, seq2id_from s p n acc = Some v.
Proof.
  induction n as [|n IH]; intros p acc Hp; simpl; [eauto|].
  destruct (s !! Z.to_nat p) as [c|] eqn:E.
  - rewrite (char_at_in s p c) by (lia || exact E).
    destruct (base_code c) as [d|]; [|eauto].
    apply IH. apply lookup_lt_Some in E. unfold strlen in *. lia.
  - apply lookup_ge_None_1 in E.
    assert (p = strlen s) as -> by (unfold strlen in *; lia).
    rewrite char_at_end, base_code_NUL. eauto.
Qed.

Lemma seq2id_nonpos s off kl : kl <= 0 -> seq2id s off kl = Some 0.
Proof.
  intros H. unfold seq2id. now replace (Z.to_nat kl) with 0%nat by lia.
Qed.

Lemma seq2id_safe s off kl :
  (1 <= kl -> 0 <= off <= strlen s) -> exists v, seq2id s off kl = Some v.
Proof.
  intros H. destruct (Z.le_gt_cases kl 0).
  - rewrite seq2id_nonpos by lia. eauto.
  - apply seq2id_from_safe. apply H. lia.
Qed.

(** The scan only depends on the bytes it reads. *)
Lemma seq2id_from_ext s s' n : forall p p' acc,
  (forall k, 0 <= k < Z.of_nat n -> char_at s (p + k) = char_at s' (p' + k)) ->
  seq2id_from s p n acc = seq2id_from s' p' n acc.
Proof.
  induction n as [|n IH]; intros p p' acc H; [reflexivity|].
  simpl. pose proof (H 0 ltac:(lia)) as H0. rewrite !Z.add_0_r in H0.
  rewrite H0. destruct (char_at s' p') as [c|]; [|reflexivity].
  destruct (base_code c) as [d|]; [|reflexivity].
  apply IH. intros k Hk.
  replace (p + 1 + k) with (p + (k + 1)) by lia.
  replace (p' + 1 + k) with (p' + (k + 1)) by lia.
  apply H. lia.
Qed.

(** The identifier of a complete k-mer is that of the k-mer taken alone. *)
Lemma seq2id_substr s off kl :
  0 <= off -> off + kl <= strlen s ->
  seq2id s off kl = seq2id (substr s off kl) 0 kl.
Proof.
  intros Ho Hs. unfold seq2id. apply seq2id_from_ext.
  intros k Hk. rewrite Z.add_0_l. symmetry. apply char_at_substr; lia.
Qed.

(** A byte that is no base stops the scan with [-1]. *)
Lemma seq2id_from_invalid w n : forall p acc,
  0 <= p -> is_cstr w -> ~ all_bases (drop (Z.to_nat p) w) ->
  (Z.to_nat p + n)%nat = length w ->
  seq2id_from w p n acc = Some (-1).
Proof.
  induction n as [|n IH]; intros p acc Hp Hw Hnb Hlen.
  - exfalso. apply Hnb. rewrite drop_ge by lia. constructor.
  - destruct (lookup_lt_is_Some_2 w (Z.to_nat p) ltac:(lia)) as [c Hc].
    simpl. rewrite (char_at_in w p c) by (lia || exact Hc).
    destruct (base_code c) as [d|] eqn:Ed.
    + apply IH; try lia; try exact Hw.
      intros Hb. apply Hnb.
      rewrite (drop_S w c (Z.to_nat p) Hc).
      constructor; [congruence|].
      replace (S (Z.to_nat p)) with (Z.to_nat (p + 1)) by lia. exact Hb.
    + pose proof (is_cstr_lookup _ _ _ Hw Hc) as Hn.
      destruct (Ascii.eqb_spec c NUL); [contradiction|reflexivity].
Qed.

Lemma seq2id_invalid w :
  is_cstr w -> ~ all_bases w -> seq2id w 0 (strlen w) = Some (-1).
Proof.
  intros Hw Hnb. unfold seq2id, strlen. rewrite Nat2Z.id.
  apply seq2id_from_invalid; try assumption; lia.
Qed.

(** The identifier of a k-mer of bases: no wrap-around up to 15 bases. *)
Lemma seq2id_from_bases w n : forall p acc,
  0 <= p -> all_bases w -> (Z.to_nat p + n)%nat = length w ->
  0 <= acc -> (1 <= n)%nat -> acc * 4 ^ (Z.of_nat n - 1) + 4 ^ Z.of_nat n <= 2 ^ 31 ->
  exists v, seq2id_from w p n acc = Some v /\
    acc * 4 ^ (Z.of_nat n - 1) <= v < acc * 4 ^ (Z.of_nat n - 1) + 4 ^ Z.of_nat n.
Proof.
  induction n as [|n IH]; intros p acc Hp Hw Hlen Hacc Hn Hb; [lia|].
  destruct (lookup_lt_is_Some_2 w (Z.to_nat p) ltac:(lia)) as [c Hc].
  simpl seq2id_from. rewrite (char_at_in w p c) by (lia || exact Hc).
  destruct (base_code c) as [d|] eqn:Ed.
  2:{ exfalso. unfold all_bases in Hw. rewrite Forall_lookup in Hw.
      now apply (Hw _ _ Hc). }
  pose proof (base_code_range _ _ Ed) as Hd.
  replace (Z.of_nat (S n) - 1) with (Z.of_nat n) in * by lia.
  assert (H4 : 4 ^ Z.of_nat (S n) = 4 * 4 ^ Z.of_nat n).
  { rewrite Nat2Z.inj_succ, Z.pow_succ_r by lia. reflexivity. }
  assert (Hpos : 0 < 4 ^ Z.of_nat n) by (apply Z.pow_pos_nonneg; lia).
  destruct n as [|n].
  - simpl in *. rewrite wrap_small by lia.
    eexists. split; [reflexivity|]. lia.
  - assert (H4' : 4 ^ Z.of_nat (S n) = 4 * 4 ^ (Z.of_nat (S n) - 1)).
    { replace (Z.of_nat (S n)) with (Z.succ (Z.of_nat (S n) - 1)) at 1 by lia.
      rewrite Z.pow_succ_r by lia. reflexivity. }
    assert (Hpos' : 0 < 4 ^ (Z.of_nat (S n) - 1))
      by (apply Z.pow_pos_nonneg; lia).
    rewrite (wrap_small (acc + d)) by nia.
    rewrite Z.shiftl_mul_pow2 by lia.
    change (2 ^ 2) with 4.
    rewrite wrap_small by nia.
    destruct (IH (p + 1) ((acc + d) * 4)) as (v & Ev & Hv);
      try assumption; try lia; try nia.
    exists v. split; [exact Ev|]. nia.
Qed.

Lemma seq2id_bases w :
  all_bases w -> strlen w <= 15 ->
  exists v, seq2id w 0 (strlen w) = Some v /\ 0 <= v < 4 ^ strlen w.
Proof.
  intros Hw Hl. unfold seq2id, strlen in *. rewrite Nat2Z.id.
  destruct (length w) as [|n] eqn:E.
  - simpl. exists 0. split; [reflexivity|]. simpl. lia.
  - assert (4 ^ Z.of_nat (S n) <= 4 ^ 15) by (apply Z.pow_le_mono_r; lia).
    destruct (seq2id_from_bases w (S n) 0 0) as (v & Ev & Hv);
      try assumption; try lia.
    exists v. split; [exact Ev|]. lia.
Qed.

Lemma all_bases_dec w : {all_bases w} + {~ all_bases w}.
Proof.
  unfold all_bases. apply Forall_dec. intros c.
  destruct (base_code c); [left; discriminate | right; intros H; now apply H].
Qed.

(** A scan that runs into the end of the string returns [-1] or [-2]. *)
Lemma seq2id_from_truncated s n : forall p acc,
  is_cstr s -> 0 <= p <= strlen s -> strlen s < p + Z.of_nat n ->
  seq2id_from s p n acc = Some (-1) \/ seq2id_from s p n acc = Some (-2).
Proof.
  induction n as [|n IH]; intros p acc Hs Hp Hn; [lia|].
  simpl. destruct (s !! Z.to_nat p) as [c|] eqn:E.
  - rewrite (char_at_in s p c) by (lia || exact E).
    pose proof (is_cstr_lookup _ _ _ Hs E) as Hc.
    apply lookup_lt_Some in E. unfold strlen in *.
    destruct (base_code c) as [d|].
    + apply IH; [exact Hs|lia|lia].
    + destruct (Ascii.eqb_spec c NUL); [contradiction|]. now left.
  - apply lookup_ge_None_1 in E.
    assert (p = strlen s) as -> by (unfold strlen in *; lia).
    rewrite char_at_end, base_code_NUL. now right.
Qed.

Lemma substr_is_cstr s off kl : is_cstr s -> is_cstr (substr s off kl).
Proof.
  unfold is_cstr, substr. intros H.
  apply Forall_take, Forall_drop, H.
Qed.

(** What [seq2id] returns for a k-mer that starts inside the string. *)
Lemma seq2id_cases s off kl :
  is_cstr s -> kl <= 15 -> (1 <= kl -> 0 <= off <= strlen s) ->
  (kl <= 0 /\ seq2id s off kl = Some 0) \/
  (1 <= kl /\ off + kl <= strlen s /\ all_bases (substr s off kl) /\
     exists v, seq2id s off kl = Some v /\ 0 <= v < 4 ^ kl) \/
  (1 <= kl /\ off + kl <= strlen s /\ ~ all_bases (substr s off kl) /\
     seq2id s off kl = Some (-1)) \/
  (1 <= kl /\ strlen s < off + kl /\
     (seq2id s off kl = Some (-1) \/ seq2id s off kl = Some (-2))).
Proof.
  intros Hs Hk Ho.
  destruct (Z.le_gt_cases kl 0) as [Hle|Hgt].
  { left. split; [lia|]. now apply seq2id_nonpos. }
  right. specialize (Ho ltac:(lia)).
  destruct (Z.le_gt_cases (off + kl) (strlen s)) as [Hin|Hout].
  - pose proof (substr_length s off kl ltac:(lia) ltac:(lia) Hin) as Hlen.
    assert (Hsl : strlen (substr s off kl) = kl) by (unfold strlen; lia).
    rewrite seq2id_substr by lia.
    destruct (all_bases_dec (substr s off kl)) as [Hb|Hnb].
    + left. repeat split; try lia; [exact Hb|].
      destruct (seq2id_bases _ Hb ltac:(lia)) as (v & Ev & Hv).
      rewrite Hsl in Ev, Hv. exists v. split; [exact Ev|exact Hv].
    + right. left. repeat split; try lia; [exact Hnb|].
      pose proof (seq2id_invalid _ (substr_is_cstr s off kl Hs) Hnb) as E.
      now rewrite Hsl in E.
  - right. right. repeat split; try lia.
    apply seq2id_from_truncated; [exact Hs|lia|lia].
Qed.

(* ================================================================= *)
(** ** Bitmaps *)

Lemma bit_test byte r :
  0 <= r -> negb (Z.land (Z.shiftr byte r) 1 =? 0) = Z.testbit byte r.
Proof.
  intros Hr.
  assert (E : Z.land (Z.shiftr byte r) (Z.ones 1) = Z.shiftr byte r mod 2 ^ 1)
    by (apply Z.land_ones; lia).
  change (Z.ones 1) with 1 in E. change (2 ^ 1) with 2 in E.
  rewrite E, Zmod_odd.
  rewrite <- Z.bit0_odd, Z.shiftr_spec, Z.add_0_l by lia.
  now destruct (Z.testbit byte r).
Qed.

Lemma rem8_range v : 0 <= v -> 0 <= Z.rem v 8 < 8.
Proof. intros H. rewrite Z.rem_mod_nonneg by lia. apply Z.mod_pos_bound. lia. Qed.

Lemma set_bit_length row v row' :
  set_bit row v = Some row' -> length row' = length row.
Proof.
  unfold set_bit. destruct (row !! _); [|discriminate].
  intros [= <-]. apply length_insert.
Qed.

Lemma get_bit_set_bit row v row' :
  0 <= v -> set_bit row v = Some row' -> get_bit row' v = Some true.
Proof.
  intros Hv. unfold set_bit, get_bit.
  destruct (row !! _) as [byte|] eqn:E; [|discriminate].
  intros [= <-]. destruct (Z.ltb_spec v 0); [lia|].
  rewrite list_lookup_insert_eq by (eapply lookup_lt_Some, E).
  f_equal. pose proof (rem8_range v Hv).
  rewrite bit_test, Z.lor_spec, Z.shiftl_spec by lia.
  rewrite Z.sub_diag. simpl. apply orb_true_r.
Qed.

(** Setting a bit clears none. *)
Lemma get_bit_mono row v' row' v :
  0 <= v' -> set_bit row v' = Some row' ->
  get_bit row v = Some true -> get_bit row' v = Some true.
Proof.
  intros Hv'. unfold set_bit, get_bit.
  destruct (row !! Z.to_nat (Z.quot v' 8)) as [byte'|] eqn:E'; [|discriminate].
  intros [= <-]. destruct (Z.ltb_spec v 0); [discriminate|].
  destruct (row !! Z.to_nat (Z.quot v 8)) as [byte|] eqn:E; [|discriminate].
  pose proof (rem8_range v ltac:(lia)). pose proof (rem8_range v' Hv').
  rewrite bit_test by lia. intros [= Hb].
  destruct (decide (Z.to_nat (Z.quot v' 8) = Z.to_nat (Z.quot v 8))) as [Eq|Ne].
  - rewrite Eq in *. rewrite list_lookup_insert_eq by (eapply lookup_lt_Some, E).
    f_equal. rewrite bit_test, Z.lor_spec by lia.
    assert (byte' = byte) as -> by congruence. now rewrite Hb.
  - rewrite list_lookup_insert_ne by exact Ne. rewrite E.
    f_equal. now rewrite bit_test by lia.
Qed.

(** The identifier of a k-mer of length [kl] indexes the bitmap allocated
    for it. *)
Lemma row_index_in kl row v :
  row_ok kl row -> 0 <= v < 4 ^ Z.max 0 kl ->
  (Z.to_nat (Z.quot v 8) < length row)%nat.
Proof.
  unfold row_ok. intros -> Hv.
  rewrite Z.quot_div_nonneg by lia.
  rewrite Z.shiftl_1_l.
  destruct (Z.le_gt_cases 2 kl) as [Hk|Hk].
  - rewrite Z.max_r in * by lia.
    assert (E : 4 ^ kl = 8 * 2 ^ (2 * kl - 3)).
    { change 4 with (2 ^ 2). rewrite <- Z.pow_mul_r by lia.
      change 8 with (2 ^ 3). rewrite <- Z.pow_add_r by lia. f_equal. lia. }
    assert (v / 8 < 2 ^ (2 * kl - 3)) by (apply Z.div_lt_upper_bound; lia).
    assert (0 <= v / 8) by (apply Z.div_pos; lia). lia.
  - rewrite (Z.max_l 0 (2 * kl - 3)) by lia. simpl.
    assert (4 ^ Z.max 0 kl <= 4).
    { change 4 with (4 ^ 1) at 2. apply Z.pow_le_mono_r; lia. }
    rewrite Z.div_small by lia. simpl. lia.
Qed.

Lemma set_bit_in kl row v :
  row_ok kl row -> 0 <= v < 4 ^ Z.max 0 kl ->
  exists row', set_bit row v = Some row'.
Proof.
  intros Hr Hv. unfold set_bit.
  destruct (lookup_lt_is_Some_2 row _ (row_index_in _ _ _ Hr Hv)) as [b Hb].
  rewrite Hb. eauto.
Qed.

Lemma get_bit_in kl row v :
  row_ok kl row -> 0 <= v < 4 ^ Z.max 0 kl ->
  exists b, get_bit row v = Some b.
Proof.
  intros Hr Hv. unfold get_bit. destruct (Z.ltb_spec v 0); [lia|].
  destruct (lookup_lt_is_Some_2 row _ (row_index_in _ _ _ Hr Hv)) as [b Hb].
  rewrite Hb. eauto.
Qed.

Lemma row_ok_set_bit kl row v row' :
  row_ok kl row -> set_bit row v = Some row' -> row_ok kl row'.
Proof.
  unfold row_ok. intros H E. now rewrite (set_bit_length _ _ _ E).
Qed.

(** A non-negative identifier returned by [seq2id] is within the range of
    the k-mer length. *)
Lemma seq2id_nonneg_range s off kl v :
  is_cstr s -> kl <= 15 -> (1 <= kl -> 0 <= off <= strlen s) ->
  seq2id s off kl = Some v -> 0 <= v -> v < 4 ^ Z.max 0 kl.
Proof.
  intros Hs Hk Ho Ev Hv.
  destruct (seq2id_cases s off kl Hs Hk Ho)
    as [[Hle E]|[(Hge & _ & _ & v' & E & Hv')|[(_ & _ & _ & E)|(_ & _ & [E|E])]]];
    rewrite E in Ev; injection Ev as <-.
  - rewrite Z.max_l by lia. reflexivity.
  - rewrite Z.max_r by lia. lia.
  - lia.
  - lia.
  - lia.
Qed.

(* ================================================================= *)
(** ** [lut_insert] *)

Lemma zsum_app l1 l2 : zsum (l1 ++ l2) = zsum l1 + zsum l2.
Proof. induction l1 as [|x l1 IH]; simpl; lia. Qed.

Lemma zsum_drop_S (klen : list Z) i kl :
  klen !! i = Some kl -> zsum (drop i klen) = kl + zsum (drop (S i) klen).
Proof. intros E. now rewrite (drop_S _ _ _ E). Qed.

Section InsertLoop.

Variables (s : cstr) (slen : Z) (klen : list Z).

Local Abbreviation off i := (slen - zsum (drop i klen)).

Lemma lut_insert_loop_inv n : forall bits bits' r,
  lut_insert_loop n klen bits s (off n) = Some (bits', r) ->
  length bits' = length bits /\
  (r = 0 \/ r = 1) /\
  (forall i, (n <= i)%nat -> bits' !! i = bits !! i) /\
  (forall i kl, (i < n)%nat -> klen !! i = Some kl ->
     kmer_effect s (off i) kl (bits !! i) (bits' !! i)) /\
  (r = 0 -> forall i kl, (i < n)%nat -> klen !! i = Some kl ->
     exists v, seq2id s (off i) kl = Some v /\ v <> -2 /\
       (0 <= v -> exists row, bits !! i = Some row /\
          bits' !! i = set_bit row v /\ is_Some (set_bit row v))) /\
  (r = 1 -> exists i kl, (i < n)%nat /\ klen !! i = Some kl /\
     seq2id s (off i) kl = Some (-2)).
Proof.
  induction n as [|n IH]; intros bits bits' r.
  { simpl. intros [= <- <-]. repeat split; try (intros; lia); auto. }
  simpl. destruct (klen !! n) as [kl|] eqn:Ekl; [|discriminate].
  replace (off (S n) - kl) with (off n) by (rewrite (zsum_drop_S _ _ _ Ekl); lia).
  destruct (seq2id s (off n) kl) as [v|] eqn:Ev; [|discriminate].
  destruct (Z.leb_spec 0 v) as [Hv|Hv].
  - (* a bit is set *)
    destruct (bits !! n) as [row|] eqn:Erow; [|discriminate].
    destruct (set_bit row v) as [row'|] eqn:Eset; [|discriminate].
    intros E. apply IH in E.
    destruct E as (Hlen & Hr & Hge & Heff & H0 & H1).
    rewrite length_insert in Hlen.
    assert (Hn : bits' !! n = Some row').
    { rewrite Hge by lia. apply list_lookup_insert_eq.
      eapply lookup_lt_Some, Erow. }
    repeat split; try assumption.
    + intros i Hi. rewrite Hge by lia. apply list_lookup_insert_ne. lia.
    + intros i kl' Hi Ei. destruct (decide (i = n)) as [->|Hne].
      * right. exists v, row. rewrite Hn, Eset.
        assert (kl' = kl) as -> by congruence. eauto.
      * specialize (Heff i kl' ltac:(lia) Ei).
        now rewrite list_lookup_insert_ne in Heff by lia.
    + intros Hr0 i kl' Hi Ei. destruct (decide (i = n)) as [->|Hne].
      * assert (kl' = kl) as -> by congruence.
        exists v. split; [exact Ev|]. split; [lia|].
        intros _. exists row. rewrite Hn, Eset. eauto.
      * specialize (H0 Hr0 i kl' ltac:(lia) Ei).
        now rewrite list_lookup_insert_ne in H0 by lia.
    + intros Hr1. destruct (H1 Hr1) as (i & kl' & Hi & Ei & E2).
      exists i, kl'. split; [lia|]. now split.
  - destruct (Z.eqb_spec v (-2)) as [->|Hv2].
    + (* the terminator: return 1 *)
      intros [= <- <-]. repeat split; auto.
      * intros i kl' Hi Ei. now left.
      * discriminate.
      * intros _. exists n, kl. split; [lia|]. now split.
    + (* no base: the k-mer is skipped *)
      intros E. apply IH in E.
      destruct E as (Hlen & Hr & Hge & Heff & H0 & H1).
      repeat split; try assumption.
      * intros i Hi. apply Hge. lia.
      * intros i kl' Hi Ei. destruct (decide (i = n)) as [->|Hne].
        -- left. apply Hge. lia.
        -- apply Heff; [lia|exact Ei].
      * intros Hr0 i kl' Hi Ei. destruct (decide (i = n)) as [->|Hne].
        -- assert (kl' = kl) as -> by congruence.
           exists v. split; [exact Ev|]. split; [exact Hv2|]. lia.
        -- apply H0; [exact Hr0|lia|exact Ei].
      * intros Hr1. destruct (H1 Hr1) as (i & kl' & Hi & Ei & E2).
        exists i, kl'. split; [lia|]. now split.
Qed.

(** The loop runs to its end when every k-mer starts inside the string. *)
Lemma lut_insert_loop_total n : forall bits,
  (n <= length klen)%nat -> is_cstr s ->
  Forall2 row_ok klen bits -> Forall (fun kl => kl <= 15) klen ->
  (forall i kl, klen !! i = Some kl -> 1 <= kl -> 0 <= off i <= strlen s) ->
  exists bits' r, lut_insert_loop n klen bits s (off n) = Some (bits', r) /\
    Forall2 row_ok klen bits'.
Proof.
  induction n as [|n IH]; intros bits Hn Hs Hrows Hkl Hoff.
  { simpl. eauto. }
  simpl. destruct (lookup_lt_is_Some_2 klen n ltac:(lia)) as [kl Ekl].
  rewrite Ekl.
  replace (off (S n) - kl) with (off n) by (rewrite (zsum_drop_S _ _ _ Ekl); lia).
  assert (Hkl15 : kl <= 15).
  { rewrite Forall_lookup in Hkl. apply (Hkl _ _ Ekl). }
  destruct (seq2id_safe s (off n) kl) as [v Ev].
  { intros Hk. exact (Hoff n kl Ekl Hk). }
  rewrite Ev. destruct (Z.leb_spec 0 v) as [Hv|Hv].
  - destruct (Forall2_lookup_l _ _ _ _ _ Hrows Ekl) as (row & Erow & Hrow).
    rewrite Erow.
    pose proof (seq2id_nonneg_range s (off n) kl v Hs Hkl15
                  (fun H => Hoff _ _ Ekl H) Ev Hv) as Hlt.
    destruct (set_bit_in kl row v Hrow ltac:(lia)) as [row' Eset].
    rewrite Eset. apply IH; try assumption; [lia|].
    rewrite Forall2_lookup in Hrows |- *. intros i.
    destruct (decide (i = n)) as [->|Hne].
    + rewrite list_lookup_insert_eq by (eapply lookup_lt_Some, Erow).
      rewrite Ekl. constructor. eapply row_ok_set_bit; eauto.
    + rewrite list_lookup_insert_ne by lia. apply Hrows.
  - destruct (Z.eqb_spec v (-2)); [eauto|].
    apply IH; try assumption; lia.
Qed.

End InsertLoop.

(* ================================================================= *)
(** ** The geometry of the filters made by [new_lookup] *)

Lemma zsum_replicate n c : zsum (replicate n c) = Z.of_nat n * c.
Proof. induction n as [|n IH]; simpl replicate; simpl zsum; lia. Qed.

Lemma fmap_const_replicate {A B} (c : B) (l : list A) :
  (fun _ => c) <$> l = replicate (length l) c.
Proof. induction l as [|x l IH]; simpl; [reflexivity|]. now rewrite <- IH. Qed.

Lemma klen_loop_drop n k rem i :
  (i <= n)%nat ->
  drop i (klen_loop n k rem) = klen_loop (n - i) k (rem - Z.of_nat i).
Proof.
  revert n rem. induction i as [|i IH]; intros n rem Hi.
  - rewrite Nat.sub_0_r, Z.sub_0_r. reflexivity.
  - destruct n as [|n]; [lia|]. simpl. rewrite IH by lia.
    f_equal. lia.
Qed.

Lemma klen_loop_zsum n k rem :
  zsum (klen_loop n k rem)
  = Z.of_nat n * k - Z.max 0 (Z.min (Z.of_nat n) rem).
Proof.
  revert rem. induction n as [|n IH]; intros rem.
  - simpl. lia.
  - simpl klen_loop. simpl zsum. rewrite IH.
    destruct (Z.gtb_spec rem 0); lia.
Qed.

Section NewLookup.

Variables (MAX_K slen maxlen tau : Z).
Hypothesis tau_nonneg : 0 <= tau.
Hypothesis slen_range : 0 <= slen <= maxlen.

Local Abbreviation L := (new_lookup MAX_K slen maxlen tau).
Local Abbreviation k := (slen / (tau + 1)).
Local Abbreviation r := (slen mod (tau + 1)).

Lemma new_lookup_klen_cases :
  (k > MAX_K /\ lut_klen L = replicate (Z.to_nat (tau + 1)) MAX_K) \/
  (k <= MAX_K /\ lut_klen L = klen_loop (Z.to_nat (tau + 1)) k (tau - r)).
Proof.
  unfold new_lookup. simpl.
  rewrite Z.quot_div_nonneg, Z.rem_mod_nonneg by lia.
  destruct (Z.gtb_spec k MAX_K).
  - left. split; [lia|]. now rewrite fmap_const_replicate, zrange_length.
  - right. split; [lia|reflexivity].
Qed.

Lemma new_lookup_klen_lookup i kl :
  lut_klen L !! i = Some kl ->
  Z.of_nat i <= tau /\
  kl = (if k >? MAX_K then MAX_K
        else if Z.of_nat i <? tau - r then k - 1 else k).
Proof.
  intros E.
  assert (Hi : Z.of_nat i <= tau).
  { apply lookup_lt_Some in E.
    rewrite new_lookup_klen_length in E by lia. lia. }
  split; [exact Hi|].
  pose proof (new_lookup_klen_nth MAX_K slen maxlen tau (Z.of_nat i)
                tau_nonneg ltac:(lia) ltac:(lia)) as H.
  unfold znth in H. rewrite Nat2Z.id, E in H. exact H.
Qed.

Lemma new_lookup_offset i :
  Z.of_nat i <= tau + 1 ->
  kmer_offset L i
  = maxlen - (if k >? MAX_K then (tau + 1 - Z.of_nat i) * MAX_K
              else (tau + 1 - Z.of_nat i) * k
                   - Z.max 0 (tau - r - Z.of_nat i)).
Proof.
  intros Hi. unfold kmer_offset.
  pose proof (Z.mod_pos_bound slen (tau + 1) ltac:(lia)) as Hr.
  destruct new_lookup_klen_cases as [[Hk ->]|[Hk ->]].
  - destruct (Z.gtb_spec k MAX_K); [|lia].
    rewrite drop_replicate, zsum_replicate.
    replace (Z.of_nat (Z.to_nat (tau + 1) - i)) with (tau + 1 - Z.of_nat i)
      by lia.
    reflexivity.
  - destruct (Z.gtb_spec k MAX_K); [lia|].
    rewrite klen_loop_drop, klen_loop_zsum by lia.
    replace (Z.of_nat (Z.to_nat (tau + 1) - i)) with (tau + 1 - Z.of_nat i)
      by lia.
    f_equal. lia.
Qed.

Lemma new_lookup_fits : lut_fits L maxlen.
Proof.
  intros i kl E Hkl.
  pose proof (new_lookup_klen_lookup i kl E) as [Hi Ekl].
  pose proof (Z.mod_pos_bound slen (tau + 1) ltac:(lia)) as Hr.
  pose proof (Z.div_mod slen (tau + 1) ltac:(lia)) as Hdm.
  pose proof (Z.div_pos slen (tau + 1) ltac:(lia) ltac:(lia)) as Hk0.
  rewrite new_lookup_offset by lia. simpl lut_kmers.
  destruct (Z.gtb_spec k MAX_K) as [Hgt|Hle].
  - subst kl. split; nia.
  - destruct (Z.ltb_spec (Z.of_nat i) (tau - r)) as [Hlt|Hge].
    + rewrite Z.max_r by lia. split; nia.
    + rewrite Z.max_l by lia. split; nia.
Qed.

Lemma new_lookup_starts_in : lut_starts_in L maxlen.
Proof.
  intros i kl E Hkl.
  pose proof (new_lookup_klen_lookup i kl E) as [Hi _].
  destruct (new_lookup_fits i kl E Hkl) as [H1 H2].
  simpl lut_kmers in *. lia.
Qed.

(** Either every k-mer has a length that is not negative and the k-mers lie
    inside the string, or the last k-mer is empty. *)
Lemma new_lookup_regular :
  (Forall (fun kl => 0 <= kl) (lut_klen L) /\ 0 <= kmer_offset L 0) \/
  (exists kl, lut_klen L !! Z.to_nat tau = Some kl /\ kl <= 0).
Proof.
  pose proof (Z.mod_pos_bound slen (tau + 1) ltac:(lia)) as Hr.
  pose proof (Z.div_mod slen (tau + 1) ltac:(lia)) as Hdm.
  pose proof (Z.div_pos slen (tau + 1) ltac:(lia) ltac:(lia)) as Hk0.
  destruct (lookup_lt_is_Some_2 (lut_klen L) (Z.to_nat tau)) as [klt Et].
  { rewrite new_lookup_klen_length by lia. lia. }
  pose proof (new_lookup_klen_lookup _ _ Et) as [_ Eklt].
  rewrite Z2Nat.id in Eklt by lia.
  destruct (Z.le_gt_cases klt 0) as [Hle|Hgt]; [right; eauto|].
  left. split.
  - rewrite Forall_lookup. intros i kl E.
    apply new_lookup_klen_lookup in E. destruct E as [Hi ->].
    destruct (Z.gtb_spec k MAX_K); [lia|].
    destruct (Z.ltb_spec tau (tau - r)); [lia|].
    destruct (_ <? _); lia.
  - rewrite new_lookup_offset by lia.
    destruct (Z.gtb_spec k MAX_K); nia.
Qed.

Hypothesis MAX_K_int : MAX_K <= 15.

Lemma new_lookup_wf : lut_wf L.
Proof.
  split; [|split].
  - rewrite new_lookup_klen_length by lia.
    change (lut_kmers L) with (tau + 1). lia.
  - unfold new_lookup. simpl lut_klen. simpl lut_bits.
    apply Forall2_fmap_r, Forall_Forall2_diag, Forall_forall.
    intros kl _. unfold row_ok, lut_alloc, compose.
    now rewrite length_replicate.
  - rewrite Forall_lookup. intros i kl E.
    apply new_lookup_klen_lookup in E. destruct E as [_ ->].
    pose proof (Z.div_pos slen (tau + 1) ltac:(lia) ltac:(lia)).
    destruct (Z.gtb_spec k MAX_K); [lia|].
    destruct (_ <? _); lia.
Qed.

End NewLookup.

(* ================================================================= *)
(** ** [lut_insert] (C10) *)

Lemma lut_insert_inv L s L' r :
  lut_insert L s = Some (L', r) ->
  lut_slen L' = lut_slen L /\ lut_kmers L' = lut_kmers L /\
  lut_klen L' = lut_klen L /\
  lut_insert_loop (Z.to_nat (lut_kmers L)) (lut_klen L) (lut_bits L) s
    (lut_slen L) = Some (lut_bits L', r).
Proof.
  unfold lut_insert.
  destruct (lut_insert_loop _ _ _ _ _) as [[bits r']|]; [|discriminate].
  intros [= <- <-]. simpl. auto.
Qed.

Lemma kmer_offset_top L :
  lut_wf L -> kmer_offset L (Z.to_nat (lut_kmers L)) = lut_slen L.
Proof.
  intros (Hk & _ & _). unfold kmer_offset.
  rewrite drop_ge by lia. simpl. lia.
Qed.

Lemma all_bases_nil_substr s off kl : kl <= 0 -> all_bases (substr s off kl).
Proof.
  intros H. unfold substr. replace (Z.to_nat kl) with 0%nat by lia.
  constructor.
Qed.

(** [lut_insert] returns on a well-formed filter whose k-mers start inside
    the string, and changes the bitmap of a k-mer by one bit at most. *)
Lemma lut_insert_effect L s :
  lut_wf L -> is_cstr s -> lut_starts_in L (strlen s) ->
  exists L' r, lut_insert L s = Some (L', r) /\
    (r = 0 \/ r = 1) /\
    lut_klen L' = lut_klen L /\ lut_wf L' /\
    (forall i kl, lut_klen L !! i = Some kl ->
       kmer_effect s (kmer_offset L i) kl (lut_bits L !! i)
         (lut_bits L' !! i)).
Proof.
  intros Hwf Hs Hin. pose proof Hwf as (Hk & Hrows & Hk15).
  pose proof (kmer_offset_top L Hwf) as Htop. unfold kmer_offset in Htop.
  destruct (lut_insert_loop_total s (lut_slen L) (lut_klen L)
              (Z.to_nat (lut_kmers L)) (lut_bits L) ltac:(lia) Hs Hrows Hk15)
    as (bits' & r & E & Hrows').
  { intros i kl Ei Hkl. exact (Hin i kl Ei Hkl). }
  pose proof E as E0. rewrite Htop in E0.
  apply lut_insert_loop_inv in E.
  destruct E as (_ & Hr & _ & Heff & _).
  exists {| lut_slen := lut_slen L; lut_kmers := lut_kmers L;
            lut_klen := lut_klen L; lut_bits := bits' |}, r.
  split; [unfold lut_insert; now rewrite E0|]. split; [exact Hr|].
  split; [reflexivity|]. split; [now split|].
  intros i kl Ei. apply Heff; [|exact Ei].
  apply lookup_lt_Some in Ei. lia.
Qed.

(** What the value returned by [lut_insert] tells about the identifiers
    that [seq2id] computed. *)
Lemma lut_insert_result L s L' r :
  lut_wf L -> lut_insert L s = Some (L', r) ->
  (r = 0 -> forall i kl, lut_klen L !! i = Some kl ->
     exists v, seq2id s (kmer_offset L i) kl = Some v /\ v <> -2 /\
       (0 <= v -> exists row, lut_bits L !! i = Some row /\
          lut_bits L' !! i = set_bit row v /\ is_Some (set_bit row v))) /\
  (r = 1 -> exists i kl, lut_klen L !! i = Some kl /\
     seq2id s (kmer_offset L i) kl = Some (-2)).
Proof.
  intros Hwf E. pose proof Hwf as (Hk & _ & _).
  destruct (lut_insert_inv _ _ _ _ E) as (_ & _ & _ & Eloop).
  rewrite <- (kmer_offset_top L Hwf) in Eloop. unfold kmer_offset in Eloop.
  apply lut_insert_loop_inv in Eloop.
  destruct Eloop as (_ & _ & _ & _ & H0 & H1). split.
  - intros Hr i kl Ei. apply (H0 Hr); [|exact Ei].
    apply lookup_lt_Some in Ei. lia.
  - intros Hr. destruct (H1 Hr) as (i & kl & _ & Ei & Ev). eauto.
Qed.

(** A k-mer of the filter is short enough for [seq2id] and, when it has a
    byte, starts inside the string. *)
Lemma lut_kmer_bounds L s i kl :
  lut_wf L -> lut_starts_in L (strlen s) -> lut_klen L !! i = Some kl ->
  kl <= 15 /\ (1 <= kl -> 0 <= kmer_offset L i <= strlen s).
Proof.
  intros (_ & _ & Hk15) Hin Ei. split.
  - rewrite Forall_lookup in Hk15. apply (Hk15 _ _ Ei).
  - intros Hkl. exact (Hin i kl Ei Hkl).
Qed.

(** [lut_insert] returns 0 when the string holds every k-mer in full. *)
Lemma lut_insert_complete L s L' r :
  lut_wf L -> is_cstr s -> lut_starts_in L (strlen s) ->
  lut_insert L s = Some (L', r) -> r = 0 \/ r = 1 ->
  (forall i kl, lut_klen L !! i = Some kl -> 1 <= kl ->
     kmer_offset L i + kl <= strlen s) ->
  r = 0.
Proof.
  intros Hwf Hs Hin E Hr Hall.
  destruct Hr as [Hr|Hr]; [exact Hr|exfalso].
  destruct (lut_insert_result _ _ _ _ Hwf E) as [_ H1].
  destruct (H1 Hr) as (i & kl & Ei & E2).
  destruct (lut_kmer_bounds L s i kl Hwf Hin Ei) as [H15 Ho].
  specialize (Hall i kl Ei).
  destruct (seq2id_cases s (kmer_offset L i) kl Hs H15 Ho)
    as [[_ E']|[(_ & _ & _ & v & E' & Hv)|[(_ & _ & _ & E')|(Hkl & Hout & _)]]];
    try (rewrite E' in E2; injection E2 as E2);
    first [lia | specialize (Hall Hkl); lia].
Qed.

(** After a call that returns 0 the bit of every k-mer of bases is set. *)
Lemma lut_insert_sets L s L' i kl :
  lut_wf L -> is_cstr s -> lut_starts_in L (strlen s) ->
  lut_insert L s = Some (L', 0) -> lut_klen L !! i = Some kl ->
  (1 <= kl -> kmer_offset L i + kl <= strlen s) ->
  all_bases (substr s (kmer_offset L i) kl) ->
  exists v row row', seq2id s (kmer_offset L i) kl = Some v /\ 0 <= v /\
    lut_bits L !! i = Some row /\ set_bit row v = Some row' /\
    lut_bits L' !! i = Some row'.
Proof.
  intros Hwf Hs Hin E Ei Hcomplete Hb.
  destruct (lut_insert_result _ _ _ _ Hwf E) as [H0 _].
  destruct (H0 eq_refl i kl Ei) as (v & Ev & Hv2 & Hset).
  destruct (lut_kmer_bounds L s i kl Hwf Hin Ei) as [H15 Ho].
  assert (Hv : 0 <= v).
  { destruct (seq2id_cases s (kmer_offset L i) kl Hs H15 Ho)
      as [[_ E']|[(_ & _ & _ & v' & E' & Hv')|[(_ & _ & Hnb & _)|(Hkl & Hout & _)]]];
      try (rewrite E' in Ev; injection Ev as <-);
      first [lia | contradiction | specialize (Hcomplete Hkl); lia]. }
  destruct (Hset Hv) as (row & Erow & Erow' & [row' Eset]).
  exists v, row, row'. rewrite Eset in Erow'. auto.
Qed.

(** C10: [lut_insert] changes the bitmap of a k-mer by one bit at most.  A
    complete k-mer that holds a byte that is no base, such as [N], sets no
    bit; the insertion goes on with the remaining k-mers, returns 0 when
    every k-mer is complete and has then set the bit of every k-mer of
    bases.  It returns 1 only when the string ends before a k-mer is
    complete. *)
Theorem lut_insert_spec L s :
  lut_wf L -> is_cstr s -> lut_starts_in L (strlen s) ->
  exists L' r, lut_insert L s = Some (L', r) /\
    (r = 0 \/ r = 1) /\
    lut_klen L' = lut_klen L /\ lut_wf L' /\
    (forall i kl, lut_klen L !! i = Some kl ->
       kmer_effect s (kmer_offset L i) kl (lut_bits L !! i)
         (lut_bits L' !! i)) /\
    (forall i kl, lut_klen L !! i = Some kl ->
       kmer_offset L i + kl <= strlen s ->
       ~ all_bases (substr s (kmer_offset L i) kl) ->
       lut_bits L' !! i = lut_bits L !! i) /\
    ((forall i kl, lut_klen L !! i = Some kl -> 1 <= kl ->
        kmer_offset L i + kl <= strlen s) -> r = 0) /\
    (r = 0 -> forall i kl, lut_klen L !! i = Some kl ->
       (1 <= kl -> kmer_offset L i + kl <= strlen s) ->
       all_bases (substr s (kmer_offset L i) kl) ->
       exists v row row', seq2id s (kmer_offset L i) kl = Some v /\ 0 <= v /\
         lut_bits L !! i = Some row /\ set_bit row v = Some row' /\
         lut_bits L' !! i = Some row') /\
    (r = 1 -> exists i kl, lut_klen L !! i = Some kl /\
       strlen s < kmer_offset L i + kl).
Proof.
  intros Hwf Hs Hin.
  destruct (lut_insert_effect L s Hwf Hs Hin)
    as (L' & r & E & Hr & Hklen & Hwf' & Heff).
  exists L', r. do 5 (split; [assumption|]).
  split; [|split; [|split]].
  - intros i kl Ei Hcomplete Hnb.
    destruct (Heff i kl Ei) as [Hsame|(v & row & Ev & Hv & _)];
      [exact Hsame|exfalso].
    destruct (lut_kmer_bounds L s i kl Hwf Hin Ei) as [H15 Ho].
    destruct (seq2id_cases s (kmer_offset L i) kl Hs H15 Ho)
      as [[Hle _]|[(_ & _ & Hb & _)|[(_ & _ & _ & E')|(_ & Hout & _)]]].
    + apply Hnb. now apply all_bases_nil_substr.
    + contradiction.
    + rewrite E' in Ev. injection Ev as <-. lia.
    + lia.
  - exact (lut_insert_complete L s L' r Hwf Hs Hin E Hr).
  - intros -> i kl Ei. exact (lut_insert_sets L s L' i kl Hwf Hs Hin E Ei).
  - intros Hr1.
    destruct (lut_insert_result _ _ _ _ Hwf E) as [_ H1].
    destruct (H1 Hr1) as (i & kl & Ei & E2).
    exists i, kl. split; [exact Ei|].
    destruct (lut_kmer_bounds L s i kl Hwf Hin Ei) as [H15 Ho].
    destruct (seq2id_cases s (kmer_offset L i) kl Hs H15 Ho)
      as [[_ E']|[(_ & _ & _ & v & E' & Hv)|[(_ & _ & _ & E')|(_ & Hout & _)]]];
      try (rewrite E' in E2; injection E2 as E2); lia.
Qed.

(* ================================================================= *)
(** ** Edit scripts and the edit distance *)

Lemma edit_distance_nil_l b : edit_distance [] b = length b.
Proof. reflexivity. Qed.

Lemma edit_distance_nil_r a : edit_distance a [] = length a.
Proof. destruct a; reflexivity. Qed.

Lemma edit_distance_cons x a y b :
  edit_distance (x :: a) (y :: b)
  = Nat.min (edit_distance a b + (if (x =? y)%char then 0 else 1))%nat
      (Nat.min (S (edit_distance a (y :: b))) (S (edit_distance (x :: a) b))).
Proof. reflexivity. Qed.

Lemma edits_from_nil b : edits [] b (length b).
Proof. induction b; simpl; constructor; assumption. Qed.

Lemma edits_to_nil a : edits a [] (length a).
Proof. induction a; simpl; constructor; assumption. Qed.

(** The distance is the cost of some script... *)
Lemma edits_edit_distance a : forall b, edits a b (edit_distance a b).
Proof.
  induction a as [|x a IHa]; intros b.
  { apply edits_from_nil. }
  induction b as [|y b IHb].
  { rewrite edit_distance_nil_r. apply edits_to_nil. }
  rewrite edit_distance_cons.
  destruct (Nat.min_spec
              (edit_distance a b + (if (x =? y)%char then 0 else 1))
              (Nat.min (S (edit_distance a (y :: b)))
                 (S (edit_distance (x :: a) b)))) as [[_ ->]|[_ ->]].
  - destruct (Ascii.eqb_spec x y) as [->|_].
    + rewrite Nat.add_0_r. apply edits_match, IHa.
    + rewrite Nat.add_1_r. apply edits_subst, IHa.
  - destruct (Nat.min_spec (S (edit_distance a (y :: b)))
                (S (edit_distance (x :: a) b))) as [[_ ->]|[_ ->]].
    + apply edits_delete, IHa.
    + apply edits_insert, IHb.
Qed.

(** ... and no script is cheaper. *)
Lemma edit_distance_le a b n : edits a b n -> (edit_distance a b <= n)%nat.
Proof.
  induction 1 as [|x a b n _ IH|x y a b n _ IH|x a b n _ IH|y a b n _ IH].
  - simpl. lia.
  - rewrite edit_distance_cons, Ascii.eqb_refl. lia.
  - rewrite edit_distance_cons. destruct (x =? y)%char; lia.
  - destruct b as [|y b].
    + rewrite edit_distance_nil_r in *. simpl. lia.
    + rewrite edit_distance_cons. lia.
  - destruct a as [|x a].
    + rewrite edit_distance_nil_l in *. simpl. lia.
    + rewrite edit_distance_cons. lia.
Qed.

Lemma edit_distance_spec a b n :
  (edit_distance a b <= n)%nat <-> exists m, (m <= n)%nat /\ edits a b m.
Proof.
  split.
  - intros H. exists (edit_distance a b). split; [exact H|].
    apply edits_edit_distance.
  - intros (m & Hm & E). apply edit_distance_le in E. lia.
Qed.

(** A script for [a1 ++ a2] splits into one for [a1] and one for [a2]. *)
Lemma edits_split a1 a2 b n :
  edits (a1 ++ a2) b n ->
  exists b1 b2 n1 n2, b = b1 ++ b2 /\ edits a1 b1 n1 /\ edits a2 b2 n2 /\
    n = (n1 + n2)%nat.
Proof.
  intros H. remember (a1 ++ a2) as a eqn:Ea. revert a1 a2 Ea.
  induction H as [|x a b n H IH|x y a b n H IH|x a b n H IH|y a b n H IH];
    intros a1 a2 Ea.
  - destruct a1; [|discriminate]. destruct a2; [|discriminate].
    exists [], [], 0%nat, 0%nat. repeat split; constructor.
  - destruct a1 as [|x1 a1].
    + exists [], (x :: b), 0%nat, n. simpl in Ea. subst a2.
      repeat split; try constructor. exact H.
    + injection Ea as <- Ea. destruct (IH _ _ Ea) as (b1 & b2 & n1 & n2 & -> & E1 & E2 & ->).
      exists (x :: b1), b2, n1, n2. repeat split; try assumption.
      now constructor.
  - destruct a1 as [|x1 a1].
    + exists [], (y :: b), 0%nat, (S n). simpl in Ea. subst a2.
      repeat split; try constructor. exact H.
    + injection Ea as <- Ea. destruct (IH _ _ Ea) as (b1 & b2 & n1 & n2 & -> & E1 & E2 & ->).
      exists (y :: b1), b2, (S n1), n2. repeat split; try assumption.
      now constructor.
  - destruct a1 as [|x1 a1].
    + exists [], b, 0%nat, (S n). simpl in Ea. subst a2.
      repeat split; try constructor. exact H.
    + injection Ea as <- Ea. destruct (IH _ _ Ea) as (b1 & b2 & n1 & n2 & -> & E1 & E2 & ->).
      exists b1, b2, (S n1), n2. repeat split; try assumption.
      now constructor.
  - destruct (IH _ _ Ea) as (b1 & b2 & n1 & n2 & -> & E1 & E2 & ->).
    exists (y :: b1), b2, (S n1), n2. repeat split; try assumption.
    now constructor.
Qed.

Lemma edits_length a b n :
  edits a b n ->
  (length a <= length b + n)%nat /\ (length b <= length a + n)%nat.
Proof. induction 1; simpl; lia. Qed.

Lemma edits_zero a b : edits a b 0 -> a = b.
Proof.
  intros H. remember 0%nat as n eqn:En.
  induction H; try discriminate; [reflexivity|]. f_equal. auto.
Qed.

(* ================================================================= *)
(** ** [lut_search] *)

(** A probe of a complete k-mer: [seq2id] returns [-1] or an identifier
    that indexes the bitmap. *)
Lemma probe_safe s pos kl row :
  is_cstr s -> kl <= 15 -> row_ok kl row ->
  (1 <= kl -> 0 <= pos /\ pos + kl <= strlen s) ->
  exists v, seq2id s pos kl = Some v /\
    (v = -1 \/ (0 <= v /\ exists bit, get_bit row v = Some bit)).
Proof.
  intros Hs Hk Hrow Hpos.
  destruct (seq2id_cases s pos kl Hs Hk ltac:(lia))
    as [[Hle E]|[(Hge & _ & _ & v & E & Hv)|[(_ & _ & _ & E)|(Hkl & Hout & _)]]].
  - exists 0. split; [exact E|]. right. split; [lia|].
    apply (get_bit_in kl). { exact Hrow. }
    rewrite Z.max_l by lia. simpl. lia.
  - exists v. split; [exact E|]. right. split; [lia|].
    apply (get_bit_in kl). { exact Hrow. }
    rewrite Z.max_r by lia. lia.
  - exists (-1). split; [exact E|]. now left.
  - specialize (Hpos Hkl). lia.
Qed.

(** The window of probes of one k-mer either finds a set bit or ends; it
    finds one when one of its probes has its bit set. *)
Lemma lut_search_window_spec s kl row m : forall pos,
  is_cstr s -> kl <= 15 -> row_ok kl row ->
  (1 <= kl -> 0 <= pos /\ pos + Z.of_nat m - 1 + kl <= strlen s) ->
  (lut_search_window m (Some row) s pos kl = Some None \/
   lut_search_window m (Some row) s pos kl = Some (Some 1)) /\
  (forall j v, 0 <= j < Z.of_nat m -> seq2id s (pos + j) kl = Some v ->
     0 <= v -> get_bit row v = Some true ->
     lut_search_window m (Some row) s pos kl = Some (Some 1)).
Proof.
  induction m as [|m IH]; intros pos Hs Hk Hrow Hpos.
  { split; [now left|]. intros; lia. }
  destruct (IH (pos + 1) Hs Hk Hrow ltac:(lia)) as [IH1 IH2].
  destruct (probe_safe s pos kl row Hs Hk Hrow ltac:(lia))
    as (v0 & E0 & [->|[Hv0 [bit Ebit]]]).
  - simpl. rewrite E0. simpl. split; [exact IH1|].
    intros j v Hj Ev Hv Hbit.
    destruct (Z.eq_dec j 0) as [->|Hne].
    + rewrite Z.add_0_r, E0 in Ev. injection Ev as <-. lia.
    + apply (IH2 (j - 1) v); try assumption; [lia|].
      now replace (pos + 1 + (j - 1)) with (pos + j) by lia.
  - simpl. rewrite E0.
    destruct (Z.eqb_spec v0 (-2)); [lia|].
    destruct (Z.eqb_spec v0 (-1)); [lia|].
    rewrite Ebit. destruct bit.
    + split; [now right|]. reflexivity.
    + split; [exact IH1|].
      intros j v Hj Ev Hv Hbit.
      destruct (Z.eq_dec j 0) as [->|Hne].
      * rewrite Z.add_0_r, E0 in Ev. injection Ev as <-. congruence.
      * apply (IH2 (j - 1) v); try assumption; [lia|].
        now replace (pos + 1 + (j - 1)) with (pos + j) by lia.
Qed.

Lemma take_add_drop {A} (l : list A) n m :
  take (n + m) l = take n l ++ take m (drop n l).
Proof.
  revert l. induction n as [|n IH]; intros l; [reflexivity|].
  destruct l as [|x l]; simpl.
  - now rewrite take_nil.
  - now rewrite IH.
Qed.

Lemma zsum_nonneg l : Forall (fun x => 0 <= x) l -> 0 <= zsum l.
Proof. induction 1; simpl; lia. Qed.

Section SearchLoop.

(** The sequence inserted is [pa ++ a0] and the query [pb ++ b0]: the
    edits are counted between [a0] and [b0], and the k-mers lie in
    [a0]. *)
Variables (klen : list Z) (bits : list (list Z)) (slen tau : Z).
Variables (pa a0 pb b0 : cstr).

Local Abbreviation off i := (slen - zsum (drop i klen)).

Hypothesis klen_length : Z.of_nat (length klen) = tau + 1.
Hypothesis a_length : strlen (pa ++ a0) = slen.
Hypothesis b_length : strlen (pb ++ b0) = slen.
Hypothesis b_cstr : is_cstr (pb ++ b0).
Hypothesis rows_ok : Forall2 row_ok klen bits.
Hypothesis klen_int : Forall (fun kl => kl <= 15) klen.
Hypothesis fits : forall i kl, klen !! i = Some kl -> 1 <= kl ->
  tau - Z.of_nat i <= off i /\ off i + kl + (tau - Z.of_nat i) <= slen.
Hypothesis a_recorded : forall i kl, klen !! i = Some kl ->
  exists v row, seq2id (pa ++ a0) (off i) kl = Some v /\ 0 <= v /\
    bits !! i = Some row /\ get_bit row v = Some true.

(** An empty last k-mer is found by the first probe. *)
Lemma lut_search_loop_empty_last kl :
  klen !! Z.to_nat tau = Some kl -> kl <= 0 ->
  lut_search_loop (Z.to_nat (tau + 1)) (tau + 1) klen bits (pb ++ b0) slen
  = Some 1.
Proof using klen_length a_recorded.
  intros Ekl Hkl. pose proof (lookup_lt_Some _ _ _ Ekl) as Hlt.
  replace (Z.to_nat (tau + 1)) with (S (Z.to_nat tau)) by lia.
  simpl. rewrite Ekl.
  replace (tau + 1 - 1 - Z.of_nat (Z.to_nat tau)) with 0 by lia.
  change (Z.to_nat (2 * 0 + 1)) with 1%nat.
  destruct (a_recorded _ _ Ekl) as (v & row & Ev & Hv & Erow & Hbit).
  rewrite Erow. simpl.
  rewrite seq2id_nonpos in Ev |- * by lia. injection Ev as <-.
  simpl. now rewrite Hbit.
Qed.

Hypothesis klen_nonneg : Forall (fun kl => 0 <= kl) klen.
Hypothesis kmers_in_a0 : Z.of_nat (length pa) <= off 0.

Lemma off_bounds i : Z.of_nat (length pa) <= off i <= slen.
Proof using klen_nonneg kmers_in_a0.
  pose proof (zsum_nonneg (drop i klen) (Forall_drop _ _ _ klen_nonneg)).
  pose proof (zsum_nonneg (take i klen) (Forall_take _ _ _ klen_nonneg)).
  pose proof (zsum_app (take i klen) (drop i klen)) as E.
  rewrite take_drop in E. pose proof kmers_in_a0 as Hz.
  rewrite drop_0 in Hz. lia.
Qed.

(** The pigeonhole argument along the loop.  The indices from [n] on have
    been tried; [e_suf] edits lie in the part of the strings they cover and
    [e_pre] in the part of [a0] before, which ends at [b_pre] in [b0].
    The strings are aligned at their ends: the k-mer of index [n] is
    shifted by no more than the edits after it. *)
Lemma lut_search_loop_hit n : forall b_pre e_pre e_suf,
  (n <= length klen)%nat ->
  edits (take (Z.to_nat (off n) - length pa) a0) b_pre e_pre ->
  b_pre `prefix_of` b0 ->
  Z.of_nat e_pre + e_suf <= tau ->
  tau + 1 - Z.of_nat n <= e_suf ->
  - e_suf <= Z.of_nat (length pb + length b_pre) - off n <= e_suf ->
  lut_search_loop n (tau + 1) klen bits (pb ++ b0) (off n) = Some 1.
Proof using All.
  induction n as [|n IH]; intros b_pre e_pre e_suf Hn Hed Hpre He Hsuf Hshift.
  { lia. }
  destruct (lookup_lt_is_Some_2 klen n ltac:(lia)) as [kl Ekl].
  simpl. rewrite Ekl.
  assert (Eoff : off (S n) - kl = off n)
    by (rewrite (zsum_drop_S _ _ _ Ekl); lia).
  rewrite Eoff.
  assert (Hkl0 : 0 <= kl).
  { rewrite Forall_lookup in klen_nonneg. apply (klen_nonneg _ _ Ekl). }
  assert (Hkl15 : kl <= 15).
  { rewrite Forall_lookup in klen_int. apply (klen_int _ _ Ekl). }
  pose proof (off_bounds n) as Hon. pose proof (off_bounds (S n)) as HoSn.
  destruct (Forall2_lookup_l _ _ _ _ _ rows_ok Ekl) as (row & Erow & Hrow).
  rewrite Erow.
  (* the k-mer of index [n] in [a] and what the script makes of it *)
  replace (Z.to_nat (off (S n)) - length pa)%nat
    with (Z.to_nat (off n) - length pa + Z.to_nat kl)%nat in Hed by lia.
  rewrite take_add_drop in Hed.
  assert (Ew : take (Z.to_nat kl) (drop (Z.to_nat (off n) - length pa) a0)
               = substr (pa ++ a0) (off n) kl).
  { unfold substr. now rewrite drop_app_ge by lia. }
  rewrite Ew in Hed.
  apply edits_split in Hed.
  destruct Hed as (b1 & v & e1 & e2 & -> & Hed1 & Hed2 & ->).
  pose proof (substr_length (pa ++ a0) (off n) kl ltac:(lia) Hkl0 ltac:(lia))
    as Hwlen.
  pose proof (edits_length _ _ _ Hed2) as [Hl1 Hl2].
  rewrite length_app in Hshift.
  destruct Hpre as [rest Hb].
  assert (Hblen : (length pb + length b1 + length v + length rest
                   = length (pb ++ b0))%nat).
  { rewrite Hb, !length_app. lia. }
  unfold strlen in *.
  destruct (lut_search_window_spec (pb ++ b0) kl row
              (Z.to_nat (2 * (tau + 1 - 1 - Z.of_nat n) + 1))
              (off n - (tau + 1 - 1 - Z.of_nat n)) b_cstr Hkl15 Hrow)
    as [Hres Hhit].
  { intros Hkl. destruct (fits _ _ Ekl Hkl). unfold strlen. lia. }
  destruct (decide (e2 = 0%nat /\ e_suf <= tau - Z.of_nat n)) as [[-> Hle]|Hno].
  - (* the k-mer is intact and within the window *)
    apply edits_zero in Hed2. subst v.
    destruct (a_recorded _ _ Ekl) as (va & row' & Eva & Hva & Erow' & Hbit).
    assert (row' = row) as -> by congruence.
    rewrite (Hhit (Z.of_nat (length pb + length b1)
                   - (off n - (tau + 1 - 1 - Z.of_nat n)))
               va); try assumption; [reflexivity|lia|].
    replace (off n - (tau + 1 - 1 - Z.of_nat n)
             + (Z.of_nat (length pb + length b1)
                - (off n - (tau + 1 - 1 - Z.of_nat n))))
      with (Z.of_nat (length pb + length b1)) by lia.
    rewrite seq2id_substr in Eva |- * by (unfold strlen; lia).
    rewrite <- Eva. f_equal.
    unfold substr at 1. rewrite Nat2Z.id, Hb, <- app_assoc.
    rewrite <- length_app, app_assoc.
    rewrite drop_app_length, take_app_length'; [reflexivity|lia].
  - destruct Hres as [-> | ->]; [|reflexivity].
    apply (IH b1 e1 (e_suf + Z.of_nat e2)); try assumption; try lia.
    exists (v ++ rest). now rewrite Hb, <- app_assoc.
Qed.

End SearchLoop.

(* ================================================================= *)
(** ** No false negatives (C3) *)

Lemma kmer_offset_eq L L' i :
  lut_slen L' = lut_slen L -> lut_klen L' = lut_klen L ->
  kmer_offset L' i = kmer_offset L i.
Proof. unfold kmer_offset. now intros -> ->. Qed.

Lemma all_bases_substr a off kl : all_bases a -> all_bases (substr a off kl).
Proof. intros H. unfold all_bases, substr. apply Forall_take, Forall_drop, H. Qed.

Lemma lut_fits_starts_in L len :
  lut_wf L -> lut_fits L len -> lut_starts_in L len.
Proof.
  intros (Hk & _) Hfit i kl Ei Hkl.
  destruct (Hfit i kl Ei Hkl). apply lookup_lt_Some in Ei. lia.
Qed.

Lemma lut_fits_complete L len i kl :
  lut_wf L -> lut_fits L len -> lut_klen L !! i = Some kl -> 1 <= kl ->
  kmer_offset L i + kl <= len.
Proof.
  intros (Hk & _) Hfit Ei Hkl.
  destruct (Hfit i kl Ei Hkl). apply lookup_lt_Some in Ei. lia.
Qed.

(** One insertion: it succeeds on a string of the length of the filter,
    keeps what is recorded, and records a string of bases. *)
Lemma lut_insert_fitting L s :
  lut_wf L -> lut_fits L (strlen s) -> is_cstr s ->
  exists L', lut_insert L s = Some (L', 0) /\
    lut_wf L' /\ lut_slen L' = lut_slen L /\ lut_kmers L' = lut_kmers L /\
    lut_klen L' = lut_klen L /\
    (forall a, recorded L a -> recorded L' a) /\
    (all_bases s -> recorded L' s).
Proof.
  intros Hwf Hfit Hs.
  pose proof (lut_fits_starts_in _ _ Hwf Hfit) as Hin.
  destruct (lut_insert_effect L s Hwf Hs Hin)
    as (L' & r & E & Hr & Hklen & Hwf' & Heff).
  assert (r = 0) as ->.
  { apply (lut_insert_complete L s L' r Hwf Hs Hin E Hr).
    intros i kl Ei Hkl. now apply lut_fits_complete. }
  pose proof (fun i kl => lut_insert_sets L s L' i kl Hwf Hs Hin E) as Hset.
  destruct (lut_insert_inv _ _ _ _ E) as (Hslen & Hkm & _ & _).
  exists L'. do 5 (split; [assumption|]). split.
  - intros a Ha i kl Ei. rewrite Hklen in Ei.
    destruct (Ha i kl Ei) as (v & row & Ev & Hv & Erow & Hbit).
    rewrite (kmer_offset_eq L L') by assumption.
    destruct (Heff i kl Ei) as [Hsame|(v' & row0 & _ & Hv' & Erow0 & Eset & [row' Eset'])].
    + exists v, row. rewrite Hsame. auto.
    + exists v, row'. rewrite Eset, Eset'.
      assert (row0 = row) as -> by congruence.
      repeat split; try assumption.
      eapply get_bit_mono; eauto.
  - intros Hb i kl Ei. rewrite Hklen in Ei.
    rewrite (kmer_offset_eq L L') by assumption.
    destruct (Hset i kl Ei) as (v & row & row' & Ev & Hv & _ & Eset & Erow').
    { intros Hkl. now apply lut_fits_complete. }
    { now apply all_bases_substr. }
    exists v, row'. repeat split; try assumption.
    eapply get_bit_set_bit; eauto.
Qed.

Lemma lut_insert_all_fitting l : forall L len,
  lut_wf L -> lut_fits L len ->
  Forall (fun s => is_cstr s /\ strlen s = len) l ->
  exists L', lut_insert_all L l = Some L' /\
    lut_wf L' /\ lut_slen L' = lut_slen L /\ lut_kmers L' = lut_kmers L /\
    lut_klen L' = lut_klen L /\
    (forall a, recorded L a -> recorded L' a) /\
    (forall a, a ∈ l -> all_bases a -> recorded L' a).
Proof.
  induction l as [|s l IH]; intros L len Hwf Hfit Hl.
  { exists L. do 5 (split; [auto|]). split; [auto|].
    intros a Ha. inversion Ha. }
  apply Forall_cons in Hl. destruct Hl as [[Hs Hlen] Hl].
  destruct (lut_insert_fitting L s Hwf ltac:(now rewrite Hlen) Hs)
    as (L1 & E1 & Hwf1 & Hs1 & Hk1 & Hkl1 & Hkeep1 & Hnew1).
  destruct (IH L1 len Hwf1) as (L' & E & Hwf' & Hs' & Hk' & Hkl' & Hkeep & Hnew).
  { intros i kl Ei Hkl. rewrite Hkl1 in Ei. rewrite Hk1.
    rewrite (kmer_offset_eq L L1) by assumption. now apply Hfit. }
  { exact Hl. }
  exists L'. simpl. rewrite E1.
  do 5 (split; [assumption || congruence|]). split.
  - intros a Ha. apply Hkeep, Hkeep1, Ha.
  - intros a Ha Hb. apply elem_of_cons in Ha. destruct Ha as [->|Ha].
    + apply Hkeep, Hnew1, Hb.
    + now apply Hnew.
Qed.

(** The first k-mer of a filter made by [new_lookup] leaves [tau] bytes in
    front of it. *)
Lemma new_lookup_margin MAX_K slen maxlen tau :
  0 <= tau -> 0 <= slen <= maxlen ->
  tau <= kmer_offset (new_lookup MAX_K slen maxlen tau) 0.
Proof.
  intros Ht Hs.
  pose proof (Z.mod_pos_bound slen (tau + 1) ltac:(lia)) as Hr.
  pose proof (Z.div_mod slen (tau + 1) ltac:(lia)) as Hdm.
  rewrite new_lookup_offset by (simpl; lia).
  change (Z.of_nat 0) with 0. rewrite !Z.sub_0_r.
  set (k := slen / (tau + 1)) in *. set (r := slen mod (tau + 1)) in *.
  destruct (Z.gtb_spec k MAX_K) as [Hgt|Hle].
  - assert ((tau + 1) * MAX_K <= (tau + 1) * (k - 1))
      by (apply Z.mul_le_mono_nonneg_l; lia).
    lia.
  - destruct (Z.max_spec 0 (tau - r)) as [[? ->]|[? ->]]; lia.
Qed.

(** The search finds everything once a sequence is recorded in a filter
    whose last k-mer is empty. *)
Lemma lut_search_empty_last L a b kl :
  lut_wf L -> recorded L a ->
  lut_klen L !! Z.to_nat (lut_kmers L - 1) = Some kl -> kl <= 0 ->
  lut_search L b = Some 1.
Proof.
  intros (Hk & _ & _) Hrec Ekl Hkl. unfold lut_search.
  pose proof (lut_search_loop_empty_last (lut_klen L) (lut_bits L)
                (lut_slen L) (lut_kmers L - 1) [] a [] b ltac:(lia)) as H.
  replace (lut_kmers L - 1 + 1) with (lut_kmers L) in H by lia.
  apply (H Hrec kl Ekl Hkl).
Qed.

(** The search finds what is recorded in a filter made by [new_lookup]:
    the sequence recorded is [pa ++ a0] with the k-mers in [a0], the query
    is [pb ++ b0], and [b0] is within [tau] edits of [a0]. *)
Lemma lut_search_recorded MAX_K slen maxlen tau L pa a0 pb b0 :
  0 <= tau -> 0 <= slen <= maxlen -> MAX_K <= 15 ->
  lut_wf L -> lut_slen L = maxlen -> lut_kmers L = tau + 1 ->
  lut_klen L = lut_klen (new_lookup MAX_K slen maxlen tau) ->
  recorded L (pa ++ a0) -> strlen (pa ++ a0) = maxlen ->
  is_cstr (pb ++ b0) -> strlen (pb ++ b0) = maxlen ->
  Z.of_nat (length pa) <= kmer_offset (new_lookup MAX_K slen maxlen tau) 0 ->
  (edit_distance a0 b0 <= Z.to_nat tau)%nat ->
  lut_search L (pb ++ b0) = Some 1.
Proof.
  intros Ht Hsl HMK Hwf Hslen Hkm Hklen Hrec Ha Hbc Hb Hpa Hed.
  pose proof Hwf as (Hk & Hrows & Hk15).
  set (L0 := new_lookup MAX_K slen maxlen tau) in *.
  assert (Hoff : forall i, kmer_offset L i = kmer_offset L0 i).
  { intros i. now apply kmer_offset_eq. }
  destruct (new_lookup_regular MAX_K slen maxlen tau Ht Hsl)
    as [[Hnn _]|(kl & Ekl & Hkl)].
  - (* the pigeonhole *)
    unfold lut_search. rewrite Hkm, Hslen.
    assert (Hrec' : forall i kl, lut_klen L !! i = Some kl ->
              exists v row,
                seq2id (pa ++ a0) (maxlen - zsum (drop i (lut_klen L))) kl
                = Some v /\ 0 <= v /\
                lut_bits L !! i = Some row /\ get_bit row v = Some true).
    { intros i kl Ei. specialize (Hrec i kl Ei).
      unfold kmer_offset in Hrec. now rewrite Hslen in Hrec. }
    apply edit_distance_spec in Hed. destruct Hed as (m & Hm & Hed).
    fold L0 in Hnn. rewrite <- Hklen in Hnn.
    rewrite <- Hoff in Hpa. unfold kmer_offset in Hpa.
    rewrite Hslen in Hpa.
    assert (Etop : maxlen - zsum (drop (Z.to_nat (tau + 1)) (lut_klen L))
                   = maxlen).
    { rewrite drop_ge by lia. simpl. lia. }
    assert (Hfits : forall i kl, lut_klen L !! i = Some kl -> 1 <= kl ->
              tau - Z.of_nat i <= maxlen - zsum (drop i (lut_klen L)) /\
              maxlen - zsum (drop i (lut_klen L)) + kl + (tau - Z.of_nat i)
              <= maxlen).
    { intros i kl Ei Hkl1.
      pose proof (new_lookup_fits MAX_K slen maxlen tau Ht Hsl i kl) as Hf.
      fold L0 in Hf. rewrite <- Hklen in Hf. specialize (Hf Ei Hkl1).
      rewrite <- Hoff in Hf. unfold kmer_offset in Hf.
      rewrite Hslen in Hf. simpl lut_kmers in Hf. lia. }
    pose proof (lut_search_loop_hit (lut_klen L) (lut_bits L) maxlen tau
                  pa a0 pb b0 ltac:(lia) Ha Hb Hbc Hrows Hk15 Hfits Hrec'
                  Hnn Hpa (Z.to_nat (tau + 1)) b0 m 0) as H.
    rewrite Etop in H. unfold strlen in Ha, Hb. rewrite length_app in Ha, Hb.
    apply H; try lia.
    + rewrite take_ge by lia. exact Hed.
    + reflexivity.
  - (* an empty last k-mer *)
    fold L0 in Ekl. rewrite <- Hklen in Ekl.
    apply (lut_search_empty_last L (pa ++ a0) _ kl Hwf Hrec); [|exact Hkl].
    rewrite Hkm. now replace (tau + 1 - 1) with tau by lia.
Qed.

(** A string is its leading spaces and what [unpad] leaves. *)
Lemma unpad_split s : exists p, s = replicate p " "%char ++ unpad s.
Proof.
  induction s as [|c s IH]; [now exists 0%nat|]. simpl.
  destruct (Ascii.eqb_spec c " "%char) as [->|Hne].
  - destruct IH as [p Ep]. exists (S p). simpl. now rewrite <- Ep.
  - now exists 0%nat.
Qed.

Lemma edits_app_same p a b n : edits a b n -> edits (p ++ a) (p ++ b) n.
Proof.
  intros H. induction p as [|x p IH]; [exact H|]. simpl. now constructor.
Qed.

(** The same for sequences right-aligned by padding spaces, the edits
    being counted between the sequences without their padding.  When a
    k-mer reaches into the padding of the sequence recorded, as many spaces
    are counted with both sequences: the query has them, since it is no
    more than [tau] bytes longer and [tau] bytes lie before the k-mers. *)
Lemma lut_search_unpadded MAX_K slen maxlen tau L a b :
  0 <= tau -> 0 <= slen <= maxlen -> MAX_K <= 15 ->
  lut_wf L -> lut_slen L = maxlen -> lut_kmers L = tau + 1 ->
  lut_klen L = lut_klen (new_lookup MAX_K slen maxlen tau) ->
  recorded L a -> strlen a = maxlen ->
  is_cstr b -> strlen b = maxlen ->
  (edit_distance (unpad a) (unpad b) <= Z.to_nat tau)%nat ->
  lut_search L b = Some 1.
Proof.
  intros Ht Hsl HMK Hwf Hslen Hkm Hklen Hrec Ha Hbc Hb Hed.
  destruct (unpad_split a) as [p Ea]. destruct (unpad_split b) as [q Eb].
  remember (unpad a) as a0 eqn:Ea0. remember (unpad b) as b0 eqn:Eb0.
  clear Ea0 Eb0. subst a b.
  pose proof (new_lookup_margin MAX_K slen maxlen tau Ht Hsl) as Hmargin.
  set (o := kmer_offset (new_lookup MAX_K slen maxlen tau) 0) in *.
  pose proof Hed as Hed'. apply edit_distance_spec in Hed'.
  destruct Hed' as (m & Hm & Hscript).
  pose proof (edits_length _ _ _ Hscript) as [Hl1 Hl2].
  pose proof Ha as Hla. pose proof Hb as Hlb.
  unfold strlen in Hla, Hlb.
  rewrite length_app, length_replicate in Hla, Hlb.
  destruct (Z.le_gt_cases (Z.of_nat p) o) as [Hle|Hgt].
  - apply (lut_search_recorded MAX_K slen maxlen tau L
             (replicate p " "%char) a0 (replicate q " "%char) b0);
      try assumption.
    now rewrite length_replicate.
  - (* the k-mers reach into the padding *)
    set (s := (p - Z.to_nat o)%nat).
    assert (Ep : p = (Z.to_nat o + s)%nat) by lia.
    assert (Eq : q = (q - s + s)%nat) by lia.
    assert (Ea : replicate p " "%char ++ a0
                 = replicate (Z.to_nat o) " "%char
                     ++ (replicate s " "%char ++ a0)).
    { rewrite Ep at 1. now rewrite replicate_add, <- app_assoc. }
    assert (Eb : replicate q " "%char ++ b0
                 = replicate (q - s) " "%char
                     ++ (replicate s " "%char ++ b0)).
    { rewrite Eq at 1. now rewrite replicate_add, <- app_assoc. }
    rewrite Ea in Hrec, Ha. rewrite Eb in Hbc, Hb |- *.
    apply (lut_search_recorded MAX_K slen maxlen tau L
             (replicate (Z.to_nat o) " "%char) (replicate s " "%char ++ a0)
             (replicate (q - s) " "%char) (replicate s " "%char ++ b0));
      try assumption.
    + fold o. rewrite length_replicate. lia.
    + apply edit_distance_spec. exists m. split; [exact Hm|].
      now apply edits_app_same.
Qed.

(** C3, as stated, fails: [ANNA] is inserted, [ANNC] is at distance 1 from
    it, and the search for it returns 0. *)
Lemma lut_search_false_negative :
  let a := ["A"; "N"; "N"; "A"]%char in
  let b := ["A"; "N"; "N"; "C"]%char in
  exists L, lut_insert (new_lookup 14 4 4 1) a = Some (L, 0) /\
    strlen a = lut_slen L /\ strlen b = lut_slen L /\
    (edit_distance a b <= 1)%nat /\ lut_search L b = Some 0.
Proof.
  eexists. split; [vm_compute; reflexivity|].
  repeat split; vm_compute; lia || reflexivity.
Qed.

(** C3, amended: a filter made by [new_lookup] for a median length [slen],
    a sequence length [maxlen] and a threshold [tau] accepts every sequence
    of length [maxlen]; once a padded sequence [a] of bases (and padding
    spaces) is inserted, the search for a padded sequence [b] returns 1
    when [b] is within edit distance [tau] of [a], the distance being
    taken between the padded sequences or between the sequences without
    their padding, which may have different lengths. *)
Theorem lut_no_false_negative MAX_K slen maxlen tau pre post a b :
  0 <= tau -> 0 <= slen <= maxlen -> MAX_K <= 15 ->
  Forall (fun s => is_cstr s /\ strlen s = maxlen) (pre ++ a :: post) ->
  all_bases a ->
  is_cstr b -> strlen b = maxlen ->
  exists L,
    lut_insert_all (new_lookup MAX_K slen maxlen tau) (pre ++ a :: post)
    = Some L /\
    ((edit_distance a b <= Z.to_nat tau)%nat -> lut_search L b = Some 1) /\
    ((edit_distance (unpad a) (unpad b) <= Z.to_nat tau)%nat ->
     lut_search L b = Some 1).
Proof.
  intros Ht Hsl HMK Hl Hab Hbc Hb.
  destruct (lut_insert_all_fitting (pre ++ a :: post)
              (new_lookup MAX_K slen maxlen tau) maxlen)
    as (L & E & Hwf & Hslen & Hkm & Hklen & _ & Hrec).
  { now apply new_lookup_wf. }
  { now apply new_lookup_fits. }
  { exact Hl. }
  assert (Hra : recorded L a).
  { apply Hrec; [|exact Hab].
    apply elem_of_app. right. apply elem_of_cons. now left. }
  assert (Hla : strlen a = maxlen).
  { rewrite Forall_app, Forall_cons in Hl. apply Hl. }
  exists L. split; [exact E|]. split; intros Hed.
  - apply (lut_search_recorded MAX_K slen maxlen tau L [] a [] b);
      try assumption.
    pose proof (new_lookup_margin MAX_K slen maxlen tau Ht Hsl). simpl. lia.
  - now apply (lut_search_unpadded MAX_K slen maxlen tau L a b).
Qed.

(** The sequences [ACGT] and [ACGTT] are one insertion apart; padded to
    five bytes they are two edits apart.  The last k-mer of the query is
    [TT], not [GT]: the first k-mer, [AC], is found one byte to the left. *)
Lemma lut_no_false_negative_witness :
  let a := [" "; "A"; "C"; "G"; "T"]%char in
  let b := ["A"; "C"; "G"; "T"; "T"]%char in
  exists L, lut_insert_all (new_lookup 14 5 5 1) ([] ++ a :: []) = Some L /\
    edit_distance a b = 2%nat /\ edit_distance (unpad a) (unpad b) = 1%nat /\
    lut_search L b = Some 1.
Proof.
  intros a b.
  destruct (lut_no_false_negative 14 5 5 1 [] [] a b) as (L & E & _ & H);
    try lia.
  - repeat constructor; discriminate.
  - repeat constructor; discriminate.
  - repeat constructor; discriminate.
  - reflexivity.
  - exists L. split; [exact E|]. split; [reflexivity|].
    split; [reflexivity|]. apply H. vm_compute. lia.
Defined.

Lemma lut_insert_spec_witness :
  exists L' r,
    lut_insert (new_lookup 14 4 4 1) ["A"; "N"; "N"; "A"]%char = Some (L', r)
    /\ r = 0.
Proof.
  destruct (lut_insert_spec (new_lookup 14 4 4 1) ["A"; "N"; "N"; "A"]%char)
    as (L' & r & E & _ & _ & _ & _ & _ & Hr0 & _).
  - apply new_lookup_wf; lia.
  - repeat constructor; discriminate.
  - apply (new_lookup_starts_in 14 4 4 1); lia.
  - exists L', r. split; [exact E|]. apply Hr0.
    intros i kl Ei Hkl.
    destruct (new_lookup_fits 14 4 4 1 ltac:(lia) ltac:(lia) i kl Ei Hkl)
      as [H1 H2].
    apply lookup_lt_Some in Ei. simpl in Ei.
    change (lut_kmers (new_lookup 14 4 4 1)) with 2 in *.
    change (strlen ["A"; "N"; "N"; "A"]%char) with 4. lia.
Defined.

(* ================================================================= *)
(** ** [lut_search] never reads out of bounds *)

Lemma lut_search_loop_total s kmers klen bits slen n :
  is_cstr s -> (n <= length klen)%nat -> kmers = Z.of_nat (length klen) ->
  Forall2 row_ok klen bits -> Forall (fun kl => kl <= 15) klen ->
  (forall i kl, klen !! i = Some kl -> 1 <= kl ->
     kmers - 1 - Z.of_nat i <= slen - zsum (drop i klen) /\
     slen - zsum (drop i klen) + kl + (kmers - 1 - Z.of_nat i) <= strlen s) ->
  lut_search_loop n kmers klen bits s (slen - zsum (drop n klen)) = Some 0 \/
  lut_search_loop n kmers klen bits s (slen - zsum (drop n klen)) = Some 1.
Proof.
  intros Hs Hn Hkm Hrows Hk15 Hfit.
  induction n as [|n IH]; [now left|].
  destruct (lookup_lt_is_Some_2 klen n ltac:(lia)) as [kl Ekl].
  simpl. rewrite Ekl.
  replace (slen - zsum (drop (S n) klen) - kl)
    with (slen - zsum (drop n klen))
    by (rewrite (zsum_drop_S _ _ _ Ekl); lia).
  destruct (Forall2_lookup_l _ _ _ _ _ Hrows Ekl) as (row & Erow & Hrow).
  rewrite Erow.
  assert (Hkl15 : kl <= 15).
  { rewrite Forall_lookup in Hk15. apply (Hk15 _ _ Ekl). }
  destruct (lut_search_window_spec s kl row
              (Z.to_nat (2 * (kmers - 1 - Z.of_nat n) + 1))
              (slen - zsum (drop n klen) - (kmers - 1 - Z.of_nat n))
              Hs Hkl15 Hrow) as [[-> | ->] _].
  - intros Hkl. destruct (Hfit _ _ Ekl Hkl). lia.
  - apply IH. lia.
  - now right.
Qed.

Lemma lut_search_total L s :
  lut_wf L -> lut_fits L (strlen s) -> is_cstr s ->
  lut_search L s = Some 0 \/ lut_search L s = Some 1.
Proof.
  intros (Hk & Hrows & Hk15) Hfit Hs. unfold lut_search.
  pose proof (lut_search_loop_total s (lut_kmers L) (lut_klen L) (lut_bits L)
                (lut_slen L) (Z.to_nat (lut_kmers L)) Hs ltac:(lia) Hk
                Hrows Hk15) as H.
  rewrite drop_ge, Z.sub_0_r in H by lia. apply H.
  intros i kl Ei Hkl. exact (Hfit i kl Ei Hkl).
Qed.

(* ================================================================= *)
(** ** The common-prefix loops of [do_query] (C8) *)

Lemma prefix_loop_distinct q : forall n k,
  is_cstr q -> is_cstr n -> length q = length n -> q <> n ->
  exists r, prefix_loop q n k = Some r /\ k <= r < k + strlen q.
Proof.
  induction q as [|x q IH]; intros n k Hq Hn Hlen Hne.
  { destruct n; [congruence|discriminate]. }
  destruct n as [|y n]; [discriminate|].
  apply Forall_cons in Hq, Hn. destruct Hq as [Hx Hq], Hn as [Hy Hn].
  simpl. unfold strlen. simpl length.
  destruct (Ascii.eqb_spec x y) as [->|Hxy].
  - destruct (IH n (k + 1) Hq Hn) as (r & E & Hr); [simpl in Hlen; lia|congruence|].
    exists r. split; [exact E|]. unfold strlen in Hr. lia.
  - exists k. split; [reflexivity|]. lia.
Qed.

Lemma lut_fits_same L L' len :
  lut_slen L' = lut_slen L -> lut_kmers L' = lut_kmers L ->
  lut_klen L' = lut_klen L -> lut_fits L len -> lut_fits L' len.
Proof.
  intros Hs Hk Hkl Hfit i kl Ei Hkl1. rewrite Hkl in Ei. rewrite Hk.
  rewrite (kmer_offset_eq L L') by assumption. now apply Hfit.
Qed.

Ltac split_inv := unfold dq_inv; split; [|split; [|split]].

Section DoQueryFacts.

Variable trie : Type.
Variable insert_string_wo_malloc : trie -> cstr -> option trie.
Variable set_data : trie -> useq -> trie.
Variable search : trie -> cstr -> Z -> Z -> Z -> option (Z -> list useq).
Variable pe_fastq : bool.

Variables (h : Z) (items : list useq) (job : mtjob).

Hypothesis items_padded : forall k u, items !! k = Some u ->
  is_cstr (useq_seq u) /\ strlen (useq_seq u) = h.
Hypothesis items_distinct : NoDup (useq_seq <$> items).
Hypothesis job_in_stack : job_end job < Z.of_nat (length items).

Lemma items_seq_distinct i k u v :
  0 <= i -> 0 <= k -> i <> k ->
  items !! Z.to_nat i = Some u -> items !! Z.to_nat k = Some v ->
  useq_seq u <> useq_seq v.
Proof using items_distinct.
  intros Hi Hk Hne Eu Ev Heq.
  assert (E1 : (useq_seq <$> items) !! Z.to_nat i = Some (useq_seq u))
    by (now rewrite list_lookup_fmap, Eu).
  assert (E2 : (useq_seq <$> items) !! Z.to_nat k = Some (useq_seq u))
    by (now rewrite list_lookup_fmap, Ev, Heq).
  pose proof (NoDup_lookup _ _ _ _ items_distinct E1 E2). lia.
Qed.

Lemma prefix_loop_items i k u v :
  0 <= i -> 0 <= k -> i <> k ->
  items !! Z.to_nat i = Some u -> items !! Z.to_nat k = Some v ->
  exists r, prefix_loop (useq_seq u) (useq_seq v) 0 = Some r /\
    0 <= r < h.
Proof using items_distinct items_padded.
  intros Hi Hk Hne Eu Ev.
  destruct (items_padded _ _ Eu) as [Hu Hul].
  destruct (items_padded _ _ Ev) as [Hv Hvl].
  destruct (prefix_loop_distinct (useq_seq u) (useq_seq v) 0 Hu Hv)
    as (r & E & Hr).
  - unfold strlen in *. lia.
  - now apply (items_seq_distinct i k).
  - exists r. split; [exact E|]. lia.
Qed.

Lemma do_query_build_inv i query st st' status :
  items !! Z.to_nat i = Some query ->
  dq_inv h items i st ->
  do_query_build trie insert_string_wo_malloc job query st = (st', status) ->
  status <> DQ_UNDEF /\ dq_inv h items i st'.
Proof using items_padded.
  intros Eq (Hwf & Hfit & Hlast & Hcalls). unfold do_query_build.
  destruct (job_build job).
  2:{ intros [= <- <-]. split; [discriminate|]. split_inv; assumption. }
  destruct (items_padded _ _ Eq) as [Hq Hql].
  destruct (lut_insert_fitting (dq_lut st) (useq_seq query) Hwf
              ltac:(now rewrite Hql) Hq)
    as (L' & E & Hwf' & Hs' & Hk' & Hkl' & _).
  rewrite E. simpl.
  assert (Hfit' : lut_fits L' h) by (now apply (lut_fits_same (dq_lut st))).
  destruct (insert_string_wo_malloc _ _); intros [= <- <-];
    (split; [discriminate|]); split_inv; assumption.
Qed.

Lemma do_query_search_inv i query st st' status :
  0 <= i <= job_end job ->
  items !! Z.to_nat i = Some query ->
  dq_inv h items i st ->
  do_query_search trie search pe_fastq job items i query st = (st', status) ->
  status <> DQ_UNDEF /\ dq_inv h items (i + 1) st'.
Proof using items_padded items_distinct job_in_stack.
  intros Hi Eq (Hwf & Hfit & Hlast & Hcalls). unfold do_query_search.
  (* trail *)
  assert (Htrail : exists trail,
            (if i <? job_end job
             then match items !! Z.to_nat (i + 1) with
                  | Some next_query =>
                      prefix_loop (useq_seq query) (useq_seq next_query) 0
                  | None => None
                  end
             else Some 0) = Some trail /\
            0 <= trail /\ (0 < h -> trail < h)).
  { destruct (Z.ltb_spec i (job_end job)).
    - destruct (lookup_lt_is_Some_2 items (Z.to_nat (i + 1)) ltac:(lia))
        as [next En].
      rewrite En.
      destruct (prefix_loop_items i (i + 1) query next) as (r & E & Hr);
        try assumption; try lia.
      exists r. split; [exact E|]. lia.
    - exists 0. split; [reflexivity|]. lia. }
  destruct Htrail as (trail & -> & Htr0 & Htr).
  (* start *)
  assert (Hstart : exists start,
            match dq_last st with
            | Some last_query =>
                prefix_loop (useq_seq query) (useq_seq last_query) 0
            | None => Some 0
            end = Some start /\ 0 <= start /\ (0 < h -> start < h)).
  { destruct (dq_last st) as [last|] eqn:El.
    - destruct (Hlast last eq_refl) as (k & Hk & Ek).
      destruct (prefix_loop_items i k query last) as (r & E & Hr);
        try assumption; try lia.
      exists r. split; [exact E|]. lia.
    - exists 0. split; [reflexivity|]. lia. }
  destruct Hstart as (start & -> & Hst0 & Hst).
  assert (Hcalls' : forall c, c ∈ dq_calls st ++ [(i, start, trail)] ->
            0 <= snd (fst c) /\ 0 <= snd c /\
            (0 < h -> snd (fst c) < h /\ snd c < h)).
  { intros c Hc. apply elem_of_app in Hc. destruct Hc as [Hc|Hc].
    - now apply Hcalls.
    - apply list_elem_of_singleton in Hc. subst c. simpl. auto. }
  destruct (search _ _ _ _ _); intros [= <- <-];
    (split; [discriminate|]); split_inv; try assumption; simpl.
  - intros last [= <-]. exists i. split; [lia|exact Eq].
  - intros last El. destruct (Hlast last El) as (k & Hk & Ek).
    exists k. split; [lia|exact Ek].
Qed.

Lemma do_query_step_inv i st st' status :
  0 <= i <= job_end job ->
  dq_inv h items i st ->
  do_query_step trie insert_string_wo_malloc set_data search pe_fastq
    job items i st = (st', status) ->
  status <> DQ_UNDEF /\ dq_inv h items (i + 1) st'.
Proof using items_padded items_distinct job_in_stack.
  intros Hi Hinv. unfold do_query_step.
  destruct (Z.ltb_spec i 0); [lia|].
  destruct (lookup_lt_is_Some_2 items (Z.to_nat i) ltac:(lia)) as [query Eq].
  rewrite Eq. destruct (items_padded _ _ Eq) as [Hq Hql].
  pose proof Hinv as (Hwf & Hfit & _).
  destruct (lut_search_total (dq_lut st) (useq_seq query) Hwf
              ltac:(now rewrite Hql) Hq) as [-> | ->].
  - (* the filter rejects the query *)
    destruct (do_query_build _ _ _ _ _) as [st1 status1] eqn:Eb.
    destruct (do_query_build_inv _ _ _ _ _ Eq Hinv Eb) as [Hs1 Hinv1].
    assert (Hinv1' : dq_inv h items (i + 1) st1).
    { destruct Hinv1 as (H1 & H2 & H3 & H4). split_inv; try assumption.
      intros last El. destruct (H3 last El) as (k & Hk & Ek).
      exists k. split; [lia|exact Ek]. }
    destruct status1; simpl; intros [= <- <-];
      (split; [assumption || discriminate|]); try assumption.
    destruct (job_build job); [|assumption].
    destruct Hinv1' as (H1 & H2 & H3 & H4). split_inv; assumption.
  - destruct (do_query_build _ _ _ _ _) as [st1 status1] eqn:Eb.
    destruct (do_query_build_inv _ _ _ _ _ Eq Hinv Eb) as [Hs1 Hinv1].
    destruct status1; simpl.
    + destruct (do_query_search _ _ _ _ _ _ _ _) as [st2 status2] eqn:Es.
      destruct (do_query_search_inv _ _ _ _ _ Hi Eq Hinv1 Es) as [Hs2 Hinv2].
      destruct status2; intros [= <- <-];
        (split; [assumption || discriminate|]); try assumption.
      destruct (job_build job); [|assumption].
      destruct Hinv2 as (H1 & H2 & H3 & H4). split_inv; assumption.
    + intros [= <- <-]. split; [discriminate|].
      destruct Hinv1 as (H1 & H2 & H3 & H4). split_inv; try assumption.
      intros last El. destruct (H3 last El) as (k & Hk & Ek).
      exists k. split; [lia|exact Ek].
    + contradiction.
Qed.

Lemma do_query_loop_inv n : forall i st st' status,
  0 <= i -> i + Z.of_nat n <= job_end job + 1 ->
  dq_inv h items i st ->
  do_query_loop trie insert_string_wo_malloc set_data search pe_fastq
    job items (seqZ i (Z.of_nat n)) st = (st', status) ->
  status <> DQ_UNDEF /\ exists i', dq_inv h items i' st'.
Proof using items_padded items_distinct job_in_stack.
  induction n as [|n IH]; intros i st st' status Hi Hn Hinv.
  { simpl. intros [= <- <-]. split; [discriminate|eauto]. }
  rewrite seqZ_cons by lia. simpl.
  destruct (do_query_step _ _ _ _ _ _ _ _ _) as [st1 status1] eqn:Es.
  assert (Hi' : 0 <= i <= job_end job) by lia.
  destruct (do_query_step_inv _ _ _ _ Hi' Hinv Es) as [Hs1 Hinv1].
  destruct status1.
  - replace (Z.pred (Z.of_nat (S n))) with (Z.of_nat n) by lia.
    replace (Z.succ i) with (i + 1) by lia.
    apply IH; [lia|lia|exact Hinv1].
  - intros [= <- <-]. split; [discriminate|eauto].
  - contradiction.
Qed.

End DoQueryFacts.

Section DoQueryPrefix.

Variable trie : Type.
Variable insert_string_wo_malloc : trie -> cstr -> option trie.
Variable set_data : trie -> useq -> trie.
Variable search : trie -> cstr -> Z -> Z -> Z -> option (Z -> list useq).
Variable pe_fastq : bool.

Variables (h : Z) (items : list useq) (job : mtjob).

Hypothesis items_padded : forall k u, items !! k = Some u ->
  is_cstr (useq_seq u) /\ strlen (useq_seq u) = h.
Hypothesis items_distinct : NoDup (useq_seq <$> items).
Hypothesis job_in_stack : job_end job < Z.of_nat (length items).

Lemma dq_prefix_inv_next i (st : dq_state trie) :
  dq_prefix_inv h items i st -> dq_prefix_inv h items (i + 1) st.
Proof.
  intros [Hlast Hcalls]. split; [|exact Hcalls].
  intros last El. destruct (Hlast last El) as (k & Hk & Ek).
  exists k. split; [lia|exact Ek].
Qed.

(** The insertion of a query touches neither the last query nor the
    searches made, and reads out of bounds only through the filter. *)
Lemma do_query_build_frame query st st' status :
  do_query_build trie insert_string_wo_malloc job query st = (st', status) ->
  dq_last st' = dq_last st /\ dq_calls st' = dq_calls st /\
  (status = DQ_UNDEF ->
   st' = st /\ lut_insert (dq_lut st) (useq_seq query) = None).
Proof.
  unfold do_query_build. destruct (job_build job).
  2:{ intros [= <- <-]. repeat split; discriminate. }
  destruct (lut_insert _ _) as [[lut' ret]|].
  2:{ intros [= <- <-]. repeat split; reflexivity. }
  destruct (ret =? 0); [destruct (insert_string_wo_malloc _ _)|];
    intros [= <- <-]; repeat split; discriminate.
Qed.

(** The two common-prefix loops of a search stop below [h]. *)
Lemma do_query_search_prefix i query st st' status :
  0 <= i <= job_end job ->
  items !! Z.to_nat i = Some query ->
  dq_prefix_inv h items i st ->
  do_query_search trie search pe_fastq job items i query st = (st', status) ->
  status <> DQ_UNDEF /\ dq_lut st' = dq_lut st /\
  dq_prefix_inv h items (i + 1) st'.
Proof using items_padded items_distinct job_in_stack.
  intros Hi Eq (Hlast & Hcalls). unfold do_query_search.
  (* trail *)
  assert (Htrail : exists trail,
            (if i <? job_end job
             then match items !! Z.to_nat (i + 1) with
                  | Some next_query =>
                      prefix_loop (useq_seq query) (useq_seq next_query) 0
                  | None => None
                  end
             else Some 0) = Some trail /\
            0 <= trail /\ (0 < h -> trail < h)).
  { destruct (Z.ltb_spec i (job_end job)).
    - destruct (lookup_lt_is_Some_2 items (Z.to_nat (i + 1)) ltac:(lia))
        as [next En].
      rewrite En.
      destruct (prefix_loop_items h items items_padded items_distinct
                  i (i + 1) query next) as (r & E & Hr);
        try assumption; try lia.
      exists r. split; [exact E|]. lia.
    - exists 0. split; [reflexivity|]. lia. }
  destruct Htrail as (trail & -> & Htr0 & Htr).
  (* start *)
  assert (Hstart : exists start,
            match dq_last st with
            | Some last_query =>
                prefix_loop (useq_seq query) (useq_seq last_query) 0
            | None => Some 0
            end = Some start /\ 0 <= start /\ (0 < h -> start < h)).
  { destruct (dq_last st) as [last|] eqn:El.
    - destruct (Hlast last eq_refl) as (k & Hk & Ek).
      destruct (prefix_loop_items h items items_padded items_distinct
                  i k query last) as (r & E & Hr);
        try assumption; try lia.
      exists r. split; [exact E|]. lia.
    - exists 0. split; [reflexivity|]. lia. }
  destruct Hstart as (start & -> & Hst0 & Hst).
  assert (Hcalls' : forall c, c ∈ dq_calls st ++ [(i, start, trail)] ->
            0 <= snd (fst c) /\ 0 <= snd c /\
            (0 < h -> snd (fst c) < h /\ snd c < h)).
  { intros c Hc. apply elem_of_app in Hc. destruct Hc as [Hc|Hc].
    - now apply Hcalls.
    - apply list_elem_of_singleton in Hc. subst c. simpl. auto. }
  destruct (search _ _ _ _ _); intros [= <- <-];
    (split; [discriminate|]); (split; [reflexivity|]);
    (split; [|exact Hcalls']); simpl.
  - intros last [= <-]. exists i. split; [lia|exact Eq].
  - intros last El. destruct (Hlast last El) as (k & Hk & Ek).
    exists k. split; [lia|exact Ek].
Qed.

Lemma do_query_step_prefix i st st' status :
  0 <= i <= job_end job ->
  dq_prefix_inv h items i st ->
  do_query_step trie insert_string_wo_malloc set_data search pe_fastq
    job items i st = (st', status) ->
  dq_prefix_inv h items (i + 1) st' /\
  (status = DQ_UNDEF ->
   exists query, items !! Z.to_nat i = Some query /\
     filter_reads_out (dq_lut st') query).
Proof using items_padded items_distinct job_in_stack.
  intros Hi Hinv. unfold do_query_step.
  destruct (Z.ltb_spec i 0); [lia|].
  destruct (lookup_lt_is_Some_2 items (Z.to_nat i) ltac:(lia)) as [query Eq].
  rewrite Eq.
  destruct (lut_search (dq_lut st) (useq_seq query)) as [r|] eqn:Er.
  2:{ intros [= <- <-]. split; [now apply dq_prefix_inv_next|].
      intros _. exists query. split; [reflexivity|]. now left. }
  destruct (do_query_build _ _ _ _ _) as [st1 status1] eqn:Eb.
  destruct (do_query_build_frame _ _ _ _ Eb) as (Hl1 & Hc1 & Hu1).
  assert (Hinv1 : dq_prefix_inv h items i st1).
  { destruct Hinv as [H1 H2]. split; [now rewrite Hl1|now rewrite Hc1]. }
  destruct status1.
  - (* the query is in the filter and the trie, or the job does not build *)
    assert (Hfin : forall st2 : dq_state trie,
              dq_prefix_inv h items (i + 1) st2 ->
              dq_prefix_inv h items (i + 1)
                (if job_build job
                 then {| dq_lut := dq_lut st2;
                         dq_trie := set_data (dq_trie st2) query;
                         dq_last := dq_last st2; dq_out := dq_out st2;
                         dq_calls := dq_calls st2 |}
                 else st2)).
    { intros st2 H2. now destruct (job_build job). }
    destruct (r =? 1).
    + destruct (do_query_search _ _ _ _ _ _ _ _) as [st2 status2] eqn:Es.
      destruct (do_query_search_prefix _ _ _ _ _ Hi Eq Hinv1 Es)
        as (Hs2 & _ & Hinv2).
      destruct status2; [| |now contradiction Hs2]; intros [= <- <-].
      * split; [now apply Hfin|discriminate].
      * split; [exact Hinv2|discriminate].
    + intros [= <- <-]. split; [|discriminate].
      now apply Hfin, dq_prefix_inv_next.
  - intros [= <- <-]. split; [now apply dq_prefix_inv_next|discriminate].
  - intros [= <- <-]. destruct (Hu1 eq_refl) as [-> Ei].
    split; [now apply dq_prefix_inv_next|].
    intros _. exists query. split; [reflexivity|]. now right.
Qed.

Lemma do_query_loop_prefix n : forall i st st' status,
  0 <= i -> job_start job <= i -> i + Z.of_nat n <= job_end job + 1 ->
  dq_prefix_inv h items i st ->
  do_query_loop trie insert_string_wo_malloc set_data search pe_fastq
    job items (seqZ i (Z.of_nat n)) st = (st', status) ->
  (exists i', dq_prefix_inv h items i' st') /\
  (status = DQ_UNDEF ->
   exists k query, job_start job <= k <= job_end job /\
     items !! Z.to_nat k = Some query /\
     filter_reads_out (dq_lut st') query).
Proof using items_padded items_distinct job_in_stack.
  induction n as [|n IH]; intros i st st' status Hi Hs Hn Hinv.
  { simpl. intros [= <- <-]. split; [eauto|discriminate]. }
  rewrite seqZ_cons by lia. simpl.
  destruct (do_query_step _ _ _ _ _ _ _ _ _) as [st1 status1] eqn:Es.
  assert (Hi' : 0 <= i <= job_end job) by lia.
  destruct (do_query_step_prefix _ _ _ _ Hi' Hinv Es) as [Hinv1 Hu1].
  destruct status1.
  - replace (Z.pred (Z.of_nat (S n))) with (Z.of_nat n) by lia.
    replace (Z.succ i) with (i + 1) by lia.
    apply IH; [lia|lia|lia|exact Hinv1].
  - intros [= <- <-]. split; [eauto|discriminate].
  - intros [= <- <-]. split; [eauto|]. intros _.
    destruct (Hu1 eq_refl) as (query & Eq & Hf).
    exists i, query. split; [lia|]. split; assumption.
Qed.

End DoQueryPrefix.

(** C8: in a worker whose job lies inside a stack of padded sequences of
    equal length [h] that are pairwise distinct, whatever the filter and
    the trie are, the common-prefix loops never read past a terminator:
    the worker reads out of bounds only if [lut_search] or [lut_insert]
    does, on the filter the worker is left with, and the [start] and
    [trail] of every search are common-prefix lengths below [h]. *)
Theorem do_query_prefix_loops_stop
    (trie : Type) (insert_string_wo_malloc : trie -> cstr -> option trie)
    (set_data : trie -> useq -> trie)
    (search : trie -> cstr -> Z -> Z -> Z -> option (Z -> list useq))
    (pe_fastq : bool) (h : Z) (items : list useq) (job : mtjob)
    (lut : lookup) (t : trie) :
  (forall k u, items !! k = Some u ->
     is_cstr (useq_seq u) /\ strlen (useq_seq u) = h) ->
  NoDup (useq_seq <$> items) ->
  0 <= job_start job -> job_end job < Z.of_nat (length items) ->
  let r := do_query trie insert_string_wo_malloc set_data search pe_fastq
             job items lut t in
  (snd r = DQ_UNDEF ->
   exists k query, job_start job <= k <= job_end job /\
     items !! Z.to_nat k = Some query /\
     filter_reads_out (dq_lut (fst r)) query) /\
  (forall i start trail, (i, start, trail) ∈ dq_calls (fst r) ->
     0 <= start /\ 0 <= trail /\ (0 < h -> start < h /\ trail < h)).
Proof.
  intros Hpad Hdist Hstart Hend r.
  destruct r as [st status] eqn:Er. subst r. unfold do_query in Er.
  destruct (Z.le_gt_cases (job_start job) (job_end job + 1)) as [Hle|Hgt].
  - replace (job_end job - job_start job + 1)
      with (Z.of_nat (Z.to_nat (job_end job - job_start job + 1))) in Er
      by lia.
    apply (do_query_loop_prefix trie insert_string_wo_malloc set_data search
             pe_fastq h items job Hpad Hdist Hend) in Er; try lia.
    + destruct Er as [(i' & _ & Hc) Hu]. split; [exact Hu|].
      intros i start trail Hin. apply (Hc _ Hin).
    + split.
      * intros last [=].
      * intros c Hc. inversion Hc.
  - rewrite seqZ_nil in Er by lia. simpl in Er. injection Er as <- <-.
    split; [discriminate|]. intros i start trail Hin. inversion Hin.
Qed.

(** Three records: the second and the third pass the filter; the trail of
    the second and the start of the third are the three bytes they
    share. *)
Lemma do_query_prefix_loops_stop_witness :
  let items := [mk_useq ["A"; "C"; "G"; "A"]%char 1 None;
                mk_useq ["A"; "C"; "G"; "C"]%char 1 None;
                mk_useq ["A"; "C"; "G"; "T"]%char 1 None] in
  let r := do_query unit (fun _ _ => Some tt) (fun _ _ => tt)
             (fun _ _ _ _ _ => Some (fun _ => [])) false
             (plan_job (plan_bounds 3 1) 1 1 0 0) items
             (new_lookup 14 4 4 1) tt in
  dq_calls (fst r) = [(1, 0, 3); (2, 3, 0)] /\ snd r = DQ_OK /\
  (forall i start trail, (i, start, trail) ∈ dq_calls (fst r) ->
     0 <= start /\ 0 <= trail /\ (0 < 4 -> start < 4 /\ trail < 4)).
Proof.
  intros items. split; [vm_compute; reflexivity|].
  split; [vm_compute; reflexivity|].
  apply (do_query_prefix_loops_stop unit (fun _ _ => Some tt) (fun _ _ => tt)
           (fun _ _ _ _ _ => Some (fun _ => [])) false 4 items).
  - intros k u E. destruct k as [|[|[|k]]]; simpl in E; inversion E; subst;
      (split; [repeat constructor; discriminate | reflexivity]).
  - apply NoDup_cons. split; [|apply NoDup_cons; split; [|apply NoDup_singleton]].
    + rewrite !not_elem_of_cons. split; [discriminate|].
      split; [discriminate|apply not_elem_of_nil].
    + rewrite !not_elem_of_cons. split; [discriminate|apply not_elem_of_nil].
  - vm_compute. discriminate.
  - vm_compute. reflexivity.
Defined.

(* ================================================================= *)
(** ** [pad_useq] (C7) *)

Lemma strlen_nonneg (s : cstr) : 0 <= strlen s.
Proof. unfold strlen. lia. Qed.

Lemma pad_maxlen_fold items : forall m0,
  let M := fold_left (fun maxlen u =>
                        let len := strlen (useq_seq u) in
                        if len >? maxlen then len else maxlen) items m0 in
  m0 <= M /\
  (forall u, u ∈ items -> strlen (useq_seq u) <= M) /\
  (M = m0 \/ exists u, u ∈ items /\ strlen (useq_seq u) = M).
Proof.
  induction items as [|x items IH]; intros m0; simpl.
  { split; [lia|]. split; [|now left]. intros u Hu. inversion Hu. }
  specialize (IH (if strlen (useq_seq x) >? m0
                  then strlen (useq_seq x) else m0)).
  simpl in IH. destruct IH as (H1 & H2 & H3).
  destruct (Z.gtb_spec (strlen (useq_seq x)) m0) as [Hgt|Hle].
  - split; [lia|]. split.
    + intros u Hu. apply elem_of_cons in Hu. destruct Hu as [->|Hu]; [lia|auto].
    + right. destruct H3 as [H3|(u & Hu & H3)].
      * exists x. split; [apply elem_of_cons; now left|lia].
      * exists u. split; [apply elem_of_cons; now right|exact H3].
  - split; [lia|]. split.
    + intros u Hu. apply elem_of_cons in Hu. destruct Hu as [->|Hu]; [lia|auto].
    + destruct H3 as [H3|(u & Hu & H3)]; [now left|].
      right. exists u. split; [apply elem_of_cons; now right|exact H3].
Qed.

Lemma pad_maxlen_spec items :
  0 <= pad_maxlen items /\
  (forall u, u ∈ items -> strlen (useq_seq u) <= pad_maxlen items) /\
  (items <> [] ->
   exists u, u ∈ items /\ strlen (useq_seq u) = pad_maxlen items).
Proof.
  pose proof (pad_maxlen_fold items 0) as H. cbv zeta in H.
  fold (pad_maxlen items) in H. destruct H as (H1 & H2 & H3).
  split; [exact H1|]. split; [exact H2|].
  intros Hne. destruct H3 as [H3|H3]; [|exact H3].
  destruct items as [|x items]; [contradiction|].
  exists x. split; [apply elem_of_cons; now left|].
  pose proof (H2 x ltac:(apply elem_of_cons; now left)).
  pose proof (strlen_nonneg (useq_seq x)). lia.
Qed.

Lemma count_eq_cons x items l :
  count_eq (x :: items) l
  = (if decide (strlen (useq_seq x) = l) then 1 else 0) + count_eq items l.
Proof.
  unfold count_eq. rewrite filter_cons.
  destruct (decide (strlen (useq_seq x) = l)); simpl length; lia.
Qed.

Lemma count_le_cons x items l :
  count_le (x :: items) l
  = (if decide (strlen (useq_seq x) <= l) then 1 else 0) + count_le items l.
Proof.
  unfold count_le. rewrite filter_cons.
  destruct (decide (strlen (useq_seq x) <= l)); simpl length; lia.
Qed.

Lemma count_le_succ items l :
  count_le items (l + 1) = count_le items l + count_eq items (l + 1).
Proof.
  induction items as [|x items IH]; [reflexivity|].
  rewrite !count_le_cons, count_eq_cons, IH.
  repeat destruct (decide _); lia.
Qed.

Lemma count_le_all items l :
  (forall u, u ∈ items -> strlen (useq_seq u) <= l) ->
  count_le items l = Z.of_nat (length items).
Proof.
  induction items as [|x items IH]; intros H; [reflexivity|].
  rewrite count_le_cons, IH.
  - destruct (decide _) as [_|Hn]; [simpl length; lia|].
    exfalso. apply Hn, H, elem_of_cons. now left.
  - intros u Hu. apply H, elem_of_cons. now right.
Qed.

Lemma count_le_none items l :
  (forall u, u ∈ items -> l < strlen (useq_seq u)) -> count_le items l = 0.
Proof.
  induction items as [|x items IH]; intros H; [reflexivity|].
  rewrite count_le_cons, IH.
  - destruct (decide _) as [Hy|_]; [|lia].
    pose proof (H x ltac:(apply elem_of_cons; now left)). lia.
  - intros u Hu. apply H, elem_of_cons. now right.
Qed.

(** The bins hold the number of records of each length. *)
Lemma pad_count_fold items : forall (count : list Z) l c0,
  count !! l = Some c0 ->
  fold_left (fun (count : list Z) u =>
               alter Z.succ (Z.to_nat (strlen (useq_seq u))) count)
    items count !! l
  = Some (c0 + count_eq items (Z.of_nat l)).
Proof.
  induction items as [|x items IH]; intros count l c0 E; simpl.
  { rewrite E. f_equal. unfold count_eq. simpl. lia. }
  rewrite count_eq_cons.
  destruct (decide (strlen (useq_seq x) = Z.of_nat l)) as [Heq|Hne].
  - rewrite (IH _ l (Z.succ c0)).
    + f_equal. lia.
    + replace (Z.to_nat (strlen (useq_seq x))) with l by lia.
      now rewrite list_lookup_alter_eq, E.
  - rewrite (IH _ l c0).
    + f_equal.
    + rewrite list_lookup_alter_ne; [exact E|].
      pose proof (strlen_nonneg (useq_seq x)). lia.
Qed.

Lemma median_loop_spec items count maxlen half n : forall m ccount,
  (forall u, u ∈ items -> 1 <= strlen (useq_seq u) <= maxlen) ->
  (forall l, (l <= Z.to_nat maxlen)%nat ->
     count !! l = Some (count_eq items (Z.of_nat l))) ->
  half <= Z.of_nat (length items) ->
  0 <= m -> m + Z.of_nat n = maxlen -> (1 <= n)%nat ->
  ccount = count_le items m ->
  (forall L', 1 <= L' <= m -> count_le items L' < half) ->
  exists median,
    median_loop (drop (S (Z.to_nat m)) count) m ccount half = Some median /\
    m < median <= maxlen /\
    half <= count_le items median /\
    (forall L', 1 <= L' < median -> count_le items L' < half).
Proof.
  induction n as [|n IH]; intros m ccount Hlen Hcount Hhalf Hm Hn Hn1 Hcc Hprev;
    [lia|].
  pose proof (Hcount (S (Z.to_nat m)) ltac:(lia)) as Ec.
  rewrite (drop_S _ _ _ Ec). simpl median_loop.
  replace (Z.of_nat (S (Z.to_nat m))) with (m + 1) in * by lia.
  assert (Ecc : ccount + count_eq items (m + 1) = count_le items (m + 1)).
  { rewrite count_le_succ. lia. }
  rewrite Ecc.
  destruct (Z.ltb_spec (count_le items (m + 1)) half) as [Hlt|Hge].
  - destruct n as [|n].
    { exfalso. rewrite count_le_all in Hlt; [lia|].
      intros u Hu. specialize (Hlen u Hu). lia. }
    replace (S (S (Z.to_nat m))) with (S (Z.to_nat (m + 1))) by lia.
    destruct (IH (m + 1) (count_le items (m + 1))) as (median & E & Hmed & Hge & Hmin);
      try assumption; try lia.
    + intros L' HL'. destruct (Z.eq_dec L' (m + 1)) as [->|Hne]; [exact Hlt|].
      apply Hprev. lia.
    + exists median. split; [exact E|]. split; [lia|]. split; assumption.
  - exists (m + 1). split; [reflexivity|]. split; [lia|]. split; [lia|].
    intros L' HL'. apply Hprev. lia.
Qed.

(** C7, as stated, fails: for a stack of one record of length 2 the median
    is set to 1, which is not the smallest length that at least
    [nitems / 2 = 0] records do not exceed (0 is), and no record has a
    length of at most 1. *)
Lemma pad_useq_median_not_smallest :
  let items := [mk_useq ["A"; "C"]%char 1 None] in
  pad_useq items = Some (2, 1, items) /\
  ~ is_median_length items 1 /\
  count_le items 1 = 0.
Proof.
  split; [reflexivity|]. split; [|reflexivity].
  intros (_ & _ & H). specialize (H 0 ltac:(lia)).
  vm_compute in H. discriminate H.
Qed.

(** C7, amended: for a non-empty stack of records with non-empty
    sequences, [pad_useq] returns the maximum sequence length and sets the
    median to the smallest length [L >= 1] such that at least
    [nitems / 2] (integer division) records have a sequence of length at
    most [L]. *)
Theorem pad_useq_median items :
  items <> [] ->
  (forall u, u ∈ items -> 1 <= strlen (useq_seq u)) ->
  exists maxlen median items',
    pad_useq items = Some (maxlen, median, items') /\
    (forall u, u ∈ items -> strlen (useq_seq u) <= maxlen) /\
    (exists u, u ∈ items /\ strlen (useq_seq u) = maxlen) /\
    1 <= median <= maxlen /\
    Z.of_nat (length items) / 2 <= count_le items median /\
    (forall L', 1 <= L' < median ->
       count_le items L' < Z.of_nat (length items) / 2).
Proof.
  intros Hne Hpos.
  destruct (pad_maxlen_spec items) as (Hm0 & Hmax & Hex).
  specialize (Hex Hne).
  set (maxlen := pad_maxlen items) in *.
  assert (Hm1 : 1 <= maxlen).
  { destruct Hex as (u & Hu & E). specialize (Hpos u Hu). lia. }
  assert (Hq : Z.quot (Z.of_nat (length items)) 2
               = Z.of_nat (length items) / 2)
    by (apply Z.quot_div_nonneg; lia).
  assert (Hhalf : Z.of_nat (length items) / 2 <= Z.of_nat (length items)).
  { apply Z.div_le_upper_bound; lia. }
  destruct (median_loop_spec items (pad_count maxlen items) maxlen
              (Z.of_nat (length items) / 2) (Z.to_nat maxlen) 0 0)
    as (median & E & Hmed & Hge & Hmin); try lia.
  - intros u Hu. specialize (Hpos u Hu). specialize (Hmax u Hu). lia.
  - intros l Hl. unfold pad_count.
    rewrite (pad_count_fold items _ l 0); [f_equal; lia|].
    apply lookup_replicate. split; [reflexivity|lia].
  - symmetry. apply count_le_none. intros u Hu. specialize (Hpos u Hu). lia.
  - exists maxlen, median, (pad_seq maxlen <$> items).
    split.
    + unfold pad_useq. fold maxlen. rewrite Hq.
      change (Z.to_nat 0) with 0%nat in E. now rewrite E.
    + split; [exact Hmax|]. split; [exact Hex|]. split; [lia|].
      split; assumption.
Qed.

Lemma pad_useq_median_witness :
  exists maxlen median items',
    pad_useq [mk_useq ["A"; "C"]%char 1 None;
              mk_useq ["A"; "C"; "G"; "T"]%char 1 None;
              mk_useq ["A"; "C"; "G"; "T"]%char 1 None]
    = Some (maxlen, median, items') /\ 1 <= median <= maxlen.
Proof.
  destruct (pad_useq_median
              [mk_useq ["A"; "C"]%char 1 None;
               mk_useq ["A"; "C"; "G"; "T"]%char 1 None;
               mk_useq ["A"; "C"; "G"; "T"]%char 1 None])
    as (maxlen & median & items' & E & _ & _ & Hm & _).
  - discriminate.
  - intros u Hu. repeat (apply elem_of_cons in Hu; destruct Hu as [->|Hu];
      [vm_compute; discriminate|]). inversion Hu.
  - exists maxlen, median, items'. split; assumption.
Defined.

(** The padded records all have the length returned. *)
Lemma pad_seq_length maxlen u :
  strlen (useq_seq u) <= maxlen -> strlen (useq_seq (pad_seq maxlen u)) = maxlen.
Proof.
  intros H. unfold pad_seq.
  destruct (Z.eqb_spec (strlen (useq_seq u)) maxlen) as [E|Hne]; [exact E|].
  simpl. unfold strlen in *. rewrite length_app, length_replicate. lia.
Qed.

(* ================================================================= *)
(** ** The order of [nukesort] *)

Lemma nat_of_ascii_inj x y : nat_of_ascii x = nat_of_ascii y -> x = y.
Proof.
  intros H. rewrite <- (ascii_nat_embedding x), <- (ascii_nat_embedding y).
  now rewrite H.
Qed.

Lemma lex_lt_irrefl a : ~ lex_lt a a.
Proof.
  induction a as [|x a IH]; intros H; inversion H; subst; [lia|auto].
Qed.

Lemma lex_lt_trans a b c : lex_lt a b -> lex_lt b c -> lex_lt a c.
Proof.
  intros H. revert c. induction H as [y b|x y a b Hxy|x a b H IH]; intros c Hc.
  - inversion Hc; subst; constructor.
  - inversion Hc; subst.
    + apply lex_lt_head. lia.
    + now apply lex_lt_head.
  - inversion Hc; subst.
    + now apply lex_lt_head.
    + apply lex_lt_tail. now apply IH.
Qed.

Lemma seq_lt_irrefl a : ~ seq_lt a a.
Proof.
  intros [H|[_ H]]; [lia|]. now apply lex_lt_irrefl in H.
Qed.

Lemma seq_lt_trans a b c : seq_lt a b -> seq_lt b c -> seq_lt a c.
Proof.
  intros [H1|[E1 H1]] [H2|[E2 H2]].
  - left. lia.
  - left. lia.
  - left. lia.
  - right. split; [lia|]. eapply lex_lt_trans; eauto.
Qed.

Lemma strcmp_spec a : forall b,
  length a = length b ->
  match strcmp a b with
  | Eq => a = b
  | Lt => lex_lt a b
  | Gt => lex_lt b a
  end.
Proof.
  induction a as [|x a IH]; intros [|y b] Hlen; try discriminate.
  - reflexivity.
  - simpl. destruct (Nat.compare_spec (nat_of_ascii x) (nat_of_ascii y))
      as [E|Hlt|Hgt].
    + apply nat_of_ascii_inj in E. subst y.
      specialize (IH b ltac:(simpl in Hlen; lia)).
      destruct (strcmp a b); [now f_equal| |]; now apply lex_lt_tail.
    + now apply lex_lt_head.
    + now apply lex_lt_head.
Qed.

(** [useq_cmp] decides the order of the specification. *)
Lemma useq_cmp_spec ul ur :
  match useq_cmp ul ur with
  | Eq => useq_seq ul = useq_seq ur
  | Lt => seq_lt (useq_seq ul) (useq_seq ur)
  | Gt => seq_lt (useq_seq ur) (useq_seq ul)
  end.
Proof.
  unfold useq_cmp.
  destruct (Z.eqb_spec (strlen (useq_seq ul)) (strlen (useq_seq ur))) as [E|Hne].
  - pose proof (strcmp_spec (useq_seq ul) (useq_seq ur)
                  ltac:(unfold strlen in E; lia)) as H.
    destruct (strcmp _ _); [exact H| |]; right; split; auto.
  - destruct (Z.ltb_spec (strlen (useq_seq ul)) (strlen (useq_seq ur)));
      left; lia.
Qed.

(* ================================================================= *)
(** ** The merge loop *)

Lemma merge_loop_nil_r l heap : merge_loop l [] heap = Some (l, heap, 0%nat).
Proof. destruct l; reflexivity. Qed.

Lemma merge_loop_null_r l r heap :
  merge_loop l (None :: r) heap = Some (l, heap, 0%nat).
Proof. destruct l; reflexivity. Qed.

Lemma merge_loop_nil_l pr r heap :
  merge_loop [] (Some pr :: r) heap = Some (Some pr :: r, heap, 0%nat).
Proof. reflexivity. Qed.

Lemma merge_loop_null_l l pr r heap :
  merge_loop (None :: l) (Some pr :: r) heap
  = Some (Some pr :: r, heap, 0%nat).
Proof. reflexivity. Qed.

Lemma merge_loop_cons pl l pr r heap :
  merge_loop (Some pl :: l) (Some pr :: r) heap
  = match heap !! pl, heap !! pr with
    | Some (Some ul), Some (Some ur) =>
      match useq_cmp ul ur with
      | Eq =>
        let ul' := {| useq_seq := useq_seq ul;
                      useq_count := wrap (useq_count ul + useq_count ur);
                      useq_info := useq_info ul |} in
        let heap' := <[pr := None]> (<[pl := Some ul']> heap) in
        match merge_loop l r heap' with
        | Some (out, h, repeats) => Some (Some pl :: out, h, S repeats)
        | None => None
        end
      | Lt =>
        match merge_loop l (Some pr :: r) heap with
        | Some (out, h, repeats) => Some (Some pl :: out, h, repeats)
        | None => None
        end
      | Gt =>
        match merge_loop (Some pl :: l) r heap with
        | Some (out, h, repeats) => Some (Some pr :: out, h, repeats)
        | None => None
        end
      end
    | _, _ => None
    end.
Proof. reflexivity. Qed.

Lemma cells_nil k : cells [] k = replicate k None.
Proof. reflexivity. Qed.

Lemma cells_cons p ps k : cells (p :: ps) k = Some p :: cells ps k.
Proof. reflexivity. Qed.

Lemma cells_length ps k : length (cells ps k) = (length ps + k)%nat.
Proof. unfold cells. now rewrite length_app, length_fmap, length_replicate. Qed.

Lemma merge_loop_exhausted_r l k heap :
  merge_loop l (cells [] k) heap = Some (l, heap, 0%nat).
Proof.
  rewrite cells_nil. destruct k; [apply merge_loop_nil_r|apply merge_loop_null_r].
Qed.

Lemma merge_loop_exhausted_l k pr r heap :
  merge_loop (cells [] k) (Some pr :: r) heap
  = Some (Some pr :: r, heap, 0%nat).
Proof.
  rewrite cells_nil. destruct k; [apply merge_loop_nil_l|apply merge_loop_null_l].
Qed.

Lemma recs_frame heap heap' ps us :
  recs heap ps us -> (forall p, p ∈ ps -> heap' !! p = heap !! p) ->
  recs heap' ps us.
Proof.
  unfold recs. intros H Hf. induction H as [|p u ps us Hp H IH]; constructor.
  - rewrite Hf; [exact Hp|]. apply elem_of_cons. now left.
  - apply IH. intros q Hq. apply Hf, elem_of_cons. now right.
Qed.

Lemma recs_length heap ps us : recs heap ps us -> length ps = length us.
Proof. apply Forall2_length. Qed.

Lemma count_sum_cons u us : count_sum (u :: us) = useq_count u + count_sum us.
Proof. reflexivity. Qed.

Lemma count_sum_app us vs : count_sum (us ++ vs) = count_sum us + count_sum vs.
Proof. unfold count_sum. now rewrite fmap_app, zsum_app. Qed.

Lemma count_sum_nonneg us : counts_nonneg us -> 0 <= count_sum us.
Proof. induction 1; [reflexivity|]. rewrite count_sum_cons. lia. Qed.

Lemma sorted_seqs_cons u us :
  sorted_seqs (u :: us) <->
  Forall (seq_lt (useq_seq u)) (useq_seq <$> us) /\ sorted_seqs us.
Proof.
  unfold sorted_seqs. rewrite fmap_cons. split.
  - intros H. apply StronglySorted_inv in H. destruct H as [H1 H2].
    split; [|exact H1]. now apply List.Forall_forall, List.Forall_forall.
  - intros [H1 H2]. constructor; [exact H2|].
    now apply List.Forall_forall, List.Forall_forall.
Qed.

Lemma Forall_seq_lt_trans a b l :
  seq_lt a b -> Forall (seq_lt b) l -> Forall (seq_lt a) l.
Proof.
  intros Hab H. eapply Forall_impl; [exact H|].
  intros c Hc. eapply seq_lt_trans; eauto.
Qed.

Ltac split_post :=
  unfold merge_post; repeat match goal with |- _ /\ _ => split end.

Lemma NoDup_app_cons_inv (p1 p2 : nat) pl pr :
  NoDup ((p1 :: pl) ++ p2 :: pr) ->
  p1 <> p2 /\ (p1 ∉ pl ++ p2 :: pr) /\ (p2 ∉ pl ++ pr) /\
  NoDup (pl ++ p2 :: pr) /\ NoDup (pl ++ pr) /\ NoDup ((p1 :: pl) ++ pr).
Proof.
  intros Hnd. simpl in Hnd. apply NoDup_cons in Hnd. destruct Hnd as [H1 Hnd].
  pose proof Hnd as Hnd'.
  apply NoDup_app in Hnd. destruct Hnd as (Hl & Hd & Hr).
  apply NoDup_cons in Hr. destruct Hr as [H2 Hr].
  assert (Hp2 : p2 ∉ pl ++ pr).
  { rewrite not_elem_of_app. split; [|exact H2].
    intros Hin. apply (Hd _ Hin). apply elem_of_cons. now left. }
  assert (Hnd'' : NoDup (pl ++ pr)).
  { apply NoDup_app. repeat split; [exact Hl| |exact Hr].
    intros p Hp Hp'. apply (Hd p Hp). apply elem_of_cons. now right. }
  repeat split; try assumption.
  - intros ->. apply H1. apply elem_of_app. right. apply elem_of_cons. now left.
  - simpl. apply NoDup_cons. split; [|exact Hnd''].
    intros Hin. apply H1. apply elem_of_app in Hin. apply elem_of_app.
    destruct Hin as [Hin|Hin]; [now left|right]. apply elem_of_cons. now right.
Qed.

Lemma elem_of_app_cons_r {A} (x y : A) l1 l2 :
  x ∈ l1 ++ l2 -> x ∈ l1 ++ y :: l2.
Proof.
  intros H. apply elem_of_app in H. apply elem_of_app.
  destruct H as [H|H]; [now left|right]. apply elem_of_cons. now right.
Qed.

(** The merge of two sorted runs. *)
Lemma merge_loop_spec pl : forall pr nl nr heap L R,
  NoDup (pl ++ pr) -> recs heap pl L -> recs heap pr R ->
  sorted_seqs L -> sorted_seqs R ->
  counts_nonneg (L ++ R) -> count_sum L + count_sum R <= INT_MAX ->
  exists po O heap' reps t,
    merge_loop (cells pl nl) (cells pr nr) heap
    = Some (cells po t, heap', reps) /\
    (t <= Nat.max nl nr)%nat /\
    merge_post heap pl pr L R po O heap' reps.
Proof.
  induction pl as [|p1 pl IHl].
  { (* the left run is exhausted *)
    intros pr nl nr heap L R Hnd HL HR HsL HsR Hnn Hsum.
    inversion HL; subst. destruct pr as [|p2 pr].
    - inversion HR; subst. exists [], [], heap, 0%nat, nl.
      rewrite merge_loop_exhausted_r. split; [reflexivity|]. split; [lia|].
      split_post; auto; try constructor.
      intros p Hp. inversion Hp.
    - exists (p2 :: pr), R, heap, 0%nat, nr.
      rewrite cells_cons, merge_loop_exhausted_l. split; [reflexivity|].
      split; [lia|].
      split_post; auto; try (simpl; lia); try (unfold count_sum; simpl; lia).
      intros p Hp Hpo. contradiction. }
  intros pr. induction pr as [|p2 pr IHr];
    intros nl nr heap L R Hnd HL HR HsL HsR Hnn Hsum.
  { (* the right run is exhausted *)
    inversion HR; subst. exists (p1 :: pl), L, heap, 0%nat, nl.
    rewrite merge_loop_exhausted_r. split; [reflexivity|]. split; [lia|].
    rewrite app_nil_r in *.
    split_post; auto; try (simpl; lia); try (unfold count_sum; simpl; lia).
    - intros p Hp. now rewrite app_nil_r.
    - intros s. now rewrite app_nil_r.
    - intros p Hp Hpo. rewrite app_nil_r in Hp. contradiction. }
  (* both runs have a record *)
  inversion HL as [|? u1 ? L' Hp1 HL']; subst.
  inversion HR as [|? u2 ? R' Hp2 HR']; subst.
  rewrite !cells_cons, merge_loop_cons, Hp1, Hp2.
  apply sorted_seqs_cons in HsL. destruct HsL as [Hlt1 HsL'].
  apply sorted_seqs_cons in HsR. destruct HsR as [Hlt2 HsR'].
  rewrite Forall_forall in Hlt1, Hlt2.
  apply Forall_app in Hnn. destruct Hnn as [HnnL HnnR].
  apply Forall_cons in HnnL, HnnR.
  destruct HnnL as [Hc1 HnnL'], HnnR as [Hc2 HnnR'].
  rewrite !count_sum_cons in Hsum.
  pose proof (count_sum_nonneg _ HnnL') as HsumL'.
  pose proof (count_sum_nonneg _ HnnR') as HsumR'.
  destruct (NoDup_app_cons_inv _ _ _ _ Hnd)
    as (Hp12 & Hnd1 & Hnd2 & Hnd' & Hnd'' & Hnd3).
  pose proof (useq_cmp_spec u1 u2) as Hcmp.
  destruct (useq_cmp u1 u2).
  - (* the same sequence: the right record is merged into the left one *)
    cbv zeta.
    set (u1' := {| useq_seq := useq_seq u1;
                   useq_count := wrap (useq_count u1 + useq_count u2);
                   useq_info := useq_info u1 |}).
    set (heap1 := <[p2 := None]> (<[p1 := Some u1']> heap)).
    assert (Hw : useq_count u1' = useq_count u1 + useq_count u2).
    { simpl. apply wrap_small. unfold INT_MAX in Hsum. lia. }
    assert (Hframe : forall p, p <> p1 -> p <> p2 -> heap1 !! p = heap !! p).
    { intros p H1 H2. unfold heap1.
      now rewrite !list_lookup_insert_ne by auto. }
    destruct (IHl pr nl nr heap1 L' R')
      as (po & O & heap' & reps & t & E & Ht & Hpost); try assumption.
    { apply (recs_frame heap); [exact HL'|]. intros p Hp. apply Hframe.
      - intros ->. apply Hnd1, elem_of_app. now left.
      - intros ->. apply Hnd2, elem_of_app. now left. }
    { apply (recs_frame heap); [exact HR'|]. intros p Hp. apply Hframe.
      - intros ->. apply Hnd1, elem_of_app. right. apply elem_of_cons. now right.
      - intros ->. apply Hnd2, elem_of_app. now right. }
    { apply Forall_app. now split. }
    { lia. }
    destruct Hpost
      as (Hlen & Hrec & Hs & Hsub & Hndo & Hnno & Hcs & Hseq & Hhl & Hfr & Hfree).
    exists (p1 :: po), (u1' :: O), heap', (S reps), t.
    rewrite E. split; [reflexivity|]. split; [exact Ht|].
    assert (Hp1o : p1 ∉ po).
    { intros Hin. apply Hsub in Hin. now apply Hnd1, elem_of_app_cons_r. }
    assert (Hp1f : p1 ∉ pl ++ pr).
    { intros Hin. now apply Hnd1, elem_of_app_cons_r. }
    split_post.
    + simpl. lia.
    + constructor; [|exact Hrec].
      rewrite Hfr by exact Hp1f.
      unfold heap1. rewrite list_lookup_insert_ne by auto.
      apply list_lookup_insert_eq. eapply lookup_lt_Some, Hp1.
    + apply sorted_seqs_cons. split; [|exact Hs].
      apply Forall_forall. intros s Hs'. apply Hseq in Hs'.
      rewrite fmap_app in Hs'. apply elem_of_app in Hs'.
      destruct Hs' as [Hs'|Hs']; [now apply Hlt1|].
      simpl. rewrite Hcmp. now apply Hlt2.
    + intros p Hp. apply elem_of_cons in Hp. destruct Hp as [->|Hp].
      * apply elem_of_cons. now left.
      * simpl. apply elem_of_cons. right.
        now apply elem_of_app_cons_r, Hsub.
    + apply NoDup_cons. now split.
    + constructor; [lia|exact Hnno].
    + rewrite !count_sum_cons, Hcs, Hw. lia.
    + intros s. rewrite fmap_app, !fmap_cons, elem_of_cons, Hseq, fmap_app.
      rewrite !elem_of_app, !elem_of_cons. simpl. rewrite Hcmp. tauto.
    + rewrite Hhl. unfold heap1. now rewrite !length_insert.
    + intros p Hp. rewrite Hfr.
      * apply Hframe.
        -- intros ->. apply Hp. apply elem_of_cons. now left.
        -- intros ->. apply Hp. simpl. apply elem_of_cons. right.
           apply elem_of_app. right. apply elem_of_cons. now left.
      * intros Hin. apply Hp. simpl. apply elem_of_cons. right.
        now apply elem_of_app_cons_r.
    + intros p Hp Hpo. apply not_elem_of_cons in Hpo. destruct Hpo as [Hne Hpo].
      simpl in Hp. apply elem_of_cons in Hp. destruct Hp as [->|Hp]; [easy|].
      apply elem_of_app in Hp. destruct Hp as [Hp|Hp].
      * apply Hfree; [|exact Hpo]. apply elem_of_app. now left.
      * apply elem_of_cons in Hp. destruct Hp as [->|Hp].
        -- rewrite Hfr by exact Hnd2. unfold heap1.
           apply list_lookup_insert_eq. rewrite length_insert.
           eapply lookup_lt_Some, Hp2.
        -- apply Hfree; [|exact Hpo]. apply elem_of_app. now right.
  - (* the left record is smaller *)
    destruct (IHl (p2 :: pr) nl nr heap L' (u2 :: R'))
      as (po & O & heap' & reps & t & E & Ht & Hpost); try assumption.
    { apply sorted_seqs_cons. split; [|exact HsR']. now apply Forall_forall. }
    { apply Forall_app. split; [exact HnnL'|]. now constructor. }
    { rewrite count_sum_cons. lia. }
    destruct Hpost
      as (Hlen & Hrec & Hs & Hsub & Hndo & Hnno & Hcs & Hseq & Hhl & Hfr & Hfree).
    rewrite cells_cons in E. rewrite E.
    exists (p1 :: po), (u1 :: O), heap', reps, t.
    split; [reflexivity|]. split; [exact Ht|].
    assert (Hp1o : p1 ∉ po) by (intros Hin; apply Hnd1; now apply Hsub).
    split_post.
    + simpl in *. lia.
    + constructor; [|exact Hrec]. now rewrite Hfr.
    + apply sorted_seqs_cons. split; [|exact Hs].
      apply Forall_forall. intros s Hs'. apply Hseq in Hs'.
      rewrite fmap_app, fmap_cons in Hs'. apply elem_of_app in Hs'.
      destruct Hs' as [Hs'|Hs']; [now apply Hlt1|].
      apply elem_of_cons in Hs'. destruct Hs' as [->|Hs']; [exact Hcmp|].
      apply (seq_lt_trans _ (useq_seq u2)); [exact Hcmp|]. now apply Hlt2.
    + intros p Hp. apply elem_of_cons in Hp. destruct Hp as [->|Hp].
      * apply elem_of_cons. now left.
      * simpl. apply elem_of_cons. right. now apply Hsub.
    + apply NoDup_cons. now split.
    + constructor; [lia|exact Hnno].
    + rewrite !count_sum_cons, Hcs, count_sum_cons. lia.
    + intros s. rewrite fmap_app, !fmap_cons, elem_of_cons, Hseq, fmap_app.
      rewrite !elem_of_app, !fmap_cons, !elem_of_cons. tauto.
    + exact Hhl.
    + intros p Hp. apply Hfr. intros Hin. apply Hp. simpl.
      apply elem_of_cons. now right.
    + intros p Hp Hpo. apply not_elem_of_cons in Hpo. destruct Hpo as [Hne Hpo].
      simpl in Hp. apply elem_of_cons in Hp. destruct Hp as [->|Hp]; [easy|].
      now apply Hfree.
  - (* the right record is smaller *)
    destruct (IHr nl nr heap (u1 :: L') R')
      as (po & O & heap' & reps & t & E & Ht & Hpost); try assumption.
    { apply sorted_seqs_cons. split; [|exact HsL']. now apply Forall_forall. }
    { apply Forall_app. split; [now constructor|exact HnnR']. }
    { rewrite count_sum_cons. lia. }
    destruct Hpost
      as (Hlen & Hrec & Hs & Hsub & Hndo & Hnno & Hcs & Hseq & Hhl & Hfr & Hfree).
    rewrite cells_cons in E. rewrite E.
    exists (p2 :: po), (u2 :: O), heap', reps, t.
    split; [reflexivity|]. split; [exact Ht|].
    assert (Hp2f : p2 ∉ (p1 :: pl) ++ pr).
    { simpl. intros Hin. apply elem_of_cons in Hin.
      destruct Hin as [Hin|Hin]; [now apply Hp12|now apply Hnd2]. }
    assert (Hp2o : p2 ∉ po) by (intros Hin; now apply Hp2f, Hsub).
    split_post.
    + simpl in *. lia.
    + constructor; [|exact Hrec]. now rewrite Hfr.
    + apply sorted_seqs_cons. split; [|exact Hs].
      apply Forall_forall. intros s Hs'. apply Hseq in Hs'.
      rewrite fmap_app, fmap_cons in Hs'. apply elem_of_app in Hs'.
      destruct Hs' as [Hs'|Hs']; [|now apply Hlt2].
      apply elem_of_cons in Hs'. destruct Hs' as [->|Hs']; [exact Hcmp|].
      apply (seq_lt_trans _ (useq_seq u1)); [exact Hcmp|]. now apply Hlt1.
    + intros p Hp. apply elem_of_cons in Hp. destruct Hp as [->|Hp].
      * apply elem_of_app. right. apply elem_of_cons. now left.
      * now apply elem_of_app_cons_r, Hsub.
    + apply NoDup_cons. now split.
    + constructor; [lia|exact Hnno].
    + rewrite !count_sum_cons, Hcs, count_sum_cons. lia.
    + intros s. rewrite fmap_app, !fmap_cons, elem_of_cons, Hseq, fmap_app.
      rewrite !elem_of_app, !fmap_cons, !elem_of_cons. tauto.
    + exact Hhl.
    + intros p Hp. apply Hfr. intros Hin. apply Hp.
      now apply elem_of_app_cons_r.
    + intros p Hp Hpo. apply not_elem_of_cons in Hpo. destruct Hpo as [Hne Hpo].
      apply Hfree; [|exact Hpo].
      apply elem_of_app in Hp. apply elem_of_app.
      destruct Hp as [Hp|Hp]; [now left|right].
      apply elem_of_cons in Hp. destruct Hp as [->|Hp]; [easy|exact Hp].
Qed.

Section SortFacts.

Local Open Scope nat_scope.

(* ================================================================= *)
(** ** Cells of a buffer *)

Lemma region_length buf off size :
  off + size <= length buf -> length (region buf off size) = size.
Proof. intros H. unfold region. rewrite length_take, length_drop. lia. Qed.

Lemma region_lookup buf off size i :
  i < size -> region buf off size !! i = buf !! (off + i).
Proof. intros H. unfold region. now rewrite lookup_take_lt, lookup_drop. Qed.

Lemma region_in_bounds buf off size l :
  region buf off size = l -> length l = size -> 1 <= size ->
  off + size <= length buf.
Proof.
  intros <-. unfold region. rewrite length_take, length_drop. lia.
Qed.

Lemma region_ext buf buf' off size :
  length buf' = length buf ->
  (forall i, off <= i < off + size -> buf' !! i = buf !! i) ->
  region buf' off size = region buf off size.
Proof.
  intros Hlen H. apply list_eq. intros i. unfold region.
  destruct (decide (i < size)) as [Hi|Hi].
  - rewrite !lookup_take_lt, !lookup_drop by lia. apply H. lia.
  - now rewrite !lookup_take_ge by lia.
Qed.

Lemma region_split buf off n m :
  region buf off (n + m) = region buf off n ++ region buf (off + n) m.
Proof.
  unfold region. rewrite take_add_drop, drop_drop. reflexivity.
Qed.

Lemma region_take buf off n m :
  region buf off n = take n (region buf off (n + m)).
Proof. unfold region. rewrite take_take. f_equal. lia. Qed.

Lemma write_cells_length buf off cs buf' :
  write_cells buf off cs = Some buf' -> length buf' = length buf.
Proof.
  unfold write_cells. destruct (Nat.leb_spec (off + length cs) (length buf));
    [|discriminate].
  intros [= <-]. rewrite !length_app, length_take, length_drop. lia.
Qed.

Lemma write_cells_in buf off cs :
  off + length cs <= length buf -> exists buf', write_cells buf off cs = Some buf'.
Proof.
  intros H. unfold write_cells.
  destruct (Nat.leb_spec (off + length cs) (length buf)); [eauto|lia].
Qed.

Lemma write_cells_lookup_in buf off cs buf' i :
  write_cells buf off cs = Some buf' -> i < length cs ->
  buf' !! (off + i) = cs !! i.
Proof.
  unfold write_cells. destruct (Nat.leb_spec (off + length cs) (length buf));
    [|discriminate].
  intros [= <-] Hi.
  rewrite lookup_app_r by (rewrite length_take; lia).
  rewrite length_take, lookup_app_l by lia. f_equal. lia.
Qed.

Lemma write_cells_lookup_out buf off cs buf' i :
  write_cells buf off cs = Some buf' -> ~ (off <= i < off + length cs) ->
  buf' !! i = buf !! i.
Proof.
  unfold write_cells. destruct (Nat.leb_spec (off + length cs) (length buf));
    [|discriminate].
  intros [= <-] Hi. destruct (decide (i < off)) as [Hlt|Hge].
  - rewrite lookup_app_l by (rewrite length_take; lia).
    now rewrite lookup_take_lt.
  - rewrite lookup_app_r by (rewrite length_take; lia).
    rewrite length_take, lookup_app_r by lia.
    rewrite lookup_drop. f_equal. lia.
Qed.

Lemma write_cells_region buf off cs buf' :
  write_cells buf off cs = Some buf' -> region buf' off (length cs) = cs.
Proof.
  intros E. apply list_eq. intros i.
  destruct (decide (i < length cs)) as [Hi|Hi].
  - rewrite region_lookup by lia. now apply (write_cells_lookup_in buf).
  - unfold region. rewrite lookup_take_ge by lia.
    symmetry. apply lookup_ge_None_2. lia.
Qed.

(** The cells after the stores of the merge and the [memset]. *)
Lemma write_cells_merged dst off po t total dst1 dst2 :
  write_cells dst off (cells po t) = Some dst1 ->
  write_cells dst1 (off + length po) (replicate total None) = Some dst2 ->
  region dst2 off (length po + total) = cells po total.
Proof.
  intros E1 E2. rewrite region_split.
  pose proof (write_cells_region _ _ _ _ E2) as H2.
  rewrite length_replicate in H2. rewrite H2. unfold cells. f_equal.
  rewrite (region_ext dst1 dst2).
  - rewrite (region_take _ _ _ t).
    pose proof (write_cells_region _ _ _ _ E1) as H1.
    rewrite cells_length in H1. rewrite H1. unfold cells.
    rewrite take_app_length'; [reflexivity|now rewrite length_fmap].
  - apply (write_cells_length _ _ _ _ E2).
  - intros i Hi. apply (write_cells_lookup_out _ _ _ _ _ E2).
    rewrite length_replicate. lia.
Qed.

(* ================================================================= *)
(** ** [nukesort] *)

Lemma half_sizes size :
  2 <= size ->
  1 <= size / 2 /\ size / 2 + (size / 2 + size mod 2) = size /\
  size / 2 < size /\ size / 2 + size mod 2 < size.
Proof.
  intros H. pose proof (Nat.div_mod_eq size 2) as E.
  pose proof (Nat.mod_upper_bound size 2 ltac:(lia)) as Hm.
  lia.
Qed.

Lemma recs_seq_split heap off n m us :
  recs heap (seq off (n + m)) us ->
  recs heap (seq off n) (take n us) /\
  recs heap (seq (off + n) m) (drop n us).
Proof.
  unfold recs. intros H. rewrite seq_app in H.
  pose proof (Forall2_length _ _ _ H) as Hlen.
  rewrite length_app, !length_seq in Hlen.
  rewrite <- (take_drop n us) in H.
  apply Forall2_app_inv in H; [exact H|].
  rewrite length_seq, length_take. lia.
Qed.

Lemma sorted_seqs_short us : length us <= 1 -> sorted_seqs us.
Proof.
  intros H. destruct us as [|u [|v us]]; [constructor| |simpl in H; lia].
  apply sorted_seqs_cons. split; constructor.
Qed.

Lemma counts_nonneg_region items off size :
  counts_nonneg items -> counts_nonneg (take size (drop off items)).
Proof. intros H. apply Forall_take, Forall_drop, H. Qed.

Lemma count_sum_region items off size :
  counts_nonneg items ->
  (count_sum (take size (drop off items)) <= count_sum items)%Z.
Proof.
  intros H.
  rewrite <- (take_drop off items) at 2.
  rewrite <- (take_drop size (drop off items)) at 2.
  rewrite !count_sum_app.
  pose proof (count_sum_nonneg (take off items) (Forall_take _ _ _ H)).
  pose proof (count_sum_nonneg (drop size (drop off items))
                (Forall_drop _ _ _ (Forall_drop _ _ _ H))).
  lia.
Qed.

Lemma items_region_split (items : list useq) off n m :
  take (n + m) (drop off items)
  = take n (drop off items) ++ take m (drop (off + n) items).
Proof. now rewrite take_add_drop, drop_drop. Qed.

Lemma nukesort_eq fuel off size b st :
  nukesort (S fuel) off size b st
  = if size <? 2 then Some (st, 0) else
    match nukesort fuel off (size / 2) (negb b) st with
    | None => None
    | Some (st1, rep1) =>
      match nukesort fuel (off + size / 2) (size / 2 + size mod 2) (negb b)
              st1 with
      | None => None
      | Some (st2, rep2) =>
        match merge_loop
                (region (if b then ss_buf0 st2 else ss_buf1 st2) off
                   (size / 2))
                (region (if b then ss_buf0 st2 else ss_buf1 st2)
                   (off + size / 2) (size / 2 + size mod 2))
                (ss_heap st2) with
        | None => None
        | Some (out, heap, repeats) =>
          match write_cells (if b then ss_buf1 st2 else ss_buf0 st2) off out
          with
          | None => None
          | Some dst1 =>
            match write_cells dst1 (off + (size - (repeats + rep1 + rep2)))
                    (replicate (repeats + rep1 + rep2) None) with
            | None => None
            | Some dst2 =>
              Some (if b
                    then {| ss_buf0 := ss_buf0 st2; ss_buf1 := dst2;
                            ss_heap := heap |}
                    else {| ss_buf0 := dst2; ss_buf1 := ss_buf1 st2;
                            ss_heap := heap |}, repeats + rep1 + rep2)
            end
          end
        end
      end
    end.
Proof. reflexivity. Qed.

Lemma nukesort_leaf fuel off size b st :
  size < 2 -> nukesort fuel off size b st = Some (st, 0).
Proof.
  intros H. destruct fuel; simpl;
    destruct (Nat.ltb_spec size 2); (reflexivity || lia).
Qed.

Lemma same_outside_refl off size st : same_outside off size st st.
Proof. unfold same_outside. repeat split; reflexivity. Qed.

Section Nukesort.

Variable items : list useq.
Hypothesis items_nonneg : counts_nonneg items.
Hypothesis items_sum : (count_sum items <= INT_MAX)%Z.

Lemma fresh_left off n m st :
  fresh items off (n + m) st -> fresh items off n st.
Proof.
  intros (H0 & H1 & Hr). unfold fresh.
  rewrite !(region_take _ off n m), H0, H1, <- fmap_take, take_seq.
  replace (n `min` (n + m)) with n by lia.
  split; [reflexivity|]. split; [reflexivity|].
  apply recs_seq_split in Hr. destruct Hr as [Hr _].
  rewrite take_take in Hr. now replace (n `min` (n + m)) with n in Hr by lia.
Qed.

Lemma region_drop buf off n m :
  region buf (off + n) m = drop n (region buf off (n + m)).
Proof.
  unfold region. rewrite <- take_drop_commute, drop_drop. reflexivity.
Qed.

Lemma fresh_right off n m st st1 :
  fresh items off (n + m) st -> same_outside off n st st1 ->
  fresh items (off + n) m st1.
Proof.
  intros (H0 & H1 & Hr) (Hl0 & Hl1 & Hlh & Hout). unfold fresh.
  assert (Hreg : forall buf buf', length buf' = length buf ->
            (forall i, ~ (off <= i < off + n) -> buf' !! i = buf !! i) ->
            region buf off (n + m) = Some <$> seq off (n + m) ->
            region buf' (off + n) m = Some <$> seq (off + n) m).
  { intros buf buf' Hlen Hsame E.
    rewrite (region_ext buf buf') by (auto; intros i Hi; apply Hsame; lia).
    rewrite region_drop, E, <- fmap_drop, drop_seq.
    do 2 f_equal. lia. }
  split; [|split].
  - apply (Hreg (ss_buf0 st)); auto. intros i Hi. now apply Hout.
  - apply (Hreg (ss_buf1 st)); auto. intros i Hi. now apply Hout.
  - apply recs_seq_split in Hr. destruct Hr as [_ Hr].
    rewrite <- take_drop_commute, drop_drop in Hr.
    apply (recs_frame (ss_heap st)); [exact Hr|].
    intros p Hp. apply elem_of_seq in Hp. apply Hout. lia.
Qed.

Lemma fresh_leaf off size b st :
  size < 2 -> fresh items off size st -> sorted_region items off size b st 0.
Proof using items_nonneg.
  intros Hs (H0 & H1 & Hr).
  exists (seq off size), (take size (drop off items)).
  split.
  { unfold cells. simpl. rewrite app_nil_r. now destruct b. }
  split; [intros p Hp; apply elem_of_seq in Hp; lia|].
  split; [apply NoDup_seq|]. split; [exact Hr|].
  split; [apply sorted_seqs_short; rewrite length_take; lia|].
  split; [now apply counts_nonneg_region|].
  split; [reflexivity|]. split; [reflexivity|].
  intros p Hp Hn. exfalso. apply Hn, elem_of_seq. lia.
Qed.

Lemma fresh_bounds off size st :
  1 <= size -> fresh items off size st ->
  off + size <= length (ss_buf0 st) /\ off + size <= length (ss_buf1 st).
Proof.
  intros Hs (H0 & H1 & _).
  split; eapply region_in_bounds; eauto; now rewrite length_fmap, length_seq.
Qed.

End Nukesort.

Section NukesortSpec.

Variable items : list useq.
Hypothesis items_nonneg : counts_nonneg items.
Hypothesis items_sum : (count_sum items <= INT_MAX)%Z.

(** The merge step of [nukesort] on two sorted halves. *)
Lemma nukesort_merge off size1 size2 b st st1 st2 rep1 rep2 :
  1 <= size1 -> 1 <= size2 ->
  fresh items off (size1 + size2) st ->
  same_outside off size1 st st1 ->
  sorted_region items off size1 (negb b) st1 rep1 ->
  same_outside (off + size1) size2 st1 st2 ->
  sorted_region items (off + size1) size2 (negb b) st2 rep2 ->
  exists out heap repeats dst1 dst2,
    merge_loop (region (if b then ss_buf0 st2 else ss_buf1 st2) off size1)
      (region (if b then ss_buf0 st2 else ss_buf1 st2) (off + size1) size2)
      (ss_heap st2) = Some (out, heap, repeats) /\
    write_cells (if b then ss_buf1 st2 else ss_buf0 st2) off out
    = Some dst1 /\
    write_cells dst1 (off + (size1 + size2 - (repeats + rep1 + rep2)))
      (replicate (repeats + rep1 + rep2) None) = Some dst2 /\
    let st' := if b
               then {| ss_buf0 := ss_buf0 st2; ss_buf1 := dst2;
                       ss_heap := heap |}
               else {| ss_buf0 := dst2; ss_buf1 := ss_buf1 st2;
                       ss_heap := heap |} in
    same_outside off (size1 + size2) st st' /\
    sorted_region items off (size1 + size2) b st' (repeats + rep1 + rep2).
Proof using items_nonneg items_sum.
  intros Hs1 Hs2 Hfresh Hout1 Hsort1 Hout2 Hsort2.
  destruct (fresh_bounds items off (size1 + size2) st ltac:(lia) Hfresh)
    as [Hb0 Hb1].
  destruct Hout1 as (Hl01 & Hl11 & Hlh1 & Hout1).
  destruct Hout2 as (Hl02 & Hl12 & Hlh2 & Hout2).
  destruct Hsort1
    as (po1 & O1 & Hreg1 & Hin1 & Hnd1 & Hrec1 & Hso1 & Hnn1 & Hcs1 & Hsq1 & Hfree1).
  destruct Hsort2
    as (po2 & O2 & Hreg2 & Hin2 & Hnd2 & Hrec2 & Hso2 & Hnn2 & Hcs2 & Hsq2 & Hfree2).
  set (src := if b then ss_buf0 st2 else ss_buf1 st2).
  set (dst := if b then ss_buf1 st2 else ss_buf0 st2).
  assert (Hsrc2 : (if negb b then ss_buf1 st2 else ss_buf0 st2) = src)
    by (now destruct b).
  assert (Hlsrc : off + (size1 + size2) <= length src).
  { subst src. destruct b; lia. }
  assert (Hldst : off + (size1 + size2) <= length dst).
  { subst dst. destruct b; lia. }
  (* the two halves *)
  assert (Hl : region src off size1 = cells po1 rep1).
  { rewrite <- Hreg1. subst src.
    destruct b; simpl; apply region_ext; auto;
      intros i Hi; apply Hout2; lia. }
  assert (Hr : region src (off + size1) size2 = cells po2 rep2).
  { now rewrite <- Hreg2, Hsrc2. }
  assert (Hlen1 : length po1 + rep1 = size1).
  { rewrite <- cells_length, <- Hl. apply region_length. lia. }
  assert (Hlen2 : length po2 + rep2 = size2).
  { rewrite <- cells_length, <- Hr. apply region_length. lia. }
  assert (Hrec1' : recs (ss_heap st2) po1 O1).
  { apply (recs_frame (ss_heap st1)); [exact Hrec1|].
    intros p Hp. apply Hin1 in Hp. apply Hout2. lia. }
  assert (Hnd : NoDup (po1 ++ po2)).
  { apply NoDup_app. repeat split; try assumption.
    intros p Hp1 Hp2. apply Hin1 in Hp1. apply Hin2 in Hp2. lia. }
  pose proof (items_region_split items off size1 size2) as Hsplit.
  assert (Hsum : (count_sum O1 + count_sum O2 <= INT_MAX)%Z).
  { rewrite Hcs1, Hcs2, <- count_sum_app, <- Hsplit.
    pose proof (count_sum_region items off (size1 + size2) items_nonneg).
    lia. }
  destruct (merge_loop_spec po1 po2 rep1 rep2 (ss_heap st2) O1 O2)
    as (po & O & heap & reps & t & E & Ht & Hpost); try assumption.
  { apply Forall_app. now split. }
  destruct Hpost
    as (Hlen & Hrec & Hs & Hsub & Hndo & Hnno & Hcs & Hseq & Hhl & Hfr & Hfree).
  rewrite Hl, Hr, E.
  assert (Hinpo : forall p, p ∈ po -> off <= p < off + (size1 + size2)).
  { intros p Hp. apply Hsub, elem_of_app in Hp.
    destruct Hp as [Hp|Hp]; [apply Hin1 in Hp|apply Hin2 in Hp]; lia. }
  destruct (write_cells_in dst off (cells po t)) as [dst1 Ew1].
  { rewrite cells_length. lia. }
  assert (Htot : size1 + size2 - (reps + rep1 + rep2) = length po) by lia.
  destruct (write_cells_in dst1 (off + length po)
              (replicate (reps + rep1 + rep2) None)) as [dst2 Ew2].
  { rewrite length_replicate, (write_cells_length _ _ _ _ Ew1). lia. }
  exists (cells po t), heap, reps, dst1, dst2.
  split; [reflexivity|]. split; [exact Ew1|].
  split; [now rewrite Htot|].
  pose proof (write_cells_length _ _ _ _ Ew1) as Hlw1.
  pose proof (write_cells_length _ _ _ _ Ew2) as Hlw2.
  assert (Hdst2 : forall i, ~ (off <= i < off + (size1 + size2)) ->
            dst2 !! i = dst !! i).
  { intros i Hi.
    rewrite (write_cells_lookup_out _ _ _ _ i Ew2)
      by (rewrite length_replicate; lia).
    apply (write_cells_lookup_out _ _ _ _ i Ew1).
    rewrite cells_length. lia. }
  assert (Hheap : forall i, ~ (off <= i < off + (size1 + size2)) ->
            heap !! i = ss_heap st !! i).
  { intros i Hi. rewrite Hfr.
    - destruct (Hout2 i ltac:(lia)) as (_ & _ & ->).
      now destruct (Hout1 i ltac:(lia)) as (_ & _ & ->).
    - intros Hp. apply elem_of_app in Hp.
      destruct Hp as [Hp|Hp]; [apply Hin1 in Hp|apply Hin2 in Hp]; lia. }
  cbv zeta. split.
  - (* nothing changes outside *)
    unfold same_outside. subst dst src.
    destruct b; simpl in *; (split; [lia|split; [lia|split; [lia|]]]);
      intros i Hi;
      destruct (Hout2 i ltac:(lia)) as (E0 & E1 & _);
      destruct (Hout1 i ltac:(lia)) as (F0 & F1 & _);
      (split; [|split]); try (now apply Hheap);
      rewrite ?Hdst2 by exact Hi; congruence.
  - (* the sorted cells *)
    exists po, O.
    assert (Hd : (if b
                  then ss_buf1 (if b
                                then {| ss_buf0 := ss_buf0 st2;
                                        ss_buf1 := dst2; ss_heap := heap |}
                                else {| ss_buf0 := dst2;
                                        ss_buf1 := ss_buf1 st2;
                                        ss_heap := heap |})
                  else ss_buf0 (if b
                                then {| ss_buf0 := ss_buf0 st2;
                                        ss_buf1 := dst2; ss_heap := heap |}
                                else {| ss_buf0 := dst2;
                                        ss_buf1 := ss_buf1 st2;
                                        ss_heap := heap |})) = dst2)
      by (now destruct b).
    assert (Hh : ss_heap (if b
                          then {| ss_buf0 := ss_buf0 st2; ss_buf1 := dst2;
                                  ss_heap := heap |}
                          else {| ss_buf0 := dst2; ss_buf1 := ss_buf1 st2;
                                  ss_heap := heap |}) = heap)
      by (now destruct b).
    rewrite Hd, Hh.
    split.
    { replace (size1 + size2) with (length po + (reps + rep1 + rep2)) by lia.
      now apply (write_cells_merged dst off po t _ dst1). }
    split; [exact Hinpo|]. split; [exact Hndo|]. split; [exact Hrec|].
    split; [exact Hs|]. split; [exact Hnno|].
    split; [now rewrite Hcs, Hcs1, Hcs2, <- count_sum_app, <- Hsplit|].
    split.
    { intros s. rewrite Hseq, Hsplit, !fmap_app, !elem_of_app, Hsq1, Hsq2.
      reflexivity. }
    intros p Hp Hpo.
    destruct (decide (p ∈ po1 ++ po2)) as [Hin|Hnin]; [now apply Hfree|].
    rewrite Hfr by exact Hnin.
    rewrite not_elem_of_app in Hnin. destruct Hnin as [Hn1 Hn2].
    destruct (decide (p < off + size1)) as [Hlt|Hge].
    + destruct (Hout2 p ltac:(lia)) as (_ & _ & ->).
      apply Hfree1; [lia|exact Hn1].
    + apply Hfree2; [lia|exact Hn2].
Qed.

(** [nukesort] on fresh cells: it returns, changes nothing outside the
    cells, and leaves them sorted. *)
Lemma nukesort_spec fuel : forall off size b st,
  size <= fuel -> fresh items off size st ->
  exists st' rep,
    nukesort fuel off size b st = Some (st', rep) /\
    same_outside off size st st' /\
    sorted_region items off size b st' rep.
Proof using items_nonneg items_sum.
  induction fuel as [|fuel IH]; intros off size b st Hfuel Hfresh.
  { exists st, 0. rewrite nukesort_leaf by lia.
    split; [reflexivity|]. split; [apply same_outside_refl|].
    apply fresh_leaf; [assumption|lia|assumption]. }
  destruct (Nat.lt_ge_cases size 2) as [Hlt|Hge].
  { exists st, 0. rewrite nukesort_leaf by lia.
    split; [reflexivity|]. split; [apply same_outside_refl|].
    apply fresh_leaf; assumption. }
  destruct (half_sizes size Hge) as (H1 & Hsum & Hlt1 & Hlt2).
  rewrite nukesort_eq. destruct (Nat.ltb_spec size 2); [lia|].
  set (size1 := size / 2) in *. set (size2 := size1 + size mod 2) in *.
  rewrite <- Hsum in Hfresh.
  destruct (IH off size1 (negb b) st ltac:(lia) (fresh_left _ _ _ _ _ Hfresh))
    as (st1 & rep1 & E1 & Hout1 & Hsort1).
  rewrite E1.
  destruct (IH (off + size1) size2 (negb b) st1 ltac:(lia)
              (fresh_right _ _ _ _ _ _ Hfresh Hout1))
    as (st2 & rep2 & E2 & Hout2 & Hsort2).
  rewrite E2.
  destruct (nukesort_merge off size1 size2 b st st1 st2 rep1 rep2
              ltac:(lia) ltac:(lia) Hfresh Hout1 Hsort1 Hout2 Hsort2)
    as (out & heap & reps & dst1 & dst2 & Em & Ew1 & Ew2 & Hpost).
  rewrite Em, Ew1.
  replace (size - (reps + rep1 + rep2))
    with (size1 + size2 - (reps + rep1 + rep2)) by lia.
  rewrite Ew2.
  eexists _, _. split; [reflexivity|].
  cbv zeta in Hpost. rewrite Hsum in Hpost. exact Hpost.
Qed.

End NukesortSpec.

(* ================================================================= *)
(** ** [seqsort] (C2) *)

Lemma recs_initial items :
  recs (Some <$> items) (seq 0 (length items)) items.
Proof.
  unfold recs. apply Forall2_same_length_lookup. split.
  - now rewrite length_seq.
  - intros i p u Hp Hu. apply lookup_seq in Hp. destruct Hp as [-> _].
    simpl. now rewrite list_lookup_fmap, Hu.
Qed.

Lemma fresh_initial items :
  fresh items 0 (length items)
    {| ss_buf0 := Some <$> seq 0 (length items);
       ss_buf1 := Some <$> seq 0 (length items);
       ss_heap := Some <$> items |}.
Proof.
  unfold fresh, region. simpl. rewrite !drop_0.
  rewrite !take_ge by (rewrite ?length_fmap, ?length_seq; lia).
  repeat split; try reflexivity. apply recs_initial.
Qed.

Lemma sorted_seqs_NoDup us : sorted_seqs us -> NoDup (useq_seq <$> us).
Proof.
  unfold sorted_seqs. induction 1 as [|s l Hs IH Hlt]; [constructor|].
  apply NoDup_cons. split; [|exact IH].
  intros Hin. rewrite List.Forall_forall in Hlt.
  apply list_elem_of_In in Hin. apply Hlt in Hin.
  now apply seq_lt_irrefl in Hin.
Qed.

Lemma survivors_cells heap ps us k :
  recs heap ps us -> survivors (cells ps k) heap = us.
Proof.
  intros H. unfold survivors, cells. rewrite omap_app.
  assert (E : omap (fun c : option nat =>
                      match c with
                      | Some p => default None (heap !! p)
                      | None => None
                      end) (replicate k None) = []).
  { induction k as [|k IH]; [reflexivity|exact IH]. }
  rewrite E, app_nil_r. clear E.
  induction H as [|p u ps us Hp H IH]; [reflexivity|].
  rewrite fmap_cons. simpl. rewrite Hp. simpl. f_equal. exact IH.
Qed.

(** C2, as stated, fails: [ul->count += ur->count] wraps around.  Two
    records with the sequence [A] and the counts [INT_MAX] and 1 are merged
    into one with the count [INT_MIN]: the sum of the counts is not kept. *)
Lemma seqsort_count_overflow :
  ~ (forall items, exists n data heap,
       seqsort items = Some (n, data, heap) /\
       count_sum (survivors data heap) = count_sum items).
Proof.
  intros H.
  destruct (H [mk_useq ["A"]%char 2147483647 None; mk_useq ["A"]%char 1 None])
    as (n & data & heap & E & Hs).
  vm_compute in E. injection E as <- <- <-.
  vm_compute in Hs. discriminate Hs.
Qed.

(** C2, amended: for records whose counts are not negative and sum to an
    [int], [seqsort] returns the number of distinct sequences, that is
    [numels] minus the number of records merged into another one.  After
    the call that many pointers sit at the front of [data], the other slots
    are [NULL]; the records they point to are pairwise distinct and
    strictly sorted by length, then by bytes, and hold the sequences of the
    input; the records left out are freed; the sum of the [count] fields is
    the sum before the sort. *)
Theorem seqsort_spec items :
  counts_nonneg items -> (count_sum items <= INT_MAX)%Z ->
  exists n data heap ps us,
    seqsort items = Some (n, data, heap) /\
    n = Z.of_nat (length ps) /\
    n = (Z.of_nat (length items)
         - Z.of_nat (length items
                     - length (remove_dups (useq_seq <$> items))))%Z /\
    data = cells ps (length items - length ps) /\
    recs heap ps us /\ survivors data heap = us /\
    NoDup ps /\
    (forall p, p < length items -> p ∉ ps -> heap !! p = Some None) /\
    sorted_seqs us /\ NoDup (useq_seq <$> us) /\
    count_sum us = count_sum items /\
    (forall s, s ∈ useq_seq <$> us <-> s ∈ useq_seq <$> items).
Proof.
  intros Hnn Hsum.
  destruct (nukesort_spec items Hnn Hsum (length items) 0 (length items) false
              _ (Nat.le_refl _) (fresh_initial items))
    as (st' & rep & E & (Hl0 & _ & _ & _) & Hsort).
  destruct Hsort
    as (po & O & Hreg & Hin & Hnd & Hrec & Hso & Hnno & Hcs & Hsq & Hfree).
  simpl in Hl0, Hreg, Hcs, Hsq. rewrite length_fmap, length_seq in Hl0.
  unfold region in Hreg. rewrite drop_0, take_ge in Hreg by lia.
  rewrite drop_0, take_ge in Hcs, Hsq by lia.
  assert (Hlen : length po + rep = length items).
  { rewrite <- cells_length, <- Hreg. exact Hl0. }
  pose proof (sorted_seqs_NoDup _ Hso) as HndO.
  assert (Hdistinct : length po = length (remove_dups (useq_seq <$> items))).
  { rewrite (recs_length _ _ _ Hrec), <- (length_fmap useq_seq O).
    apply Permutation_length, NoDup_Permutation;
      [exact HndO|apply NoDup_remove_dups|].
    intros s. now rewrite elem_of_remove_dups. }
  exists (Z.of_nat (length items) - Z.of_nat rep)%Z, (ss_buf0 st'),
    (ss_heap st'), po, O.
  split; [unfold seqsort; now rewrite E|].
  split; [lia|]. split; [lia|].
  split; [rewrite Hreg; f_equal; lia|].
  split; [exact Hrec|].
  split; [rewrite Hreg; now apply survivors_cells|].
  split; [exact Hnd|].
  split; [intros p Hp Hn; apply Hfree; [lia|exact Hn]|].
  split; [exact Hso|]. split; [exact HndO|]. split; [exact Hcs|exact Hsq].
Qed.

Lemma seqsort_spec_witness :
  exists n data heap,
    seqsort [mk_useq ["C"; "A"]%char 1 None; mk_useq ["A"]%char 2 None;
             mk_useq ["C"; "A"]%char 3 None] = Some (n, data, heap) /\
    n = 2%Z.
Proof.
  destruct (seqsort_spec
              [mk_useq ["C"; "A"]%char 1 None; mk_useq ["A"]%char 2 None;
               mk_useq ["C"; "A"]%char 3 None])
    as (n & data & heap & ps & us & E & _ & Hn & _).
  - repeat constructor; discriminate.
  - vm_compute. discriminate.
  - exists n, data, heap. split; [exact E|]. rewrite Hn. reflexivity.
Defined.

End SortFacts.

(* ================================================================= *)
(** ** [count_trie_nodes] *)

Lemma prefix_loop_lcp q : forall n k,
  is_cstr q -> is_cstr n -> length q = length n -> q <> n ->
  prefix_loop q n k = Some (k + Z.of_nat (lcp q n)) /\
  (lcp q n < length q)%nat.
Proof.
  induction q as [|x q IH]; intros [|y n] k Hq Hn Hlen Hne;
    try discriminate; [congruence|].
  simpl. destruct (Ascii.eqb_spec x y) as [->|Hxy].
  - apply Forall_cons in Hq as [_ Hq]. apply Forall_cons in Hn as [_ Hn].
    destruct (IH n (k + 1) Hq Hn) as [E Hlt]; [simpl in Hlen; lia|congruence|].
    rewrite E. split; [f_equal; lia|lia].
  - split; [f_equal; lia|lia].
Qed.

Lemma lex_lt_neq a b : lex_lt a b -> a <> b.
Proof. intros H ->. exact (lex_lt_irrefl _ H). Qed.

(** In a sorted list the neighbour shares the longest prefix. *)
Lemma lcp_sorted a b : lex_lt a b -> forall c l,
  b = c \/ lex_lt b c -> length a = length b ->
  take l a = take l c -> (l <= length a)%nat -> (l <= lcp a b)%nat.
Proof.
  induction 1 as [y b|x y a b Hxy|x a b Hab IH]; intros c l Hbc Hlen Ht Hl.
  - discriminate.
  - destruct l as [|l]; [lia|]. exfalso.
    destruct c as [|z c]; [discriminate|]. simpl in Ht.
    injection Ht as <- _.
    destruct Hbc as [Hbc|Hbc]; [injection Hbc as -> _; lia|].
    inversion Hbc; subst; lia.
  - destruct l as [|l]; [lia|]. simpl in Hl, Hlen.
    destruct c as [|z c]; [discriminate|]. simpl in Ht.
    injection Ht as <- Ht. simpl. rewrite Ascii.eqb_refl.
    apply le_n_S. apply (IH c); [|lia|exact Ht|lia].
    destruct Hbc as [Hbc|Hbc]; [left; congruence|].
    inversion Hbc; subst; [lia|now right].
Qed.

Lemma take_lcp a : forall b l, (l <= lcp a b)%nat -> take l a = take l b.
Proof.
  induction a as [|x a IH]; intros [|y b] l Hl; simpl in Hl;
    try (replace l with 0%nat by lia; reflexivity).
  destruct (Ascii.eqb_spec x y) as [->|Hxy];
    [|replace l with 0%nat by lia; reflexivity].
  destruct l as [|l]; [reflexivity|]. simpl. f_equal. apply IH. lia.
Qed.

Lemma elem_of_inner_prefixes p s :
  p ∈ inner_prefixes s <->
  exists l, (1 <= l < length s)%nat /\ p = take l s.
Proof.
  unfold inner_prefixes. rewrite list_elem_of_fmap. split.
  - intros (l & -> & Hl). apply elem_of_seq in Hl. exists l. split; [lia|easy].
  - intros (l & Hl & ->). exists l. split; [easy|]. apply elem_of_seq. lia.
Qed.

Lemma NoDup_inner_prefixes s : NoDup (inner_prefixes s).
Proof.
  unfold inner_prefixes. apply NoDup_fmap_2_strong; [|apply NoDup_seq].
  intros l l' Hl Hl' E. apply elem_of_seq in Hl, Hl'.
  apply (f_equal length) in E. rewrite !length_take in E. lia.
Qed.

Lemma length_remove_dups_app (P Q : list cstr) :
  NoDup P ->
  length (remove_dups (P ++ Q))
  = (length (filter (fun x => x ∉ Q) P) + length (remove_dups Q))%nat.
Proof.
  induction 1 as [|x P Hx HP IH]; [reflexivity|].
  simpl. rewrite filter_cons.
  destruct (decide_rel elem_of x (P ++ Q)) as [Hin|Hin];
    destruct (decide (x ∉ Q)) as [HQ|HQ]; simpl; rewrite IH; try lia.
  - apply elem_of_app in Hin as [Hin|Hin]; contradiction.
  - exfalso. apply Hin, elem_of_app. right.
    destruct (decide (x ∈ Q)); [assumption|contradiction].
Qed.

Lemma length_filter_above (f : nat -> cstr) (Q : list cstr) p a n :
  (forall l, (a <= l < a + n)%nat -> (f l ∈ Q <-> (l <= p)%nat)) ->
  length (filter (fun x => x ∉ Q) (f <$> seq a n))
  = ((a + n) - Nat.max a (S p))%nat.
Proof.
  revert a. induction n as [|n IH]; intros a H; [simpl; lia|].
  change (seq a (S n)) with (a :: seq (S a) n).
  rewrite fmap_cons, filter_cons.
  pose proof (IH (S a) ltac:(intros l Hl; apply H; lia)) as IH'.
  pose proof (H a ltac:(lia)) as Ha.
  destruct (decide (f a ∉ Q)) as [HQ|HQ]; [rewrite length_cons|]; rewrite IH'.
  - assert (~ (a <= p)%nat) by tauto. lia.
  - assert (a <= p)%nat; [|lia]. apply Ha.
    destruct (decide (f a ∈ Q)); [assumption|contradiction].
Qed.


Lemma StronglySorted_lex_lt_NoDup ss : StronglySorted lex_lt ss -> NoDup ss.
Proof.
  induction 1 as [|a ss Hs IH Ha]; constructor; [|exact IH].
  intros Hin. rewrite Forall_forall in Ha.
  exact (lex_lt_irrefl _ (Ha _ Hin)).
Qed.

Lemma node_sum_cons seqlen a b rest :
  node_sum seqlen (a :: b :: rest)
  = (seqlen - Z.of_nat (lcp a b)) + node_sum seqlen (b :: rest).
Proof. reflexivity. Qed.

Lemma lcp_lex_lt a b :
  lex_lt a b -> length a = length b -> (lcp a b < length a)%nat.
Proof.
  induction 1 as [y b|x y a b Hxy|x a b Hab IH]; simpl; intros Hlen.
  - discriminate.
  - destruct (Ascii.eqb_spec x y) as [->|_]; lia.
  - rewrite Ascii.eqb_refl. specialize (IH ltac:(lia)). lia.
Qed.

Lemma distinct_prefixes_sorted (h : nat) ss :
  StronglySorted lex_lt ss -> Forall (fun s => length s = h) ss ->
  ss <> [] -> (1 <= h)%nat ->
  Z.of_nat (length (remove_dups (ss ≫= inner_prefixes)))
  = (Z.of_nat h - 1) + node_sum (Z.of_nat h - 1) ss.
Proof.
  intros Hs Hlen Hne Hh. induction Hs as [|a ss Hs IH Ha]; [congruence|].
  clear Hne. apply Forall_cons in Hlen as [Hla Hlen].
  rewrite bind_cons, length_remove_dups_app by apply NoDup_inner_prefixes.
  change (inner_prefixes a)
    with ((fun l => take l a) <$> seq 1 (length a - 1)).
  destruct ss as [|b rest].
  - rewrite (length_filter_above _ _ 0).
    + simpl. lia.
    + intros l Hl. split; [intros Hin; inversion Hin|lia].
  - apply Forall_cons in Ha as [Hab Har].
    pose proof Hlen as Hlen'. apply Forall_cons in Hlen' as [Hlb _].
    pose proof (lcp_lex_lt a b Hab ltac:(lia)) as Hp.
    rewrite (length_filter_above _ _ (lcp a b)).
    + rewrite Nat2Z.inj_add, IH by (assumption || discriminate).
      rewrite node_sum_cons. lia.
    + intros l Hl. rewrite list_elem_of_bind. split.
      * intros (c & Hin & Hc). apply elem_of_inner_prefixes in Hin.
        destruct Hin as (l' & Hl' & E).
        assert (Hlc : length c = h).
        { rewrite Forall_forall in Hlen. now apply Hlen. }
        assert (l' = l) as ->.
        { apply (f_equal length) in E. rewrite !length_take in E. lia. }
        apply (lcp_sorted a b Hab c); [|lia|exact E|lia].
        apply elem_of_cons in Hc as [->|Hc]; [now left|right].
        apply StronglySorted_inv in Hs as [_ Hbr].
        rewrite Forall_forall in Hbr. now apply Hbr.
      * intros Hle. exists b. split; [|left].
        apply elem_of_inner_prefixes. exists l. split; [lia|].
        now apply take_lcp.
Qed.

Lemma node_sum_bounds (h : nat) ss :
  NoDup ss -> Forall (fun s => is_cstr s /\ length s = h) ss ->
  0 <= node_sum (Z.of_nat h - 1) ss
    <= (Z.of_nat (length ss) - 1) * (Z.of_nat h - 1) \/ ss = [].
Proof.
  intros Hnd Hall. destruct ss as [|a ss]; [now right|left].
  revert a Hnd Hall. induction ss as [|b ss IH]; intros a Hnd Hall.
  - simpl. lia.
  - apply NoDup_cons in Hnd as [Hab Hnd].
    apply Forall_cons in Hall as [[Ha Hla] Hall].
    pose proof Hall as Hall'. apply Forall_cons in Hall' as [[Hb Hlb] _].
    specialize (IH b Hnd Hall).
    destruct (prefix_loop_lcp a b 0 Ha Hb ltac:(lia)) as [_ Hlt].
    { intros ->. apply Hab. left. }
    rewrite node_sum_cons, !length_cons in *.
    assert (0 <= Z.of_nat (lcp a b) <= Z.of_nat h - 1) by lia.
    set (n := node_sum (Z.of_nat h - 1) (b :: ss)) in *.
    set (k := Z.of_nat (lcp a b)) in *.
    split; [lia|].
    replace (Z.of_nat (S (S (length ss))) - 1)
      with ((Z.of_nat (S (length ss)) - 1) + 1) by lia.
    lia.
Qed.

Lemma count_loop_block seqs seqlen h : forall rest i a acc tail,
  0 <= i -> drop (Z.to_nat i) seqs = a :: rest ++ tail ->
  NoDup (useq_seq <$> a :: rest) ->
  Forall (fun s => is_cstr s /\ length s = h) (useq_seq <$> a :: rest) ->
  count_loop seqs seqlen (seqZ (i + 1) (Z.of_nat (length rest))) acc
  = Some (acc + node_sum seqlen (useq_seq <$> a :: rest)).
Proof.
  induction rest as [|b rest IH]; intros i a acc tail Hi Hdrop Hnd Hall.
  - simpl. f_equal. lia.
  - rewrite seqZ_cons by (simpl; lia). cbn [count_loop].
    assert (E0 : seqs !! Z.to_nat (i + 1 - 1) = Some a).
    { replace (Z.to_nat (i + 1 - 1)) with (Z.to_nat i + 0)%nat by lia.
      now rewrite <- lookup_drop, Hdrop. }
    assert (E1 : seqs !! Z.to_nat (i + 1) = Some b).
    { replace (Z.to_nat (i + 1)) with (Z.to_nat i + 1)%nat by lia.
      now rewrite <- lookup_drop, Hdrop. }
    rewrite E0, E1.
    rewrite !fmap_cons in Hnd, Hall.
    apply NoDup_cons in Hnd as [Hab Hnd].
    apply Forall_cons in Hall as [[Ha Hla] Hall].
    pose proof Hall as Hall'. apply Forall_cons in Hall' as [[Hb Hlb] _].
    destruct (prefix_loop_lcp (useq_seq a) (useq_seq b) 0 Ha Hb ltac:(lia))
      as [E _].
    { intros Eab. apply Hab. rewrite Eab. left. }
    rewrite E.
    replace (Z.pred (Z.of_nat (length (b :: rest))))
      with (Z.of_nat (length rest)) by (simpl; lia).
    replace (Z.succ (i + 1)) with (i + 1 + 1) by lia.
    rewrite (IH (i + 1) b _ tail); try assumption; try lia.
    + f_equal. rewrite !fmap_cons, node_sum_cons. lia.
    + replace (Z.to_nat (i + 1)) with (Z.to_nat i + 1)%nat by lia.
      rewrite <- drop_drop, Hdrop. reflexivity.
Qed.

Lemma block_cons seqs start stop :
  0 <= start < stop -> stop <= Z.of_nat (length seqs) ->
  exists a rest,
    block seqs start stop = a :: rest /\
    seqs !! Z.to_nat start = Some a /\
    Z.of_nat (length rest) = stop - start - 1 /\
    drop (Z.to_nat start) seqs
    = a :: rest ++ drop (Z.to_nat (stop - start)) (drop (Z.to_nat start) seqs).
Proof.
  intros Hs Hstop. unfold block.
  pose proof (take_drop (Z.to_nat (stop - start)) (drop (Z.to_nat start) seqs))
    as Htd.
  assert (Hlen : length (take (Z.to_nat (stop - start))
                          (drop (Z.to_nat start) seqs))
                 = Z.to_nat (stop - start)).
  { rewrite length_take, length_drop. lia. }
  destruct (take (Z.to_nat (stop - start)) (drop (Z.to_nat start) seqs))
    as [|a rest] eqn:E; [simpl in Hlen; lia|].
  exists a, rest. split; [reflexivity|]. split; [|split].
  - replace (Z.to_nat start) with (Z.to_nat start + 0)%nat by lia.
    rewrite <- lookup_drop, <- Htd. reflexivity.
  - simpl in Hlen. lia.
  - rewrite <- Htd at 1. reflexivity.
Qed.

(** X1: on a block [start .. stop) of pairwise distinct C strings of one
    length [h >= 1], [count_trie_nodes] reads no record outside the block
    and no byte past a terminator, and its result lies between [h - 1] and
    [(stop - start) * (h - 1)]. *)
Theorem count_trie_nodes_bounds seqs start stop h :
  0 <= start < stop -> stop <= Z.of_nat (length seqs) -> 1 <= h ->
  (forall u, u ∈ block seqs start stop ->
     is_cstr (useq_seq u) /\ strlen (useq_seq u) = h) ->
  NoDup (useq_seq <$> block seqs start stop) ->
  exists c, count_trie_nodes seqs start stop = Some c /\
    h - 1 <= c <= (stop - start) * (h - 1).
Proof.
  intros Hs Hstop Hh Hall Hnd.
  destruct (block_cons seqs start stop Hs Hstop)
    as (a & rest & Eb & Ea & Hlen & Hdrop).
  rewrite Eb in Hall, Hnd.
  assert (Hall' : Forall (fun s => is_cstr s /\ length s = Z.to_nat h)
                    (useq_seq <$> a :: rest)).
  { apply Forall_fmap, Forall_forall. intros u Hu.
    destruct (Hall u Hu) as [Hc Hl]. split; [exact Hc|].
    unfold strlen in Hl. simpl. lia. }
  unfold count_trie_nodes. destruct (Z.ltb_spec start 0); [lia|].
  rewrite Ea. destruct (Hall a ltac:(left)) as [_ Hla]. rewrite Hla.
  rewrite <- Hlen.
  rewrite (count_loop_block seqs (h - 1) (Z.to_nat h) rest start a _ _
             ltac:(lia) Hdrop Hnd Hall').
  eexists. split; [reflexivity|].
  destruct (node_sum_bounds (Z.to_nat h) _ Hnd Hall') as [Hb|Hb];
    [|discriminate].
  rewrite length_fmap, length_cons in Hb.
  replace (Z.of_nat (Z.to_nat h)) with h in Hb by lia. nia.
Qed.

(** X2: on a block of C strings of one length in increasing byte order,
    [count_trie_nodes] returns the number of distinct prefixes of the
    sequences that are neither empty nor a whole sequence: the nodes of
    the trie of the block, the root and the leaves apart. *)
Theorem count_trie_nodes_exact seqs start stop h :
  0 <= start < stop -> stop <= Z.of_nat (length seqs) -> 1 <= h ->
  (forall u, u ∈ block seqs start stop ->
     is_cstr (useq_seq u) /\ strlen (useq_seq u) = h) ->
  StronglySorted lex_lt (useq_seq <$> block seqs start stop) ->
  count_trie_nodes seqs start stop
  = Some (Z.of_nat (length (remove_dups
       ((useq_seq <$> block seqs start stop) ≫= inner_prefixes)))).
Proof.
  intros Hs Hstop Hh Hall Hsorted.
  pose proof (StronglySorted_lex_lt_NoDup _ Hsorted) as Hnd.
  destruct (block_cons seqs start stop Hs Hstop)
    as (a & rest & Eb & Ea & Hlen & Hdrop).
  rewrite Eb in Hall, Hnd, Hsorted |- *.
  assert (Hall' : Forall (fun s => is_cstr s /\ length s = Z.to_nat h)
                    (useq_seq <$> a :: rest)).
  { apply Forall_fmap, Forall_forall. intros u Hu.
    destruct (Hall u Hu) as [Hc Hl]. split; [exact Hc|].
    unfold strlen in Hl. simpl. lia. }
  unfold count_trie_nodes. destruct (Z.ltb_spec start 0); [lia|].
  rewrite Ea. destruct (Hall a ltac:(left)) as [_ Hla]. rewrite Hla.
  rewrite <- Hlen.
  rewrite (count_loop_block seqs (h - 1) (Z.to_nat h) rest start a _ _
             ltac:(lia) Hdrop Hnd Hall').
  f_equal.
  rewrite (distinct_prefixes_sorted (Z.to_nat h)); try assumption.
  - replace (Z.of_nat (Z.to_nat h)) with h by lia. reflexivity.
  - eapply Forall_impl; [exact Hall'|]. now intros s [_ Hl].
  - discriminate.
  - lia.
Qed.

Ltac solve_lex_lt :=
  first [ apply lex_lt_head; vm_compute; lia
        | apply lex_lt_tail; solve_lex_lt ].

Lemma count_trie_nodes_exact_witness :
  count_trie_nodes [mk_useq ["A"; "A"; "C"]%char 1 None;
                    mk_useq ["A"; "C"; "A"]%char 1 None;
                    mk_useq ["A"; "C"; "G"]%char 1 None] 0 3 = Some 3.
Proof.
  rewrite (count_trie_nodes_exact _ 0 3 3);
    [reflexivity | lia | simpl; lia | lia | |].
  - intros u Hu. change (block _ 0 3) with
      [mk_useq ["A"; "A"; "C"]%char 1 None;
       mk_useq ["A"; "C"; "A"]%char 1 None;
       mk_useq ["A"; "C"; "G"]%char 1 None] in Hu.
    rewrite !elem_of_cons in Hu.
    destruct Hu as [->|[->|[->|Hu]]];
      [split; [repeat constructor; discriminate|reflexivity]..|].
    inversion Hu.
  - change (useq_seq <$> block _ 0 3) with
      [["A"; "A"; "C"]; ["A"; "C"; "A"]; ["A"; "C"; "G"]]%char.
    apply SSorted_cons; [apply SSorted_cons; [apply SSorted_cons;
      [apply SSorted_nil|apply List.Forall_nil]|]|].
    + apply List.Forall_cons; [solve_lex_lt|apply List.Forall_nil].
    + apply List.Forall_cons; [solve_lex_lt|].
      apply List.Forall_cons; [solve_lex_lt|apply List.Forall_nil].
Defined.

Lemma count_trie_nodes_bounds_witness :
  exists c,
    count_trie_nodes [mk_useq ["A"; "A"; "C"]%char 1 None;
                      mk_useq ["A"; "C"; "A"]%char 1 None;
                      mk_useq ["A"; "C"; "G"]%char 1 None] 0 3 = Some c /\
    3 - 1 <= c <= (3 - 0) * (3 - 1).
Proof.
  apply (count_trie_nodes_bounds _ 0 3 3); [lia | simpl; lia | lia | |].
  - intros u Hu. change (block _ 0 3) with
      [mk_useq ["A"; "A"; "C"]%char 1 None;
       mk_useq ["A"; "C"; "A"]%char 1 None;
       mk_useq ["A"; "C"; "G"]%char 1 None] in Hu.
    rewrite !elem_of_cons in Hu.
    destruct Hu as [->|[->|[->|Hu]]];
      [split; [repeat constructor; discriminate|reflexivity]..|].
    inversion Hu.
  - change (useq_seq <$> block _ 0 3) with
      [["A"; "A"; "C"]; ["A"; "C"; "A"]; ["A"; "C"; "G"]]%char.
    apply NoDup_cons_2; [|apply NoDup_cons_2; [|apply NoDup_singleton]].
    + rewrite !not_elem_of_cons. split; [discriminate|].
      split; [discriminate|]. apply not_elem_of_nil.
    + rewrite !not_elem_of_cons. split; [discriminate|].
      apply not_elem_of_nil.
Defined.

(* ================================================================= *)
(** ** The blocks of the jobs of a plan *)

Section PlanRanges.

Variables (MAX_K tau height med N M : Z).
Hypothesis N_pos : 0 < N.
Hypothesis M_nonneg : 0 <= M.

Lemma plan_bounds_step i :
  0 <= i < N ->
  0 <= znth (plan_bounds M N) i /\
  znth (plan_bounds M N) i <= znth (plan_bounds M N) (i + 1) <= M /\
  (N <= M -> znth (plan_bounds M N) i < znth (plan_bounds M N) (i + 1)).
Proof using N_pos M_nonneg.
  intros Hi. rewrite !plan_bounds_nth by lia.
  rewrite Z.quot_div_nonneg, Z.rem_mod_nonneg by lia.
  pose proof (Z.mod_pos_bound M N N_pos) as Hmod.
  pose proof (Z.div_mod M N ltac:(lia)) as Hdm.
  assert (Hq : 0 <= M / N) by (apply Z.div_pos; lia).
  split; [nia|]. split; [split; [nia|]|].
  - assert (M / N * (i + 1) <= M / N * N) by nia. lia.
  - intros HNM. assert (1 <= M / N).
    { apply Z.div_le_lower_bound; lia. }
    nia.
Qed.

Lemma plan_job_range i j :
  0 <= i < N -> 0 <= j < N ->
  let job := plan_job (plan_bounds M N) tau N i j in
  0 <= job_start job /\ job_start job <= job_end job + 1 /\
  job_end job < M /\ (N <= M -> job_start job <= job_end job).
Proof using N_pos M_nonneg.
  intros Hi Hj. simpl.
  assert (Hidx : 0 <= Z.rem (i + j) N < N).
  { destruct (plan_idx_cases N N_pos i j Hi Hj) as [[? ->]|[? ->]]; lia. }
  destruct (plan_bounds_step _ Hidx) as (H0 & [H1 H2] & H3).
  split; [lia|]. split; [lia|]. split; [lia|].
  intros HNM. specialize (H3 HNM). lia.
Qed.

End PlanRanges.

Lemma njobs_le N : 0 < N -> Z.quot (N + 1) 2 <= N.
Proof.
  intros H. rewrite Z.quot_div_nonneg by lia.
  apply Z.div_le_upper_bound; lia.
Qed.

(** X3: every job of the plan that [plan_mt] makes for [N > 0] tries over
    [M >= 0] records ranges over records of the stack, [0 <= start <=
    end + 1] and [end < M], and carries the [tau] of the plan; with at
    least as many records as tries no block is empty. *)
Theorem plan_mt_jobs_in_stack MAX_K tau height med N M i j job :
  0 < N -> 0 <= M ->
  plan_job_at (plan_mt MAX_K tau height med N M) i j = Some job ->
  0 <= job_start job /\ job_start job <= job_end job + 1 /\
  job_end job < M /\ job_tau job = tau /\
  (N <= M -> job_start job <= job_end job).
Proof.
  intros HN HM E.
  destruct (plan_job_at_inv MAX_K tau height med N M HN i j job E)
    as (Hi & Hj & ->).
  pose proof (njobs_le N HN) as Hh.
  destruct (plan_job_range tau N M HN HM i j Hi ltac:(lia))
    as (H1 & H2 & H3 & H4).
  repeat split; assumption.
Qed.

Lemma plan_mt_jobs_in_stack_witness :
  exists job, plan_job_at (plan_mt 14 2 4 4 3 7) 1 1 = Some job /\
    0 <= job_start job /\ job_end job < 7.
Proof.
  exists (plan_job (plan_bounds 7 3) 2 3 1 1). split; [reflexivity|].
  destruct (plan_mt_jobs_in_stack 14 2 4 4 3 7 1 1 _ ltac:(lia) ltac:(lia)
              eq_refl) as (H1 & _ & H3 & _).
  split; assumption.
Defined.

(** X4: for a stack of at least one record and [1 <= thrmax <= 715827882],
    the number of tries chosen by [starcode] is odd and between 1 and the
    number of records, the number of threads stays between 1 and [thrmax],
    and every job of the plan built with it ranges over a non-empty block
    of records of the stack. *)
Theorem starcode_plan_blocks MAX_K tau height med nitems thrmax i j job :
  1 <= nitems -> 1 <= thrmax <= 715827882 ->
  let ntries := fst (starcode_ntries nitems thrmax) in
  plan_job_at (plan_mt MAX_K tau height med ntries nitems) i j = Some job ->
  1 <= ntries <= nitems /\ Z.odd ntries = true /\
  1 <= snd (starcode_ntries nitems thrmax) <= thrmax /\
  0 <= job_start job <= job_end job /\ job_end job < nitems.
Proof.
  intros Hn Ht ntries E.
  assert (Hnt : 1 <= ntries <= nitems /\ Z.odd ntries = true /\
                1 <= snd (starcode_ntries nitems thrmax) <= thrmax).
  { subst ntries. unfold starcode_ntries. rewrite ntries_formula by lia.
    destruct (Z.ltb_spec nitems (3 * thrmax + (if Z.even thrmax then 1 else 0)));
      simpl; [repeat split; lia|].
    split; [destruct (Z.even thrmax); lia|]. split; [|lia].
    destruct (Z.even thrmax) eqn:Ev.
    - apply Z.even_spec in Ev as [k ->].
      replace (3 * (2 * k) + 1) with (1 + 2 * (3 * k)) by lia.
      now rewrite Z.odd_add_mul_2.
    - rewrite <- Z.negb_odd in Ev. apply negb_false_iff in Ev.
      apply Z.odd_spec in Ev as [k ->].
      replace (3 * (2 * k + 1) + 0) with (1 + 2 * (3 * k + 1)) by lia.
      now rewrite Z.odd_add_mul_2. }
  destruct Hnt as (H1 & H2 & H3).
  destruct (plan_job_at_inv MAX_K tau height med ntries nitems ltac:(lia)
              i j job E) as (Hi & Hj & ->).
  pose proof (njobs_le ntries ltac:(lia)) as Hh.
  destruct (plan_job_range tau ntries nitems ltac:(lia) ltac:(lia) i j Hi
              ltac:(lia)) as (G1 & G2 & G3 & G4).
  specialize (G4 ltac:(lia)).
  split; [lia|]. split; [assumption|]. split; [lia|]. split; lia.
Qed.

Lemma starcode_plan_blocks_witness :
  exists job,
    plan_job_at (plan_mt 14 2 4 4 (fst (starcode_ntries 7 1)) 7) 1 1
    = Some job /\
    0 <= job_start job <= job_end job /\ job_end job < 7.
Proof.
  exists (plan_job (plan_bounds 7 3) 2 3 1 1). split; [reflexivity|].
  destruct (starcode_plan_blocks 14 2 4 4 7 1 1 1 _ ltac:(lia) ltac:(lia)
              eq_refl) as (_ & _ & _ & H1 & H2).
  split; assumption.
Defined.

(* ================================================================= *)
(** ** The identifiers of [seq2id] *)

Lemma seq2id_from_value w n : forall p V,
  0 <= p -> all_bases w -> (Z.to_nat p + n)%nat = length w ->
  0 <= V -> (1 <= n)%nat -> (V + 1) * 4 ^ Z.of_nat n <= 2 ^ 31 ->
  seq2id_from w p n (4 * V)
  = Some (fold_left (fun acc c => 4 * acc + default 0 (base_code c))
            (drop (Z.to_nat p) w) V).
Proof.
  induction n as [|n IH]; intros p V Hp Hw Hlen HV Hn Hb; [lia|].
  destruct (lookup_lt_is_Some_2 w (Z.to_nat p) ltac:(lia)) as [c Hc].
  simpl seq2id_from. rewrite (char_at_in w p c) by (lia || exact Hc).
  rewrite (drop_S _ _ _ Hc). simpl fold_left.
  destruct (base_code c) as [d|] eqn:Ed.
  2:{ exfalso. unfold all_bases in Hw. rewrite Forall_lookup in Hw.
      now apply (Hw _ _ Hc). }
  pose proof (base_code_range _ _ Ed) as Hd. simpl default.
  assert (H4 : 4 ^ Z.of_nat (S n) = 4 * 4 ^ Z.of_nat n).
  { rewrite Nat2Z.inj_succ, Z.pow_succ_r by lia. reflexivity. }
  assert (Hpos : 0 < 4 ^ Z.of_nat n) by (apply Z.pow_pos_nonneg; lia).
  rewrite H4 in Hb. change (2 ^ 31) with 2147483648 in *.
  assert (Hs : 4 * V + d + 1 <= (V + 1) * (4 * 4 ^ Z.of_nat n)) by nia.
  rewrite (wrap_small (4 * V + d)) by (change (2 ^ 31) with 2147483648; lia).
  destruct n as [|n].
  - rewrite drop_ge by lia. reflexivity.
  - rewrite Z.shiftl_mul_pow2 by lia. change (2 ^ 2) with 4.
    assert (H4' : 4 ^ Z.of_nat (S n) = 4 * 4 ^ Z.of_nat n).
    { rewrite Nat2Z.inj_succ, Z.pow_succ_r by lia. reflexivity. }
    assert (Hpos' : 0 < 4 ^ Z.of_nat n) by (apply Z.pow_pos_nonneg; lia).
    assert (Hs' : (4 * V + d + 1) * 4 ^ Z.of_nat (S n)
                  <= (V + 1) * (4 * 4 ^ Z.of_nat (S n))) by nia.
    rewrite wrap_small by (change (2 ^ 31) with 2147483648; nia).
    replace ((4 * V + d) * 4) with (4 * (4 * V + d)) by lia.
    rewrite (IH (p + 1) (4 * V + d)); try assumption; try lia; try nia.
    replace (Z.to_nat (p + 1)) with (S (Z.to_nat p)) by lia. reflexivity.
Qed.

Lemma seq2id_value w :
  all_bases w -> strlen w <= 15 -> seq2id w 0 (strlen w) = Some (kmer_value w).
Proof.
  intros Hw Hl. unfold seq2id, strlen in *. rewrite Nat2Z.id.
  destruct (length w) as [|n] eqn:E.
  - destruct w; [reflexivity|discriminate].
  - assert (4 ^ Z.of_nat (S n) <= 4 ^ 15) by (apply Z.pow_le_mono_r; lia).
    change 0 with (4 * 0) at 2.
    rewrite (seq2id_from_value w (S n) 0 0); try assumption; try lia.
    reflexivity.
Qed.

Lemma kmer_value_fold (w : cstr) : forall V,
  all_bases w -> 0 <= V ->
  V * 4 ^ Z.of_nat (length w)
  <= fold_left (fun acc c => 4 * acc + default 0 (base_code c)) w V
  < (V + 1) * 4 ^ Z.of_nat (length w).
Proof.
  induction w as [|c w IH]; intros V Hw HV.
  - simpl. lia.
  - apply Forall_cons in Hw as [Hc Hw].
    destruct (base_code c) as [d|] eqn:Ed; [|congruence].
    pose proof (base_code_range _ _ Ed) as Hd.
    simpl fold_left. rewrite Ed. simpl default.
    specialize (IH (4 * V + d) Hw ltac:(lia)).
    rewrite length_cons, Nat2Z.inj_succ, Z.pow_succ_r by lia. nia.
Qed.

Lemma kmer_value_inj (a : cstr) : forall b V,
  all_bases a -> all_bases b -> length a = length b -> 0 <= V ->
  fold_left (fun acc c => 4 * acc + default 0 (base_code c)) a V
  = fold_left (fun acc c => 4 * acc + default 0 (base_code c)) b V ->
  base_code <$> a = base_code <$> b.
Proof.
  induction a as [|x a IH]; intros [|y b] V Ha Hb Hlen HV E;
    try discriminate; [reflexivity|].
  apply Forall_cons in Ha as [Hx Ha]. apply Forall_cons in Hb as [Hy Hb].
  destruct (base_code x) as [d|] eqn:Ex; [|congruence].
  destruct (base_code y) as [e|] eqn:Ey; [|congruence].
  pose proof (base_code_range _ _ Ex). pose proof (base_code_range _ _ Ey).
  simpl in E, Hlen. rewrite Ex, Ey in E. simpl in E.
  pose proof (kmer_value_fold a (4 * V + d) Ha ltac:(lia)) as Ba.
  pose proof (kmer_value_fold b (4 * V + e) Hb ltac:(lia)) as Bb.
  assert (Hl : length a = length b) by lia. rewrite Hl in Ba.
  assert (Hpos : 0 < 4 ^ Z.of_nat (length b)) by (apply Z.pow_pos_nonneg; lia).
  assert (d = e) as -> by nia.
  rewrite !fmap_cons, Ex, Ey. f_equal.
  apply (IH b (4 * V + e)); assumption || lia.
Qed.

Lemma kmer_value_codes (a : cstr) : forall b V,
  base_code <$> a = base_code <$> b ->
  fold_left (fun acc c => 4 * acc + default 0 (base_code c)) a V
  = fold_left (fun acc c => 4 * acc + default 0 (base_code c)) b V.
Proof.
  induction a as [|x a IH]; intros [|y b] V E; try discriminate;
    [reflexivity|].
  rewrite !fmap_cons in E. injection E as Exy E.
  simpl. rewrite Exy. now apply IH.
Qed.

(** X5: the identifier that [seq2id] gives a k-mer of at most 15 bases
    lying inside a string (the padding space counts as the base [A]) is the
    number its two-bit codes spell in base 4, first base first, a number
    below [4 ^ k]; two k-mers get the same identifier exactly when their
    bases have the same codes. *)
Theorem seq2id_encoding a b offa offb kl :
  is_cstr a -> is_cstr b -> 0 <= kl <= 15 ->
  0 <= offa -> offa + kl <= strlen a -> 0 <= offb -> offb + kl <= strlen b ->
  all_bases (substr a offa kl) -> all_bases (substr b offb kl) ->
  seq2id a offa kl = Some (kmer_value (substr a offa kl)) /\
  0 <= kmer_value (substr a offa kl) < 4 ^ kl /\
  (seq2id a offa kl = seq2id b offb kl <->
   base_code <$> substr a offa kl = base_code <$> substr b offb kl).
Proof.
  intros Ha Hb Hk Hoa Hla Hob Hlb Hba Hbb.
  assert (La : length (substr a offa kl) = Z.to_nat kl)
    by (apply substr_length; lia).
  assert (Lb : length (substr b offb kl) = Z.to_nat kl)
    by (apply substr_length; lia).
  assert (Ea : seq2id a offa kl = Some (kmer_value (substr a offa kl))).
  { rewrite seq2id_substr by lia.
    replace kl with (strlen (substr a offa kl)) at 2
      by (unfold strlen; lia).
    apply seq2id_value; [assumption|unfold strlen; lia]. }
  assert (Eb : seq2id b offb kl = Some (kmer_value (substr b offb kl))).
  { rewrite seq2id_substr by lia.
    replace kl with (strlen (substr b offb kl)) at 2
      by (unfold strlen; lia).
    apply seq2id_value; [assumption|unfold strlen; lia]. }
  split; [exact Ea|]. split.
  - pose proof (kmer_value_fold _ 0 Hba ltac:(lia)) as B.
    rewrite La in B. replace (Z.of_nat (Z.to_nat kl)) with kl in B by lia.
    unfold kmer_value. lia.
  - rewrite Ea, Eb. split.
    + intros [= E]. apply (kmer_value_inj _ _ 0); try assumption; lia.
    + intros E. f_equal. now apply kmer_value_codes.
Qed.

Lemma seq2id_encoding_witness :
  seq2id ["A"; "C"; "G"; "T"]%char 0 3 = Some 6 /\
  seq2id ["A"; "C"; "G"; "T"]%char 0 3 = seq2id ["T"; "A"; "C"; "G"]%char 1 3.
Proof.
  assert (Hc : forall s : cstr,
             Forall (fun c => base_code c <> None) s -> is_cstr s).
  { intros s Hs. eapply Forall_impl; [exact Hs|].
    intros c Hb ->. now apply Hb. }
  assert (Ha : all_bases ["A"; "C"; "G"; "T"]%char)
    by (repeat constructor; discriminate).
  assert (Hb : all_bases ["T"; "A"; "C"; "G"]%char)
    by (repeat constructor; discriminate).
  destruct (seq2id_encoding ["A"; "C"; "G"; "T"]%char ["T"; "A"; "C"; "G"]%char
              0 1 3) as (H1 & _ & H3).
  - now apply Hc.
  - now apply Hc.
  - lia.
  - lia.
  - unfold strlen; simpl; lia.
  - lia.
  - unfold strlen; simpl; lia.
  - repeat constructor; discriminate.
  - repeat constructor; discriminate.
  - split; [exact H1|]. apply H3. reflexivity.
Defined.

(* ================================================================= *)
(** ** What [lut_search] answers *)

Lemma get_bit_nonneg row v b : get_bit row v = Some b -> 0 <= v.
Proof. unfold get_bit. destruct (Z.ltb_spec v 0); [discriminate|lia]. Qed.

(** Setting a bit sets no other. *)
Lemma get_bit_set_bit_inv row v0 row' v :
  0 <= v0 -> set_bit row v0 = Some row' -> get_bit row' v = Some true ->
  v = v0 \/ get_bit row v = Some true.
Proof.
  intros Hv0 Eset Hget. pose proof (get_bit_nonneg _ _ _ Hget) as Hv.
  revert Eset Hget. unfold set_bit, get_bit.
  destruct (row !! Z.to_nat (Z.quot v0 8)) as [byte0|] eqn:E0; [|discriminate].
  intros [= <-]. destruct (Z.ltb_spec v 0); [lia|].
  pose proof (rem8_range v Hv). pose proof (rem8_range v0 Hv0).
  destruct (decide (Z.to_nat (Z.quot v0 8) = Z.to_nat (Z.quot v 8))) as [Eq|Ne].
  - rewrite <- Eq, list_lookup_insert_eq by (eapply lookup_lt_Some, E0).
    rewrite E0. rewrite !bit_test by lia. intros [= Hb].
    rewrite Z.lor_spec, Z.shiftl_1_l, Z.pow2_bits_eqb in Hb by lia.
    apply orb_true_iff in Hb as [Hb|Hb]; [right; now rewrite Hb|left].
    apply Z.eqb_eq in Hb.
    assert (Z.quot v0 8 = Z.quot v 8).
    { pose proof (Z.quot_pos v0 8 Hv0 ltac:(lia)).
      pose proof (Z.quot_pos v 8 Hv ltac:(lia)). lia. }
    pose proof (Z.quot_rem' v 8). pose proof (Z.quot_rem' v0 8). lia.
  - rewrite list_lookup_insert_ne by exact Ne. intros Hb. now right.
Qed.

Lemma get_bit_zero n v : get_bit (replicate n 0) v <> Some true.
Proof.
  unfold get_bit. destruct (Z.ltb_spec v 0); [discriminate|].
  destruct (replicate n 0 !! _) as [byte|] eqn:E; [|discriminate].
  apply lookup_replicate in E as [-> _].
  pose proof (rem8_range v ltac:(lia)).
  rewrite bit_test, Z.bits_0 by lia. discriminate.
Qed.

(** What the window of probes of one k-mer returns. *)
Lemma lut_search_window_inv s kl row m : forall pos r,
  lut_search_window m row s pos kl = Some r ->
  (r = Some 1 /\
   exists j v rw, 0 <= j < Z.of_nat m /\ row = Some rw /\
     seq2id s (pos + j) kl = Some v /\ get_bit rw v = Some true) \/
  (r = Some (-1) /\
   exists j, 0 <= j < Z.of_nat m /\ seq2id s (pos + j) kl = Some (-2)) \/
  (r = None /\
   forall j, 0 <= j < Z.of_nat m ->
     seq2id s (pos + j) kl = Some (-1) \/
     exists v rw, seq2id s (pos + j) kl = Some v /\ row = Some rw /\
       get_bit rw v = Some false).
Proof.
  induction m as [|m IH]; intros pos r E.
  { simpl in E. injection E as <-. right. right. split; [reflexivity|].
    intros j Hj. simpl in Hj. lia. }
  simpl in E. destruct (seq2id s pos kl) as [v0|] eqn:E0; [|discriminate].
  assert (Hshift : forall j, pos + 1 + (j - 1) = pos + j) by (intros; lia).
  assert (Hrec : forall r,
    lut_search_window m row s (pos + 1) kl = Some r ->
    (seq2id s pos kl = Some (-1) \/
     exists v rw, seq2id s pos kl = Some v /\ row = Some rw /\
       get_bit rw v = Some false) ->
    (r = Some 1 /\
     exists j v rw, 0 <= j < Z.of_nat (S m) /\ row = Some rw /\
       seq2id s (pos + j) kl = Some v /\ get_bit rw v = Some true) \/
    (r = Some (-1) /\
     exists j, 0 <= j < Z.of_nat (S m) /\ seq2id s (pos + j) kl = Some (-2)) \/
    (r = None /\
     forall j, 0 <= j < Z.of_nat (S m) ->
       seq2id s (pos + j) kl = Some (-1) \/
       exists v rw, seq2id s (pos + j) kl = Some v /\ row = Some rw /\
         get_bit rw v = Some false)).
  { intros r' E' H0.
    destruct (IH _ _ E') as [(-> & j & v & rw & Hj & Hr & Ev & Hb)
                            |[(-> & j & Hj & Ev)|(-> & Hall)]].
    - left. split; [reflexivity|]. exists (j + 1), v, rw.
      rewrite <- (Hshift (j + 1)). replace (j + 1 - 1) with j by lia.
      repeat split; try assumption; lia.
    - right. left. split; [reflexivity|]. exists (j + 1).
      rewrite <- (Hshift (j + 1)). replace (j + 1 - 1) with j by lia.
      split; [lia|assumption].
    - right. right. split; [reflexivity|]. intros j Hj.
      destruct (Z.eq_dec j 0) as [->|Hne]; [now rewrite Z.add_0_r|].
      rewrite <- Hshift. apply Hall. lia. }
  destruct (Z.eqb_spec v0 (-2)) as [->|Hn2].
  { injection E as <-. right. left. split; [reflexivity|].
    exists 0. rewrite Z.add_0_r. split; [lia|exact E0]. }
  destruct (Z.eqb_spec v0 (-1)) as [->|Hn1].
  { apply Hrec; [exact E|now left]. }
  destruct row as [rw|]; [|discriminate].
  destruct (get_bit rw v0) as [[|]|] eqn:Eb; [| |discriminate].
  - injection E as <-. left. split; [reflexivity|].
    exists 0, v0, rw. rewrite Z.add_0_r. repeat split; try assumption; lia.
  - apply Hrec; [exact E|]. right. exists v0, rw. now repeat split.
Qed.

Section SearchInv.

Variables (s : cstr) (kmers slen : Z) (klen : list Z) (bits : list (list Z)).

Local Abbreviation off i := (slen - zsum (drop i klen)).
Local Abbreviation width i := (kmers - 1 - Z.of_nat i).

(** What the loop of [lut_search] returns. *)
Lemma lut_search_loop_inv n : forall r,
  lut_search_loop n kmers klen bits s (off n) = Some r ->
  (r = 1 /\
   exists i kl j v rw, (i < n)%nat /\ klen !! i = Some kl /\
     - width i <= j <= width i /\ bits !! i = Some rw /\
     seq2id s (off i + j) kl = Some v /\ get_bit rw v = Some true) \/
  (r = -1 /\
   exists i kl j, (i < n)%nat /\ klen !! i = Some kl /\
     - width i <= j <= width i /\ seq2id s (off i + j) kl = Some (-2)) \/
  (r = 0 /\
   forall i kl j, (i < n)%nat -> klen !! i = Some kl ->
     - width i <= j <= width i ->
     seq2id s (off i + j) kl = Some (-1) \/
     exists v rw, seq2id s (off i + j) kl = Some v /\ bits !! i = Some rw /\
       get_bit rw v = Some false).
Proof.
  induction n as [|n IH]; intros r E.
  { simpl in E. injection E as <-. right. right. split; [reflexivity|].
    intros i kl j Hi. lia. }
  simpl in E. destruct (klen !! n) as [kl|] eqn:Ekl; [|discriminate].
  replace (off (S n) - kl) with (off n) in E
    by (rewrite (zsum_drop_S _ _ _ Ekl); lia).
  destruct (lut_search_window _ _ _ _ _) as [w|] eqn:Ew; [|discriminate].
  apply lut_search_window_inv in Ew.
  destruct Ew as [(-> & j & v & rw & Hj & Hr & Ev & Hb)
                 |[(-> & j & Hj & Ev)|(-> & Hall)]].
  - injection E as <-. left. split; [reflexivity|].
    exists n, kl, (j - width n), v, rw.
    replace (off n + (j - width n)) with (off n - width n + j) by lia.
    repeat split; try assumption; lia.
  - injection E as <-. right. left. split; [reflexivity|].
    exists n, kl, (j - width n).
    replace (off n + (j - width n)) with (off n - width n + j) by lia.
    repeat split; try assumption; lia.
  - destruct (IH _ E) as [(-> & i & kl' & j & v & rw & Hi & H)
                         |[(-> & i & kl' & j & Hi & H)|(-> & Hrest)]].
    + left. split; [reflexivity|]. exists i, kl', j, v, rw.
      split; [lia|exact H].
    + right. left. split; [reflexivity|]. exists i, kl', j.
      split; [lia|exact H].
    + right. right. split; [reflexivity|]. intros i kl' j Hi Ei Hj.
      destruct (decide (i = n)) as [->|Hne].
      * assert (kl' = kl) as -> by congruence.
        specialize (Hall (j + width n) ltac:(lia)).
        replace (off n - width n + (j + width n)) with (off n + j) in Hall
          by lia.
        exact Hall.
      * apply Hrest; [lia|assumption|assumption].
Qed.

End SearchInv.

Lemma lut_search_inv L s r :
  lut_kmers L = Z.of_nat (length (lut_klen L)) ->
  lut_search L s = Some r ->
  (r = 1 /\
   exists i kl j v rw, probe_of L i kl j /\ lut_bits L !! i = Some rw /\
     seq2id s (kmer_offset L i + j) kl = Some v /\ get_bit rw v = Some true) \/
  (r = -1 /\
   exists i kl j, probe_of L i kl j /\
     seq2id s (kmer_offset L i + j) kl = Some (-2)) \/
  (r = 0 /\
   forall i kl j, probe_of L i kl j ->
     seq2id s (kmer_offset L i + j) kl = Some (-1) \/
     exists v rw, seq2id s (kmer_offset L i + j) kl = Some v /\
       lut_bits L !! i = Some rw /\ get_bit rw v = Some false).
Proof.
  intros Hk E. unfold lut_search in E.
  pose proof (lut_search_loop_inv s (lut_kmers L) (lut_slen L) (lut_klen L)
                (lut_bits L) (Z.to_nat (lut_kmers L)) r) as H.
  rewrite drop_ge, Z.sub_0_r in H by lia. apply H in E. clear H.
  unfold probe_of, kmer_offset.
  destruct E as [(-> & i & kl & j & v & rw & Hi & H1 & H2 & H3)
                |[(-> & i & kl & j & Hi & H1 & H2 & H3)|(-> & Hall)]].
  - left. split; [reflexivity|]. exists i, kl, j, v, rw. tauto.
  - right. left. split; [reflexivity|]. exists i, kl, j. tauto.
  - right. right. split; [reflexivity|]. intros i kl j [Ei Hj].
    apply Hall; try assumption. apply lookup_lt_Some in Ei. lia.
Qed.







(** X7: a filter as [new_lookup] makes it holds nothing: [lut_search]
    returns 0 for every C string of the length of the filter. *)
Theorem lut_search_fresh MAX_K slen maxlen tau b :
  0 <= tau -> 0 <= slen <= maxlen -> MAX_K <= 15 ->
  is_cstr b -> strlen b = maxlen ->
  lut_search (new_lookup MAX_K slen maxlen tau) b = Some 0.
Proof.
  intros Ht Hs HK Hb Hlen. subst maxlen.
  pose proof (new_lookup_wf MAX_K slen _ tau Ht Hs HK) as Hwf.
  pose proof (new_lookup_fits MAX_K slen _ tau Ht Hs) as Hfit.
  destruct (lut_search_total _ b Hwf Hfit Hb) as [E|E]; [exact E|exfalso].
  destruct Hwf as (Hk & _ & _).
  destruct (lut_search_inv _ b 1 Hk E)
    as [(_ & i & kl & j & v & rw & _ & Er & _ & Hbit)|[[? _]|[? _]]];
    try discriminate.
  simpl lut_bits in Er. apply list_lookup_fmap_Some in Er as (kl' & -> & _).
  exact (get_bit_zero _ _ Hbit).
Qed.

Lemma lut_search_fresh_witness :
  lut_search (new_lookup 14 4 4 1) ["A"; "C"; "G"; "T"]%char = Some 0.
Proof.
  apply (lut_search_fresh 14 4 4 1); [lia | lia | lia | | reflexivity].
  repeat constructor; discriminate.
Defined.

(** No bit is set in a filter that [new_lookup] has just made. *)
Lemma traced_new_lookup MAX_K slen maxlen tau :
  traced (new_lookup MAX_K slen maxlen tau) [].
Proof.
  intros i row v Er Hbit. exfalso. simpl lut_bits in Er.
  apply list_lookup_fmap_Some in Er as (kl & -> & _).
  exact (get_bit_zero _ _ Hbit).
Qed.

(** [lut_insert] sets bits of k-mers of the sequence inserted only. *)
Lemma traced_insert L s L' r l :
  lut_kmers L = Z.of_nat (length (lut_klen L)) ->
  lut_insert L s = Some (L', r) -> traced L l -> traced L' (l ++ [s]).
Proof.
  intros Hk E Htr.
  destruct (lut_insert_inv _ _ _ _ E) as (Hslen & Hkm & Hklen & Eloop).
  pose proof (lut_insert_loop_inv s (lut_slen L) (lut_klen L)
                (Z.to_nat (lut_kmers L)) (lut_bits L) (lut_bits L') r) as H.
  rewrite drop_ge, Z.sub_0_r in H by lia. specialize (H Eloop).
  destruct H as (_ & _ & Hsame & Heff & _).
  intros i row' v Er' Hbit.
  rewrite (kmer_offset_eq L L') by assumption. rewrite Hklen.
  assert (Hold : forall row, lut_bits L !! i = Some row ->
            get_bit row v = Some true ->
            exists a kl, a ∈ l ++ [s] /\ lut_klen L !! i = Some kl /\
              seq2id a (kmer_offset L i) kl = Some v).
  { intros row Er Hb. destruct (Htr i row v Er Hb) as (a & kl & Ha & H).
    exists a, kl. split; [apply elem_of_app; now left|exact H]. }
  destruct (decide (i < Z.to_nat (lut_kmers L))%nat) as [Hi|Hi].
  - destruct (lookup_lt_is_Some_2 (lut_klen L) i ltac:(lia)) as [kl Ekl].
    destruct (Heff i kl Hi Ekl) as [Hsame'|(v0 & r0 & Ev0 & Hv0 & Er0 & Eset & _)].
    + apply (Hold row'); [now rewrite <- Hsame'|exact Hbit].
    + rewrite Er' in Eset. symmetry in Eset.
      destruct (get_bit_set_bit_inv _ _ _ _ Hv0 Eset Hbit) as [->|Hb].
      * exists s, kl. split; [apply elem_of_app; right; left|].
        split; [exact Ekl|exact Ev0].
      * now apply (Hold r0).
  - apply (Hold row'); [|exact Hbit]. rewrite <- Hsame by lia. exact Er'.
Qed.

Lemma traced_insert_all l : forall L L' l0,
  lut_kmers L = Z.of_nat (length (lut_klen L)) ->
  lut_insert_all L l = Some L' -> traced L l0 ->
  traced L' (l0 ++ l) /\ lut_kmers L' = Z.of_nat (length (lut_klen L')).
Proof.
  induction l as [|s l IH]; intros L L' l0 Hk E Htr.
  - simpl in E. injection E as <-. now rewrite app_nil_r.
  - simpl in E. destruct (lut_insert L s) as [[L1 r]|] eqn:E1; [|discriminate].
    destruct (Z.eq_dec r 0) as [->|Hr];
      [|destruct r as [|r|r]; try discriminate; congruence].
    destruct (lut_insert_inv _ _ _ _ E1) as (_ & Hkm & Hklen & _).
    rewrite (cons_middle s l0 l), app_assoc.
    apply (IH L1); [congruence|exact E|].
    now apply (traced_insert L s L1 0).
Qed.

(** X8: in a filter filled by [lut_insert] from a fresh one, [lut_search]
    answers 1 only for a string that holds, at one of its probes, a k-mer
    with the identifier of the k-mer of the same index of an inserted
    sequence. *)
Theorem lut_search_positive MAX_K slen maxlen tau l L b :
  0 <= tau ->
  lut_insert_all (new_lookup MAX_K slen maxlen tau) l = Some L ->
  lut_search L b = Some 1 ->
  exists a i kl j v, a ∈ l /\ probe_of L i kl j /\ 0 <= v /\
    seq2id a (kmer_offset L i) kl = Some v /\
    seq2id b (kmer_offset L i + j) kl = Some v.
Proof.
  intros Ht Eall E.
  destruct (traced_insert_all l (new_lookup MAX_K slen maxlen tau) L [])
    as [Htr Hk]; [|exact Eall|apply traced_new_lookup|].
  { rewrite new_lookup_klen_length by lia. simpl. lia. }
  rewrite app_nil_l in Htr.
  destruct (lut_search_inv L b 1 Hk E)
    as [(_ & i & kl & j & v & rw & Hp & Er & Ev & Hbit)|[[? _]|[? _]]];
    try discriminate.
  destruct (Htr i rw v Er Hbit) as (a & kl' & Ha & Ekl & Eva).
  destruct Hp as [Ekl2 Hj]. assert (kl' = kl) as -> by congruence.
  exists a, i, kl, j, v. split; [exact Ha|]. split; [now split|].
  split; [exact (get_bit_nonneg _ _ _ Hbit)|]. now split.
Qed.

Lemma lut_search_positive_witness :
  exists L,
    lut_insert_all (new_lookup 14 4 4 1) [["A"; "C"; "G"; "T"]%char] = Some L /\
    lut_search L ["A"; "C"; "C"; "T"]%char = Some 1 /\
    exists a i kl j v, a ∈ [["A"; "C"; "G"; "T"]%char] /\
      probe_of L i kl j /\ 0 <= v /\
      seq2id a (kmer_offset L i) kl = Some v /\
      seq2id ["A"; "C"; "C"; "T"]%char (kmer_offset L i + j) kl = Some v.
Proof.
  eexists. split; [vm_compute; reflexivity|].
  split; [vm_compute; reflexivity|].
  apply (lut_search_positive 14 4 4 1);
    [lia | vm_compute; reflexivity | vm_compute; reflexivity].
Defined.

Section ShortSequences.

Variables (MAX_K slen maxlen tau : Z).
Hypothesis slen_short : 0 <= slen <= tau.
Hypothesis slen_le : slen <= maxlen.
Hypothesis MAX_K_range : 0 <= MAX_K <= 15.

(** With a median length of at most [tau] no k-mer has a byte. *)
Lemma new_lookup_short_klen i kl :
  lut_klen (new_lookup MAX_K slen maxlen tau) !! i = Some kl -> kl <= 0.
Proof using slen_short slen_le MAX_K_range.
  intros E.
  apply (new_lookup_klen_lookup MAX_K slen maxlen tau) in E; [|lia|lia].
  destruct E as [_ ->]. rewrite Z.div_small by lia.
  destruct (Z.gtb_spec 0 MAX_K); [lia|]. destruct (_ <? _); lia.
Qed.

Local Abbreviation short L :=
  (lut_wf L /\ lut_kmers L = tau + 1 /\
   forall i kl, lut_klen L !! i = Some kl -> kl <= 0).

Local Abbreviation last_set L :=
  (exists rw, lut_bits L !! Z.to_nat tau = Some rw /\
     get_bit rw 0 = Some true).

Lemma short_insert L s :
  short L -> is_cstr s ->
  exists L', lut_insert L s = Some (L', 0) /\ short L' /\ last_set L'.
Proof using slen_short.
  intros (Hwf & Hkm & Hkl) Hs.
  assert (Hin : lut_starts_in L (strlen s)).
  { intros i kl Ei Hk. specialize (Hkl i kl Ei). lia. }
  destruct (lut_insert_effect L s Hwf Hs Hin)
    as (L' & r & E & Hr & Hklen & Hwf' & _).
  assert (r = 0) as ->.
  { apply (lut_insert_complete L s L' r Hwf Hs Hin E Hr).
    intros i kl Ei Hk. specialize (Hkl i kl Ei). lia. }
  destruct (lut_insert_inv _ _ _ _ E) as (_ & Hkm' & _ & _).
  exists L'. split; [exact E|]. split.
  - split; [exact Hwf'|]. split; [congruence|]. now rewrite Hklen.
  - pose proof Hwf as (Hk & _ & _).
    destruct (lookup_lt_is_Some_2 (lut_klen L) (Z.to_nat tau) ltac:(lia))
      as [kl Ekl].
    pose proof (Hkl _ _ Ekl) as Hle.
    destruct (lut_insert_sets L s L' (Z.to_nat tau) kl Hwf Hs Hin E Ekl)
      as (v & row & row' & Ev & Hv & _ & Eset & Er'); [lia| |].
    { now apply all_bases_nil_substr. }
    rewrite seq2id_nonpos in Ev by exact Hle. injection Ev as <-.
    exists row'. split; [exact Er'|]. now apply (get_bit_set_bit row).
Qed.

Lemma short_insert_all l : forall L,
  short L -> Forall is_cstr l -> l <> [] \/ last_set L ->
  exists L', lut_insert_all L l = Some L' /\ short L' /\ last_set L'.
Proof using slen_short.
  induction l as [|s l IH]; intros L Hsh Hl Hne.
  - destruct Hne as [Hne|Hset]; [congruence|]. exists L.
    split; [reflexivity|]. split; assumption.
  - apply Forall_cons in Hl as [Hs Hl].
    destruct (short_insert L s Hsh Hs) as (L1 & E1 & Hsh1 & Hset1).
    simpl. rewrite E1. apply IH; [exact Hsh1|exact Hl|now right].
Qed.

Lemma short_search L b :
  short L -> last_set L -> lut_search L b = Some 1.
Proof using slen_short.
  intros (Hwf & Hkm & Hkl) (rw & Erw & Hbit). pose proof Hwf as (Hk & _ & _).
  destruct (lookup_lt_is_Some_2 (lut_klen L) (Z.to_nat tau) ltac:(lia))
    as [kl Ekl].
  pose proof (Hkl _ _ Ekl) as Hle.
  unfold lut_search. rewrite Hkm.
  replace (Z.to_nat (tau + 1)) with (S (Z.to_nat tau)) by lia.
  simpl. rewrite Ekl, Erw.
  replace (Z.to_nat (2 * (tau + 1 - 1 - Z.of_nat (Z.to_nat tau)) + 1))
    with 1%nat by lia.
  simpl. rewrite seq2id_nonpos by exact Hle. simpl. now rewrite Hbit.
Qed.

End ShortSequences.

(** Insertions leave the lengths of the k-mers as they are. *)
Lemma lut_insert_all_klen l : forall L L',
  lut_insert_all L l = Some L' -> lut_klen L' = lut_klen L.
Proof.
  induction l as [|s l IH]; intros L L' E; simpl in E.
  - now injection E as <-.
  - destruct (lut_insert L s) as [[L1 r]|] eqn:E1; [|discriminate E].
    apply lut_insert_inv in E1 as (_ & _ & Hk & _).
    destruct r; try discriminate E. rewrite (IH _ _ E). exact Hk.
Qed.

(** X9: when the median length [slen] is at most [tau] (with [slen <=
    maxlen] and [0 <= MAX_K_FOR_LOOKUP <= 15]) every k-mer has the length 0
    or -1 and so no byte: every insertion succeeds and leaves the lengths as
    they are, and once a sequence is inserted [lut_search] answers 1 for
    every query, so the filter lets every query through. *)
Theorem lut_short_median MAX_K slen maxlen tau l b :
  0 <= slen <= tau -> slen <= maxlen -> 0 <= MAX_K <= 15 ->
  Forall is_cstr l -> l <> [] ->
  (forall i kl,
     lut_klen (new_lookup MAX_K slen maxlen tau) !! i = Some kl ->
     kl = 0 \/ kl = -1) /\
  exists L, lut_insert_all (new_lookup MAX_K slen maxlen tau) l = Some L /\
    lut_klen L = lut_klen (new_lookup MAX_K slen maxlen tau) /\
    lut_search L b = Some 1.
Proof.
  intros Hs Hm HK Hl Hne. split.
  { intros i kl E.
    apply (new_lookup_klen_lookup MAX_K slen maxlen tau) in E; [|lia|lia].
    destruct E as [_ ->]. rewrite Z.div_small by lia.
    destruct (Z.gtb_spec 0 MAX_K); [lia|]. destruct (_ <? _); lia. }
  destruct (short_insert_all slen tau Hs l (new_lookup MAX_K slen maxlen tau))
    as (L & E & Hsh & Hset); [|exact Hl|now left|].
  - split; [apply new_lookup_wf; lia|]. split; [reflexivity|].
    apply new_lookup_short_klen; assumption.
  - exists L. split; [exact E|]. split.
    + exact (lut_insert_all_klen _ _ _ E).
    + now apply (short_search slen tau Hs).
Qed.

Lemma lut_short_median_witness :
  lut_klen (new_lookup 14 1 4 2) = [-1; 0; 0] /\
  exists L,
    lut_insert_all (new_lookup 14 1 4 2) [["A"; "C"; "G"; "T"]%char] = Some L /\
    lut_klen L = lut_klen (new_lookup 14 1 4 2) /\
    lut_search L ["T"; "T"; "T"; "T"]%char = Some 1.
Proof.
  split; [reflexivity|].
  apply (lut_short_median 14 1 4 2); [lia | lia | lia | | discriminate].
  repeat constructor; discriminate.
Defined.

(** X10: the k-mers of a fresh filter follow one another and end at the end
    of the sequence; they start at byte [maxlen - (slen - tau)] when
    [slen / (tau + 1) <= MAX_K_FOR_LOOKUP] and at byte
    [maxlen - (tau + 1) * MAX_K_FOR_LOOKUP] otherwise. *)
Theorem new_lookup_reach MAX_K slen maxlen tau :
  0 <= tau -> 0 <= slen <= maxlen ->
  let L := new_lookup MAX_K slen maxlen tau in
  kmer_offset L (Z.to_nat (tau + 1)) = maxlen /\
  (forall i kl, lut_klen L !! i = Some kl ->
     kmer_offset L (S i) = kmer_offset L i + kl) /\
  (slen / (tau + 1) <= MAX_K -> kmer_offset L 0 = maxlen - (slen - tau)) /\
  (MAX_K < slen / (tau + 1) ->
   kmer_offset L 0 = maxlen - (tau + 1) * MAX_K).
Proof.
  intros Ht Hs L.
  pose proof (Z.mod_pos_bound slen (tau + 1) ltac:(lia)) as Hr.
  pose proof (Z.div_mod slen (tau + 1) ltac:(lia)) as Hdm.
  split; [|split; [|split]].
  - unfold kmer_offset. rewrite drop_ge; [simpl; lia|].
    subst L. rewrite new_lookup_klen_length by lia. lia.
  - intros i kl Ei. unfold kmer_offset.
    rewrite (zsum_drop_S _ _ _ Ei). lia.
  - intros Hk. subst L. rewrite new_lookup_offset by lia.
    destruct (Z.gtb_spec (slen / (tau + 1)) MAX_K); [lia|].
    rewrite Z.max_r by lia. simpl. nia.
  - intros Hk. subst L. rewrite new_lookup_offset by lia.
    destruct (Z.gtb_spec (slen / (tau + 1)) MAX_K); [|lia]. simpl. lia.
Qed.

Lemma new_lookup_reach_witness :
  kmer_offset (new_lookup 14 4 4 1) 2 = 4 /\
  kmer_offset (new_lookup 14 4 4 1) 0 = 1.
Proof.
  destruct (new_lookup_reach 14 4 4 1 ltac:(lia) ltac:(lia))
    as (H1 & _ & H3 & _).
  split; [exact H1|]. apply H3. vm_compute. discriminate.
Defined.

(* ================================================================= *)
(** ** [pad_useq] and [unpad_useq] *)

Lemma pad_useq_inv items maxlen median items' :
  pad_useq items = Some (maxlen, median, items') ->
  items <> [] /\ maxlen = pad_maxlen items /\
  items' = pad_seq maxlen <$> items.
Proof.
  unfold pad_useq. intros E.
  destruct (median_loop _ _ _ _) as [m|] eqn:Em; [|discriminate].
  injection E as <- <- <-. split; [|now split].
  intros ->. discriminate Em.
Qed.

Lemma pad_seq_seq maxlen u :
  useq_seq (pad_seq maxlen u)
  = replicate (Z.to_nat (maxlen - strlen (useq_seq u))) " "%char
      ++ useq_seq u.
Proof.
  unfold pad_seq.
  destruct (Z.eqb_spec (strlen (useq_seq u)) maxlen) as [->|Hne];
    [|reflexivity].
  now rewrite Z.sub_diag.
Qed.

Lemma pad_seq_fields maxlen u :
  useq_count (pad_seq maxlen u) = useq_count u /\
  useq_info (pad_seq maxlen u) = useq_info u.
Proof. unfold pad_seq. now destruct (_ =? _). Qed.

Lemma unpad_spaces n s :
  no_leading_space s -> unpad (replicate n " "%char ++ s) = s.
Proof.
  intros Hs. induction n as [|n IH]; simpl; [|exact IH].
  destruct s as [|c s]; [reflexivity|]. simpl.
  destruct (Ascii.eqb_spec c " "%char) as [->|Hne]; [|reflexivity].
  now contradiction Hs.
Qed.

(** X11: [pad_useq] keeps the records, their order, counts and info; every
    sequence gets [maxlen - len] spaces in front and has length [maxlen]
    afterwards, and a C string stays one. *)
Theorem pad_useq_padded items maxlen median items' :
  pad_useq items = Some (maxlen, median, items') ->
  length items' = length items /\
  forall k u, items !! k = Some u ->
    exists u', items' !! k = Some u' /\
      useq_seq u'
      = replicate (Z.to_nat (maxlen - strlen (useq_seq u))) " "%char
          ++ useq_seq u /\
      strlen (useq_seq u') = maxlen /\
      useq_count u' = useq_count u /\ useq_info u' = useq_info u /\
      (is_cstr (useq_seq u) -> is_cstr (useq_seq u')).
Proof.
  intros E. destruct (pad_useq_inv _ _ _ _ E) as (Hne & -> & ->).
  split; [apply length_fmap|]. intros k u Hk.
  exists (pad_seq (pad_maxlen items) u).
  split; [now rewrite list_lookup_fmap, Hk|].
  split; [apply pad_seq_seq|].
  destruct (pad_maxlen_spec items) as (_ & Hmax & _).
  split; [apply pad_seq_length, Hmax; eapply list_elem_of_lookup_2, Hk|].
  destruct (pad_seq_fields (pad_maxlen items) u) as [-> ->].
  split; [reflexivity|]. split; [reflexivity|].
  intros Hc. rewrite pad_seq_seq. apply Forall_app. split; [|exact Hc].
  apply Forall_replicate. discriminate.
Qed.

Lemma unpad_pad_seq maxlen u :
  strlen (useq_seq u) <= maxlen -> no_leading_space (useq_seq u) ->
  unpad_seq maxlen (pad_seq maxlen u) = Some u.
Proof.
  intros Hle Hs. unfold unpad_seq.
  rewrite pad_seq_length by exact Hle. rewrite Z.eqb_refl.
  destruct (pad_seq_fields maxlen u) as [-> ->].
  rewrite pad_seq_seq, unpad_spaces by exact Hs. now destruct u.
Qed.

(** X12: [unpad_useq] undoes [pad_useq] on sequences that do not start with
    a space: the stack is back; the sequence that [do_query] prints for a
    padded record is the original one; and distinct sequences stay distinct
    under padding. *)
Theorem unpad_pad_useq items maxlen median items' :
  pad_useq items = Some (maxlen, median, items') ->
  (forall u, u ∈ items -> no_leading_space (useq_seq u)) ->
  unpad_useq items' = Some items /\
  (forall k u u', items !! k = Some u -> items' !! k = Some u' ->
     unpad (useq_seq u') = useq_seq u) /\
  (NoDup (useq_seq <$> items) -> NoDup (useq_seq <$> items')).
Proof.
  intros E Hsp. destruct (pad_useq_inv _ _ _ _ E) as (Hne & -> & ->).
  destruct (pad_maxlen_spec items) as (_ & Hmax & _).
  set (m := pad_maxlen items) in *.
  assert (Hall : mapM (unpad_seq m) (pad_seq m <$> items) = Some items).
  { apply mapM_Some. apply Forall2_fmap_l, Forall_Forall2_diag, Forall_forall.
    intros u Hu. apply unpad_pad_seq; [now apply Hmax|now apply Hsp]. }
  split; [|split].
  - destruct items as [|u0 items]; [congruence|].
    unfold unpad_useq. rewrite fmap_cons.
    rewrite pad_seq_length by (apply Hmax; left). exact Hall.
  - intros k u u' Hk Hk'. rewrite list_lookup_fmap, Hk in Hk'.
    injection Hk' as <-. rewrite pad_seq_seq. apply unpad_spaces, Hsp.
    eapply list_elem_of_lookup_2, Hk.
  - intros Hnd. rewrite <- list_fmap_compose.
    apply NoDup_fmap_2_strong; [|eapply NoDup_fmap_1, Hnd].
    intros u v Hu Hv Euv. simpl in Euv.
    assert (Es : useq_seq u = useq_seq v).
    { rewrite <- (unpad_spaces (Z.to_nat (m - strlen (useq_seq u)))
                    (useq_seq u)) by now apply Hsp.
      rewrite <- (unpad_spaces (Z.to_nat (m - strlen (useq_seq v)))
                    (useq_seq v)) by now apply Hsp.
      rewrite <- !pad_seq_seq. now rewrite Euv. }
    destruct (list_elem_of_lookup_1 _ _ Hu) as [i Hi].
    destruct (list_elem_of_lookup_1 _ _ Hv) as [j Hj].
    assert (i = j).
    { apply (NoDup_lookup _ i j (useq_seq u) Hnd);
        rewrite list_lookup_fmap; [now rewrite Hi|now rewrite Hj, Es]. }
    subst j. congruence.
Qed.

Lemma lex_lt_app p a b : lex_lt a b -> lex_lt (p ++ a) (p ++ b).
Proof. intros H. induction p as [|x p IH]; [exact H|now apply lex_lt_tail]. Qed.

(** Padding turns the order by length, then by bytes, into the order by
    bytes. *)
Lemma pad_seq_lt m a b :
  (length a <= m)%nat -> (length b <= m)%nat -> above_space b ->
  seq_lt a b ->
  lex_lt (replicate (m - length a) " "%char ++ a)
         (replicate (m - length b) " "%char ++ b).
Proof.
  intros Ha Hb Hsb [Hlt|[Hlen Hlex]].
  - unfold strlen in Hlt.
    replace (m - length a)%nat
      with ((m - length b) + (length b - length a))%nat by lia.
    rewrite replicate_add, <- app_assoc. apply lex_lt_app.
    destruct b as [|y b]; [simpl in Hlt; lia|].
    apply Forall_cons in Hsb as [Hy _].
    destruct (length (y :: b) - length a)%nat as [|n] eqn:E; [lia|].
    simpl. now apply lex_lt_head.
  - unfold strlen in Hlen.
    replace (length a) with (length b) by lia. now apply lex_lt_app.
Qed.

Lemma StronglySorted_fmap {A B} (R : A -> A -> Prop) (R' : B -> B -> Prop)
    (f : A -> B) l :
  (forall x y, x ∈ l -> y ∈ l -> R x y -> R' (f x) (f y)) ->
  StronglySorted R l -> StronglySorted R' (f <$> l).
Proof.
  intros Hf Hs. induction Hs as [|x l Hs IH Hx]; [constructor|].
  rewrite fmap_cons. constructor.
  - apply IH. intros a b Ha Hb. apply Hf; now right.
  - apply Forall_fmap, Forall_forall. intros y Hy. simpl.
    apply Hf; [left|now right|].
    rewrite Forall_forall in Hx. now apply Hx.
Qed.

Lemma pad_seq_sorted m items :
  (forall u, u ∈ items -> strlen (useq_seq u) <= m) ->
  sorted_seqs items ->
  (forall u, u ∈ items -> above_space (useq_seq u)) ->
  StronglySorted lex_lt (useq_seq <$> (pad_seq m <$> items)).
Proof.
  intros Hmax Hs Hsp. rewrite <- list_fmap_compose.
  assert (Hf : (useq_seq ∘ pad_seq m) <$> items
               = (fun s => replicate (Z.to_nat m - length s) " "%char ++ s)
                 <$> (useq_seq <$> items)).
  { rewrite <- list_fmap_compose. apply list_fmap_ext. intros k u Hk.
    simpl. rewrite pad_seq_seq. f_equal. f_equal. unfold strlen. lia. }
  rewrite Hf. unfold sorted_seqs in Hs.
  eapply StronglySorted_fmap; [|exact Hs].
  intros a b Ha Hb Hab.
  apply list_elem_of_fmap in Ha as (u & -> & Hu).
  apply list_elem_of_fmap in Hb as (v & -> & Hv).
  pose proof (Hmax u Hu). pose proof (Hmax v Hv). unfold strlen in *.
  apply pad_seq_lt; [lia|lia|now apply Hsp|exact Hab].
Qed.

(** X13: a stack sorted by length, then bytes, as [seqsort] leaves it, whose
    bytes are all above the space, is in increasing byte order once
    padded. *)
Theorem pad_useq_sorted items maxlen median items' :
  pad_useq items = Some (maxlen, median, items') ->
  sorted_seqs items ->
  (forall u, u ∈ items -> above_space (useq_seq u)) ->
  StronglySorted lex_lt (useq_seq <$> items').
Proof.
  intros E Hs Hsp. destruct (pad_useq_inv _ _ _ _ E) as (Hne & -> & ->).
  destruct (pad_maxlen_spec items) as (_ & Hmax & _).
  now apply pad_seq_sorted.
Qed.

Lemma pad_useq_padded_witness :
  exists items',
    pad_useq [mk_useq ["A"; "C"]%char 1 None;
              mk_useq ["A"; "C"; "G"]%char 2 None] = Some (3, 2, items') /\
    length items' = 2%nat.
Proof.
  eexists. split; [reflexivity|].
  destruct (pad_useq_padded [mk_useq ["A"; "C"]%char 1 None;
                             mk_useq ["A"; "C"; "G"]%char 2 None]
              3 2 _ eq_refl) as [H _].
  exact H.
Defined.

Lemma unpad_pad_useq_witness :
  unpad_useq [mk_useq [" "; "A"; "C"]%char 1 None;
              mk_useq ["A"; "C"; "G"]%char 2 None]
  = Some [mk_useq ["A"; "C"]%char 1 None;
          mk_useq ["A"; "C"; "G"]%char 2 None].
Proof.
  destruct (unpad_pad_useq [mk_useq ["A"; "C"]%char 1 None;
                            mk_useq ["A"; "C"; "G"]%char 2 None]
              3 2 _ eq_refl) as [H _]; [|exact H].
  intros u Hu. rewrite !elem_of_cons in Hu.
  destruct Hu as [->|[->|Hu]]; [discriminate..|]. inversion Hu.
Defined.

Lemma pad_useq_sorted_witness :
  StronglySorted lex_lt [[" "; "A"; "C"]; ["A"; "C"; "G"]]%char.
Proof.
  apply (pad_useq_sorted [mk_useq ["A"; "C"]%char 1 None;
                          mk_useq ["A"; "C"; "G"]%char 2 None]
           3 2 _ eq_refl).
  - apply SSorted_cons; [apply SSorted_cons;
      [apply SSorted_nil|apply List.Forall_nil]|].
    apply List.Forall_cons; [|apply List.Forall_nil].
    left. unfold strlen. simpl. lia.
  - intros u Hu. rewrite !elem_of_cons in Hu.
    destruct Hu as [->|[->|Hu]]; [| |inversion Hu].
    + repeat constructor; vm_compute; lia.
    + repeat constructor; vm_compute; lia.
Defined.

(* ================================================================= *)
(** ** The median loop of [pad_useq] in general *)

Lemma count_le_0 items : count_le items 0 = count_eq items 0.
Proof.
  induction items as [|x items IH]; [reflexivity|].
  rewrite count_le_cons, count_eq_cons, IH.
  pose proof (strlen_nonneg (useq_seq x)).
  repeat destruct (decide _); lia.
Qed.

Lemma count_le_mono items l l' : l <= l' -> count_le items l <= count_le items l'.
Proof.
  intros H. induction items as [|x items IH]; [reflexivity|].
  rewrite !count_le_cons. repeat destruct (decide _); lia.
Qed.

Lemma count_eq_nonneg items l : 0 <= count_eq items l.
Proof. unfold count_eq. lia. Qed.

Lemma count_upto_succ items l :
  count_upto items (l + 1) = count_upto items l + count_eq items (l + 1).
Proof. unfold count_upto. rewrite count_le_succ. lia. Qed.

Lemma count_upto_max items l :
  (forall u, u ∈ items -> strlen (useq_seq u) <= l) ->
  count_upto items l = Z.of_nat (length items) - count_eq items 0.
Proof. intros H. unfold count_upto. now rewrite count_le_all. Qed.

Lemma pad_count_length maxlen items :
  length (pad_count maxlen items) = Z.to_nat (maxlen + 1).
Proof.
  unfold pad_count.
  assert (H : forall count : list Z,
            length (fold_left (fun (count : list Z) u =>
                      alter Z.succ (Z.to_nat (strlen (useq_seq u))) count)
                      items count) = length count).
  { induction items as [|x items IH]; intros count; [reflexivity|].
    simpl. now rewrite IH, length_alter. }
  now rewrite H, length_replicate.
Qed.

Lemma pad_count_lookup maxlen items l :
  (l <= Z.to_nat maxlen)%nat -> 0 <= maxlen ->
  pad_count maxlen items !! l = Some (count_eq items (Z.of_nat l)).
Proof.
  intros Hl Hm. unfold pad_count.
  rewrite (pad_count_fold items _ l 0); [f_equal; lia|].
  apply lookup_replicate. split; [reflexivity|lia].
Qed.

(** The loop that computes the median, whatever the lengths are. *)
Lemma median_loop_gen items count maxlen half n : forall m ccount,
  0 <= maxlen -> length count = Z.to_nat (maxlen + 1) ->
  (forall l, (l <= Z.to_nat maxlen)%nat ->
     count !! l = Some (count_eq items (Z.of_nat l))) ->
  0 <= m -> m + Z.of_nat n = maxlen ->
  ccount = count_upto items m ->
  (forall L', 1 <= L' <= m -> count_upto items L' < half) ->
  match median_loop (drop (S (Z.to_nat m)) count) m ccount half with
  | Some median =>
      m < median <= maxlen /\ half <= count_upto items median /\
      (forall L', 1 <= L' < median -> count_upto items L' < half)
  | None => forall L', 1 <= L' <= maxlen -> count_upto items L' < half
  end.
Proof.
  induction n as [|n IH]; intros m ccount Hmax Hlen Hcount Hm Hn Hcc Hprev.
  - rewrite drop_ge by lia. simpl. intros L' HL'. apply Hprev. lia.
  - pose proof (Hcount (S (Z.to_nat m)) ltac:(lia)) as Ec.
    rewrite (drop_S _ _ _ Ec). simpl median_loop.
    replace (Z.of_nat (S (Z.to_nat m))) with (m + 1) in * by lia.
    assert (Ecc : ccount + count_eq items (m + 1) = count_upto items (m + 1)).
    { rewrite count_upto_succ. lia. }
    rewrite Ecc.
    destruct (Z.ltb_spec (count_upto items (m + 1)) half) as [Hlt|Hge].
    + replace (S (S (Z.to_nat m))) with (S (Z.to_nat (m + 1))) by lia.
      specialize (IH (m + 1) (count_upto items (m + 1)) Hmax Hlen Hcount
                    ltac:(lia) ltac:(lia) eq_refl).
      assert (Hprev' : forall L', 1 <= L' <= m + 1 ->
                         count_upto items L' < half).
      { intros L' HL'.
        destruct (Z.eq_dec L' (m + 1)) as [->|Hne]; [exact Hlt|].
        apply Hprev. lia. }
      specialize (IH Hprev').
      destruct (median_loop _ _ _ _) as [median|]; [|exact IH].
      destruct IH as (H1 & H2 & H3). split; [lia|]. now split.
    + split; [lia|]. split; [lia|]. intros L' HL'. apply Hprev. lia.
Qed.

(** X14: the median loop of [pad_useq] reads past the bins exactly when every
    sequence is empty or fewer than [nitems / 2] sequences are not empty;
    otherwise the median is between 1 and [maxlen] and is the smallest
    length [L] such that at least [nitems / 2] records have a sequence of
    a length between 1 and [L]. *)
Theorem pad_useq_bins items :
  let half := Z.of_nat (length items) / 2 in
  (pad_useq items = None <->
   (forall u, u ∈ items -> useq_seq u = []) \/
   Z.of_nat (length items) - count_eq items 0 < half) /\
  (forall maxlen median items',
     pad_useq items = Some (maxlen, median, items') ->
     1 <= median <= maxlen /\ half <= count_upto items median /\
     (forall L', 1 <= L' < median -> count_upto items L' < half)).
Proof.
  intros half.
  destruct (pad_maxlen_spec items) as (Hm0 & Hmax & Hex).
  set (maxlen := pad_maxlen items) in *.
  assert (Hq : Z.quot (Z.of_nat (length items)) 2 = half)
    by (apply Z.quot_div_nonneg; lia).
  pose proof (median_loop_gen items (pad_count maxlen items) maxlen half
                (Z.to_nat maxlen) 0 0 Hm0 (pad_count_length _ _)
                (fun l Hl => pad_count_lookup maxlen items l Hl Hm0)
                ltac:(lia) ltac:(lia)) as Hloop.
  assert (E0 : 0 = count_upto items 0).
  { unfold count_upto. rewrite count_le_0. lia. }
  specialize (Hloop E0 ltac:(intros; lia)).
  change (Z.to_nat 0) with 0%nat in Hloop.
  assert (Hup : forall L', count_upto items L'
                           <= Z.of_nat (length items) - count_eq items 0).
  { intros L'. rewrite <- (count_upto_max items (Z.max L' maxlen)).
    - unfold count_upto. pose proof (count_le_mono items L' (Z.max L' maxlen)).
      lia.
    - intros u Hu. specialize (Hmax u Hu). lia. }
  unfold pad_useq. fold maxlen. rewrite Hq.
  destruct (median_loop _ _ _ _) as [median|] eqn:Em.
  - destruct Hloop as (H1 & H2 & H3). split.
    + split; [discriminate|]. intros [Hall|Hlt]; exfalso.
      * destruct items as [|x items].
        { unfold maxlen, pad_maxlen in H1. simpl in H1. lia. }
        destruct (Hex ltac:(discriminate)) as (u & Hu & Elen).
        rewrite (Hall u Hu) in Elen. change (strlen []) with 0 in Elen. lia.
      * specialize (Hup median). lia.
    + intros ? ? ? [= <- <- <-]. split; [lia|]. now split.
  - split; [|discriminate]. split; [|reflexivity]. intros _.
    destruct (Z.eq_dec maxlen 0) as [Ez|Hnz].
    + left. intros u Hu. specialize (Hmax u Hu).
      unfold strlen in Hmax. destruct (useq_seq u); [reflexivity|].
      simpl in Hmax. lia.
    + right. rewrite <- (count_upto_max items maxlen Hmax).
      apply Hloop. lia.
Qed.

Lemma pad_useq_bins_witness :
  1 <= 2 <= 3 /\
  1 <= count_upto [mk_useq ["A"; "C"]%char 1 None;
                   mk_useq ["A"; "C"; "G"]%char 2 None] 2.
Proof.
  destruct (pad_useq_bins [mk_useq ["A"; "C"]%char 1 None;
                           mk_useq ["A"; "C"; "G"]%char 2 None]) as [_ H].
  destruct (H 3 2 _ eq_refl) as (H1 & H2 & _).
  split; [exact H1|exact H2].
Defined.

(* ================================================================= *)
(** ** The effects of [do_query] *)

Section DoQueryEffects.

Variable trie : Type.
Variable insert_string_wo_malloc : trie -> cstr -> option trie.
Variable set_data : trie -> useq -> trie.
Variable search : trie -> cstr -> Z -> Z -> Z -> option (Z -> list useq).
Variable pe_fastq : bool.
Variables (items : list useq) (job : mtjob).

Local Abbreviation step :=
  (do_query_step trie insert_string_wo_malloc set_data search pe_fastq
     job items).
Local Abbreviation loop :=
  (do_query_loop trie insert_string_wo_malloc set_data search pe_fastq
     job items).

(** A search changes neither the filter nor the trie. *)
Lemma do_query_search_frame i query st st' status :
  do_query_search trie search pe_fastq job items i query st = (st', status) ->
  dq_lut st' = dq_lut st /\ dq_trie st' = dq_trie st.
Proof.
  unfold do_query_search.
  destruct (if i <? job_end job then _ else _) as [trail|];
    [|intros [= <- _]; now split].
  destruct (match dq_last st with Some _ => _ | None => _ end) as [start|];
    [|intros [= <- _]; now split].
  destruct (search _ _ _ _ _); intros [= <- _]; now split.
Qed.



(** What a step of a build job that succeeds does to the filter and the
    trie. *)
Lemma do_query_step_build i st st' :
  job_build job = true -> step i st = (st', DQ_OK) ->
  exists query t',
    0 <= i /\ items !! Z.to_nat i = Some query /\
    lut_insert (dq_lut st) (useq_seq query) = Some (dq_lut st', 0) /\
    insert_string_wo_malloc (dq_trie st) (useq_seq query) = Some t' /\
    dq_trie st' = set_data t' query.
Proof.
  intros Hb. unfold do_query_step, do_query_build. rewrite Hb.
  destruct (Z.ltb_spec i 0); [discriminate|].
  destruct (items !! Z.to_nat i) as [query|]; [|discriminate].
  destruct (lut_search _ _) as [r|]; [|discriminate].
  destruct (lut_insert _ _) as [[lut' ret]|] eqn:Eins; [|discriminate].
  destruct (Z.eqb_spec ret 0) as [->|Hret]; [|discriminate].
  destruct (insert_string_wo_malloc _ _) as [t'|] eqn:Et; [|discriminate].
  intros E. exists query, t'.
  split; [lia|]. split; [reflexivity|].
  destruct (r =? 1).
  - destruct (do_query_search _ _ _ _ _ _ _ _) as [st2 s2] eqn:E2.
    apply do_query_search_frame in E2. simpl in E2. destruct E2 as [E2 E3].
    destruct s2; try discriminate. injection E as <-. simpl.
    rewrite E2, E3. now repeat split.
  - injection E as <-. simpl. now repeat split.
Qed.

Lemma do_query_loop_build n : forall i st st',
  job_build job = true -> 0 <= i ->
  loop (seqZ i (Z.of_nat n)) st = (st', DQ_OK) ->
  lut_insert_all (dq_lut st)
    (useq_seq <$> take n (drop (Z.to_nat i) items)) = Some (dq_lut st') /\
  trie_insert_all trie insert_string_wo_malloc set_data (dq_trie st)
    (take n (drop (Z.to_nat i) items)) = Some (dq_trie st') /\
  length (take n (drop (Z.to_nat i) items)) = n.
Proof.
  induction n as [|n IH]; intros i st st' Hb Hi E.
  - simpl in E. injection E as <-. simpl. now repeat split.
  - rewrite seqZ_cons in E by lia. simpl in E.
    destruct (step i st) as [st1 s1] eqn:E1.
    destruct s1; try discriminate.
    destruct (do_query_step_build _ _ _ Hb E1)
      as (query & t' & _ & Eq & Eins & Et & Etr).
    replace (Z.pred (Z.of_nat (S n))) with (Z.of_nat n) in E by lia.
    destruct (IH (Z.succ i) st1 st' Hb ltac:(lia) E) as (IH1 & IH2 & IH3).
    replace (Z.to_nat (Z.succ i)) with (S (Z.to_nat i)) in * by lia.
    rewrite (drop_S _ _ _ Eq). simpl.
    rewrite Eins, Et, <- Etr. split; [exact IH1|]. split; [exact IH2|].
    now rewrite IH3.
Qed.

(** Lines of a query: distances from 1 to [tau]. *)
Lemma do_query_lines_spec tau query hits a b d :
  (a, b, d) ∈ do_query_lines pe_fastq tau query hits ->
  1 <= d <= tau /\
  a = (if pe_fastq then useq_info query
       else Some (unpad (useq_seq query))) /\
  exists m, m ∈ hits d /\
    b = (if pe_fastq then useq_info m else Some (unpad (useq_seq m))).
Proof.
  unfold do_query_lines. rewrite list_elem_of_bind.
  intros (dist & Hin & Hd). apply elem_of_seqZ in Hd.
  apply list_elem_of_fmap in Hin as (m & E & Hm).
  destruct pe_fastq; injection E as -> -> ->;
    (split; [lia|]; split; [reflexivity|]; exists m; now split).
Qed.

Lemma do_query_step_out i st st' status a b d :
  step i st = (st', status) -> (a, b, d) ∈ dq_out st' ->
  (a, b, d) ∈ dq_out st \/
  (1 <= d <= job_tau job /\
   exists query, 0 <= i /\ items !! Z.to_nat i = Some query /\
     a = (if pe_fastq then useq_info query
          else Some (unpad (useq_seq query)))).
Proof.
  unfold do_query_step.
  destruct (Z.ltb_spec i 0); [intros [= <- _]; now left|].
  destruct (items !! Z.to_nat i) as [query|] eqn:Eq;
    [|intros [= <- _]; now left].
  destruct (lut_search _ _) as [r|]; [|intros [= <- _]; now left].
  destruct (do_query_build _ _ _ _ _) as [stb sb] eqn:Eb.
  assert (Hout : dq_out stb = dq_out st).
  { revert Eb. unfold do_query_build. destruct (job_build job);
      [|now intros [= <- _]].
    destruct (lut_insert _ _) as [[lut' ret]|]; [|now intros [= <- _]].
    destruct (ret =? 0); [|now intros [= <- _]].
    destruct (insert_string_wo_malloc _ _); now intros [= <- _]. }
  destruct sb; try (intros [= <- _]; rewrite Hout; now left).
  destruct (r =? 1).
  2:{ destruct (job_build job); intros [= <- _]; simpl; rewrite Hout;
        now left. }
  destruct (do_query_search _ _ _ _ _ _ _ _) as [st2 s2] eqn:E2.
  assert (Hout2 : (a, b, d) ∈ dq_out st2 ->
            (a, b, d) ∈ dq_out st \/
            (1 <= d <= job_tau job /\
             a = (if pe_fastq then useq_info query
                  else Some (unpad (useq_seq query))))).
  { revert E2. unfold do_query_search.
    destruct (if i <? job_end job then _ else _) as [trail|];
      [|intros [= <- _]; rewrite Hout; now left].
    destruct (match dq_last stb with Some _ => _ | None => _ end) as [start|];
      [|intros [= <- _]; rewrite Hout; now left].
    destruct (search _ _ _ _ _) as [hits|]; intros [= <- _]; simpl;
      rewrite Hout; [|now left].
    rewrite elem_of_app. intros [Hl|Hl]; [now left|right].
    apply do_query_lines_spec in Hl. tauto. }
  intros E Hin.
  assert (Hin2 : (a, b, d) ∈ dq_out st2).
  { destruct s2; try (injection E as <- _; exact Hin).
    destruct (job_build job); injection E as <- _; exact Hin. }
  destruct (Hout2 Hin2) as [Hl|[H1 H2]]; [now left|right].
  split; [exact H1|]. exists query. split; [lia|]. now split.
Qed.

Lemma do_query_loop_out n : forall i st st' status a b d,
  loop (seqZ i (Z.of_nat n)) st = (st', status) ->
  (a, b, d) ∈ dq_out st' ->
  (a, b, d) ∈ dq_out st \/
  (1 <= d <= job_tau job /\
   exists k query, i <= k < i + Z.of_nat n /\ 0 <= k /\
     items !! Z.to_nat k = Some query /\
     a = (if pe_fastq then useq_info query
          else Some (unpad (useq_seq query)))).
Proof.
  induction n as [|n IH]; intros i st st' status a b d E Hin.
  - simpl in E. injection E as <- _. now left.
  - rewrite seqZ_cons in E by lia. simpl in E.
    destruct (step i st) as [st1 s1] eqn:E1.
    replace (Z.pred (Z.of_nat (S n))) with (Z.of_nat n) in E by lia.
    assert (H1 : (a, b, d) ∈ dq_out st1 ->
              (a, b, d) ∈ dq_out st \/
              (1 <= d <= job_tau job /\
               exists k query, i <= k < i + Z.of_nat (S n) /\ 0 <= k /\
                 items !! Z.to_nat k = Some query /\
                 a = (if pe_fastq then useq_info query
                      else Some (unpad (useq_seq query))))).
    { intros H. destruct (do_query_step_out _ _ _ _ _ _ _ E1 H)
        as [H'|(Hd & query & Hi & Eq & Ea)]; [now left|right].
      split; [exact Hd|]. exists i, query. repeat split; try assumption; lia. }
    destruct s1; try (injection E as <- _; now apply H1).
    destruct (IH _ _ _ _ _ _ _ E Hin)
      as [H|(Hd & k & query & Hk & Hk0 & Eq & Ea)]; [now apply H1|right].
    split; [exact Hd|]. exists k, query. repeat split; try assumption; lia.
Qed.

End DoQueryEffects.



(** X16: a build job that completes has put every record of its block, in
    order, into the filter with [lut_insert] and into the trie with
    [insert_string_wo_malloc], the data pointer of each set before the next
    record is handled. *)
Theorem do_query_builds
    (trie : Type) (insert_string_wo_malloc : trie -> cstr -> option trie)
    (set_data : trie -> useq -> trie)
    (search : trie -> cstr -> Z -> Z -> Z -> option (Z -> list useq))
    (pe_fastq : bool) (items : list useq) (job : mtjob)
    (lut : lookup) (t : trie) (st' : dq_state trie) :
  job_build job = true -> 0 <= job_start job <= job_end job + 1 ->
  do_query trie insert_string_wo_malloc set_data search pe_fastq
    job items lut t = (st', DQ_OK) ->
  let blk := block items (job_start job) (job_end job + 1) in
  Z.of_nat (length blk) = job_end job + 1 - job_start job /\
  lut_insert_all lut (useq_seq <$> blk) = Some (dq_lut st') /\
  trie_insert_all trie insert_string_wo_malloc set_data t blk
  = Some (dq_trie st').
Proof.
  intros Hb Hr E blk. unfold do_query in E.
  replace (job_end job - job_start job + 1)
    with (Z.of_nat (Z.to_nat (job_end job + 1 - job_start job))) in E by lia.
  apply do_query_loop_build in E; [|exact Hb|lia].
  destruct E as (E1 & E2 & E3). simpl in E1, E2.
  subst blk. unfold block. rewrite E3. split; [lia|now split].
Qed.

Lemma do_query_builds_witness :
  let items := [mk_useq ["A"; "C"; "G"; "A"]%char 1 None;
                mk_useq ["A"; "C"; "G"; "T"]%char 1 None] in
  let r := do_query (list useq) (fun t _ => Some t) (fun t u => u :: t)
             (fun t _ _ _ _ => Some (fun d => if d =? 1 then t else [])) false
             (plan_job (plan_bounds 2 1) 1 1 0 0) items
             (new_lookup 14 4 4 1) [] in
  snd r = DQ_OK /\
  lut_insert_all (new_lookup 14 4 4 1) (useq_seq <$> items)
  = Some (dq_lut (fst r)) /\
  dq_trie (fst r) = rev items.
Proof.
  intros items r.
  assert (Hs : snd r = DQ_OK) by (vm_compute; reflexivity).
  split; [exact Hs|]. subst r.
  destruct (do_query _ _ _ _ _ _ _ _ _) as [st' status] eqn:E.
  simpl in Hs. subst status.
  destruct (do_query_builds _ _ _ _ _ _
              (plan_job (plan_bounds 2 1) 1 1 0 0) _ _ st' eq_refl
              ltac:(vm_compute; split; discriminate) E) as (_ & H2 & H3).
  split; [exact H2|]. simpl fst.
  change (block items _ _) with items in H3. simpl in H3.
  now injection H3 as <-.
Defined.

(** X17: every line that a job writes has a distance between 1 and [tau]
    and, as its first field, the unpadded sequence, or under [PE_FASTQ]
    the info, of a record of the block of the job. *)
Theorem do_query_output
    (trie : Type) (insert_string_wo_malloc : trie -> cstr -> option trie)
    (set_data : trie -> useq -> trie)
    (search : trie -> cstr -> Z -> Z -> Z -> option (Z -> list useq))
    (pe_fastq : bool) (items : list useq) (job : mtjob)
    (lut : lookup) (t : trie) a b d :
  let r := do_query trie insert_string_wo_malloc set_data search pe_fastq
             job items lut t in
  (a, b, d) ∈ dq_out (fst r) ->
  1 <= d <= job_tau job /\
  exists k query, job_start job <= k <= job_end job /\ 0 <= k /\
    items !! Z.to_nat k = Some query /\
    a = (if pe_fastq then useq_info query
         else Some (unpad (useq_seq query))).
Proof.
  intros r Hin. subst r. unfold do_query in Hin.
  destruct (do_query_loop _ _ _ _ _ _ _ _ _) as [st' status] eqn:E.
  destruct (Z.le_gt_cases 0 (job_end job - job_start job + 1)) as [Hn|Hn].
  - replace (job_end job - job_start job + 1)
      with (Z.of_nat (Z.to_nat (job_end job - job_start job + 1))) in E by lia.
    destruct (do_query_loop_out _ _ _ _ _ _ _ _ _ _ _ _ _ _ _ E Hin)
      as [H|(Hd & k & query & Hk & Hk0 & Eq & Ea)]; [inversion H|].
    split; [exact Hd|]. exists k, query. repeat split; try assumption; lia.
  - rewrite seqZ_nil in E by lia. simpl in E. injection E as <- _.
    simpl in Hin. inversion Hin.
Qed.

Lemma do_query_output_witness :
  let items := [mk_useq ["A"; "C"; "G"; "A"]%char 1 None;
                mk_useq ["A"; "C"; "G"; "T"]%char 1 None] in
  let r := do_query (list useq) (fun t _ => Some t) (fun t u => u :: t)
             (fun t _ _ _ _ => Some (fun d => if d =? 1 then t else [])) false
             (plan_job (plan_bounds 2 1) 1 1 0 0) items
             (new_lookup 14 4 4 1) [] in
  (Some ["A"; "C"; "G"; "T"]%char, Some ["A"; "C"; "G"; "A"]%char, 1)
    ∈ dq_out (fst r) /\
  1 <= 1 <= 1.
Proof.
  intros items r.
  assert (Hin : (Some ["A"; "C"; "G"; "T"]%char,
                 Some ["A"; "C"; "G"; "A"]%char, 1) ∈ dq_out (fst r)).
  { vm_compute. left. }
  split; [exact Hin|].
  destruct (do_query_output _ _ _ _ _ _ _ _ _ _ _ _ Hin) as [Hd _].
  exact Hd.
Defined.

(* ================================================================= *)
(** ** The arguments of the searches of [do_query] *)

Lemma calls_chain_snoc items job calls : forall prev c,
  calls_chain items job prev (calls ++ [c]) <->
  calls_chain items job prev calls /\
  calls_chain items job (last_call prev calls) [c].
Proof.
  induction calls as [|[[i s] t] calls IH]; intros prev [[ci cs] ct].
  - simpl. unfold last_call. simpl. tauto.
  - change (((i, s, t) :: calls) ++ [(ci, cs, ct)])
      with ((i, s, t) :: (calls ++ [(ci, cs, ct)])).
    cbn [calls_chain]. rewrite IH.
    assert (E : last_call prev ((i, s, t) :: calls)
                = last_call (Some i) calls).
    { unfold last_call. destruct calls as [|c' calls]; [reflexivity|].
      rewrite last_cons_cons.
      destruct (last (c' :: calls)) as [[[? ?] ?]|] eqn:El; [reflexivity|].
      apply last_None in El. discriminate. }
    rewrite E. cbn [calls_chain]. tauto.
Qed.

Lemma last_call_snoc prev calls i s t :
  last_call prev (calls ++ [(i, s, t)]) = Some i.
Proof. unfold last_call. now rewrite last_snoc. Qed.

Section DoQueryCalls.

Variable trie : Type.
Variable insert_string_wo_malloc : trie -> cstr -> option trie.
Variable set_data : trie -> useq -> trie.
Variable search : trie -> cstr -> Z -> Z -> Z -> option (Z -> list useq).
Variable pe_fastq : bool.
Variables (h : Z) (items : list useq) (job : mtjob).

Hypothesis items_padded : forall k u, items !! k = Some u ->
  is_cstr (useq_seq u) /\ strlen (useq_seq u) = h.
Hypothesis items_distinct : NoDup (useq_seq <$> items).
Hypothesis job_in_stack : job_end job < Z.of_nat (length items).

Local Abbreviation step :=
  (do_query_step trie insert_string_wo_malloc set_data search pe_fastq
     job items).
Local Abbreviation loop :=
  (do_query_loop trie insert_string_wo_malloc set_data search pe_fastq
     job items).

(** The last query searched is the query of the last search. *)
Local Abbreviation last_ok i0 st :=
  (match dq_last st with
   | None => dq_calls st = []
   | Some u => exists i, last_call None (dq_calls st) = Some i /\
                 0 <= i < i0 /\ items !! Z.to_nat i = Some u
   end).

Lemma seq_at_lookup i u :
  0 <= i -> items !! Z.to_nat i = Some u -> seq_at items i = useq_seq u.
Proof. intros _ E. unfold seq_at. now rewrite E. Qed.

Lemma prefix_loop_records i k u v :
  0 <= i -> 0 <= k -> i <> k ->
  items !! Z.to_nat i = Some u -> items !! Z.to_nat k = Some v ->
  prefix_loop (useq_seq u) (useq_seq v) 0
  = Some (Z.of_nat (lcp (seq_at items i) (seq_at items k))).
Proof using items_padded items_distinct.
  intros Hi Hk Hne Eu Ev.
  destruct (items_padded _ _ Eu) as [Hcu Hlu].
  destruct (items_padded _ _ Ev) as [Hcv Hlv].
  rewrite (seq_at_lookup _ _ Hi Eu), (seq_at_lookup _ _ Hk Ev).
  destruct (prefix_loop_lcp (useq_seq u) (useq_seq v) 0 Hcu Hcv) as [E _].
  - unfold strlen in *. lia.
  - apply (items_seq_distinct items items_distinct i k u v); assumption.
  - rewrite E. f_equal.
Qed.

Lemma do_query_build_calls query st st' status :
  do_query_build trie insert_string_wo_malloc job query st = (st', status) ->
  dq_calls st' = dq_calls st /\ dq_last st' = dq_last st.
Proof.
  unfold do_query_build. destruct (job_build job); [|now intros [= <- _]].
  destruct (lut_insert _ _) as [[lut' ret]|]; [|now intros [= <- _]].
  destruct (ret =? 0); [|now intros [= <- _]].
  destruct (insert_string_wo_malloc _ _); now intros [= <- _].
Qed.

Lemma do_query_search_calls i query st st' status :
  job_start job <= i <= job_end job -> 0 <= i ->
  items !! Z.to_nat i = Some query ->
  calls_chain items job None (dq_calls st) -> last_ok i st ->
  do_query_search trie search pe_fastq job items i query st = (st', status) ->
  calls_chain items job None (dq_calls st') /\
  (status = DQ_OK -> last_ok (i + 1) st').
Proof using items_padded items_distinct job_in_stack.
  intros Hr Hi Eq Hch Hlast. unfold do_query_search.
  assert (Etrail :
    (if i <? job_end job
     then match items !! Z.to_nat (i + 1) with
          | Some next_query =>
              prefix_loop (useq_seq query) (useq_seq next_query) 0
          | None => None
          end
     else Some 0)
    = Some (if i <? job_end job
            then Z.of_nat (lcp (seq_at items i) (seq_at items (i + 1)))
            else 0)).
  { destruct (Z.ltb_spec i (job_end job)) as [Hlt|Hge]; [|reflexivity].
    destruct (lookup_lt_is_Some_2 items (Z.to_nat (i + 1)) ltac:(lia))
      as [nq Enq].
    rewrite Enq. apply prefix_loop_records; try assumption; lia. }
  rewrite Etrail.
  assert (Estart : exists start,
    match dq_last st with
    | Some last_query =>
        prefix_loop (useq_seq query) (useq_seq last_query) 0
    | None => Some 0
    end = Some start /\
    calls_chain items job (last_call None (dq_calls st))
      [(i, start, if i <? job_end job
                  then Z.of_nat (lcp (seq_at items i) (seq_at items (i + 1)))
                  else 0)]).
  { destruct (dq_last st) as [u|].
    - destruct Hlast as (i' & El & Hi' & Eu).
      exists (Z.of_nat (lcp (seq_at items i) (seq_at items i'))).
      split; [apply prefix_loop_records; try assumption; lia|].
      rewrite El. simpl. repeat split; lia.
    - exists 0. split; [reflexivity|]. rewrite Hlast. unfold last_call.
      simpl. repeat split; lia. }
  destruct Estart as (start & -> & Hc).
  assert (Hch' : calls_chain items job None
            (dq_calls st ++
             [(i, start, if i <? job_end job
                  then Z.of_nat (lcp (seq_at items i) (seq_at items (i + 1)))
                  else 0)])).
  { apply calls_chain_snoc. now split. }
  destruct (search _ _ _ _ _); intros [= <- <-]; simpl;
    (split; [exact Hch'|]); [|discriminate].
  intros _. exists i. rewrite last_call_snoc.
  split; [reflexivity|]. split; [lia|exact Eq].
Qed.

Lemma last_ok_mono i (st : dq_state trie) :
  last_ok i st -> last_ok (i + 1) st.
Proof.
  destruct (dq_last st); [|easy].
  intros (k & H1 & H2 & H3). exists k. repeat split; try assumption; lia.
Qed.

Lemma do_query_step_calls i st st' status :
  job_start job <= i <= job_end job -> 0 <= i ->
  calls_chain items job None (dq_calls st) -> last_ok i st ->
  step i st = (st', status) ->
  calls_chain items job None (dq_calls st') /\
  (status = DQ_OK -> last_ok (i + 1) st').
Proof using items_padded items_distinct job_in_stack.
  intros Hr Hi Hch Hlast. unfold do_query_step.
  destruct (Z.ltb_spec i 0); [lia|].
  destruct (items !! Z.to_nat i) as [query|] eqn:Eq;
    [|intros [= <- <-]; split; [exact Hch|discriminate]].
  destruct (lut_search _ _) as [r|];
    [|intros [= <- <-]; split; [exact Hch|discriminate]].
  destruct (do_query_build _ _ _ _ _) as [stb sb] eqn:Eb.
  destruct (do_query_build_calls _ _ _ _ Eb) as [Ec El].
  assert (Hchb : calls_chain items job None (dq_calls stb))
    by now rewrite Ec.
  assert (Hlb : last_ok i stb) by now rewrite Ec, El.
  destruct sb; try (intros [= <- <-]; split; [exact Hchb|discriminate]).
  destruct (r =? 1).
  - destruct (do_query_search _ _ _ _ _ _ _ _) as [st2 s2] eqn:E2.
    destruct (do_query_search_calls _ _ _ _ _ Hr Hi Eq Hchb Hlb E2)
      as [H1 H2].
    destruct s2; try (intros [= <- <-]; split; [exact H1|discriminate]).
    specialize (H2 eq_refl).
    destruct (job_build job); intros [= <- <-]; simpl; now split.
  - destruct (job_build job); intros [= <- <-]; simpl;
      (split; [exact Hchb|intros _; now apply last_ok_mono]).
Qed.

Lemma do_query_loop_calls n : forall i st st' status,
  job_start job <= i -> 0 <= i -> i + Z.of_nat n <= job_end job + 1 ->
  calls_chain items job None (dq_calls st) -> last_ok i st ->
  loop (seqZ i (Z.of_nat n)) st = (st', status) ->
  calls_chain items job None (dq_calls st').
Proof using items_padded items_distinct job_in_stack.
  induction n as [|n IH]; intros i st st' status Hs Hi Hn Hch Hlast E.
  - simpl in E. now injection E as <- _.
  - rewrite seqZ_cons in E by lia. simpl in E.
    destruct (step i st) as [st1 s1] eqn:E1.
    destruct (do_query_step_calls i st st1 s1 ltac:(lia) Hi Hch Hlast E1)
      as [H1 H2].
    replace (Z.pred (Z.of_nat (S n))) with (Z.of_nat n) in E by lia.
    destruct s1; try (now injection E as <- _).
    apply (IH (Z.succ i) st1 st' status); try assumption; try lia.
    replace (Z.succ i) with (i + 1) by lia. now apply H2.
Qed.

End DoQueryCalls.

(** X18: in a job over padded sequences that are pairwise distinct, the
    searches are made for increasing records of the block; [start] is the
    length of the prefix shared with the query searched before (0 for the
    first search) and [trail] the length of the prefix shared with the next
    record of the stack (0 for the last record of the block). *)
Theorem do_query_search_arguments
    (trie : Type) (insert_string_wo_malloc : trie -> cstr -> option trie)
    (set_data : trie -> useq -> trie)
    (search : trie -> cstr -> Z -> Z -> Z -> option (Z -> list useq))
    (pe_fastq : bool) (h : Z) (items : list useq) (job : mtjob)
    (lut : lookup) (t : trie) :
  (forall k u, items !! k = Some u ->
     is_cstr (useq_seq u) /\ strlen (useq_seq u) = h) ->
  NoDup (useq_seq <$> items) ->
  0 <= job_start job -> job_end job < Z.of_nat (length items) ->
  calls_chain items job None
    (dq_calls (fst (do_query trie insert_string_wo_malloc set_data search
                      pe_fastq job items lut t))).
Proof.
  intros Hpad Hnd Hs He. unfold do_query.
  destruct (do_query_loop _ _ _ _ _ _ _ _ _) as [st' status] eqn:E.
  destruct (Z.le_gt_cases 0 (job_end job - job_start job + 1)) as [Hn|Hn].
  - replace (job_end job - job_start job + 1)
      with (Z.of_nat (Z.to_nat (job_end job - job_start job + 1))) in E by lia.
    simpl. eapply (do_query_loop_calls _ _ _ _ _ h items job Hpad Hnd He);
      [| | | | |exact E]; simpl; try lia; try exact I. reflexivity.
  - rewrite seqZ_nil in E by lia. simpl in E. injection E as <- _. exact I.
Qed.

Lemma do_query_search_arguments_witness :
  let items := [mk_useq ["A"; "C"; "G"; "A"]%char 1 None;
                mk_useq ["A"; "C"; "G"; "C"]%char 1 None;
                mk_useq ["A"; "C"; "G"; "T"]%char 1 None] in
  let r := do_query (list useq) (fun t _ => Some t) (fun t u => u :: t)
             (fun t _ _ _ _ => Some (fun d => if d =? 1 then t else [])) false
             (plan_job (plan_bounds 3 1) 1 1 0 0) items
             (new_lookup 14 4 4 1) [] in
  dq_calls (fst r) = [(1, 0, 3); (2, 3, 0)] /\
  lcp (seq_at items 1) (seq_at items 2) = 3%nat /\
  calls_chain items (plan_job (plan_bounds 3 1) 1 1 0 0) None
    (dq_calls (fst r)).
Proof.
  intros items. split; [vm_compute; reflexivity|]. split; [reflexivity|].
  apply (do_query_search_arguments (list useq) (fun t _ => Some t)
           (fun t u => u :: t)
           (fun t _ _ _ _ => Some (fun d => if d =? 1 then t else []))
           false 4 items).
  - intros k u E. destruct k as [|[|[|k]]]; simpl in E; inversion E; subst;
      (split; [repeat constructor; discriminate | reflexivity]).
  - apply NoDup_cons. split; [|apply NoDup_cons; split; [|apply NoDup_singleton]].
    + rewrite !not_elem_of_cons. split; [discriminate|].
      split; [discriminate|apply not_elem_of_nil].
    + rewrite !not_elem_of_cons. split; [discriminate|apply not_elem_of_nil].
  - vm_compute. discriminate.
  - vm_compute. reflexivity.
Defined.

(* ================================================================= *)
(** ** A worker completes *)

Section DoQueryCompletes.

Variable trie : Type.
Variable insert_string_wo_malloc : trie -> cstr -> option trie.
Variable set_data : trie -> useq -> trie.
Variable search : trie -> cstr -> Z -> Z -> Z -> option (Z -> list useq).
Variable pe_fastq : bool.
Variables (h : Z) (items : list useq) (job : mtjob).

Hypothesis items_padded : forall k u, items !! k = Some u ->
  is_cstr (useq_seq u) /\ strlen (useq_seq u) = h.
Hypothesis items_distinct : NoDup (useq_seq <$> items).
Hypothesis job_in_stack : job_end job < Z.of_nat (length items).
Hypothesis insert_ok : forall t s, is_Some (insert_string_wo_malloc t s).
Hypothesis search_ok : forall t s tau start trail,
  is_Some (search t s tau start trail).

Lemma do_query_build_no_krash i query st st' :
  items !! Z.to_nat i = Some query -> dq_inv h items i st ->
  do_query_build trie insert_string_wo_malloc job query st
  <> (st', DQ_KRASH).
Proof using items_padded insert_ok.
  intros Eq (Hwf & Hfit & _) E. revert E. unfold do_query_build.
  destruct (job_build job); [|discriminate].
  destruct (items_padded _ _ Eq) as [Hc Hl]. rewrite <- Hl in Hfit.
  destruct (lut_insert_fitting _ _ Hwf Hfit Hc) as (L' & -> & _).
  simpl. destruct (insert_ok (dq_trie st) (useq_seq query)) as [t' ->].
  discriminate.
Qed.

Lemma do_query_search_no_krash i query st st' :
  do_query_search trie search pe_fastq job items i query st
  <> (st', DQ_KRASH).
Proof using search_ok.
  unfold do_query_search.
  destruct (if i <? job_end job then _ else _) as [trail|]; [|discriminate].
  destruct (match dq_last st with Some _ => _ | None => _ end) as [start|];
    [|discriminate].
  destruct (search_ok (dq_trie st) (useq_seq query) (job_tau job) start trail)
    as [hits ->].
  discriminate.
Qed.

Lemma do_query_step_ok i st st' status :
  0 <= i <= job_end job -> dq_inv h items i st ->
  do_query_step trie insert_string_wo_malloc set_data search pe_fastq
    job items i st = (st', status) ->
  status = DQ_OK /\ dq_inv h items (i + 1) st'.
Proof using All.
  intros Hi Hinv E.
  destruct (do_query_step_inv trie insert_string_wo_malloc set_data search
              pe_fastq h items job items_padded items_distinct job_in_stack
              i st st' status Hi Hinv E) as [Hu Hinv'].
  split; [|exact Hinv'].
  destruct status; [reflexivity| |congruence]. exfalso.
  revert E. unfold do_query_step.
  destruct (Z.ltb_spec i 0); [lia|].
  destruct (items !! Z.to_nat i) as [query|] eqn:Eq; [|discriminate].
  destruct (lut_search _ _) as [r|]; [|discriminate].
  destruct (do_query_build _ _ _ _ _) as [stb sb] eqn:Eb.
  destruct sb; [|intros [= <-]; now apply (do_query_build_no_krash _ _ _ _ Eq Hinv Eb)|discriminate].
  destruct (r =? 1).
  - destruct (do_query_search _ _ _ _ _ _ _ _) as [st2 s2] eqn:E2.
    destruct s2; [destruct (job_build job); discriminate| |discriminate].
    intros _. now apply (do_query_search_no_krash _ _ _ _ E2).
  - destruct (job_build job); discriminate.
Qed.

Lemma do_query_loop_ok n : forall i st st' status,
  0 <= i -> i + Z.of_nat n <= job_end job + 1 ->
  dq_inv h items i st ->
  do_query_loop trie insert_string_wo_malloc set_data search pe_fastq
    job items (seqZ i (Z.of_nat n)) st = (st', status) ->
  status = DQ_OK.
Proof using All.
  induction n as [|n IH]; intros i st st' status Hi Hn Hinv E.
  - simpl in E. now injection E as _ <-.
  - rewrite seqZ_cons in E by lia. simpl in E.
    destruct (do_query_step _ _ _ _ _ _ _ _ _) as [st1 s1] eqn:E1.
    destruct (do_query_step_ok i st st1 s1 ltac:(lia) Hinv E1) as [-> Hinv1].
    replace (Z.pred (Z.of_nat (S n))) with (Z.of_nat n) in E by lia.
    apply (IH (Z.succ i) st1 st' status); try lia; [|exact E].
    now replace (Z.succ i) with (i + 1) by lia.
Qed.

End DoQueryCompletes.

(** X19: in a job inside a stack of padded sequences that are pairwise
    distinct, with a well-formed filter for their length, a worker
    completes unless an insertion into the trie or a search of the trie
    fails: the filter never makes it abort. *)
Theorem do_query_completes
    (trie : Type) (insert_string_wo_malloc : trie -> cstr -> option trie)
    (set_data : trie -> useq -> trie)
    (search : trie -> cstr -> Z -> Z -> Z -> option (Z -> list useq))
    (pe_fastq : bool) (h : Z) (items : list useq) (job : mtjob)
    (lut : lookup) (t : trie) :
  (forall k u, items !! k = Some u ->
     is_cstr (useq_seq u) /\ strlen (useq_seq u) = h) ->
  NoDup (useq_seq <$> items) ->
  0 <= job_start job -> job_end job < Z.of_nat (length items) ->
  lut_wf lut -> lut_fits lut h ->
  (forall t s, is_Some (insert_string_wo_malloc t s)) ->
  (forall t s tau start trail, is_Some (search t s tau start trail)) ->
  snd (do_query trie insert_string_wo_malloc set_data search pe_fastq
         job items lut t) = DQ_OK.
Proof.
  intros Hpad Hnd Hs He Hwf Hfit Hins Hsearch. unfold do_query.
  destruct (do_query_loop _ _ _ _ _ _ _ _ _) as [st' status] eqn:E. simpl.
  destruct (Z.le_gt_cases 0 (job_end job - job_start job + 1)) as [Hn|Hn].
  - replace (job_end job - job_start job + 1)
      with (Z.of_nat (Z.to_nat (job_end job - job_start job + 1))) in E by lia.
    eapply (do_query_loop_ok trie insert_string_wo_malloc set_data search
              pe_fastq h items job Hpad Hnd He Hins Hsearch);
      [| | |exact E]; try lia.
    unfold dq_inv. simpl. split; [exact Hwf|]. split; [exact Hfit|].
    split; [discriminate|]. intros c Hc. inversion Hc.
  - rewrite seqZ_nil in E by lia. simpl in E. now injection E as _ <-.
Qed.

Lemma do_query_completes_witness :
  let items := [mk_useq ["A"; "C"; "G"; "A"]%char 1 None;
                mk_useq ["A"; "C"; "G"; "T"]%char 1 None] in
  snd (do_query (list useq) (fun t _ => Some t) (fun t u => u :: t)
             (fun t _ _ _ _ => Some (fun d => if d =? 1 then t else [])) false
         (plan_job (plan_bounds 2 1) 1 1 0 0) items
         (new_lookup 14 4 4 1) []) = DQ_OK.
Proof.
  intros items.
  apply (do_query_completes (list useq) (fun t _ => Some t) (fun t u => u :: t)
             (fun t _ _ _ _ => Some (fun d => if d =? 1 then t else [])) false 4 items).
  - intros k u E. destruct k as [|[|k]]; simpl in E; inversion E; subst;
      (split; [repeat constructor; discriminate | reflexivity]).
  - apply NoDup_cons. split; [|apply NoDup_singleton].
    apply not_elem_of_cons. split; [discriminate|apply not_elem_of_nil].
  - vm_compute. discriminate.
  - vm_compute. reflexivity.
  - apply new_lookup_wf; lia.
  - apply new_lookup_fits; lia.
  - intros t s. eexists. reflexivity.
  - intros t s tau start trail. eexists. reflexivity.
Defined.

(* ================================================================= *)
(** ** [run_plan] *)

(** *** Counting under an update of one cell *)

Lemma filter_length_insert {A} (P : A -> Prop) `{forall x, Decision (P x)}
    (l : list A) i x y :
  l !! i = Some x ->
  (length (filter P (<[i := y]> l)) + (if decide (P x) then 1 else 0)
   = length (filter P l) + (if decide (P y) then 1 else 0))%nat.
Proof.
  intros E. rewrite insert_take_drop by (eapply lookup_lt_Some, E).
  assert (El : length (filter P l)
               = length (filter P (take i l ++ x :: drop (S i) l)))
    by now rewrite take_drop_middle.
  rewrite El, !filter_app, !filter_cons, !length_app.
  destruct (decide (P x)), (decide (P y)); simpl; lia.
Qed.

Lemma zsum_fmap_insert {A} (f : A -> Z) (l : list A) i x y :
  l !! i = Some x ->
  zsum (f <$> <[i := y]> l) = zsum (f <$> l) - f x + f y.
Proof.
  intros E. rewrite insert_take_drop by (eapply lookup_lt_Some, E).
  assert (El : zsum (f <$> l)
               = zsum (f <$> take i l ++ x :: drop (S i) l))
    by now rewrite take_drop_middle.
  rewrite El, !fmap_app, !fmap_cons, !zsum_app. simpl. lia.
Qed.

Lemma filter_length_all {A} (P : A -> Prop) `{forall x, Decision (P x)}
    (l : list A) :
  length (filter P l) = length l -> Forall P l.
Proof.
  induction l as [|x l IH]; [constructor|].
  rewrite filter_cons. pose proof (length_filter P l).
  destruct (decide (P x)); simpl; intros E; [|lia].
  constructor; [assumption|]. apply IH. lia.
Qed.

Lemma filter_ne_length {A} `{EqDecision A} (l : list A) x :
  NoDup l -> x ∈ l ->
  S (length (filter (fun y => y <> x) l)) = length l.
Proof.
  induction 1 as [|y l Hy Hnd IH]; intros Hin; [inversion Hin|].
  rewrite filter_cons. apply elem_of_cons in Hin as [->|Hin].
  - destruct (decide (y <> y)) as [Hyy|_]; [now contradiction Hyy|].
    simpl. f_equal.
    clear IH Hnd. induction l as [|z l IH]; [reflexivity|].
    rewrite filter_cons. apply not_elem_of_cons in Hy as [Hz Hy].
    destruct (decide (z <> y)) as [_|Hzy]; [|now contradiction Hzy].
    simpl. f_equal. now apply IH.
  - destruct (decide (y <> x)) as [_|E]; [simpl; f_equal; now apply IH|].
    exfalso. apply Hy. destruct (decide (y = x)) as [->|]; [exact Hin|].
    contradiction.
Qed.

Lemma filter_comm {A} (P Q : A -> Prop) `{forall x, Decision (P x)}
    `{forall x, Decision (Q x)} (l : list A) :
  filter P (filter Q l) = filter Q (filter P l).
Proof.
  rewrite !list_filter_filter. apply list_filter_iff. tauto.
Qed.

(** *** The history of a trie *)

Lemma history_succ i c :
  0 <= c -> history i (c + 1) = history i c ++ [JobStart i c; JobEnd i c].
Proof.
  intros Hc. unfold history.
  rewrite seqZ_app by lia. rewrite bind_app. reflexivity.
Qed.

Lemma job_events_app i l1 l2 :
  job_events i (l1 ++ l2) = job_events i l1 ++ job_events i l2.
Proof. apply filter_app. Qed.

Lemma trie_threads_app i l1 l2 :
  trie_threads i (l1 ++ l2) = trie_threads i l1 ++ trie_threads i l2.
Proof. apply filter_app. Qed.

(** *** The invariant holds when [run_plan] is entered *)

Lemma trie_ok_frame st st' k t :
  trie_ok st k t ->
  job_events (Z.of_nat k) (rp_log st') = job_events (Z.of_nat k) (rp_log st) ->
  trie_threads (Z.of_nat k) (rp_threads st')
  = trie_threads (Z.of_nat k) (rp_threads st) ->
  trie_ok st' k t.
Proof.
  unfold trie_ok. intros (H1 & H2 & H3 & H4 & H5) El Et.
  rewrite El, Et. now repeat split.
Qed.

Lemma rp_inv_init thrmax p :
  plan_fresh p -> 0 <= thrmax -> rp_inv thrmax (rp_init p).
Proof.
  intros (Hn & Ha & Hj & Hall) Ht. unfold rp_inv. simpl.
  assert (Hdone : filter (fun t => trie_flag_of t = TRIE_DONE) (plan_tries p)
                  = []).
  { clear Hn. induction Hall as [|t l (Hf & _) _ IH]; [reflexivity|].
    rewrite filter_cons, IH. destruct (decide _) as [E|_]; [congruence|].
    reflexivity. }
  assert (Hsum : zsum (trie_currentjob <$> plan_tries p) = 0).
  { clear Hn Hdone. induction Hall as [|t l (_ & Hc & _) _ IH]; [reflexivity|].
    rewrite fmap_cons. simpl. lia. }
  rewrite Hdone, Hsum, Ha, Hj. simpl.
  split; [exact Hn|]. split; [lia|]. split; [lia|]. split; [lia|].
  split; [reflexivity|]. split; [constructor|].
  split; [intros i j Hin; inversion Hin|]. split; [reflexivity|].
  split; [reflexivity|]. split; [|discriminate].
  intros k t Hk. rewrite Forall_lookup in Hall.
  destruct (Hall k t Hk) as (Hf & Hc & Hnj).
  unfold trie_ok, job_history. simpl. rewrite Hf, Hc.
  repeat split; try lia; try discriminate.
Qed.

(** *** The invariant is kept by the scheduler *)

Lemma rp_next_idx st thrmax :
  rp_inv thrmax st -> rp_triedone st < plan_ntries (rp_plan st) ->
  0 <= Z.rem (rp_idx st + 1) (plan_ntries (rp_plan st))
    < plan_ntries (rp_plan st).
Proof.
  intros (Hn & Hi1 & Hi2 & _ & _ & _ & _ & Hd & _) Hlt.
  assert (0 < plan_ntries (rp_plan st)) by lia.
  rewrite Z.rem_mod_nonneg by lia. apply Z.mod_pos_bound. lia.
Qed.

Lemma rp_inv_stay thrmax st idx pc :
  rp_inv thrmax st -> -1 <= idx < Z.max 0 (plan_ntries (rp_plan st)) ->
  (pc = RP_RETURNED -> plan_ntries (rp_plan st) <= rp_triedone st) ->
  rp_inv thrmax {| rp_plan := rp_plan st; rp_idx := idx;
                   rp_triedone := rp_triedone st; rp_pc_of := pc;
                   rp_threads := rp_threads st; rp_log := rp_log st |}.
Proof.
  intros (Hn & _ & _ & Ha & Hal & Hnd & Hv & Hd & Hj & Hok & _) Hidx Hpc.
  unfold rp_inv. simpl.
  split; [exact Hn|]. split; [lia|]. split; [lia|]. split; [exact Ha|].
  split; [exact Hal|]. split; [exact Hnd|]. split; [exact Hv|].
  split; [exact Hd|]. split; [exact Hj|]. split; [|exact Hpc].
  intros k t Hk.
  apply (trie_ok_frame st); [now apply Hok|reflexivity|reflexivity].
Qed.

Lemma event_other i k j l :
  i <> k -> job_events k (l ++ [JobStart i j]) = job_events k l /\
            job_events k (l ++ [JobEnd i j]) = job_events k l.
Proof.
  intros Hne. rewrite !job_events_app. unfold job_events.
  rewrite !filter_cons, filter_nil. simpl.
  destruct (decide (i = k)); [congruence|]. now rewrite app_nil_r.
Qed.

Lemma rp_inv_body thrmax st st' :
  rp_inv thrmax st -> rp_triedone st < plan_ntries (rp_plan st) ->
  run_plan_body thrmax st = Some st' -> rp_inv thrmax st'.
Proof.
  intros Hinv Hlt. pose proof (rp_next_idx st thrmax Hinv Hlt) as Hidx.
  pose proof Hinv as (Hn & _ & _ & Ha & Hal & Hnd & Hv & Hd & Hj & Hok & _).
  unfold run_plan_body.
  set (idx := Z.rem (rp_idx st + 1) (plan_ntries (rp_plan st))) in *.
  destruct (Z.ltb_spec idx 0); [lia|].
  destruct (plan_tries (rp_plan st) !! Z.to_nat idx) as [t|] eqn:Et;
    [|discriminate].
  assert (Hstay : rp_inv thrmax
            {| rp_plan := rp_plan st; rp_idx := idx;
               rp_triedone := rp_triedone st; rp_pc_of := RP_WAIT;
               rp_threads := rp_threads st; rp_log := rp_log st |}).
  { apply rp_inv_stay; [exact Hinv|lia|discriminate]. }
  pose proof (Hok _ _ Et) as (Hnj & Hc & Hev & Hth & Hbusy & Hdone).
  rewrite Z2Nat.id in Hev, Hth by lia.
  destruct (trie_flag_of t) eqn:Ef; try (intros [= <-]; exact Hstay).
  destruct (Z.ltb_spec (plan_active (rp_plan st)) thrmax) as [Hact|Hact];
    [|intros [= <-]; exact Hstay].
  destruct (Z.eqb_spec (trie_currentjob t) (trie_njobs t)) as [Ec|Ec].
  - (* the trie is done *)
    intros [= <-]. unfold rp_inv. simpl.
    rewrite length_insert.
    split; [exact Hn|]. split; [lia|]. split; [lia|]. split; [exact Ha|].
    split; [exact Hal|]. split; [exact Hnd|]. split; [exact Hv|].
    split; [|split; [|split; [|discriminate]]].
    + pose proof (filter_length_insert
                    (fun t => trie_flag_of t = TRIE_DONE)
                    (plan_tries (rp_plan st)) (Z.to_nat idx) t
                    (mttrie_set TRIE_DONE (trie_currentjob t) t) Et) as Hc'.
      simpl in Hc'. rewrite Ef in Hc'.
      destruct (decide (TRIE_FREE = TRIE_DONE)); [discriminate|].
      destruct (decide (TRIE_DONE = TRIE_DONE)); [|congruence]. lia.
    + rewrite (zsum_fmap_insert _ _ _ t) by exact Et. simpl. lia.
    + intros k t' Hk.
      destruct (decide (k = Z.to_nat idx)) as [->|Hne].
      * rewrite list_lookup_insert_eq in Hk by (eapply lookup_lt_Some, Et).
        injection Hk as <-. unfold trie_ok, job_history. simpl.
        rewrite Z2Nat.id by lia. rewrite Hev, Hth.
        unfold job_history. rewrite Ef.
        repeat split; try lia; try discriminate.
      * rewrite list_lookup_insert_ne in Hk by congruence.
        apply (trie_ok_frame st); [now apply Hok|reflexivity|reflexivity].
  - (* a job of the trie is started *)
    destruct (Z.ltb_spec (trie_currentjob t) 0); [lia|].
    destruct (trie_jobs t !! Z.to_nat (trie_currentjob t)) as [job|];
      [|discriminate].
    intros [= <-]. unfold rp_inv. simpl.
    rewrite length_insert, length_app. simpl.
    assert (Hnew : (idx, trie_currentjob t) ∉ rp_threads st).
    { intros Hin.
      assert (Hin' : (idx, trie_currentjob t)
                     ∈ trie_threads idx (rp_threads st)).
      { apply list_elem_of_filter. now split. }
      rewrite Hth in Hin'. inversion Hin'. }
    split; [exact Hn|]. split; [lia|]. split; [lia|]. split; [lia|].
    split; [lia|].
    split; [apply NoDup_app; split; [exact Hnd|split;
              [intros x Hx Hx'; apply list_elem_of_singleton in Hx';
               now subst x|apply NoDup_singleton]]|].
    split; [intros i j Hin; apply elem_of_app in Hin as [Hin|Hin];
              [now apply (Hv i j)|
               apply list_elem_of_singleton in Hin; injection Hin as -> ->;
               lia]|].
    split; [|split; [|split; [|discriminate]]].
    + pose proof (filter_length_insert
                    (fun t => trie_flag_of t = TRIE_DONE)
                    (plan_tries (rp_plan st)) (Z.to_nat idx) t
                    (mttrie_set TRIE_BUSY (trie_currentjob t + 1) t) Et)
        as Hc'.
      simpl in Hc'. rewrite Ef in Hc'.
      destruct (decide (TRIE_FREE = TRIE_DONE)); [discriminate|].
      destruct (decide (TRIE_BUSY = TRIE_DONE)); [discriminate|]. lia.
    + rewrite (zsum_fmap_insert _ _ _ t) by exact Et. simpl. lia.
    + intros k t' Hk.
      destruct (decide (k = Z.to_nat idx)) as [->|Hne].
      * rewrite list_lookup_insert_eq in Hk by (eapply lookup_lt_Some, Et).
        injection Hk as <-. unfold trie_ok, job_history. simpl.
        rewrite Z2Nat.id by lia.
        rewrite job_events_app, trie_threads_app, Hev, Hth.
        unfold job_history. rewrite Ef.
        replace (trie_currentjob t + 1 - 1) with (trie_currentjob t) by lia.
        unfold job_events, trie_threads.
        rewrite !filter_cons, !filter_nil. simpl.
        destruct (decide (idx = idx)); [|congruence].
        repeat split; try lia; try discriminate.
      * rewrite list_lookup_insert_ne in Hk by congruence.
        apply (trie_ok_frame st); [now apply Hok| |]; simpl.
        -- apply event_other. lia.
        -- rewrite trie_threads_app. unfold trie_threads at 2.
           rewrite filter_cons, filter_nil. simpl.
           destruct (decide (idx = Z.of_nat k)); [lia|].
           now rewrite app_nil_r.
Qed.

(** *** The invariant is kept by the end of a job *)

(** A thread runs the job before [currentjob] of a busy trie. *)
Lemma rp_thread_busy thrmax st i j :
  rp_inv thrmax st -> (i, j) ∈ rp_threads st ->
  exists t, 0 <= i /\ plan_tries (rp_plan st) !! Z.to_nat i = Some t /\
    trie_flag_of t = TRIE_BUSY /\ j = trie_currentjob t - 1.
Proof.
  intros (Hn & _ & _ & _ & _ & _ & Hv & _ & _ & Hok & _) Hin.
  pose proof (Hv i j Hin) as Hi.
  destruct (lookup_lt_is_Some_2 (plan_tries (rp_plan st)) (Z.to_nat i)
              ltac:(lia)) as [t Et].
  exists t. split; [lia|]. split; [exact Et|].
  destruct (Hok _ _ Et) as (_ & _ & _ & Hth & _).
  rewrite Z2Nat.id in Hth by lia.
  assert (Hin' : (i, j) ∈ trie_threads i (rp_threads st)).
  { apply list_elem_of_filter. now split. }
  rewrite Hth in Hin'.
  destruct (trie_flag_of t); [inversion Hin'| |inversion Hin'].
  apply list_elem_of_singleton in Hin'. injection Hin' as ->. now split.
Qed.

Lemma rp_inv_finish thrmax st i j st' :
  rp_inv thrmax st -> (i, j) ∈ rp_threads st ->
  job_finish i j st = Some st' -> rp_inv thrmax st'.
Proof.
  intros Hinv Hin.
  destruct (rp_thread_busy thrmax st i j Hinv Hin) as (t & Hi & Et & Ef & Ej).
  pose proof Hinv as (Hn & Hi1 & Hi2 & Ha & Hal & Hnd & Hv & Hd & Hj & Hok & Hpc).
  pose proof (Hok _ _ Et) as (Hnj & Hc & Hev & Hth & Hbusy & Hdone).
  rewrite Z2Nat.id in Hev, Hth by lia. specialize (Hbusy Ef).
  unfold job_finish. destruct (Z.ltb_spec i 0); [lia|]. rewrite Et.
  intros [= <-]. unfold rp_inv. simpl. rewrite length_insert.
  pose proof (filter_ne_length (rp_threads st) (i, j) Hnd Hin) as Hlen.
  split; [exact Hn|]. split; [lia|]. split; [lia|]. split; [lia|].
  split; [lia|]. split; [now apply NoDup_filter|].
  split; [intros i' j' Hin'; apply list_elem_of_filter in Hin' as [_ Hin'];
            now apply (Hv i' j')|].
  split; [|split; [|split; [|exact Hpc]]].
  - pose proof (filter_length_insert
                  (fun t => trie_flag_of t = TRIE_DONE)
                  (plan_tries (rp_plan st)) (Z.to_nat i) t
                  (mttrie_set TRIE_FREE (trie_currentjob t) t) Et) as Hc'.
    simpl in Hc'. rewrite Ef in Hc'.
    destruct (decide (TRIE_BUSY = TRIE_DONE)); [discriminate|].
    destruct (decide (TRIE_FREE = TRIE_DONE)); [discriminate|]. lia.
  - rewrite (zsum_fmap_insert _ _ _ t) by exact Et. simpl. lia.
  - intros k t' Hk.
    destruct (decide (k = Z.to_nat i)) as [->|Hne].
    + rewrite list_lookup_insert_eq in Hk by (eapply lookup_lt_Some, Et).
      injection Hk as <-. unfold trie_ok, job_history. simpl.
      rewrite Z2Nat.id by lia. rewrite job_events_app, Hev.
      unfold job_history. rewrite Ef. subst j.
      unfold trie_threads.
      rewrite filter_comm.
      fold (trie_threads i (rp_threads st)). rewrite Hth, Ef.
      rewrite filter_cons, filter_nil.
      destruct (decide ((i, trie_currentjob t - 1)
                        <> (i, trie_currentjob t - 1))) as [Hx|_];
        [now contradiction Hx|].
      unfold job_events. rewrite filter_cons, filter_nil. simpl.
      destruct (decide (i = i)); [|congruence].
      rewrite <- app_assoc. simpl.
      assert (Eh : history i (trie_currentjob t)
                   = history i (trie_currentjob t - 1 + 1))
        by (f_equal; lia).
      rewrite Eh, history_succ by lia.
      repeat split; try lia; try discriminate.
    + rewrite list_lookup_insert_ne in Hk by congruence.
      apply (trie_ok_frame st); [now apply Hok| |]; simpl.
      * apply event_other. lia.
      * unfold trie_threads. apply list_filter_filter_l.
        intros [i' j'] Hi' [= -> _]. simpl in Hi'. lia.
Qed.

Lemma rp_inv_step thrmax st st' :
  rp_inv thrmax st -> rp_step thrmax st st' -> rp_inv thrmax st'.
Proof.
  intros Hinv Hstep.
  pose proof Hinv as (_ & Hi1 & Hi2 & _).
  destruct Hstep as [st st' Hpc Hlt E|st Hpc Hge|st Hpc Hne|st i j st' Hpc Hin E].
  - now apply (rp_inv_body thrmax st).
  - apply rp_inv_stay; [exact Hinv|lia|now intros _].
  - apply rp_inv_stay; [exact Hinv|lia|discriminate].
  - now apply (rp_inv_finish thrmax st i j).
Qed.

Lemma rp_inv_reach thrmax p st :
  plan_fresh p -> 0 <= thrmax -> rp_reach thrmax p st -> rp_inv thrmax st.
Proof.
  intros Hp Ht. induction 1 as [|st st' _ IH Hstep].
  - now apply rp_inv_init.
  - now apply (rp_inv_step thrmax st).
Qed.

Lemma rp_log_valid_step thrmax st st' :
  rp_inv thrmax st -> rp_log_valid st -> rp_step thrmax st st' ->
  rp_log_valid st'.
Proof.
  intros Hinv Hlog Hstep.
  destruct Hstep as [st st' Hpc Hlt E|st Hpc Hge|st Hpc Hne|st i j st' Hpc Hin E];
    try exact Hlog.
  - pose proof (rp_next_idx st thrmax Hinv Hlt) as Hidx.
    revert E. unfold run_plan_body.
    destruct (_ <? 0); [discriminate|].
    destruct (_ !! _) as [t|]; [|discriminate].
    destruct (trie_flag_of t); try (intros [= <-]; exact Hlog).
    destruct (_ <? thrmax); [|intros [= <-]; exact Hlog].
    destruct (_ =? _); [intros [= <-]; exact Hlog|].
    destruct (_ <? 0); [discriminate|].
    destruct (_ !! _); [|discriminate].
    intros [= <-] e He. simpl in *.
    apply elem_of_app in He as [He|He]; [now apply Hlog|].
    apply list_elem_of_singleton in He. subst e. simpl. lia.
  - destruct Hinv as (_ & _ & _ & _ & _ & _ & Hv & _).
    pose proof (Hv i j Hin) as Hi.
    revert E. unfold job_finish. destruct (_ <? 0); [discriminate|].
    destruct (_ !! _); [|discriminate].
    intros [= <-] e He. simpl in *.
    apply elem_of_app in He as [He|He]; [now apply Hlog|].
    apply list_elem_of_singleton in He. subst e. simpl. lia.
Qed.

Lemma rp_log_valid_reach thrmax p st :
  plan_fresh p -> 0 <= thrmax -> rp_reach thrmax p st -> rp_log_valid st.
Proof.
  intros Hp Ht. induction 1 as [|st st' Hr IH Hstep].
  - intros e He. inversion He.
  - apply (rp_log_valid_step thrmax st); [|exact IH|exact Hstep].
    now apply (rp_inv_reach thrmax p).
Qed.

(** In the events of a trie the job before a job that starts has ended. *)
Lemma history_before i c : forall n a (tail A B : list rp_event) j,
  (tail = [] \/ (tail = [JobStart i c] /\ c = a + Z.of_nat n)) ->
  (seqZ a (Z.of_nat n) ≫= fun j => [JobStart i j; JobEnd i j]) ++ tail
  = A ++ JobStart i j :: B ->
  a <= j /\ (a < j -> JobEnd i (j - 1) ∈ A).
Proof.
  induction n as [|n IH]; intros a tail A B j Htail E.
  - simpl in E. destruct Htail as [->|[-> ->]].
    + destruct A; discriminate.
    + destruct A as [|x A]; [|destruct A; discriminate].
      injection E as <-. lia.
  - rewrite seqZ_cons in E by lia. rewrite bind_cons in E.
    replace (Z.pred (Z.of_nat (S n))) with (Z.of_nat n) in E by lia.
    destruct A as [|x A]; [injection E as <-; lia|].
    destruct A as [|y A]; [discriminate|].
    simpl in E. injection E as <- <- E.
    destruct (IH (Z.succ a) tail A B j) as [H1 H2].
    + destruct Htail as [->|[-> ->]]; [now left|right]. split; [reflexivity|lia].
    + exact E.
    + split; [lia|]. intros _.
      destruct (Z.eq_dec j (a + 1)) as [->|Hne].
      * replace (a + 1 - 1) with a by lia. right. left.
      * do 2 right. apply H2. lia.
Qed.

Lemma job_history_before i t A B j :
  0 <= trie_currentjob t ->
  (trie_flag_of t = TRIE_BUSY -> 1 <= trie_currentjob t) ->
  job_history i t = A ++ JobStart i j :: B ->
  0 <= j /\ (1 <= j -> JobEnd i (j - 1) ∈ A).
Proof.
  intros Hc Hb E. unfold job_history, history in E.
  assert (Hplain : forall c, 0 <= c ->
            (seqZ 0 c ≫= fun j => [JobStart i j; JobEnd i j])
            = A ++ JobStart i j :: B ->
            0 <= j /\ (1 <= j -> JobEnd i (j - 1) ∈ A)).
  { intros c Hc0 E'. rewrite <- (app_nil_r (_ ≫= _)) in E'.
    replace c with (Z.of_nat (Z.to_nat c)) in E' by lia.
    destruct (history_before i 0 _ 0 [] A B j ltac:(now left) E') as [H1 H2].
    split; [lia|]. intros Hj. apply H2. lia. }
  destruct (trie_flag_of t) eqn:Ef; try (now apply (Hplain _ Hc)).
  specialize (Hb eq_refl).
  replace (seqZ 0 (trie_currentjob t - 1))
    with (seqZ 0 (Z.of_nat (Z.to_nat (trie_currentjob t - 1)))) in E
    by (f_equal; lia).
  destruct (history_before i (trie_currentjob t - 1)
              (Z.to_nat (trie_currentjob t - 1)) 0
              [JobStart i (trie_currentjob t - 1)] A B j
              ltac:(right; split; [reflexivity|lia]) E) as [H1 H2].
  split; [lia|]. intros Hj. apply H2. lia.
Qed.

Lemma job_events_split i pre e post :
  event_trie e = i ->
  job_events i (pre ++ e :: post)
  = job_events i pre ++ e :: job_events i post.
Proof.
  intros He. rewrite job_events_app. unfold job_events at 2.
  rewrite filter_cons. destruct (decide (event_trie e = i)); [|congruence].
  reflexivity.
Qed.

(** X20: while [run_plan] runs a fresh plan, [active] is the number of
    worker threads and never exceeds [thrmax]; no two threads work on the
    same trie, and the trie of a thread is flagged busy with [currentjob]
    one past the job of the thread. *)
Theorem run_plan_threads thrmax p st :
  plan_fresh p -> 0 <= thrmax -> rp_reach thrmax p st ->
  0 <= plan_active (rp_plan st) <= thrmax /\
  plan_active (rp_plan st) = Z.of_nat (length (rp_threads st)) /\
  NoDup (fst <$> rp_threads st) /\
  (forall i j, (i, j) ∈ rp_threads st ->
     exists t, 0 <= i /\ plan_tries (rp_plan st) !! Z.to_nat i = Some t /\
       trie_flag_of t = TRIE_BUSY /\ trie_currentjob t = j + 1).
Proof.
  intros Hp Ht Hr. pose proof (rp_inv_reach thrmax p st Hp Ht Hr) as Hinv.
  pose proof Hinv as (_ & _ & _ & Ha & Hal & Hnd & _).
  split; [exact Ha|]. split; [exact Hal|]. split.
  - apply NoDup_fmap_2_strong; [|exact Hnd].
    intros [i j] [i' j'] Hin Hin' E. simpl in E. subst i'.
    destruct (rp_thread_busy thrmax st i j Hinv Hin) as (t & _ & Et & _ & ->).
    destruct (rp_thread_busy thrmax st i j' Hinv Hin')
      as (t' & _ & Et' & _ & ->).
    congruence.
  - intros i j Hin.
    destruct (rp_thread_busy thrmax st i j Hinv Hin) as (t & Hi & Et & Ef & ->).
    exists t. repeat split; try assumption; lia.
Qed.

Lemma run_plan_threads_witness :
  exists st, rp_reach 1 (plan_mt 14 1 4 4 1 2) st /\ rp_threads st = [(0, 0)] /\
    plan_active (rp_plan st) = Z.of_nat (length (rp_threads st)).
Proof.
  assert (Hp : plan_fresh (plan_mt 14 1 4 4 1 2)).
  { vm_compute. repeat split. repeat constructor. }
  pose proof (rp_reach_init 1 (plan_mt 14 1 4 4 1 2)) as R.
  eapply rp_reach_step in R;
    [|apply rp_schedule;
      [reflexivity | vm_compute; reflexivity | vm_compute; reflexivity]].
  match type of R with rp_reach _ _ ?s => exists s end.
  split; [exact R|]. split; [reflexivity|].
  destruct (run_plan_threads 1 _ _ Hp ltac:(lia) R) as (_ & Ha & _).
  exact Ha.
Defined.

(** X21: the jobs of a trie are run one after the other in the order of the
    plan: the events of a trie are its jobs [0 .. currentjob) started and
    ended in turn, and a job starts only after the job before it on the
    same trie has ended. *)
Theorem run_plan_job_order thrmax p st :
  plan_fresh p -> 0 <= thrmax -> rp_reach thrmax p st ->
  (forall k t, plan_tries (rp_plan st) !! k = Some t ->
     job_events (Z.of_nat k) (rp_log st) = job_history (Z.of_nat k) t) /\
  (forall pre i j post, rp_log st = pre ++ JobStart i j :: post ->
     0 <= j /\ (1 <= j -> JobEnd i (j - 1) ∈ pre)).
Proof.
  intros Hp Ht Hr. pose proof (rp_inv_reach thrmax p st Hp Ht Hr) as Hinv.
  pose proof (rp_log_valid_reach thrmax p st Hp Ht Hr) as Hlog.
  pose proof Hinv as (Hn & _ & _ & _ & _ & _ & _ & _ & _ & Hok & _).
  split.
  - intros k t Hk. now destruct (Hok k t Hk) as (_ & _ & He & _).
  - intros pre i j post E.
    assert (Hi : 0 <= i < plan_ntries (rp_plan st)).
    { apply (Hlog (JobStart i j)). rewrite E. apply elem_of_app. right. left. }
    destruct (lookup_lt_is_Some_2 (plan_tries (rp_plan st)) (Z.to_nat i)
                ltac:(lia)) as [t Et].
    destruct (Hok _ _ Et) as (_ & Hc & He & _ & Hb & _).
    rewrite Z2Nat.id in He by lia.
    rewrite E, job_events_split in He by reflexivity.
    destruct (job_history_before i t _ _ j ltac:(lia) Hb (eq_sym He))
      as [H1 H2].
    split; [exact H1|]. intros Hj. specialize (H2 Hj).
    apply list_elem_of_filter in H2. tauto.
Qed.

(** Three tries with two jobs each and four threads: the scheduler starts
    the first job of trie 0, the job ends, the scheduler starts the first
    jobs of the tries 1 and 2 and then the second job of trie 0. *)
Lemma run_plan_job_order_witness :
  exists st, rp_reach 4 (plan_mt 14 1 4 4 3 3) st /\
    rp_log st = [JobStart 0 0; JobEnd 0 0; JobStart 1 0; JobStart 2 0;
                 JobStart 0 1] /\
    JobEnd 0 0 ∈ [JobStart 0 0; JobEnd 0 0; JobStart 1 0; JobStart 2 0].
Proof.
  assert (Hp : plan_fresh (plan_mt 14 1 4 4 3 3)).
  { vm_compute. repeat split. repeat constructor. }
  pose proof (rp_reach_init 4 (plan_mt 14 1 4 4 3 3)) as R.
  eapply rp_reach_step in R;
    [|apply rp_schedule;
      [reflexivity | vm_compute; reflexivity | vm_compute; reflexivity]].
  eapply rp_reach_step in R;
    [|apply (rp_wake 4); [reflexivity | vm_compute; discriminate]].
  eapply rp_reach_step in R;
    [|eapply (rp_job_end 4 _ 0 0);
      [left; discriminate | vm_compute; left | vm_compute; reflexivity]].
  eapply rp_reach_step in R;
    [|apply rp_schedule;
      [reflexivity | vm_compute; reflexivity | vm_compute; reflexivity]].
  eapply rp_reach_step in R;
    [|apply (rp_wake 4); [reflexivity | vm_compute; discriminate]].
  eapply rp_reach_step in R;
    [|apply rp_schedule;
      [reflexivity | vm_compute; reflexivity | vm_compute; reflexivity]].
  eapply rp_reach_step in R;
    [|apply (rp_wake 4); [reflexivity | vm_compute; discriminate]].
  eapply rp_reach_step in R;
    [|apply rp_schedule;
      [reflexivity | vm_compute; reflexivity | vm_compute; reflexivity]].
  match type of R with rp_reach _ _ ?s => exists s end.
  split; [exact R|]. split; [reflexivity|].
  destruct (run_plan_job_order 4 _ _ Hp ltac:(lia) R) as [_ H].
  destruct (H [JobStart 0 0; JobEnd 0 0; JobStart 1 0; JobStart 2 0] 0 1 []
              eq_refl) as [_ H2].
  exact (H2 ltac:(lia)).
Defined.

(** X22: when [run_plan] returns no thread is left, [active] is 0, every
    trie is flagged done with all its jobs started and ended in order, and
    [jobsdone] is the number of jobs of the plan. *)
Theorem run_plan_returns thrmax p st :
  plan_fresh p -> 0 <= thrmax -> rp_reach thrmax p st ->
  rp_pc_of st = RP_RETURNED ->
  rp_threads st = [] /\ plan_active (rp_plan st) = 0 /\
  plan_jobsdone (rp_plan st) = zsum (trie_njobs <$> plan_tries (rp_plan st)) /\
  (forall k t, plan_tries (rp_plan st) !! k = Some t ->
     trie_flag_of t = TRIE_DONE /\ trie_currentjob t = trie_njobs t /\
     job_events (Z.of_nat k) (rp_log st)
     = history (Z.of_nat k) (trie_njobs t)).
Proof.
  intros Hp Ht Hr Hret.
  pose proof (rp_inv_reach thrmax p st Hp Ht Hr) as Hinv.
  pose proof Hinv as (Hn & _ & _ & Ha & Hal & Hnd & Hv & Hd & Hj & Hok & Hpc).
  specialize (Hpc Hret).
  assert (Hall : Forall (fun t => trie_flag_of t = TRIE_DONE)
                   (plan_tries (rp_plan st))).
  { apply (filter_length_all (fun t => trie_flag_of t = TRIE_DONE)).
    pose proof (length_filter (fun t => trie_flag_of t = TRIE_DONE)
                  (plan_tries (rp_plan st))). lia. }
  rewrite Forall_lookup in Hall.
  assert (Hth : rp_threads st = []).
  { destruct (rp_threads st) as [|[i j] l] eqn:E; [reflexivity|exfalso].
    destruct (rp_thread_busy thrmax st i j Hinv) as (t & _ & Et & Ef & _).
    { rewrite E. left. }
    specialize (Hall _ _ Et). congruence. }
  assert (Hact : plan_active (rp_plan st) = 0) by (rewrite Hal, Hth; reflexivity).
  assert (Hfull : forall k t, plan_tries (rp_plan st) !! k = Some t ->
            trie_flag_of t = TRIE_DONE /\ trie_currentjob t = trie_njobs t /\
            job_events (Z.of_nat k) (rp_log st)
            = history (Z.of_nat k) (trie_njobs t)).
  { intros k t Hk. pose proof (Hall _ _ Hk) as Hf.
    destruct (Hok _ _ Hk) as (_ & _ & He & _ & _ & Hdone).
    specialize (Hdone Hf). split; [exact Hf|]. split; [exact Hdone|].
    rewrite He. unfold job_history. now rewrite Hf, Hdone. }
  split; [exact Hth|]. split; [exact Hact|]. split; [|exact Hfull].
  rewrite Hj, Hact, Z.sub_0_r. f_equal. apply list_fmap_ext.
  intros k t Hk. now destruct (Hfull k t Hk) as (_ & -> & _).
Qed.

Lemma run_plan_returns_witness :
  exists st, rp_reach 1 (plan_mt 14 1 4 4 1 2) st /\ rp_pc_of st = RP_RETURNED /\
    rp_threads st = [] /\ plan_active (rp_plan st) = 0 /\
    plan_jobsdone (rp_plan st) = 1.
Proof.
  assert (Hp : plan_fresh (plan_mt 14 1 4 4 1 2)).
  { vm_compute. repeat split. repeat constructor. }
  pose proof (rp_reach_init 1 (plan_mt 14 1 4 4 1 2)) as R.
  eapply rp_reach_step in R;
    [|apply rp_schedule;
      [reflexivity | vm_compute; reflexivity | vm_compute; reflexivity]].
  eapply rp_reach_step in R;
    [|eapply (rp_job_end 1 _ 0 0);
      [right; reflexivity | vm_compute; left | vm_compute; reflexivity]].
  eapply rp_reach_step in R;
    [|apply (rp_wake 1); [reflexivity | vm_compute; discriminate]].
  eapply rp_reach_step in R;
    [|apply rp_schedule;
      [reflexivity | vm_compute; reflexivity | vm_compute; reflexivity]].
  eapply rp_reach_step in R;
    [|apply (rp_wake 1); [reflexivity | vm_compute; discriminate]].
  eapply rp_reach_step in R;
    [|apply (rp_return 1); [reflexivity | vm_compute; discriminate]].
  match type of R with rp_reach _ _ ?s => exists s end.
  split; [exact R|]. split; [reflexivity|].
  destruct (run_plan_returns 1 _ _ Hp ltac:(lia) R eq_refl)
    as (H1 & H2 & H3 & _).
  split; [exact H1|]. split; [exact H2|exact H3].
Defined.



(* ================================================================= *)
(** ** The plan of [plan_mt] and the thread levels of [seqsort] *)

Lemma plan_mt_tries MAX_K tau height med N M k t :
  plan_tries (plan_mt MAX_K tau height med N M) !! k = Some t ->
  trie_flag_of t = TRIE_FREE /\ trie_currentjob t = 0 /\
  trie_njobs t = Z.quot (N + 1) 2 /\
  length (trie_jobs t) = Z.to_nat (Z.quot (N + 1) 2).
Proof.
  unfold plan_mt. simpl. intros E.
  apply list_lookup_fmap_Some in E as (i & -> & _). simpl.
  repeat split. now rewrite length_fmap, zrange_length.
Qed.

(** X24: [plan_mt] leaves a plan with every trie free, no job started, no
    active thread and no job done; the plan has [N * ((N + 1) / 2)] jobs,
    which for an odd [N <= 46340] is the [njobs] computed by
    [run_plan]. *)
Theorem plan_mt_fresh MAX_K tau height med N M :
  0 <= N ->
  let p := plan_mt MAX_K tau height med N M in
  plan_fresh p /\
  zsum (trie_njobs <$> plan_tries p) = N * Z.quot (N + 1) 2 /\
  (Z.odd N = true -> N <= 46340 ->
   zsum (trie_njobs <$> plan_tries p) = run_plan_njobs p).
Proof.
  intros HN p.
  assert (Hq : 0 <= Z.quot (N + 1) 2) by (apply Z.quot_pos; lia).
  assert (Hsum : zsum (trie_njobs <$> plan_tries p) = N * Z.quot (N + 1) 2).
  { subst p. unfold plan_mt. simpl. rewrite <- list_fmap_compose.
    assert (E : (trie_njobs
                 ∘ plan_trie MAX_K (plan_bounds M N) tau height med N)
                <$> zrange N
                = (fun _ => Z.quot (N + 1) 2) <$> zrange N)
      by (apply list_fmap_ext; reflexivity).
    rewrite E, fmap_const_replicate, zsum_replicate, zrange_length. lia. }
  split; [|split; [exact Hsum|]].
  - split; [|split; [reflexivity|split; [reflexivity|]]].
    + subst p. unfold plan_mt. simpl. rewrite length_fmap, zrange_length. lia.
    + apply Forall_lookup. intros k t Hk.
      apply plan_mt_tries in Hk as (H1 & H2 & H3 & H4).
      repeat split; try assumption. rewrite H3, H4. lia.
  - intros Hodd H46. rewrite Hsum. unfold run_plan_njobs. subst p. simpl.
    rewrite wrap_small by (change (2 ^ 31) with 2147483648; nia).
    rewrite !Z.quot_div_nonneg by nia.
    apply Z.odd_spec in Hodd as [m ->].
    replace (2 * m + 1 + 1) with ((m + 1) * 2) by lia.
    rewrite Z.div_mul by lia.
    replace ((2 * m + 1) * ((m + 1) * 2)) with ((2 * m + 1) * (m + 1) * 2)
      by lia.
    now rewrite Z.div_mul by lia.
Qed.

Lemma plan_mt_fresh_witness :
  plan_fresh (plan_mt 14 1 4 4 3 7) /\
  zsum (trie_njobs <$> plan_tries (plan_mt 14 1 4 4 3 7)) = 6.
Proof.
  destruct (plan_mt_fresh 14 1 4 4 3 7 ltac:(lia)) as (H1 & H2 & _).
  split; [exact H1|exact H2].
Defined.

Lemma thread_loop_spec fuel : forall thrmax thread,
  0 <= thread -> 1 <= thrmax < 2 ^ (thread + Z.of_nat fuel) ->
  2 ^ thread <= thrmax ->
  let r := thread_loop fuel thrmax thread in
  thread <= r /\ 2 ^ r <= thrmax < 2 ^ (r + 1).
Proof.
  induction fuel as [|fuel IH]; intros thrmax thread Ht Hb Hlow; simpl.
  - rewrite Z.add_0_r in Hb. lia.
  - rewrite Z.shiftr_div_pow2 by lia.
    assert (Hpos : 0 < 2 ^ (thread + 1)) by (apply Z.pow_pos_nonneg; lia).
    destruct (Z.gtb_spec (thrmax / 2 ^ (thread + 1)) 0) as [Hgt|Hle].
    + assert (2 ^ (thread + 1) <= thrmax).
      { destruct (Z.lt_ge_cases thrmax (2 ^ (thread + 1))) as [Hlt|Hge];
          [|exact Hge].
        rewrite Z.div_small in Hgt by lia. lia. }
      destruct (IH thrmax (thread + 1) ltac:(lia)) as [H1 H2]; [|exact H|].
      * replace (thread + 1 + Z.of_nat fuel)
          with (thread + Z.of_nat (S fuel)) by lia. exact Hb.
      * split; [lia|exact H2].
    + split; [lia|]. split; [exact Hlow|].
      destruct (Z.lt_ge_cases thrmax (2 ^ (thread + 1))) as [Hlt|Hge];
        [exact Hlt|].
      assert (1 <= thrmax / 2 ^ (thread + 1)); [|lia].
      apply Z.div_le_lower_bound; lia.
Qed.

(** X25: for [1 <= thrmax <= INT_MAX] the loop of [seqsort] stops with
    [args.thread] the integer part of the binary logarithm of [thrmax]:
    [2 ^ thread <= thrmax < 2 ^ (thread + 1)], and at most 30. *)
Theorem seqsort_thread_spec thrmax :
  1 <= thrmax <= INT_MAX ->
  let t := seqsort_thread thrmax in
  0 <= t <= 30 /\ 2 ^ t <= thrmax < 2 ^ (t + 1).
Proof.
  intros Ht t. unfold INT_MAX in Ht.
  destruct (thread_loop_spec 31 thrmax 0 ltac:(lia)) as [H1 H2].
  - simpl. lia.
  - simpl. lia.
  - fold (seqsort_thread thrmax) in H1, H2. fold t in H1, H2.
    split; [|exact H2]. split; [lia|].
    destruct (Z.le_gt_cases t 30) as [Hle|Hgt]; [exact Hle|exfalso].
    assert (2 ^ 31 <= 2 ^ t) by (apply Z.pow_le_mono_r; lia).
    change (2 ^ 31) with 2147483648 in *. lia.
Qed.

Lemma seqsort_thread_spec_witness :
  seqsort_thread 6 = 2 /\
  2 ^ seqsort_thread 6 <= 6 < 2 ^ (seqsort_thread 6 + 1).
Proof.
  split; [reflexivity|].
  destruct (seqsort_thread_spec 6) as [_ H]; [unfold INT_MAX; lia|exact H].
Defined.

(* ================================================================= *)
(** ** From [seqsort] to the padded stack *)

(** The records that [seqsort] leaves at the front of [data]. *)
Lemma seqsort_survivors items n data heap :
  counts_nonneg items -> count_sum items <= INT_MAX ->
  seqsort items = Some (n, data, heap) ->
  n = Z.of_nat (length (survivors data heap)) /\
  sorted_seqs (survivors data heap) /\
  (forall s, s ∈ useq_seq <$> survivors data heap <->
             s ∈ useq_seq <$> items).
Proof.
  intros Hnn Hsum E.
  destruct (nukesort_spec items Hnn Hsum (length items) 0 (length items) false
              _ (Nat.le_refl _) (fresh_initial items))
    as (st' & rep & En & (Hl0 & _ & _ & _) & Hsort).
  destruct Hsort
    as (po & O & Hreg & Hin & Hnd & Hrec & Hso & Hnno & Hcs & Hsq & Hfree).
  simpl in Hl0, Hreg, Hcs, Hsq. rewrite length_fmap, length_seq in Hl0.
  unfold region in Hreg. rewrite drop_0, take_ge in Hreg by lia.
  rewrite drop_0, take_ge in Hcs, Hsq by lia.
  assert (Hlen : (length po + rep = length items)%nat).
  { rewrite <- cells_length, <- Hreg. exact Hl0. }
  unfold seqsort in E. rewrite En in E. injection E as <- <- <-.
  rewrite Hreg, (survivors_cells _ _ _ _ Hrec).
  split; [|split; [exact Hso|exact Hsq]].
  rewrite <- (recs_length _ _ _ Hrec). lia.
Qed.

(** X26: [seqsort] followed by [pad_useq], as [starcode] calls them, on
    C strings whose bytes are above the space, leaves a stack of as many
    records as [seqsort] returned, all C strings of the length returned by
    [pad_useq], pairwise distinct and in increasing byte order: what
    [do_query] and [count_trie_nodes] rely on. *)
Theorem starcode_stack_ready items n data heap h med items' :
  counts_nonneg items -> count_sum items <= INT_MAX ->
  (forall u, u ∈ items ->
     is_cstr (useq_seq u) /\ above_space (useq_seq u)) ->
  seqsort items = Some (n, data, heap) ->
  pad_useq (survivors data heap) = Some (h, med, items') ->
  Z.of_nat (length items') = n /\
  (forall k u, items' !! k = Some u ->
     is_cstr (useq_seq u) /\ strlen (useq_seq u) = h) /\
  NoDup (useq_seq <$> items') /\
  StronglySorted lex_lt (useq_seq <$> items').
Proof.
  intros Hnn Hsum Hin Es Ep.
  destruct (seqsort_survivors items n data heap Hnn Hsum Es)
    as (Hn & Hso & Hsq).
  set (us := survivors data heap) in *.
  destruct (pad_useq_inv _ _ _ _ Ep) as (Hne & -> & ->).
  destruct (pad_maxlen_spec us) as (_ & Hmax & _).
  assert (Hus : forall u, u ∈ us ->
            is_cstr (useq_seq u) /\ above_space (useq_seq u)).
  { intros u Hu.
    assert (Hs : useq_seq u ∈ useq_seq <$> items).
    { apply Hsq. apply list_elem_of_fmap. now exists u. }
    apply list_elem_of_fmap in Hs as (v & -> & Hv). now apply Hin. }
  assert (Hsorted : StronglySorted lex_lt
                      (useq_seq <$> (pad_seq (pad_maxlen us) <$> us))).
  { apply pad_seq_sorted; [exact Hmax|exact Hso|]. intros u Hu.
    now apply Hus. }
  split; [rewrite length_fmap; lia|]. split; [|split; [|exact Hsorted]].
  - intros k u Hk. apply list_lookup_fmap_Some in Hk as (v & -> & Hv).
    apply list_elem_of_lookup_2 in Hv.
    split; [|apply pad_seq_length, Hmax, Hv].
    rewrite pad_seq_seq. apply Forall_app. split; [|now apply Hus].
    apply Forall_replicate. discriminate.
  - now apply StronglySorted_lex_lt_NoDup.
Qed.

Lemma starcode_stack_ready_witness :
  exists n data heap h med items',
    seqsort [mk_useq ["A"; "C"; "G"]%char 1 None;
             mk_useq ["A"; "C"]%char 1 None;
             mk_useq ["A"; "C"; "G"]%char 2 None] = Some (n, data, heap) /\
    pad_useq (survivors data heap) = Some (h, med, items') /\
    Z.of_nat (length items') = n /\
    StronglySorted lex_lt (useq_seq <$> items').
Proof.
  set (items := [mk_useq ["A"; "C"; "G"]%char 1 None;
                 mk_useq ["A"; "C"]%char 1 None;
                 mk_useq ["A"; "C"; "G"]%char 2 None]).
  destruct (seqsort items) as [[[n data] heap]|] eqn:E1;
    [|vm_compute in E1; discriminate E1].
  destruct (pad_useq (survivors data heap)) as [[[h med] items']|] eqn:E2.
  2:{ vm_compute in E1. injection E1 as <- <- <-.
      vm_compute in E2. discriminate E2. }
  exists n, data, heap, h, med, items'.
  split; [reflexivity|]. split; [exact E2|].
  destruct (starcode_stack_ready items n data heap h med items')
    as (H1 & _ & _ & H4); [| | |exact E1|exact E2|split; assumption].
  - repeat constructor; discriminate.
  - vm_compute. discriminate.
  - intros u Hu. unfold items in Hu. rewrite !elem_of_cons in Hu.
    destruct Hu as [->|[->|[->|Hu]]]; [| | |inversion Hu];
      (split; [repeat constructor; discriminate
              |repeat constructor; vm_compute; lia]).
Defined.

(* ================================================================= *)
(** ** The records and the counts that [seqsort] leaves *)

(** Two live records hold no more than the heap. *)
Lemma cell_total_pair heap i j x y :
  heap_ok heap -> heap !! i = Some x -> heap !! j = Some y -> i <> j ->
  0 <= cell_total x /\ 0 <= cell_total y /\
  cell_total x + cell_total y <= INT_MAX.
Proof.
  intros [Hnn Hsum] Ei Ej Hij.
  pose proof (proj1 (Forall_lookup _ _) Hnn _ _ Ei) as Hx.
  pose proof (proj1 (Forall_lookup _ _) Hnn _ _ Ej) as Hy.
  split; [exact Hx|]. split; [exact Hy|].
  assert (E1 : <[i := None]> heap !! j = Some y)
    by now rewrite list_lookup_insert_ne.
  pose proof (zsum_fmap_insert cell_total _ _ _ None E1) as H2.
  rewrite (zsum_fmap_insert cell_total heap i x None Ei) in H2.
  assert (H0 : 0 <= zsum (cell_total <$> <[j := None]> (<[i := None]> heap))).
  { apply zsum_nonneg, Forall_fmap.
    apply Forall_insert; [apply Forall_insert; [exact Hnn|]|]; simpl; lia. }
  simpl in H2. lia.
Qed.

Lemma heap_trace_refl heap : heap_trace heap heap.
Proof.
  split; [reflexivity|]. split; [|split; [|reflexivity]].
  - intros p u' E. now exists u'.
  - intros q uq E. left. now exists uq.
Qed.

Lemma heap_trace_freed heap heap' q :
  heap_trace heap heap' -> heap !! q = Some None -> heap' !! q = Some None.
Proof.
  intros (Hlen & HK & _) E.
  destruct (lookup_lt_is_Some_2 heap' q) as [x Ex].
  { rewrite Hlen. eapply lookup_lt_Some, E. }
  destruct x as [u'|]; [|exact Ex].
  destruct (HK _ _ Ex) as (u & Eu & _). congruence.
Qed.

Lemma heap_trace_trans h0 h1 h2 :
  heap_trace h0 h1 -> heap_trace h1 h2 -> heap_trace h0 h2.
Proof.
  intros T1 T2. pose proof T1 as (Hl1 & HK1 & HJ1 & HC1).
  pose proof T2 as (Hl2 & HK2 & HJ2 & HC2).
  split; [congruence|]. split; [|split].
  - intros p u2 E2. destruct (HK2 _ _ E2) as (u1 & E1 & Hs & Hi).
    destruct (HK1 _ _ E1) as (u0 & E0 & Hs' & Hi').
    exists u0. split; [exact E0|]. split; congruence.
  - intros q uq E0.
    (* a live record of [h1] is left or freed into an earlier one *)
    assert (Hstep : forall p u1, h1 !! p = Some (Some u1) ->
              exists p' u2, (p' <= p)%nat /\ h2 !! p' = Some (Some u2) /\
                useq_seq u2 = useq_seq u1 /\
                (p' = p \/ h2 !! p = Some None)).
    { intros p u1 E1. destruct (HJ2 _ _ E1) as [[u2 E2]|(E2 & p' & u2 & Hp & E' & Hs)].
      - exists p, u2. split; [lia|]. split; [exact E2|].
        destruct (HK2 _ _ E2) as (u & Eu & Hs & _).
        split; [congruence|now left].
      - exists p', u2. split; [lia|]. split; [exact E'|]. split; [exact Hs|].
        now right. }
    destruct (HJ1 _ _ E0) as [[u1 E1]|(E1 & p & u1 & Hp & Ep & Hs)].
    + destruct (HK1 _ _ E1) as (u & Eu & Hsu & _).
      assert (u = uq) by congruence. subst u.
      destruct (Hstep _ _ E1) as (p' & u2 & Hp' & E2 & Hs2 & [->|Hfreed]).
      * left. now exists u2.
      * right. split; [exact Hfreed|]. exists p', u2.
        assert (p' <> q) by (intros ->; congruence).
        split; [lia|]. split; [exact E2|]. congruence.
    + right. split; [now apply (heap_trace_freed h1)|].
      destruct (Hstep _ _ Ep) as (p' & u2 & Hp' & E2 & Hs2 & _).
      exists p', u2. split; [lia|]. split; [exact E2|]. congruence.
  - intros s. now rewrite HC2, HC1.
Qed.

(** The merge of two records with the same sequence, lines 577-581. *)
Lemma merge_records_trace heap pl pr ul ur :
  heap_ok heap -> (pl < pr)%nat ->
  heap !! pl = Some (Some ul) -> heap !! pr = Some (Some ur) ->
  useq_seq ul = useq_seq ur ->
  let ul' := {| useq_seq := useq_seq ul;
                useq_count := wrap (useq_count ul + useq_count ur);
                useq_info := useq_info ul |} in
  let heap' := <[pr := None]> (<[pl := Some ul']> heap) in
  heap_trace heap heap' /\ heap_ok heap'.
Proof.
  intros Hok Hlt El Er Hseq ul' heap'.
  destruct (cell_total_pair heap pl pr _ _ Hok El Er ltac:(lia))
    as (Hcl & Hcr & Hsum). simpl in Hcl, Hcr, Hsum.
  assert (Hw : useq_count ul' = useq_count ul + useq_count ur).
  { simpl. apply wrap_small. unfold INT_MAX in Hsum.
    change (2 ^ 31) with 2147483648. lia. }
  assert (Hlpl : (pl < length heap)%nat) by (eapply lookup_lt_Some, El).
  assert (Hlpr : (pr < length heap)%nat) by (eapply lookup_lt_Some, Er).
  assert (Er1 : <[pl := Some ul']> heap !! pr = Some (Some ur))
    by (rewrite list_lookup_insert_ne by lia; exact Er).
  assert (Epl : heap' !! pl = Some (Some ul')).
  { unfold heap'. rewrite list_lookup_insert_ne by lia.
    now apply list_lookup_insert_eq. }
  assert (Epr : heap' !! pr = Some None).
  { unfold heap'. apply list_lookup_insert_eq. now rewrite length_insert. }
  assert (Hother : forall p, p <> pl -> p <> pr -> heap' !! p = heap !! p).
  { intros p H1 H2. unfold heap'. now rewrite !list_lookup_insert_ne by auto. }
  split; [split; [|split; [|split]]|].
  - unfold heap'. now rewrite !length_insert.
  - intros p u' E. destruct (decide (p = pr)) as [->|Hpr]; [congruence|].
    destruct (decide (p = pl)) as [->|Hpl].
    + rewrite Epl in E. injection E as <-. now exists ul.
    + rewrite Hother in E by assumption. now exists u'.
  - intros q uq E. destruct (decide (q = pr)) as [->|Hpr].
    + right. split; [exact Epr|]. exists pl, ul'.
      split; [exact Hlt|]. split; [exact Epl|]. simpl. congruence.
    + left. destruct (decide (q = pl)) as [->|Hpl]; [now exists ul'|].
      exists uq. now rewrite Hother.
  - intros s. unfold heap_count, heap'.
    rewrite (zsum_fmap_insert _ _ _ _ _ Er1), (zsum_fmap_insert _ _ _ _ _ El).
    unfold cell_count. change (useq_seq ul') with (useq_seq ul).
    rewrite <- Hseq, Hw.
    destruct (decide (useq_seq ul = s)); lia.
  - destruct Hok as [Hnn Hs]. unfold heap'. split.
    + apply Forall_insert; [apply Forall_insert; [exact Hnn|]|].
      * unfold cell_total. rewrite Hw. lia.
      * simpl. lia.
    + rewrite (zsum_fmap_insert _ _ _ _ _ Er1),
        (zsum_fmap_insert _ _ _ _ _ El).
      change (cell_total (Some ul')) with (useq_count ul').
      change (cell_total (Some ul)) with (useq_count ul).
      change (cell_total (Some ur)) with (useq_count ur).
      change (cell_total None) with 0. lia.
Qed.

(** The merge loop, on runs whose left pointers are below the right ones. *)
Lemma merge_loop_trace l : forall r heap out heap' reps,
  (forall a b, Some a ∈ l -> Some b ∈ r -> (a < b)%nat) ->
  heap_ok heap ->
  merge_loop l r heap = Some (out, heap', reps) ->
  heap_trace heap heap' /\ heap_ok heap'.
Proof.
  induction l as [|[pl|] l IHl].
  - intros [|[pr|] r] heap out heap' reps _ Hok E.
    + rewrite merge_loop_nil_r in E. injection E as _ <- _.
      split; [apply heap_trace_refl|exact Hok].
    + rewrite merge_loop_nil_l in E. injection E as _ <- _.
      split; [apply heap_trace_refl|exact Hok].
    + rewrite merge_loop_null_r in E. injection E as _ <- _.
      split; [apply heap_trace_refl|exact Hok].
  - intros r. induction r as [|[pr|] r IHr]; intros heap out heap' reps Hord Hok E.
    + rewrite merge_loop_nil_r in E. injection E as _ <- _.
      split; [apply heap_trace_refl|exact Hok].
    + rewrite merge_loop_cons in E.
      destruct (heap !! pl) as [[ul|]|] eqn:El; try discriminate E.
      destruct (heap !! pr) as [[ur|]|] eqn:Er; try discriminate E.
      assert (Hlt : (pl < pr)%nat) by (apply Hord; left).
      pose proof (useq_cmp_spec ul ur) as Hcmp.
      destruct (useq_cmp ul ur).
      * cbv zeta in E.
        destruct (merge_records_trace heap pl pr ul ur Hok Hlt El Er Hcmp)
          as [T1 Hok1]. cbv zeta in T1, Hok1.
        destruct (merge_loop l r _) as [[[out1 h1] reps1]|] eqn:E1;
          [|discriminate E].
        injection E as _ <- _.
        assert (Hord' : forall a b, Some a ∈ l -> Some b ∈ r -> (a < b)%nat).
        { intros a b Ha Hb. apply Hord; now right. }
        destruct (IHl r _ out1 h1 reps1 Hord' Hok1 E1) as [T2 Hok2].
        split; [exact (heap_trace_trans _ _ _ T1 T2)|exact Hok2].
      * destruct (merge_loop l (Some pr :: r) heap) as [[[out1 h1] reps1]|] eqn:E1;
          [|discriminate E].
        injection E as _ <- _.
        apply (IHl (Some pr :: r) heap out1 h1 reps1); [|exact Hok|exact E1].
        intros a b Ha Hb. apply Hord; [now right|exact Hb].
      * destruct (merge_loop (Some pl :: l) r heap) as [[[out1 h1] reps1]|] eqn:E1;
          [|discriminate E].
        injection E as _ <- _.
        apply (IHr heap out1 h1 reps1); [|exact Hok|exact E1].
        intros a b Ha Hb. apply Hord; [exact Ha|now right].
    + rewrite merge_loop_null_r in E. injection E as _ <- _.
      split; [apply heap_trace_refl|exact Hok].
  - intros [|[pr|] r] heap out heap' reps _ Hok E.
    + rewrite merge_loop_nil_r in E. injection E as _ <- _.
      split; [apply heap_trace_refl|exact Hok].
    + rewrite merge_loop_null_l in E. injection E as _ <- _.
      split; [apply heap_trace_refl|exact Hok].
    + rewrite merge_loop_null_r in E. injection E as _ <- _.
      split; [apply heap_trace_refl|exact Hok].
Qed.

Lemma elem_of_cells p ps k : Some p ∈ cells ps k -> p ∈ ps.
Proof.
  unfold cells. rewrite elem_of_app. intros [H|H].
  - apply list_elem_of_fmap in H as (q & [= ->] & Hq). exact Hq.
  - apply elem_of_replicate in H as [H _]. discriminate H.
Qed.

(** [nukesort] on fresh cells. *)
Lemma nukesort_trace items :
  counts_nonneg items -> count_sum items <= INT_MAX ->
  forall fuel off size b st st' rep,
  (size <= fuel)%nat -> fresh items off size st -> heap_ok (ss_heap st) ->
  nukesort fuel off size b st = Some (st', rep) ->
  heap_trace (ss_heap st) (ss_heap st') /\ heap_ok (ss_heap st').
Proof.
  intros Hnn Hsum.
  induction fuel as [|fuel IH]; intros off size b st st' rep Hfuel Hfresh Hok E.
  { rewrite nukesort_leaf in E by lia. injection E as <- _.
    split; [apply heap_trace_refl|exact Hok]. }
  destruct (Nat.lt_ge_cases size 2) as [Hlt|Hge].
  { rewrite nukesort_leaf in E by lia. injection E as <- _.
    split; [apply heap_trace_refl|exact Hok]. }
  destruct (half_sizes size Hge) as (H1 & Hs & Hlt1 & Hlt2).
  rewrite nukesort_eq in E. destruct (Nat.ltb_spec size 2); [lia|].
  set (size1 := (size / 2)%nat) in *.
  set (size2 := (size1 + size mod 2)%nat) in *.
  rewrite <- Hs in Hfresh.
  pose proof (fresh_left _ _ _ _ _ Hfresh) as Hfresh1.
  destruct (nukesort_spec items Hnn Hsum fuel off size1 (negb b) st
              ltac:(lia) Hfresh1) as (st1 & rep1 & E1 & Hout1 & Hsort1).
  pose proof (fresh_right _ _ _ _ _ _ Hfresh Hout1) as Hfresh2.
  destruct (nukesort_spec items Hnn Hsum fuel (off + size1)%nat size2 (negb b)
              st1 ltac:(lia) Hfresh2) as (st2 & rep2 & E2 & Hout2 & Hsort2).
  rewrite E1, E2 in E.
  destruct (IH off size1 (negb b) st st1 rep1 ltac:(lia) Hfresh1 Hok E1)
    as [T1 Hok1].
  destruct (IH (off + size1)%nat size2 (negb b) st1 st2 rep2 ltac:(lia)
              Hfresh2 Hok1 E2) as [T2 Hok2].
  destruct (merge_loop _ _ _) as [[[out heap] reps]|] eqn:Em; [|discriminate E].
  destruct (write_cells _ off out) as [dst1|]; [|discriminate E].
  destruct (write_cells dst1 _ _) as [dst2|]; [|discriminate E].
  injection E as <- _.
  destruct Hsort1 as (po1 & O1 & Hreg1 & Hin1 & _).
  destruct Hsort2 as (po2 & O2 & Hreg2 & Hin2 & _).
  destruct Hout2 as (Hl02 & Hl12 & Hlh2 & Hout2).
  assert (Hl : region (if b then ss_buf0 st2 else ss_buf1 st2) off size1
               = cells po1 rep1).
  { rewrite <- Hreg1.
    destruct b; simpl; apply region_ext; auto;
      intros i Hi; apply Hout2; lia. }
  assert (Hr : region (if b then ss_buf0 st2 else ss_buf1 st2)
                 (off + size1) size2 = cells po2 rep2).
  { rewrite <- Hreg2. now destruct b. }
  rewrite Hl, Hr in Em.
  assert (Hord : forall a b, Some a ∈ cells po1 rep1 ->
            Some b ∈ cells po2 rep2 -> (a < b)%nat).
  { intros a c Ha Hc. apply elem_of_cells, Hin1 in Ha.
    apply elem_of_cells, Hin2 in Hc. lia. }
  destruct (merge_loop_trace _ _ _ _ _ _ Hord Hok2 Em) as [T3 Hok3].
  split.
  - replace (ss_heap (if b then _ else _)) with heap by now destruct b.
    exact (heap_trace_trans _ _ _ (heap_trace_trans _ _ _ T1 T2) T3).
  - replace (ss_heap (if b then _ else _)) with heap by now destruct b.
    exact Hok3.
Qed.

Lemma heap_count_initial s items :
  heap_count s (Some <$> items) = seq_count s items.
Proof.
  unfold heap_count, seq_count.
  induction items as [|x items IH]; [reflexivity|].
  rewrite !fmap_cons, filter_cons. simpl zsum. rewrite IH. simpl.
  destruct (decide (useq_seq x = s)); [now rewrite count_sum_cons|lia].
Qed.

Lemma heap_ok_initial items :
  counts_nonneg items -> count_sum items <= INT_MAX ->
  heap_ok (Some <$> items).
Proof.
  intros Hnn Hsum. split.
  - apply Forall_fmap. exact Hnn.
  - now rewrite <- list_fmap_compose.
Qed.

Lemma zsum_zero l : Forall (fun x => x = 0) l -> zsum l = 0.
Proof. induction 1 as [|x l Hx _ IH]; simpl; lia. Qed.

(** Records with the same sequence behind pointers of a sorted run are one
    record. *)
Lemma recs_unique heap po O p q u w :
  recs heap po O -> NoDup (useq_seq <$> O) ->
  p ∈ po -> q ∈ po ->
  heap !! p = Some (Some u) -> heap !! q = Some (Some w) ->
  useq_seq u = useq_seq w -> p = q.
Proof.
  intros Hrec Hnd Hp Hq Eu Ew Hs.
  apply list_elem_of_lookup_1 in Hp as [i Hi].
  apply list_elem_of_lookup_1 in Hq as [j Hj].
  destruct (Forall2_lookup_l _ _ _ _ _ Hrec Hi) as (u0 & Eu0 & Hu0).
  destruct (Forall2_lookup_l _ _ _ _ _ Hrec Hj) as (w0 & Ew0 & Hw0).
  assert (u0 = u) by congruence. assert (w0 = w) by congruence. subst u0 w0.
  assert (i = j).
  { apply (NoDup_lookup _ i j (useq_seq u) Hnd).
    - now rewrite list_lookup_fmap, Eu0.
    - now rewrite list_lookup_fmap, Ew0, Hs. }
  congruence.
Qed.

(** X27: every record that [seqsort] leaves is the first record of the
    input with its sequence, in its place in the heap: it has the sequence
    and the info of that record, and its count is the sum of the counts of
    all the records of the input with this sequence. *)
Theorem seqsort_first_record items n data heap :
  counts_nonneg items -> count_sum items <= INT_MAX ->
  seqsort items = Some (n, data, heap) ->
  forall u', u' ∈ survivors data heap ->
  exists p v,
    Some p ∈ data /\ heap !! p = Some (Some u') /\ items !! p = Some v /\
    useq_seq u' = useq_seq v /\ useq_info u' = useq_info v /\
    useq_count u' = seq_count (useq_seq v) items /\
    (forall q w, items !! q = Some w -> useq_seq w = useq_seq v ->
       (p <= q)%nat).
Proof.
  intros Hnn Hsum E u' Hu'.
  destruct (nukesort_spec items Hnn Hsum (length items) 0 (length items) false
              _ (Nat.le_refl _) (fresh_initial items))
    as (st' & rep & En & (Hl0 & _ & Hlh & _) & Hsort).
  destruct (nukesort_trace items Hnn Hsum _ _ _ _ _ _ _ (Nat.le_refl _)
              (fresh_initial items) (heap_ok_initial _ Hnn Hsum) En)
    as [(_ & HK & HJ & HC) _].
  destruct Hsort
    as (po & O & Hreg & Hin & Hnd & Hrec & Hso & Hnno & Hcs & Hsq & Hfree).
  simpl in Hl0, Hlh, Hreg, HK, HJ, HC.
  rewrite length_fmap, length_seq in Hl0. rewrite length_fmap in Hlh.
  unfold region in Hreg. rewrite drop_0, take_ge in Hreg by lia.
  unfold seqsort in E. rewrite En in E. injection E as <- <- <-.
  rewrite Hreg, (survivors_cells _ _ _ _ Hrec) in Hu'. rewrite Hreg.
  pose proof (sorted_seqs_NoDup _ Hso) as HndO.
  (* a live record is one of the records left *)
  assert (Hlive : forall q w, ss_heap st' !! q = Some (Some w) -> q ∈ po).
  { intros q w Eq. destruct (decide (q ∈ po)) as [Hq|Hq]; [exact Hq|exfalso].
    apply lookup_lt_Some in Eq as Hlt.
    rewrite (Hfree q) in Eq by (lia || exact Hq). discriminate Eq. }
  apply list_elem_of_lookup_1 in Hu' as [i Hi].
  destruct (Forall2_lookup_r _ _ _ _ _ Hrec Hi) as (p & Ep & Hp).
  apply list_elem_of_lookup_2 in Ep as Hpo.
  destruct (HK _ _ Hp) as (v & Ev & Hs & Hinfo).
  rewrite list_lookup_fmap in Ev.
  destruct (items !! p) as [v'|] eqn:Ev'; [|discriminate Ev].
  injection Ev as ->.
  exists p, v. split.
  { unfold cells. apply elem_of_app. left. apply list_elem_of_fmap. now exists p. }
  split; [exact Hp|]. split; [exact Ev'|]. split; [exact Hs|].
  split; [exact Hinfo|]. split.
  - rewrite <- heap_count_initial, <- HC. unfold heap_count.
    pose proof (zsum_fmap_insert (cell_count (useq_seq v)) _ _ _ None Hp) as Hz.
    rewrite zsum_zero in Hz.
    + simpl in Hz. destruct (decide (useq_seq u' = useq_seq v)); [lia|].
      contradiction.
    + apply Forall_fmap, Forall_lookup. intros q x Eq.
      destruct (decide (q = p)) as [->|Hqp].
      * rewrite list_lookup_insert_eq in Eq by (eapply lookup_lt_Some, Hp).
        now injection Eq as <-.
      * rewrite list_lookup_insert_ne in Eq by auto.
        destruct x as [w|]; [|reflexivity]. simpl.
        destruct (decide (useq_seq w = useq_seq v)) as [Hw|]; [|reflexivity].
        exfalso. apply Hqp.
        apply (recs_unique _ _ _ _ _ w u' Hrec HndO);
          [now apply (Hlive q w)|exact Hpo|exact Eq|exact Hp|congruence].
  - intros q w Eq Hw.
    assert (Eq' : (Some <$> items) !! q = Some (Some w))
      by now rewrite list_lookup_fmap, Eq.
    destruct (HJ _ _ Eq') as [[u'' Eu]|(_ & p' & u'' & Hlt & Eu & Hs')].
    + destruct (HK _ _ Eu) as (w' & Ew' & Hs' & _).
      assert (w' = w) by congruence. subst w'.
      assert (p = q); [|lia].
      apply (recs_unique _ _ _ _ _ u' u'' Hrec HndO);
        [exact Hpo|now apply (Hlive q u'')|exact Hp|exact Eu|congruence].
    + assert (p = p'); [|lia].
      apply (recs_unique _ _ _ _ _ u' u'' Hrec HndO);
        [exact Hpo|now apply (Hlive p' u'')|exact Hp|exact Eu|congruence].
Qed.

Lemma seqsort_first_record_witness :
  exists n data heap,
    seqsort [mk_useq ["C"; "A"]%char 1 (Some ["x"]%char);
             mk_useq ["A"]%char 2 None;
             mk_useq ["C"; "A"]%char 3 (Some ["y"]%char)]
    = Some (n, data, heap) /\
    survivors data heap
    = [mk_useq ["A"]%char 2 None;
       mk_useq ["C"; "A"]%char 4 (Some ["x"]%char)] /\
    forall u', u' ∈ survivors data heap ->
      useq_count u'
      = seq_count (useq_seq u')
          [mk_useq ["C"; "A"]%char 1 (Some ["x"]%char);
           mk_useq ["A"]%char 2 None;
           mk_useq ["C"; "A"]%char 3 (Some ["y"]%char)].
Proof.
  do 3 eexists. split; [vm_compute; reflexivity|].
  split; [vm_compute; reflexivity|].
  intros u' Hu'.
  edestruct (seqsort_first_record
               [mk_useq ["C"; "A"]%char 1 (Some ["x"]%char);
                mk_useq ["A"]%char 2 None;
                mk_useq ["C"; "A"]%char 3 (Some ["y"]%char)])
    as (p & v & _ & _ & _ & Hs & _ & Hc & _); [| | |exact Hu'|].
  - repeat constructor; discriminate.
  - vm_compute. discriminate.
  - vm_compute. reflexivity.
  - rewrite Hs. exact Hc.
Defined.

(* ================================================================= *)
(** ** The jobs of [starcode] *)

Lemma starcode_ntries_range nitems thrmax :
  1 <= nitems -> 1 <= thrmax <= 715827882 ->
  1 <= fst (starcode_ntries nitems thrmax) <= nitems.
Proof.
  intros Hn Ht. unfold starcode_ntries. rewrite ntries_formula by lia.
  destruct (Z.ltb_spec nitems (3 * thrmax + (if Z.even thrmax then 1 else 0)));
    simpl; [lia|].
  destruct (Z.even thrmax); lia.
Qed.

(** The median set by [pad_useq] is a length of the stack. *)
Lemma median_in_range items maxlen median items' :
  pad_useq items = Some (maxlen, median, items') -> 1 <= median <= maxlen.
Proof.
  unfold pad_useq. intros E.
  destruct (pad_maxlen_spec items) as (Hm0 & _ & _).
  pose proof (median_loop_gen items (pad_count (pad_maxlen items) items)
                (pad_maxlen items) (Z.quot (Z.of_nat (length items)) 2)
                (Z.to_nat (pad_maxlen items)) 0 0 Hm0 (pad_count_length _ _)
                (fun l Hl => pad_count_lookup (pad_maxlen items) items l Hl Hm0)
                ltac:(lia) ltac:(lia)) as Hloop.
  change (Z.to_nat 0) with 0%nat in Hloop.
  destruct (median_loop _ _ _ _) as [m|]; [|discriminate E].
  injection E as <- <- <-.
  destruct Hloop as (H1 & _).
  - unfold count_upto. rewrite count_le_0. lia.
  - intros; lia.
  - lia.
Qed.

(** X28: in [starcode], after [seqsort] and [pad_useq] on C strings whose
    bytes are above the space, every job of the plan built for the number
    of tries chosen ranges over a non-empty block of the padded stack, and
    a worker that runs it with the filter of the plan, whatever sequences
    of the padded length were put into it, reads nothing out of bounds. *)
Theorem starcode_jobs_in_bounds
    (trie : Type) (insert_string_wo_malloc : trie -> cstr -> option trie)
    (set_data : trie -> useq -> trie)
    (search : trie -> cstr -> Z -> Z -> Z -> option (Z -> list useq))
    (pe_fastq : bool) (MAX_K tau thrmax : Z) (items : list useq)
    n data heap h med items' i j job l lut (t : trie) :
  counts_nonneg items -> count_sum items <= INT_MAX ->
  (forall u, u ∈ items ->
     is_cstr (useq_seq u) /\ above_space (useq_seq u)) ->
  seqsort items = Some (n, data, heap) ->
  pad_useq (survivors data heap) = Some (h, med, items') ->
  0 <= tau -> MAX_K <= 15 -> 1 <= thrmax <= 715827882 ->
  plan_job_at (plan_mt MAX_K tau h med (fst (starcode_ntries n thrmax)) n) i j
  = Some job ->
  Forall (fun s => is_cstr s /\ strlen s = h) l ->
  lut_insert_all (new_lookup MAX_K med h tau) l = Some lut ->
  0 <= job_start job <= job_end job /\
  job_end job < Z.of_nat (length items') /\
  snd (do_query trie insert_string_wo_malloc set_data search pe_fastq
         job items' lut t) <> DQ_UNDEF.
Proof.
  intros Hnn Hsum Hin Es Ep Htau HK Hthr Ej Hl El.
  destruct (seqsort_survivors items n data heap Hnn Hsum Es)
    as (Hn & Hso & Hsq).
  pose proof (median_in_range _ _ _ _ Ep) as Hmed.
  set (us := survivors data heap) in *.
  destruct (pad_useq_inv _ _ _ _ Ep) as (Hne & -> & ->).
  destruct (pad_maxlen_spec us) as (_ & Hmax & _).
  set (h := pad_maxlen us) in *.
  assert (Hn1 : 1 <= n).
  { destruct us; [congruence|]. simpl in Hn. lia. }
  assert (Hus : forall u, u ∈ us ->
            is_cstr (useq_seq u) /\ above_space (useq_seq u)).
  { intros u Hu.
    assert (Hs : useq_seq u ∈ useq_seq <$> items).
    { apply Hsq. apply list_elem_of_fmap. now exists u. }
    apply list_elem_of_fmap in Hs as (v & -> & Hv). now apply Hin. }
  (* the stack *)
  assert (Hpad : forall k u, (pad_seq h <$> us) !! k = Some u ->
            is_cstr (useq_seq u) /\ strlen (useq_seq u) = h).
  { intros k u Hk. apply list_lookup_fmap_Some in Hk as (v & -> & Hv).
    apply list_elem_of_lookup_2 in Hv.
    split; [|apply pad_seq_length, Hmax, Hv].
    rewrite pad_seq_seq. apply Forall_app. split; [|now apply Hus].
    apply Forall_replicate. discriminate. }
  assert (Hdist : NoDup (useq_seq <$> (pad_seq h <$> us))).
  { apply StronglySorted_lex_lt_NoDup, pad_seq_sorted;
      [exact Hmax|exact Hso|]. intros u Hu. now apply Hus. }
  (* the job *)
  pose proof (starcode_ntries_range n thrmax Hn1 Hthr) as Hnt.
  set (ntries := fst (starcode_ntries n thrmax)) in *.
  destruct (plan_job_at_inv MAX_K tau h med ntries n ltac:(lia) i j job Ej)
    as (Hi & Hj & ->).
  pose proof (njobs_le ntries ltac:(lia)) as Hh.
  destruct (plan_job_range tau ntries n ltac:(lia) ltac:(lia) i j Hi
              ltac:(lia)) as (G1 & G2 & G3 & G4).
  specialize (G4 ltac:(lia)).
  set (job := plan_job (plan_bounds n ntries) tau ntries i j) in *.
  assert (Hend : job_end job < Z.of_nat (length (pad_seq h <$> us)))
    by (rewrite length_fmap; lia).
  split; [lia|]. split; [exact Hend|].
  (* the filter *)
  destruct (lut_insert_all_fitting l (new_lookup MAX_K med h tau) h)
    as (L' & EL' & Hwf & Hs1 & Hs2 & Hs3 & _);
    [apply new_lookup_wf; lia|apply new_lookup_fits; lia|exact Hl|].
  assert (L' = lut) by congruence. subst L'.
  assert (Hfit : lut_fits lut h).
  { apply (lut_fits_same (new_lookup MAX_K med h tau)); try assumption.
    apply new_lookup_fits; lia. }
  (* the worker *)
  unfold do_query.
  destruct (do_query_loop _ _ _ _ _ _ _ _ _) as [st status] eqn:Er. simpl.
  replace (job_end job - job_start job + 1)
    with (Z.of_nat (Z.to_nat (job_end job - job_start job + 1))) in Er
    by lia.
  apply (do_query_loop_inv trie insert_string_wo_malloc set_data search
           pe_fastq h _ job Hpad Hdist Hend) in Er; try lia.
  - now destruct Er as [Hs _].
  - split_inv; try assumption.
    + intros last [=].
    + intros c Hc. inversion Hc.
Qed.

Lemma starcode_jobs_in_bounds_witness :
  exists n data heap h med items' job,
    seqsort [mk_useq ["A"; "C"; "G"]%char 1 None;
             mk_useq ["A"; "C"]%char 1 None;
             mk_useq ["A"; "C"; "G"]%char 2 None] = Some (n, data, heap) /\
    pad_useq (survivors data heap) = Some (h, med, items') /\
    plan_job_at (plan_mt 14 1 h med (fst (starcode_ntries n 1)) n) 0 0
    = Some job /\
    snd (do_query unit (fun _ _ => Some tt) (fun _ _ => tt)
           (fun _ _ _ _ _ => Some (fun _ => [])) false
           job items' (new_lookup 14 med h 1) tt) <> DQ_UNDEF.
Proof.
  do 7 eexists.
  split; [vm_compute; reflexivity|]. split; [vm_compute; reflexivity|].
  split; [vm_compute; reflexivity|].
  eapply proj2, proj2.
  eapply (starcode_jobs_in_bounds unit (fun _ _ => Some tt) (fun _ _ => tt)
            (fun _ _ _ _ _ => Some (fun _ => [])) false 14 1 1
            [mk_useq ["A"; "C"; "G"]%char 1 None;
             mk_useq ["A"; "C"]%char 1 None;
             mk_useq ["A"; "C"; "G"]%char 2 None])
    with (i := 0) (j := 0) (l := []).
  - repeat constructor; discriminate.
  - vm_compute. discriminate.
  - intros u Hu. rewrite !elem_of_cons in Hu.
    destruct Hu as [->|[->|[->|Hu]]]; [| | |inversion Hu];
      (split; [repeat constructor; discriminate
              |repeat constructor; vm_compute; lia]).
  - vm_compute. reflexivity.
  - vm_compute. reflexivity.
  - lia.
  - lia.
  - lia.
  - vm_compute. reflexivity.
  - constructor.
  - reflexivity.
Defined.

(* ================================================================= *)
(** ** The node counts of [plan_mt] *)

(** X29: the calls of [count_trie_nodes] in [plan_mt], lines 351-353, on a
    stack of pairwise distinct C strings of one length [h >= 1]: with at
    least as many records as tries every call reads inside the stack and
    returns a count between [h - 1] and the size of the block times
    [h - 1]; with fewer records than tries the call for the last block
    reads the record after the last one. *)
Theorem plan_mt_node_counts items N h :
  (forall k u, items !! k = Some u ->
     is_cstr (useq_seq u) /\ strlen (useq_seq u) = h) ->
  NoDup (useq_seq <$> items) -> 1 <= h -> 0 < N ->
  let M := Z.of_nat (length items) in
  let bounds := plan_bounds M N in
  (N <= M -> forall i, 0 <= i < N ->
     exists c,
       count_trie_nodes items (znth bounds i) (znth bounds (i + 1)) = Some c /\
       h - 1 <= c <= (znth bounds (i + 1) - znth bounds i) * (h - 1)) /\
  (M < N ->
   count_trie_nodes items (znth bounds (N - 1)) (znth bounds N) = None).
Proof.
  intros Hpad Hdist Hh HN M bounds. split.
  - intros HNM i Hi.
    destruct (plan_bounds_step N M HN ltac:(lia) i Hi) as (H0 & [H1 H2] & H3).
    specialize (H3 HNM). fold bounds in H0, H1, H2, H3.
    set (start := znth bounds i) in *. set (stop := znth bounds (i + 1)) in *.
    destruct (block_cons items start stop ltac:(lia) ltac:(lia))
      as (a & rest & Eb & Ea & Hlen & Hdrop).
    assert (Hsub : sublist (a :: rest) items).
    { rewrite <- Eb. unfold block.
      etransitivity; [apply sublist_take|apply sublist_drop]. }
    assert (Hnd : NoDup (useq_seq <$> a :: rest)).
    { apply (sublist_NoDup _ (useq_seq <$> items)); [exact Hdist|].
      now apply fmap_sublist. }
    assert (Hall : Forall (fun s => is_cstr s /\ length s = Z.to_nat h)
                     (useq_seq <$> a :: rest)).
    { apply Forall_fmap, Forall_forall. intros u Hu.
      assert (Hin : u ∈ items) by (eapply elem_of_sublist; eauto).
      apply list_elem_of_lookup_1 in Hin as [k Hk].
      destruct (Hpad k u Hk) as [Hc Hl]. split; [exact Hc|].
      unfold strlen in Hl. simpl. lia. }
    unfold count_trie_nodes. destruct (Z.ltb_spec start 0); [lia|].
    rewrite Ea.
    destruct (Hpad _ _ Ea) as [_ Hla]. rewrite Hla, <- Hlen.
    rewrite (count_loop_block items (h - 1) (Z.to_nat h) rest start a _ _
               ltac:(lia) Hdrop Hnd Hall).
    eexists. split; [reflexivity|].
    destruct (node_sum_bounds (Z.to_nat h) _ Hnd Hall) as [Hb|Hb];
      [|discriminate].
    rewrite length_fmap, length_cons in Hb.
    replace (Z.of_nat (Z.to_nat h)) with h in Hb by lia. nia.
  - intros HMN.
    assert (E : znth bounds (N - 1) = M).
    { unfold bounds. rewrite plan_bounds_nth by lia.
      rewrite Z.quot_small, Z.rem_small by lia. lia. }
    rewrite E. unfold count_trie_nodes.
    destruct (Z.ltb_spec M 0); [reflexivity|].
    rewrite lookup_ge_None_2; [reflexivity|]. lia.
Qed.

Lemma plan_mt_node_counts_witness :
  let items := [mk_useq ["A"; "A"; "C"]%char 1 None;
                mk_useq ["A"; "C"; "A"]%char 1 None;
                mk_useq ["A"; "C"; "G"]%char 1 None] in
  (exists c, count_trie_nodes items (znth (plan_bounds 3 1) 0)
               (znth (plan_bounds 3 1) 1) = Some c /\ 2 <= c <= 6) /\
  count_trie_nodes items (znth (plan_bounds 3 5) 4) (znth (plan_bounds 3 5) 5)
  = None.
Proof.
  intros items.
  assert (Hpad : forall k u, items !! k = Some u ->
            is_cstr (useq_seq u) /\ strlen (useq_seq u) = 3).
  { intros k u E. destruct k as [|[|[|k]]]; simpl in E; inversion E; subst;
      (split; [repeat constructor; discriminate | reflexivity]). }
  assert (Hnd : NoDup (useq_seq <$> items)).
  { apply NoDup_cons. split; [|apply NoDup_cons; split; [|apply NoDup_singleton]].
    - rewrite !not_elem_of_cons. split; [discriminate|].
      split; [discriminate|apply not_elem_of_nil].
    - rewrite !not_elem_of_cons. split; [discriminate|apply not_elem_of_nil]. }
  split.
  - destruct (plan_mt_node_counts items 1 3 Hpad Hnd ltac:(lia) ltac:(lia))
      as [H _].
    destruct (H ltac:(simpl; lia) 0 ltac:(lia)) as (c & E & Hc).
    exists c. split; [exact E|]. vm_compute in Hc |- *. exact Hc.
  - destruct (plan_mt_node_counts items 5 3 Hpad Hnd ltac:(lia) ltac:(lia))
      as [_ H].
    apply H. simpl. lia.
Defined.
